(** * pymusicxml: rhythmic notation resolution

    A shallow embedding of the core of [pymusicxml/music_xml_objects.py]
    and [pymusicxml/_utilities.py]: the note-type/dot decomposition of
    [Duration], the beam engine of [BeamedGroup], tuplet bookkeeping of
    [Tuplet], the assembly of a [Measure] (divisions, voices, backup and
    forward), and the slur renumbering of [Part].

    Conventions.
    - Python [float] lengths are modelled by exact rationals [Q].  Every
      length the library builds from the note-type ladder and the dot
      multipliers is a dyadic rational that a double represents exactly;
      a tuplet-adjusted length, which a double rounds, is kept exact.
    - Python [int] is [Z]; counters that only grow from a literal are [nat].
    - A [dict] used as a map is a [gmap]; a [list] is a [list].
    - A method that mutates its object returns the new object; a method
      that can raise returns a [result]. *)

From Stdlib Require Import ZArith QArith Qround Lia Sorted.
From stdpp Require Import gmap list strings.

Local Open Scope Z_scope.

(** ** Exceptions and results *)

Inductive PyExn : Type :=
  | IndexError
  | ValueError
  | ZeroDivisionError.

Inductive result (A : Type) : Type :=
  | Ok (a : A)
  | Raise (e : PyExn).

Arguments Ok {A} a.
Arguments Raise {A} e.

(** Sequencing of calls that can raise: the first exception propagates. *)
Global Instance result_ret : MRet result := fun _ a => Ok a.
Global Instance result_bind : MBind result := fun _ _ k r =>
  match r with
  | Ok a => k a
  | Raise e => Raise e
  end.

Global Instance result_fmap : FMap result := fun _ _ f r =>
  match r with
  | Ok a => Ok (f a)
  | Raise e => Raise e
  end.

Definition is_ok {A : Type} (r : result A) : bool :=
  match r with Ok _ => true | Raise _ => false end.

(** ** [_utilities.py] *)

(** [math.gcd] is non-negative; [//] is floor division. *)
Definition lcm2 (a b : Z) : Z := a * b / Z.gcd a b.

(** [_least_common_multiple] over its argument list: no argument gives 1, one argument is
    returned as it is, otherwise the first is combined with the multiple of
    the rest. *)
Fixpoint _least_common_multiple (args : list Z) : Z :=
  match args with
  | [] => 1
  | [a] => a
  | a :: rest => lcm2 a (_least_common_multiple rest)
  end.

(** ** [MusicXMLContainer] *)

(** Python's [list.__getitem__] at an integer index: negative indices count
    from the end, anything out of range raises [IndexError]. *)
Definition list_getitem {A : Type} (l : list A) (i : Z) : result A :=
  let n := Z.of_nat (length l) in
  let j := if i <? 0 then i + n else i in
  if (j <? 0) || (n <=? j) then Raise IndexError
  else match l !! Z.to_nat j with
       | Some x => Ok x
       | None => Raise IndexError
       end.

Section Container.
Context {A : Type}.

(** [contents] of a container; [allowed_types] only guards construction
    and [insert] and is left out. *)
Record MusicXMLContainer : Type := mkContainer { contents : list A }.

(** [__getitem__]: the body is the expression statement
    [self.contents.__getitem__(i)], with no [return]: the access is
    evaluated (and may raise), its value is dropped, and the method
    returns [None].  The returned pair is the value and the container
    after the call. *)
Definition __getitem__ (self : MusicXMLContainer) (i : Z)
  : result (option A * MusicXMLContainer) :=
  _ ← list_getitem (contents self) i;
  Ok (None, self).

Definition __len__ (self : MusicXMLContainer) : Z :=
  Z.of_nat (length (contents self)).
End Container.

Arguments MusicXMLContainer A : clear implicits.

(** ** [Duration]: the note-type ladder *)

Inductive NoteType : Type :=
  | breve | whole | half | quarter | eighth
  | n16th | n32nd | n64th | n128th | n256th | n512th | n1024th.

Global Instance NoteType_eq_dec : EqDecision NoteType.
Proof. solve_decision. Defined.

(** [Duration._length_to_note_type], in the order of the dict literal. *)
Definition _length_to_note_type : list (Q * NoteType) :=
  [ (8 # 1, breve); (4 # 1, whole); (2 # 1, half); (1 # 1, quarter);
    (1 # 2, eighth); (1 # 4, n16th); (1 # 8, n32nd); (1 # 16, n64th);
    (1 # 32, n128th); (1 # 64, n256th); (1 # 128, n512th);
    (1 # 256, n1024th) ]%Q.

(** [x in d] and [d[x]] on the ladder: keys are compared as numbers. *)
Definition ladder_lookup (x : Q) : option NoteType :=
  snd <$> find (fun e => Qeq_bool (fst e) x) _length_to_note_type.

(** [Duration._note_type_to_length] *)
Definition _note_type_to_length (t : NoteType) : Q :=
  match t with
  | breve => 8 # 1 | whole => 4 # 1 | half => 2 # 1 | quarter => 1 # 1
  | eighth => 1 # 2 | n16th => 1 # 4 | n32nd => 1 # 8 | n64th => 1 # 16
  | n128th => 1 # 32 | n256th => 1 # 64 | n512th => 1 # 128
  | n1024th => 1 # 256
  end%Q.

(** [Duration._note_type_to_num_beams] *)
Definition _note_type_to_num_beams (t : NoteType) : nat :=
  match t with
  | breve | whole | half | quarter => 0
  | eighth => 1 | n16th => 2 | n32nd => 3 | n64th => 4
  | n128th => 5 | n256th => 6 | n512th => 7 | n1024th => 8
  end%nat.

(** [Duration._dot_multiplier]: [(2.0 ** (num_dots + 1) - 1) / 2.0 ** num_dots],
    as a rational.  It is the double of the code up to 52 dots; from 53
    dots on the double is 2.0.  The library builds no more than four
    dots. *)
Definition _dot_multiplier (num_dots : nat) : Q :=
  (inject_Z (2 ^ Z.of_nat (S num_dots) - 1) / inject_Z (2 ^ Z.of_nat num_dots))%Q.

(** The [while] loop of [get_note_type_and_number_of_dots].  One call is one
    evaluation of the loop condition followed, when it holds, by one run of
    the body; [fuel] bounds the number of further iterations and [None]
    means that the bound was reached. *)
Fixpoint dots_loop (fuel : nat) (length : Q) (max_dots_allowed : Z)
    (dots : nat) (dots_multiplier : Q) : option (result (NoteType * nat)) :=
  match ladder_lookup (length / dots_multiplier) with
  | Some t => Some (Ok (t, dots))
  | None =>
      let dots := S dots in
      let dots_multiplier :=
        (inject_Z (2 ^ Z.of_nat (S dots) - 1) / inject_Z (2 ^ Z.of_nat dots))%Q in
      if Z.of_nat dots >? max_dots_allowed then Some (Raise ValueError)
      else match fuel with
           | O => None
           | S fuel => dots_loop fuel length max_dots_allowed dots dots_multiplier
           end
  end.

(** [Duration.get_note_type_and_number_of_dots(length, max_dots_allowed)] *)
Definition get_note_type_and_number_of_dots_fuel (fuel : nat) (length : Q)
    (max_dots_allowed : Z) : option (result (NoteType * nat)) :=
  match ladder_lookup length with
  | Some t => Some (Ok (t, 0%nat))
  | None => dots_loop fuel length max_dots_allowed 1%nat (3 # 2)%Q
  end.

(** The loop body runs at most [max_dots_allowed] times. *)
Definition get_note_type_and_number_of_dots (length : Q) (max_dots_allowed : Z)
  : option (result (NoteType * nat)) :=
  get_note_type_and_number_of_dots_fuel (Z.to_nat max_dots_allowed) length
    max_dots_allowed.

(** ** Numbers *)

(** Python 3 [round(x)] on a float: nearest integer, a tie goes to the even
    neighbour. *)
Definition py_round (x : Q) : Z :=
  let f := Qfloor x in
  match (x - inject_Z f ?= 1 # 2)%Q with
  | Lt => f
  | Gt => f + 1
  | Eq => if Z.even f then f else f + 1
  end.

(** Python's [fractions.Fraction.limit_denominator] (standard library):
    the closest fraction with denominator at most [max_denominator], by the
    continued-fraction convergents of the argument.  [cf_loop] is its
    [while True] loop; the state is [(p0, q0, p1, q1, n, d)] and the loop
    leaves when the next denominator [q2] passes the bound, which happens
    within the number of partial quotients of the argument; [fuel] is set
    well above it. *)
Fixpoint cf_loop (fuel : nat) (max_denominator p0 q0 p1 q1 n d : Z)
  : Z * Z * Z * Z * Z :=
  let a := n / d in
  let q2 := q0 + a * q1 in
  if q2 >? max_denominator then (p0, q0, p1, q1, d)
  else match fuel with
       | O => (p0, q0, p1, q1, d)
       | S fuel =>
           cf_loop fuel max_denominator p1 q1 (p0 + a * p1) q2 d (n - a * d)
       end.

Definition limit_denominator (x : Q) (max_denominator : Z) : Q :=
  let x := Qred x in
  let numerator := Qnum x in
  let denominator := Z.pos (Qden x) in
  if denominator <=? max_denominator then x
  else
    let '(p0, q0, p1, q1, d) :=
      cf_loop (3 * Pos.size_nat (Qden x) + 3) max_denominator 0 1 1 0
        numerator denominator in
    let k := (max_denominator - q0) / q1 in
    if 2 * d * (q0 + k * q1) <=? denominator
    then Qred (Qmake p1 (Z.to_pos q1))
    else Qred (Qmake (p0 + k * p1) (Z.to_pos (q0 + k * q1))).

(** [Fraction(x).limit_denominator(n).denominator] *)
Definition limited_denominator (x : Q) (max_denominator : Z) : Z :=
  Z.pos (Qden (limit_denominator x max_denominator)).

(** ** [Pitch], [Duration], [BarRestDuration] *)

Record Pitch : Type := mkPitch {
  step : string;
  octave : Z;
  alteration : Q
}.

(** A tuplet ratio [(actual, normal)] or [(actual, normal, note type)]. *)
Record TupletRatio : Type := mkRatio {
  actual_notes : positive;
  normal_notes : positive;
  normal_type : option Q
}.

Module Duration.
Record t : Type := mk {
  note_type : NoteType;
  num_dots : nat;
  tuplet_ratio : option TupletRatio;
  _divisions : Z
}.

Definition written_length (self : t) : Q :=
  (_note_type_to_length (note_type self) * _dot_multiplier (num_dots self))%Q.

Definition true_length (self : t) : Q :=
  let tuplet_modification :=
    match tuplet_ratio self with
    | None => 1%Q
    | Some r => (Z.pos (normal_notes r) # actual_notes r)%Q
    end in
  (written_length self * tuplet_modification)%Q.

Definition min_denominator (self : t) : Z :=
  limited_denominator (true_length self) 1000000.

Definition length_in_divisions (self : t) : Z :=
  py_round (true_length self * inject_Z (_divisions self)).

Definition num_beams (self : t) : nat :=
  _note_type_to_num_beams (note_type self).

Definition set_divisions (self : t) (value : Z) : t :=
  {| note_type := note_type self; num_dots := num_dots self;
     tuplet_ratio := tuplet_ratio self; _divisions := value |}.

Definition set_tuplet_ratio (self : t) (value : option TupletRatio) : t :=
  {| note_type := note_type self; num_dots := num_dots self;
     tuplet_ratio := value; _divisions := _divisions self |}.

(** [Duration.__init__] *)
Definition init (note_type : NoteType) (num_dots : nat)
    (tuplet_ratio : option TupletRatio) : t :=
  let d := mk note_type num_dots tuplet_ratio 1 in
  set_divisions d (limited_denominator (true_length d) 1000000).
End Duration.

Module BarRestDuration.
Record t : Type := mk { length : Q; _divisions : Z }.

Definition written_length (self : t) : Q := length self.
Definition true_length (self : t) : Q := length self.
Definition min_denominator (self : t) : Z := 1.
Definition length_in_divisions (self : t) : Z :=
  py_round (true_length self * inject_Z (_divisions self)).
Definition set_divisions (self : t) (value : Z) : t :=
  {| length := length self; _divisions := value |}.
Definition init (length : Q) : t :=
  mk length (limited_denominator length 1000000).
End BarRestDuration.

(** ** Notes, rests and chords *)

Inductive TieType : Type := TieStart | TieContinue | TieStop.

(** Values of [tuplet_bracket]: ["start"], ["stop"], ["both"]. *)
Inductive BracketType : Type := BracketStart | BracketStop | BracketBoth.

(** Values of the [beams] dict: ["begin"], ["continue"], ["end"],
    ["forward hook"], ["backward hook"]. *)
Inductive BeamType : Type :=
  | BeamBegin | BeamContinue | BeamEnd | ForwardHook | BackwardHook.

Global Instance BeamType_eq_dec : EqDecision BeamType.
Proof. solve_decision. Defined.

(** ["hook" in beam_value] *)
Definition hook_in (beam_value : BeamType) : bool :=
  match beam_value with
  | ForwardHook | BackwardHook => true
  | BeamBegin | BeamContinue | BeamEnd => false
  end.

(** A slur id is "allowed to be anything (including, for instance, a
    string)". *)
Inductive SlurId : Type :=
  | IdInt (n : Z)
  | IdStr (s : string).

Global Instance SlurId_eq_dec : EqDecision SlurId.
Proof. solve_decision. Defined.

Global Instance SlurId_countable : Countable SlurId.
Proof.
  refine (inj_countable'
            (fun i => match i with IdInt n => inl n | IdStr s => inr s end)
            (fun x => match x with inl n => IdInt n | inr s => IdStr s end) _).
  intros []; reflexivity.
Defined.

Inductive Notation : Type :=
  | StartSlur (slur_id : SlurId)
  | StopSlur (slur_id : SlurId)
  | OtherNotation (name : string).

Record Direction : Type := mkDirection {
  direction_text : string;
  direction_voice : Z
}.

Module XMLNote.
(** [_XMLNote] as built by [Note] ([pitch] given) and [Rest] ([pitch] is
    [None]); both hold a [Duration]. *)
Record t : Type := mk {
  pitch : option Pitch;
  duration : Duration.t;
  ties : option TieType;
  notations : list Notation;
  tuplet_bracket : option BracketType;
  beams : gmap nat BeamType;
  directions : list Direction;
  is_grace : bool;
  is_chord_member : bool;
  voice : option Z
}.

Definition true_length (self : t) : Q :=
  if is_grace self then 0%Q else Duration.true_length (duration self).

Definition written_length (self : t) : Q :=
  Duration.written_length (duration self).

Definition length_in_divisions (self : t) : Z :=
  if is_grace self then 0 else Duration.length_in_divisions (duration self).

Definition min_denominator (self : t) : Z :=
  if is_grace self then 1
  else limited_denominator (Duration.true_length (duration self)) 1000000.

Definition num_beams (self : t) : nat :=
  match pitch self with
  | None => 0%nat
  | Some _ => Duration.num_beams (duration self)
  end.

Definition set_duration (self : t) (value : Duration.t) : t :=
  mk (pitch self) value (ties self) (notations self) (tuplet_bracket self)
     (beams self) (directions self) (is_grace self) (is_chord_member self)
     (voice self).

Definition set_notations (self : t) (value : list Notation) : t :=
  mk (pitch self) (duration self) (ties self) value (tuplet_bracket self)
     (beams self) (directions self) (is_grace self) (is_chord_member self)
     (voice self).

Definition set_tuplet_bracket (self : t) (value : option BracketType) : t :=
  mk (pitch self) (duration self) (ties self) (notations self) value
     (beams self) (directions self) (is_grace self) (is_chord_member self)
     (voice self).

Definition set_beams (self : t) (value : gmap nat BeamType) : t :=
  mk (pitch self) (duration self) (ties self) (notations self)
     (tuplet_bracket self) value (directions self) (is_grace self)
     (is_chord_member self) (voice self).

Definition set_directions (self : t) (value : list Direction) : t :=
  mk (pitch self) (duration self) (ties self) (notations self)
     (tuplet_bracket self) (beams self) value (is_grace self)
     (is_chord_member self) (voice self).

Definition set_voice (self : t) (value : option Z) : t :=
  mk (pitch self) (duration self) (ties self) (notations self)
     (tuplet_bracket self) (beams self) (directions self) (is_grace self)
     (is_chord_member self) value.

Definition set_divisions (self : t) (value : Z) : t :=
  set_duration self (Duration.set_divisions (duration self) value).

Definition set_tuplet_ratio (self : t) (value : option TupletRatio) : t :=
  set_duration self (Duration.set_tuplet_ratio (duration self) value).
End XMLNote.

(** A leaf of a group: a [Note] or [Rest], or a [Chord], whose [notes]
    tuple has a first note, authoritative for the shared attributes, and
    further members. *)
Inductive Leaf : Type :=
  | NoteOrRest (n : XMLNote.t)
  | Chord (first : XMLNote.t) (others : list XMLNote.t).

Module Leaf.
(** [notes[0]] of a chord, the note itself otherwise. *)
Definition head (self : Leaf) : XMLNote.t :=
  match self with
  | NoteOrRest n => n
  | Chord first _ => first
  end.

(** Assignment to an attribute that a chord forwards to [notes[0]]. *)
Definition map_head (f : XMLNote.t -> XMLNote.t) (self : Leaf) : Leaf :=
  match self with
  | NoteOrRest n => NoteOrRest (f n)
  | Chord first others => Chord (f first) others
  end.

(** Assignment to an attribute that a chord writes to every note. *)
Definition map_all (f : XMLNote.t -> XMLNote.t) (self : Leaf) : Leaf :=
  match self with
  | NoteOrRest n => NoteOrRest (f n)
  | Chord first others => Chord (f first) (f <$> others)
  end.

Definition num_beams (self : Leaf) : nat := XMLNote.num_beams (head self).
Definition true_length (self : Leaf) : Q := XMLNote.true_length (head self).
Definition written_length (self : Leaf) : Q :=
  XMLNote.written_length (head self).
Definition length_in_divisions (self : Leaf) : Z :=
  XMLNote.length_in_divisions (head self).
Definition min_denominator (self : Leaf) : Z :=
  XMLNote.min_denominator (head self).
Definition beams (self : Leaf) : gmap nat BeamType :=
  XMLNote.beams (head self).
Definition tuplet_bracket (self : Leaf) : option BracketType :=
  XMLNote.tuplet_bracket (head self).
Definition notations (self : Leaf) : list Notation :=
  XMLNote.notations (head self).
Definition directions (self : Leaf) : list Direction :=
  XMLNote.directions (head self).

Definition set_beams (self : Leaf) (value : gmap nat BeamType) : Leaf :=
  map_head (fun n => XMLNote.set_beams n value) self.
Definition set_tuplet_bracket (self : Leaf) (value : option BracketType)
  : Leaf :=
  map_head (fun n => XMLNote.set_tuplet_bracket n value) self.
Definition set_notations (self : Leaf) (value : list Notation) : Leaf :=
  map_head (fun n => XMLNote.set_notations n value) self.
Definition set_divisions (self : Leaf) (value : Z) : Leaf :=
  map_all (fun n => XMLNote.set_divisions n value) self.
Definition set_voice (self : Leaf) (value : option Z) : Leaf :=
  map_all (fun n => XMLNote.set_voice n value) self.
Definition set_tuplet_ratio (self : Leaf) (value : option TupletRatio)
  : Leaf :=
  map_all (fun n => XMLNote.set_tuplet_ratio n value) self.
End Leaf.

(** ** [BeamedGroup] *)

Module BeamedGroup.
(** [max(leaf.num_beams() for leaf in self.contents)]; [max] of an empty
    sequence raises [ValueError]. *)
Definition max_num_beams (contents : list Leaf) : result nat :=
  match contents with
  | [] => Raise ValueError
  | _ => Ok (foldr Nat.max 0%nat (Leaf.num_beams <$> contents))
  end.

(** [self.contents[j].num_beams() >= beam_depth] *)
Definition active_at (contents : list Leaf) (j beam_depth : nat) : bool :=
  match contents !! j with
  | Some leaf => (beam_depth <=? Leaf.num_beams leaf)%nat
  | None => false
  end.

(** [leaf.beams[beam_depth] = value] *)
Definition put_beam (leaf : Leaf) (beam_depth : nat) (value : BeamType)
  : Leaf :=
  Leaf.set_beams leaf (<[beam_depth := value]> (Leaf.beams leaf)).

(** [int(round(leaf_start_time / 0.5 ** leaf.num_beams())) % 2 == 0] *)
Definition on_even_position (leaf : Leaf) (leaf_start_time : Q) : bool :=
  py_round (leaf_start_time
            / Qpower (1 # 2) (Z.of_nat (Leaf.num_beams leaf))) mod 2 =? 0.

(** The body of the inner [for i, leaf in enumerate(self.contents)] up to
    the update of [leaf_start_time]. *)
Definition beam_leaf (contents : list Leaf) (beam_depth i : nat)
    (leaf : Leaf) (leaf_start_time : Q) : Leaf :=
  let last_note_active :=
    (0 <? i)%nat && active_at contents (i - 1) beam_depth in
  let this_note_active := (beam_depth <=? Leaf.num_beams leaf)%nat in
  let next_note_active :=
    (i <? length contents - 1)%nat && active_at contents (i + 1) beam_depth in
  if this_note_active then
    if last_note_active && next_note_active then
      put_beam leaf beam_depth BeamContinue
    else if last_note_active then put_beam leaf beam_depth BeamEnd
    else if next_note_active then put_beam leaf beam_depth BeamBegin
    else if on_even_position leaf leaf_start_time then
      put_beam leaf beam_depth ForwardHook
    else put_beam leaf beam_depth BackwardHook
  else leaf.

(** One iteration of the inner loop on the state
    [(self.contents, leaf_start_time)]. *)
Definition inner_body (beam_depth : nat) (st : list Leaf * Q) (i : nat)
  : list Leaf * Q :=
  let '(contents, leaf_start_time) := st in
  match contents !! i with
  | None => st
  | Some leaf =>
      let leaf := beam_leaf contents beam_depth i leaf leaf_start_time in
      (<[i := leaf]> contents,
       (leaf_start_time + Leaf.written_length leaf)%Q)
  end.

(** One iteration of the outer [for beam_depth in range(1, max + 1)]. *)
Definition depth_pass (contents : list Leaf) (beam_depth : nat) : list Leaf :=
  fst (foldl (inner_body beam_depth) (contents, 0%Q)
         (seq 0 (length contents))).

(** [all("hook" in beam_value for beam_value in leaf.beams.values())] *)
Definition only_hooks (beams : gmap nat BeamType) : bool :=
  forallb hook_in (snd <$> map_to_list beams).

(** The body of the final [for leaf in self.contents]. *)
Definition clear_hooks (leaf : Leaf) : Leaf :=
  if only_hooks (Leaf.beams leaf) then Leaf.set_beams leaf ∅ else leaf.

Definition render_contents_beaming (contents : list Leaf)
  : result (list Leaf) :=
  m ← max_num_beams contents;
  let contents := foldl depth_pass contents (seq 1 m) in
  Ok (clear_hooks <$> contents).

(** [sum(leaf.true_length for leaf in self.contents)], as a sum of
    rationals.  The code adds doubles: the two agree on leaves outside
    tuplets, whose lengths are dyadic, while a sum of lengths in a tuplet
    is rounded by the code (nine eighths in the time of eight give
    4.000000000000001, not 4).  The durations in divisions, which are
    integers, do not depend on it. *)
Definition true_length (contents : list Leaf) : Q :=
  foldr Qplus 0%Q (Leaf.true_length <$> contents).

Definition written_length (contents : list Leaf) : Q :=
  foldr Qplus 0%Q (Leaf.written_length <$> contents).

(** [sum(leaf.length_in_divisions for leaf in self.contents)] *)
Definition length_in_divisions (contents : list Leaf) : Z :=
  foldr Z.add 0 (Leaf.length_in_divisions <$> contents).

Definition min_denominator (contents : list Leaf) : Z :=
  _least_common_multiple (Leaf.min_denominator <$> contents).
End BeamedGroup.

(** ** [Tuplet] *)

Module Tuplet.
(** [_set_tuplet_info_for_contents(ratio)] on [self.contents]. *)
Definition _set_tuplet_info_for_contents (contents : list Leaf)
    (ratio : TupletRatio) : result (list Leaf) :=
  (* self.contents[0].tuplet_bracket = "start" *)
  first ← list_getitem contents 0;
  let contents :=
    <[0%nat := Leaf.set_tuplet_bracket first (Some BracketStart)]> contents in
  (* self.contents[-1].tuplet_bracket =
       "stop" if len(self.contents) > 0 else "both" *)
  let value :=
    if 0 <? Z.of_nat (length contents) then BracketStop else BracketBoth in
  last ← list_getitem contents (-1);
  let contents :=
    <[(length contents - 1)%nat := Leaf.set_tuplet_bracket last (Some value)]>
      contents in
  (* for element in self.contents: ... .duration.tuplet_ratio = ratio *)
  Ok ((fun element => Leaf.set_tuplet_ratio element (Some ratio)) <$> contents).

(** [Tuplet.__init__]: the contents after construction. *)
Definition init (contents : list Leaf) (ratio : TupletRatio)
  : result (list Leaf) :=
  _set_tuplet_info_for_contents contents ratio.

(** [Tuplet.min_denominator]: the value and the contents after the call. *)
Definition min_denominator (contents : list Leaf) (ratio : TupletRatio)
  : result (Z * list Leaf) :=
  contents ← _set_tuplet_info_for_contents contents ratio;
  Ok (_least_common_multiple (Leaf.min_denominator <$> contents), contents).
End Tuplet.

(** ** [BarRest] and the elements of a voice *)

Module BarRest.
(** [_XMLNote] as built by [BarRest]: [pitch] is ["bar rest"] and the
    duration is a [BarRestDuration]. *)
Record t : Type := mk {
  duration : BarRestDuration.t;
  notations : list Notation;
  directions : list Direction;
  voice : option Z
}.

Definition true_length (self : t) : Q :=
  BarRestDuration.true_length (duration self).
Definition length_in_divisions (self : t) : Z :=
  BarRestDuration.length_in_divisions (duration self).
(** [_XMLNote.min_denominator] reads [self.duration.true_length]. *)
Definition min_denominator (self : t) : Z :=
  limited_denominator (BarRestDuration.true_length (duration self)) 1000000.
Definition set_divisions (self : t) (value : Z) : t :=
  mk (BarRestDuration.set_divisions (duration self) value) (notations self)
     (directions self) (voice self).
Definition set_notations (self : t) (value : list Notation) : t :=
  mk (duration self) value (directions self) (voice self).
Definition set_directions (self : t) (value : list Direction) : t :=
  mk (duration self) (notations self) value (voice self).
Definition set_voice (self : t) (value : option Z) : t :=
  mk (duration self) (notations self) (directions self) value.
End BarRest.

(** What [Measure.iter_leaves] yields: a note, rest or chord, or a bar
    rest. *)
Inductive TimedLeaf : Type :=
  | ALeaf (l : Leaf)
  | ABarRest (b : BarRest.t).

Module TimedLeaf.
Definition true_length (self : TimedLeaf) : Q :=
  match self with
  | ALeaf l => Leaf.true_length l
  | ABarRest b => BarRest.true_length b
  end.
Definition length_in_divisions (self : TimedLeaf) : Z :=
  match self with
  | ALeaf l => Leaf.length_in_divisions l
  | ABarRest b => BarRest.length_in_divisions b
  end.
Definition min_denominator (self : TimedLeaf) : Z :=
  match self with
  | ALeaf l => Leaf.min_denominator l
  | ABarRest b => BarRest.min_denominator b
  end.
Definition notations (self : TimedLeaf) : list Notation :=
  match self with
  | ALeaf l => Leaf.notations l
  | ABarRest b => BarRest.notations b
  end.
Definition set_notations (self : TimedLeaf) (value : list Notation)
  : TimedLeaf :=
  match self with
  | ALeaf l => ALeaf (Leaf.set_notations l value)
  | ABarRest b => ABarRest (BarRest.set_notations b value)
  end.
Definition set_divisions (self : TimedLeaf) (value : Z) : TimedLeaf :=
  match self with
  | ALeaf l => ALeaf (Leaf.set_divisions l value)
  | ABarRest b => ABarRest (BarRest.set_divisions b value)
  end.
Definition divisions (self : TimedLeaf) : Z :=
  match self with
  | ALeaf l => Duration._divisions (XMLNote.duration (Leaf.head l))
  | ABarRest b => BarRestDuration._divisions (BarRest.duration b)
  end.
End TimedLeaf.

(** An entry of a voice: a leaf, a [BeamedGroup] or a [Tuplet]. *)
Inductive Element : Type :=
  | Single (x : TimedLeaf)
  | BeamedGroupOf (contents : list Leaf)
  | TupletOf (contents : list Leaf) (ratio : TupletRatio).

Module Element.
Definition length_in_divisions (self : Element) : Z :=
  match self with
  | Single x => TimedLeaf.length_in_divisions x
  | BeamedGroupOf contents => BeamedGroup.length_in_divisions contents
  | TupletOf contents _ => BeamedGroup.length_in_divisions contents
  end.

(** The leaves of an entry, groups and tuplets unravelled to their
    contents. *)
Definition unravel (self : Element) : list TimedLeaf :=
  match self with
  | Single x => [x]
  | BeamedGroupOf contents => ALeaf <$> contents
  | TupletOf contents _ => ALeaf <$> contents
  end.

Definition map_leaves (f : Leaf -> Leaf) (g : BarRest.t -> BarRest.t)
    (self : Element) : Element :=
  match self with
  | Single (ALeaf l) => Single (ALeaf (f l))
  | Single (ABarRest b) => Single (ABarRest (g b))
  | BeamedGroupOf contents => BeamedGroupOf (f <$> contents)
  | TupletOf contents ratio => TupletOf (f <$> contents) ratio
  end.
End Element.

(** ** Rendered XML *)

(** The children of a [measure] element, as far as the order and the
    numbers in them go.  A [note] element is kept as the note it was
    rendered from, in the state it had when rendered. *)
Inductive XMLChild : Type :=
  | AttributesEl (divisions : Z) (time : option (Z * Z))
      (clef : option string) (staves : option string)
  | NoteEl (n : XMLNote.t)
  | BarRestEl (b : BarRest.t)
  | DirectionEl (d : Direction)
  | BackupEl (duration : Z)
  | ForwardEl (duration : Z)
  | BarlineEl (bar_style : string).

(** [Duration.render] raises [ValueError] when the tuplet ratio names a
    normal type that is not on the ladder. *)
Definition Duration_render_check (d : Duration.t) : result unit :=
  match Duration.tuplet_ratio d with
  | Some r =>
      match normal_type r with
      | Some x =>
          match ladder_lookup x with
          | Some _ => Ok ()
          | None => Raise ValueError
          end
      | None => Ok ()
      end
  | None => Ok ()
  end.

(** The [tied] elements that [_XMLNote.render] appends to [self.notations]
    of a pitched note. *)
Definition tied_notations (n : XMLNote.t) : list Notation :=
  match XMLNote.pitch n, XMLNote.ties n with
  | Some _, Some TieStart => [OtherNotation "tied start"]
  | Some _, Some TieStop => [OtherNotation "tied stop"]
  | Some _, Some TieContinue =>
      [OtherNotation "tied start"; OtherNotation "tied stop"]
  | _, _ => []
  end.

(** [_XMLNote.render] of a note or rest: the directions come before the
    [note] element; the note is returned as the call leaves it. *)
Definition XMLNote_render (self : XMLNote.t)
  : result (list XMLChild * XMLNote.t) :=
  _ ← Duration_render_check (XMLNote.duration self);
  let self :=
    XMLNote.set_notations self (XMLNote.notations self ++ tied_notations self) in
  Ok ((DirectionEl <$> XMLNote.directions self) ++ [NoteEl self], self).

Definition BarRest_render (self : BarRest.t) : list XMLChild :=
  (DirectionEl <$> BarRest.directions self) ++ [BarRestEl self].

(** [sum((note.render() for note in notes), ())] *)
Fixpoint render_notes (notes : list XMLNote.t)
  : result (list XMLChild * list XMLNote.t) :=
  match notes with
  | [] => Ok ([], [])
  | n :: notes =>
      '(els, n) ← XMLNote_render n;
      '(els', notes) ← render_notes notes;
      Ok (els ++ els', n :: notes)
  end.

Definition Leaf_render (self : Leaf) : result (list XMLChild * Leaf) :=
  match self with
  | NoteOrRest n =>
      '(els, n) ← XMLNote_render n;
      Ok (els, NoteOrRest n)
  | Chord first others =>
      '(els, first) ← XMLNote_render first;
      '(els', others) ← render_notes others;
      Ok (els ++ els', Chord first others)
  end.

(** [sum((leaf.render() for leaf in self.contents), ())] *)
Fixpoint render_leaves (contents : list Leaf)
  : result (list XMLChild * list Leaf) :=
  match contents with
  | [] => Ok ([], [])
  | leaf :: contents =>
      '(els, leaf) ← Leaf_render leaf;
      '(els', contents) ← render_leaves contents;
      Ok (els ++ els', leaf :: contents)
  end.

(** [BeamedGroup.render] *)
Definition BeamedGroup_render (contents : list Leaf)
  : result (list XMLChild * list Leaf) :=
  contents ← BeamedGroup.render_contents_beaming contents;
  render_leaves contents.

(** [Tuplet.render] *)
Definition Tuplet_render (contents : list Leaf) (ratio : TupletRatio)
  : result (list XMLChild * list Leaf) :=
  contents ← Tuplet._set_tuplet_info_for_contents contents ratio;
  BeamedGroup_render contents.

(** [note_or_tuplet.render()] in the voice loop of [Measure.render]. *)
Definition Element_render (self : Element) : result (list XMLChild * Element) :=
  match self with
  | Single (ALeaf l) =>
      '(els, l) ← Leaf_render l;
      Ok (els, Single (ALeaf l))
  | Single (ABarRest b) => Ok (BarRest_render b, Single (ABarRest b))
  | BeamedGroupOf contents =>
      '(els, contents) ← BeamedGroup_render contents;
      Ok (els, BeamedGroupOf contents)
  | TupletOf contents ratio =>
      '(els, contents) ← Tuplet_render contents ratio;
      Ok (els, TupletOf contents ratio)
  end.

(** ** [Measure] *)

(** [Measure.contents]: "Either a list of Notes / Chords / Rests / Tuplets /
    BeamedGroups or a list of voices", a voice being such a list or
    [None]. *)
Inductive MeasureContents : Type :=
  | OneVoice (elements : list Element)
  | ManyVoices (voices : list (option (list Element))).

Record MeasureEl : Type := mkMeasureEl {
  el_number : Z;
  el_children : list XMLChild
}.

Module Measure.
Record t : Type := mk {
  contents : MeasureContents;
  time_signature : option (Z * Z);
  clef : option string;
  barline : option string;
  staves : option string;
  number : Z;
  directions_with_displacements : list (Direction * Q)
}.

(** The [voices] property; [self.contents[0]] raises [IndexError] on
    empty contents. *)
Definition voices (c : MeasureContents)
  : result (list (option (list Element))) :=
  match c with
  | OneVoice [] => Raise IndexError
  | OneVoice elements => Ok [Some elements]
  | ManyVoices [] => Raise IndexError
  | ManyVoices voices => Ok voices
  end.

(** Lexicographic [<] on the keys [(next_note_beats[k], true_length)]. *)
Definition key_lt (a b : Q * Q) : bool :=
  match (fst a ?= fst b)%Q with
  | Lt => true
  | Gt => false
  | Eq => match (snd a ?= snd b)%Q with Lt => true | _ => false end
  end.

(** [min(range(len(keys)), key=...)]: the first index with the least
    key. *)
Fixpoint argmin_from (best_k : nat) (best : Q * Q) (k : nat)
    (keys : list (Q * Q)) : nat :=
  match keys with
  | [] => best_k
  | x :: keys =>
      if key_lt x best then argmin_from k x (S k) keys
      else argmin_from best_k best (S k) keys
  end.

(** The key of voice [k]; [voice_list_copy[k][0]] raises [IndexError] on
    an empty voice. *)
Definition voice_key (v : Q * list TimedLeaf) : result (Q * Q) :=
  match snd v with
  | [] => Raise IndexError
  | x :: _ => Ok (fst v, TimedLeaf.true_length x)
  end.

Fixpoint voice_keys (st : list (Q * list TimedLeaf))
  : result (list (Q * Q)) :=
  match st with
  | [] => Ok []
  | v :: st =>
      key ← voice_key v;
      keys ← voice_keys st;
      Ok (key :: keys)
  end.

(** The [while len(voice_list_copy) > 0] loop of [iter_leaves], all its
    yields collected.  The state pairs [next_note_beats[k]] with
    [voice_list_copy[k]]; [fuel] bounds the number of iterations and
    [None] means that the bound was reached.  The start times are running
    sums of rationals where the code adds doubles: in voices with tuplets
    the code may order two leaves that start together here by the
    rounding of their sums.  Which leaves are yielded, and the order
    within a voice, do not depend on it. *)
Fixpoint iter_leaves_loop (fuel : nat) (st : list (Q * list TimedLeaf))
  : option (result (list TimedLeaf)) :=
  match st with
  | [] => Some (Ok [])
  | v0 :: _ =>
      match fuel with
      | O => None
      | S fuel =>
          match voice_keys st with
          | Raise e => Some (Raise e)
          | Ok keys =>
              let voice_to_pop :=
                match keys with
                | [] => 0%nat
                | key :: keys => argmin_from 0 key 1 keys
                end in
              match st !! voice_to_pop with
              | Some (beat, popped_note :: rest) =>
                  let beat := (beat + TimedLeaf.true_length popped_note)%Q in
                  let st :=
                    match rest with
                    | [] => delete voice_to_pop st
                    | _ => <[voice_to_pop := (beat, rest)]> st
                    end in
                  match iter_leaves_loop fuel st with
                  | Some (Ok leaves) => Some (Ok (popped_note :: leaves))
                  | other => other
                  end
              | _ => Some (Raise IndexError)
              end
          end
      end
  end.

(** [voice_list_copy] of [iter_leaves] with [which_voices=None]. *)
Definition voice_list_copy (vs : list (option (list Element)))
  : list (list TimedLeaf) :=
  omap (fun v : option (list Element) =>
          (fun els : list Element => concat (Element.unravel <$> els)) <$> v)
       vs.

(** [self.leaves()]; every iteration but the last pops one leaf, so the
    number of leaves bounds the loop. *)
Definition leaves (vs : list (option (list Element)))
  : option (result (list TimedLeaf)) :=
  let copy := voice_list_copy vs in
  iter_leaves_loop (S (length (concat copy))) ((fun v => (0%Q, v)) <$> copy).

(** [_set_leaf_voices]: the leaves of voice [i] get voice [i + 1]; a
    leaf that stands alone also passes it to its directions. *)
Definition set_direction_voice (v : Z) (d : Direction) : Direction :=
  mkDirection (direction_text d) v.

Definition set_element_voice (v : Z) (e : Element) : Element :=
  match e with
  | Single (ALeaf l) =>
      let l := Leaf.set_voice l (Some v) in
      Single (ALeaf (Leaf.map_head
        (fun n => XMLNote.set_directions n
                    (set_direction_voice v <$> XMLNote.directions n)) l))
  | Single (ABarRest b) =>
      let b := BarRest.set_voice b (Some v) in
      Single (ABarRest (BarRest.set_directions b
        (set_direction_voice v <$> BarRest.directions b)))
  | BeamedGroupOf contents =>
      BeamedGroupOf ((fun l => Leaf.set_voice l (Some v)) <$> contents)
  | TupletOf contents ratio =>
      TupletOf ((fun l => Leaf.set_voice l (Some v)) <$> contents) ratio
  end.

Definition _set_leaf_voices (vs : list (option (list Element)))
  : list (option (list Element)) :=
  imap (fun i (voice : option (list Element)) =>
          (fun els : list Element =>
             set_element_voice (Z.of_nat i + 1) <$> els) <$> voice)
       vs.

(** [_get_beat_division_for_directions], called on a non-empty list. *)
Definition _get_beat_division_for_directions
    (dwd : list (Direction * Q)) : Z :=
  _least_common_multiple
    ((fun dd => limited_denominator (snd dd) 256) <$> dwd).

(** [int(math.log2(1024 / n))] for a positive integer [n]: the float
    quotient is at least 1 exactly when [n <= 1024], where the truncated
    logarithm is that of the integer quotient; below 1 the logarithm is
    negative and truncates toward zero. *)
Definition int_log2_1024_over (n : Z) : Z :=
  if n <=? 1024 then Z.log2 (1024 / n) else - Z.log2 (n / 1024).

(** [max(1, 2 ** k)]: a negative [k] gives a float below 1. *)
Definition max_1_pow2 (k : Z) : Z := Z.max 1 (2 ^ k).

(** The value of [num_beat_divisions] that [render] writes: from the
    minimal denominators of the leaves and the displaced directions. *)
Definition compute_divisions (leaf_denominators : list Z)
    (dwd : list (Direction * Q)) : Z :=
  let num_beat_divisions := _least_common_multiple leaf_denominators in
  if (0 <? length dwd)%nat then
    let ideal_division :=
      _least_common_multiple
        [_get_beat_division_for_directions dwd; num_beat_divisions] in
    if ideal_division <=? 1024 then ideal_division
    else num_beat_divisions * max_1_pow2 (int_log2_1024_over num_beat_divisions)
  else num_beat_divisions.

(** [for note in self.leaves(): note.divisions = num_beat_divisions] *)
Definition set_all_divisions (value : Z) (vs : list (option (list Element)))
  : list (option (list Element)) :=
  (fun voice : option (list Element) =>
     (fun els : list Element =>
        Element.map_leaves (fun l => Leaf.set_divisions l value)
          (fun b => BarRest.set_divisions b value) <$> els) <$> voice) <$> vs.

(** [for note_or_tuplet in voice]: the children emitted, the voice after
    the renders, and [amount_to_backup]. *)
Fixpoint render_voice (voice : list Element) (amount_to_backup : Z)
  : result (list XMLChild * list Element * Z) :=
  match voice with
  | [] => Ok ([], [], amount_to_backup)
  | note_or_tuplet :: voice =>
      let amount_to_backup :=
        amount_to_backup + Element.length_in_divisions note_or_tuplet in
      '(els, note_or_tuplet) ← Element_render note_or_tuplet;
      '(els', voice, amount_to_backup) ← render_voice voice amount_to_backup;
      Ok (els ++ els', note_or_tuplet :: voice, amount_to_backup)
  end.

(** [for i, voice in enumerate(self.voices)], from index [i] on. *)
Fixpoint render_voices (i : nat) (vs : list (option (list Element)))
    (amount_to_backup : Z)
  : result (list XMLChild * list (option (list Element)) * Z) :=
  match vs with
  | [] => Ok ([], [], amount_to_backup)
  | None :: vs =>
      '(els, vs, amount_to_backup) ← render_voices (S i) vs amount_to_backup;
      Ok (els, None :: vs, amount_to_backup)
  | Some voice :: vs =>
      let backup :=
        if (0 <? i)%nat then [BackupEl amount_to_backup] else [] in
      let amount_to_backup := 0 in
      '(els, voice, amount_to_backup) ← render_voice voice amount_to_backup;
      '(els', vs, amount_to_backup) ← render_voices (S i) vs amount_to_backup;
      Ok (backup ++ els ++ els', Some voice :: vs, amount_to_backup)
  end.

(** [for direction, displacement in self.directions_with_displacements].
    The position is [round] of the product of rationals, where the code
    rounds the product of doubles: the two agree when the double holds the
    displacement as it is ([on_grid]), and can differ by one division when
    the product of a displacement that a double rounds lies on a half. *)
Fixpoint render_displaced (num_beat_divisions : Z)
    (dwd : list (Direction * Q)) (current_location_in_measure : Z)
  : list XMLChild :=
  match dwd with
  | [] => []
  | (direction, displacement) :: dwd =>
      let displacement :=
        py_round (displacement * inject_Z num_beat_divisions) in
      let move :=
        if displacement <? current_location_in_measure then
          [BackupEl (current_location_in_measure - displacement)]
        else if displacement >? current_location_in_measure then
          [ForwardEl (displacement - current_location_in_measure)]
        else [] in
      move ++ [DirectionEl direction]
        ++ render_displaced num_beat_divisions dwd displacement
  end.

(** [Measure.render]: the [measure] element, and the voices as the call
    leaves them.  [None] means that the bound of [leaves] was reached. *)
Definition render (self : t)
  : option (result (MeasureEl * list (option (list Element)))) :=
  match voices (contents self) with
  | Raise e => Some (Raise e)
  | Ok vs =>
      let vs := _set_leaf_voices vs in
      match leaves vs with
      | None => None
      | Some (Raise e) => Some (Raise e)
      | Some (Ok all_leaves) =>
          let dwd := directions_with_displacements self in
          let num_beat_divisions :=
            compute_divisions (TimedLeaf.min_denominator <$> all_leaves) dwd in
          let vs := set_all_divisions num_beat_divisions vs in
          let attributes_el :=
            AttributesEl num_beat_divisions (time_signature self) (clef self)
              (staves self) in
          Some (
            '(els, vs, amount_to_backup) ← render_voices 0 vs 0;
            let displaced :=
              if (0 <? length dwd)%nat
              then render_displaced num_beat_divisions dwd amount_to_backup
              else [] in
            let barline_el :=
              match barline self with
              | Some style => [BarlineEl style]
              | None => []
              end in
            Ok (mkMeasureEl (number self)
                  (attributes_el :: els ++ displaced ++ barline_el),
                vs))
      end
  end.
End Measure.

(** ** [Part]: slur renumbering *)

(** Messages of [logging.warning] in [_validate_slur_numbers]. *)
Inductive Warning : Type :=
  | RanOutOfSlurNumbers
      (* "Ran out of available slur numbers; too many simultaneous slurs." *)
  | StopWithoutStart
      (* "Tried to stop slur that was never started." *).

Module Part.
Record t : Type := mk {
  part_name : string;
  measures : list Measure.t;
  part_id : Z
}.

(** [sum(input_to_output_numbers.values(), [])] *)
Definition numbers_in_use (input_to_output_numbers : gmap SlurId (list SlurId))
  : list SlurId :=
  concat (snd <$> map_to_list input_to_output_numbers).

(** [[x for x in range(1, 7) if x not in sum(..., [])]] *)
Definition available_slur_numbers
    (input_to_output_numbers : gmap SlurId (list SlurId)) : list Z :=
  filter (fun x => IdInt x ∉ numbers_in_use input_to_output_numbers)
         [1; 2; 3; 4; 5; 6].

(** [slur_id in available_slur_numbers] *)
Definition id_in (slur_id : SlurId) (numbers : list Z) : bool :=
  bool_decide (slur_id ∈ IdInt <$> numbers).

(** [d.setdefault(key, []).append(value)] *)
Definition setdefault_append (d : gmap SlurId (list SlurId)) (key : SlurId)
    (value : SlurId) : gmap SlurId (list SlurId) :=
  <[key := default [] (d !! key) ++ [value]]> d.

(** The body of [for notation in note_chord_rest.notations]: the dict and
    the notation after it, and the warnings logged. *)
Definition visit_notation
    (input_to_output_numbers : gmap SlurId (list SlurId))
    (notation : Notation)
  : result (gmap SlurId (list SlurId) * Notation * list Warning) :=
  match notation with
  | StartSlur slur_id =>
      let available_slur_numbers :=
        available_slur_numbers input_to_output_numbers in
      if id_in slur_id available_slur_numbers then
        Ok (setdefault_append input_to_output_numbers slur_id slur_id,
            notation, [])
      else
        match available_slur_numbers with
        | output_num :: _ =>
            Ok (setdefault_append input_to_output_numbers slur_id
                  (IdInt output_num),
                StartSlur (IdInt output_num), [])
        | [] => Ok (input_to_output_numbers, notation, [RanOutOfSlurNumbers])
        end
  | StopSlur slur_id =>
      match input_to_output_numbers !! slur_id with
      | Some numbers =>
          (* output_num = input_to_output_numbers[slur_id].pop(0) *)
          match numbers with
          | [] => Raise IndexError
          | output_num :: numbers =>
              let d :=
                match numbers with
                | [] => delete slur_id input_to_output_numbers
                | _ => <[slur_id := numbers]> input_to_output_numbers
                end in
              Ok (d, StopSlur output_num, [])
          end
      | None => Ok (input_to_output_numbers, notation, [StopWithoutStart])
      end
  | OtherNotation _ => Ok (input_to_output_numbers, notation, [])
  end.

(** [for notation in note_chord_rest.notations] *)
Fixpoint visit_notations (d : gmap SlurId (list SlurId))
    (notations : list Notation)
  : result (gmap SlurId (list SlurId) * list Notation * list Warning) :=
  match notations with
  | [] => Ok (d, [], [])
  | notation :: notations =>
      '(d, notation, w) ← visit_notation d notation;
      '(d, notations, w') ← visit_notations d notations;
      Ok (d, notation :: notations, w ++ w')
  end.

(** [for note_chord_rest in part.iter_leaves()], on the leaves in the
    order [iter_leaves] yields them. *)
Fixpoint visit_leaves (d : gmap SlurId (list SlurId))
    (leaves : list TimedLeaf)
  : result (gmap SlurId (list SlurId) * list TimedLeaf * list Warning) :=
  match leaves with
  | [] => Ok (d, [], [])
  | leaf :: leaves =>
      '(d, notations, w) ← visit_notations d (TimedLeaf.notations leaf);
      let leaf := TimedLeaf.set_notations leaf notations in
      '(d, leaves, w') ← visit_leaves d leaves;
      Ok (d, leaf :: leaves, w ++ w')
  end.

(** [Part.iter_leaves]: the leaves of the measures, one measure after the
    other. *)
Fixpoint iter_leaves (measures : list Measure.t)
  : option (result (list TimedLeaf)) :=
  match measures with
  | [] => Some (Ok [])
  | measure :: measures =>
      match Measure.voices (Measure.contents measure) with
      | Raise e => Some (Raise e)
      | Ok vs =>
          match Measure.leaves vs with
          | None => None
          | Some (Raise e) => Some (Raise e)
          | Some (Ok leaves) =>
              match iter_leaves measures with
              | Some (Ok leaves') => Some (Ok (leaves ++ leaves'))
              | other => other
              end
          end
      end
  end.

(** [_validate_slur_numbers(part)]: the leaves of the part with their
    slur notations renumbered, and the warnings logged. *)
Definition _validate_slur_numbers (part : t)
  : option (result (list TimedLeaf * list Warning)) :=
  match iter_leaves (measures part) with
  | None => None
  | Some (Raise e) => Some (Raise e)
  | Some (Ok leaves) =>
      Some ('(_, leaves, w) ← visit_leaves ∅ leaves; Ok (leaves, w))
  end.
End Part.

(** ** Vocabulary of the statements *)

(** [length / dot_multiplier(d)] looked up on the ladder. *)
Definition dotted_lookup (length : Q) (d : nat) : option NoteType :=
  ladder_lookup (length / _dot_multiplier d).

(** The dicts [_validate_slur_numbers] can reach: no key holds an empty
    list, every number held is one of 1..6, and no number is held twice. *)
Record slots_ok (d : gmap SlurId (list SlurId)) : Prop := {
  slots_nonempty : forall k, d !! k <> Some [];
  slots_in_range :
    forall k l x, d !! k = Some l -> x ∈ l -> exists n, x = IdInt n /\ 1 <= n <= 6;
  slots_nodup : forall k l, d !! k = Some l -> NoDup l;
  slots_apart :
    forall k1 k2 l1 l2 x,
      k1 <> k2 -> d !! k1 = Some l1 -> d !! k2 = Some l2 -> x ∈ l1 -> x ∉ l2
}.

(** The number of a start-link event in the specification's words: "if
    [K] is already mapped to an open output slot, reuse it", otherwise
    "the lowest-numbered output slot not currently in use". *)
Definition spec_start_number (d : gmap SlurId (list SlurId)) (K : SlurId)
    (out : SlurId) : Prop :=
  match d !! K with
  | Some slots => out ∈ slots
  | None => exists n, head (Part.available_slur_numbers d) = Some n /\ out = IdInt n
  end.

(** The number of a stop-link event in the specification's words: "the
    most-recently-opened output slot associated with [K]". *)
Definition spec_stop_number (d : gmap SlurId (list SlurId)) (K : SlurId)
    (out : SlurId) : Prop :=
  exists slots, d !! K = Some slots /\ last slots = Some out.

(** The start time of leaf [i]: the written lengths of the leaves before
    it, added up in order from 0. *)
Definition start_time (contents : list Leaf) (i : nat) : Q :=
  foldl (fun t leaf => (t + Leaf.written_length leaf)%Q) 0%Q (take i contents).

(** The beam state of an active leaf in the specification's words: both
    neighbours active gives [continue], only the preceding one [end], only
    the following one [begin], neither a hook, forward on an even position
    and backward on an odd one. *)
Definition spec_beam_state (contents : list Leaf) (beam_depth i : nat)
    (leaf : Leaf) : BeamType :=
  let preceding_active :=
    match i with
    | O => false
    | S j => BeamedGroup.active_at contents j beam_depth
    end in
  let following_active := BeamedGroup.active_at contents (S i) beam_depth in
  match preceding_active, following_active with
  | true, true => BeamContinue
  | true, false => BeamEnd
  | false, true => BeamBegin
  | false, false =>
      if BeamedGroup.on_even_position leaf (start_time contents i)
      then ForwardHook else BackwardHook
  end.

(** The beams of leaf [i] once the levels [depths] are assigned: the
    levels the leaf is active at are overwritten, the others are kept. *)
Definition assign_level (contents : list Leaf) (i : nat) (leaf : Leaf)
    (beams : gmap nat BeamType) (beam_depth : nat) : gmap nat BeamType :=
  if (beam_depth <=? Leaf.num_beams leaf)%nat
  then <[beam_depth := spec_beam_state contents beam_depth i leaf]> beams
  else beams.

Definition assigned_beams (contents : list Leaf) (i : nat) (leaf : Leaf)
    (depths : list nat) : gmap nat BeamType :=
  foldl (assign_level contents i leaf) (Leaf.beams leaf) depths.

(** The post-pass: a map with nothing but hooks is cleared. *)
Definition cleared (beams : gmap nat BeamType) : gmap nat BeamType :=
  if BeamedGroup.only_hooks beams then ∅ else beams.

(** Two sequences that differ in beams only. *)
Definition same_notes (contents contents' : list Leaf) : Prop :=
  Forall2 (fun leaf leaf' => exists b, leaf' = Leaf.set_beams leaf b)
          contents contents'.

(** What one pass of the outer loop leaves at position [i]. *)
Definition passed (contents : list Leaf) (d i : nat) (leaf : Leaf) : Leaf :=
  Leaf.set_beams leaf (assign_level contents i leaf (Leaf.beams leaf) d).

(** [max(leaf.num_beams() for leaf in contents)] of a non-empty group. *)
Definition max_beams (contents : list Leaf) : nat :=
  foldr Nat.max 0%nat (Leaf.num_beams <$> contents).

(** What [render_contents_beaming] leaves at position [i]. *)
Definition beamed (contents : list Leaf) (i : nat) (leaf : Leaf) : Leaf :=
  Leaf.set_beams leaf
    (cleared (assigned_beams contents i leaf (seq 1 (max_beams contents)))).

(** Sample leaves: a note on C4, or a rest, of a plain note type. *)
Definition sample_note (t : NoteType) : Leaf :=
  NoteOrRest (XMLNote.mk (Some (mkPitch "C" 4 0)) (Duration.init t 0 None)
                None [] None ∅ [] false false None).

Definition sample_rest (t : NoteType) : Leaf :=
  NoteOrRest (XMLNote.mk None (Duration.init t 0 None)
                None [] None ∅ [] false false None).

(** The beams at a level, leaf by leaf. *)
Definition beams_at (beam_depth : nat) (contents : list Leaf)
  : list (option BeamType) :=
  (fun leaf => Leaf.beams leaf !! beam_depth) <$> contents.

(** The beams the engine leaves, leaf by leaf: the whole maps, or the
    entries at one level. *)
Definition final_beams (contents : list Leaf)
  : result (list (gmap nat BeamType)) :=
  match BeamedGroup.render_contents_beaming contents with
  | Ok out => Ok (Leaf.beams <$> out)
  | Raise e => Raise e
  end.

Definition final_beams_at (beam_depth : nat) (contents : list Leaf)
  : result (list (option BeamType)) :=
  match BeamedGroup.render_contents_beaming contents with
  | Ok out => Ok (beams_at beam_depth out)
  | Raise e => Raise e
  end.

(** ** Measures that render *)

(** A tuplet ratio whose normal type, when given, is on the ladder. *)
Definition ratio_ok (r : TupletRatio) : bool :=
  match normal_type r with
  | Some x => match ladder_lookup x with Some _ => true | None => false end
  | None => true
  end.

Definition note_ok (n : XMLNote.t) : bool :=
  match Duration.tuplet_ratio (XMLNote.duration n) with
  | Some r => ratio_ok r
  | None => true
  end.

Definition leaf_ok (l : Leaf) : bool :=
  match l with
  | NoteOrRest n => note_ok n
  | Chord first others => note_ok first && forallb note_ok others
  end.

Definition nonempty {A : Type} (l : list A) : bool :=
  match l with [] => false | _ => true end.

(** Groups and tuplets hold at least one leaf. *)
Definition element_ok (e : Element) : bool :=
  match e with
  | Single (ALeaf l) => leaf_ok l
  | Single (ABarRest _) => true
  | BeamedGroupOf contents => nonempty contents && forallb leaf_ok contents
  | TupletOf contents ratio => nonempty contents && ratio_ok ratio
  end.

(** A voice is [None] or holds at least one element. *)
Definition voice_ok (v : option (list Element)) : bool :=
  match v with
  | None => true
  | Some elements => nonempty elements && forallb element_ok elements
  end.

Definition measure_ok (m : Measure.t) : bool :=
  match Measure.voices (Measure.contents m) with
  | Ok vs => forallb voice_ok vs
  | Raise _ => false
  end.

(** The children a leaf renders to: [direction] and [note] elements. *)
Definition leaf_child (c : XMLChild) : bool :=
  match c with
  | NoteEl _ | BarRestEl _ | DirectionEl _ => true
  | _ => false
  end.

(** The tick length of a voice: the sum of [length_in_divisions] over its
    elements. *)
Definition voice_ticks (v : list Element) : Z :=
  foldr Z.add 0 (Element.length_in_divisions <$> v).

(** The [divisions] fields under an element, chord members included. *)
Definition note_divisions (n : XMLNote.t) : Z :=
  Duration._divisions (XMLNote.duration n).

Definition leaf_divisions (l : Leaf) : list Z :=
  match l with
  | NoteOrRest n => [note_divisions n]
  | Chord first others => note_divisions first :: (note_divisions <$> others)
  end.

Definition element_divisions (e : Element) : list Z :=
  match e with
  | Single (ALeaf l) => leaf_divisions l
  | Single (ABarRest b) => [BarRestDuration._divisions (BarRest.duration b)]
  | BeamedGroupOf contents => concat (leaf_divisions <$> contents)
  | TupletOf contents _ => concat (leaf_divisions <$> contents)
  end.

Definition voice_divisions (v : option (list Element)) : list Z :=
  match v with
  | None => []
  | Some elements => concat (element_divisions <$> elements)
  end.

Definition voices_divisions (vs : list (option (list Element))) : list Z :=
  concat (voice_divisions <$> vs).

(** A summary of a rendered child: its kind and the number it carries, for
    a [note] the text of its [duration] element. *)
Inductive ChildKind : Type :=
  | KAttributes (divisions : Z)
  | KNote (duration : Z)
  | KDirection
  | KBackup (duration : Z)
  | KForward (duration : Z)
  | KBarline.

Definition kind_of (c : XMLChild) : ChildKind :=
  match c with
  | AttributesEl divisions _ _ _ => KAttributes divisions
  | NoteEl n => KNote (XMLNote.length_in_divisions n)
  | BarRestEl b => KNote (BarRest.length_in_divisions b)
  | DirectionEl _ => KDirection
  | BackupEl duration => KBackup duration
  | ForwardEl duration => KForward duration
  | BarlineEl _ => KBarline
  end.

Definition rendered_kinds (m : Measure.t) : option (result (list ChildKind)) :=
  match Measure.render m with
  | Some (Ok (el, _)) => Some (Ok (kind_of <$> el_children el))
  | Some (Raise e) => Some (Raise e)
  | None => None
  end.

(** A 4/4 measure of two voices, four quarter notes over two quarter
    notes, with two directions displaced by 1/32 and 1/15 of a quarter,
    which bring the divisions to 480. *)
Definition two_voice_measure : Measure.t :=
  Measure.mk
    (ManyVoices
       [Some (replicate 4 (Single (ALeaf (sample_note quarter))));
        Some (replicate 2 (Single (ALeaf (sample_note quarter))))])
    (Some (4, 4)) None None None 1
    [(mkDirection "a" 1, (1 # 32)%Q); (mkDirection "b" 1, (1 # 15)%Q)].

(** ** [Duration]: the alternative constructors *)

(** [Duration.from_written_length(written_length, tuplet_ratio,
    max_dots_allowed)]; the [ValueError] of the decomposition is raised
    again as it is. *)
Definition Duration_from_written_length (written_length : Q)
    (tuplet_ratio : option TupletRatio) (max_dots_allowed : Z)
  : option (result Duration.t) :=
  match get_note_type_and_number_of_dots written_length max_dots_allowed with
  | Some (Ok (note_type, num_dots)) =>
      Some (Ok (Duration.init note_type num_dots tuplet_ratio))
  | Some (Raise err) => Some (Raise err)
  | None => None
  end.

(** [Duration.from_divisor(divisor, num_dots, tuplet_ratio)] on an [int]
    divisor: [4.0 / divisor] raises [ZeroDivisionError] on 0, and
    [from_written_length] is called with its default of four dots. *)
Definition Duration_from_divisor (divisor : Z) (num_dots : nat)
    (tuplet_ratio : option TupletRatio) : option (result Duration.t) :=
  if divisor =? 0 then Some (Raise ZeroDivisionError)
  else
    match ladder_lookup (4 / inject_Z divisor) with
    | None => Some (Raise ValueError)
    | Some _ =>
        Duration_from_written_length
          (4 / inject_Z divisor * _dot_multiplier num_dots) tuplet_ratio 4
    end.

(** ** Positions in a rendered measure *)

(** Where the [direction] children of a measure stand: the position, in
    divisions from the start of the measure, that the children before
    them leave.  A [note] moves the position on by its duration, unless it
    carries [chord]; [backup] and [forward] move it back and on. *)
Fixpoint direction_positions (position : Z) (children : list XMLChild)
  : list (Direction * Z) :=
  match children with
  | [] => []
  | child :: children =>
      match child with
      | DirectionEl d => (d, position) :: direction_positions position children
      | BackupEl n => direction_positions (position - n) children
      | ForwardEl n => direction_positions (position + n) children
      | NoteEl n =>
          direction_positions
            (if XMLNote.is_chord_member n then position
             else position + XMLNote.length_in_divisions n) children
      | BarRestEl b =>
          direction_positions (position + BarRest.length_in_divisions b)
            children
      | AttributesEl _ _ _ _ | BarlineEl _ =>
          direction_positions position children
      end
  end.

(** A [backup] or [forward] that moves by a positive amount; any other
    child passes. *)
Definition moves_forth (c : XMLChild) : Prop :=
  match c with
  | BackupEl n | ForwardEl n => 0 < n
  | _ => True
  end.

(** A 2/4 measure of an eighth-note triplet and a quarter note. *)
Definition triplet_measure : Measure.t :=
  let ratio := mkRatio 3 2 None in
  let contents :=
    match Tuplet.init (replicate 3 (sample_note eighth)) ratio with
    | Ok contents => contents
    | Raise _ => []
    end in
  Measure.mk
    (OneVoice [TupletOf contents ratio; Single (ALeaf (sample_note quarter))])
    (Some (2, 4)) None None None 1 [].

(** ** Start times *)

(** The leaves of a voice with their start times: a voice starts at
    [beat] and each leaf starts where the one before it ends. *)
Fixpoint with_onsets (beat : Q) (voice : list TimedLeaf)
  : list (Q * TimedLeaf) :=
  match voice with
  | [] => []
  | x :: voice =>
      (beat, x) :: with_onsets (beat + TimedLeaf.true_length x)%Q voice
  end.

(** Not later than: the order of start times. *)
Definition starts_by (a b : Q * TimedLeaf) : Prop := (fst a <= fst b)%Q.

(** The timed leaves of a pending voice of [iter_leaves], which starts at
    its entry of [next_note_beats]. *)
Definition onsets_of (v : Q * list TimedLeaf) : list (Q * TimedLeaf) :=
  with_onsets (fst v) (snd v).

(** A bar rest of negative length is what [BarRest] does not refuse and
    the merge cannot order; notes, rests and chords have none. *)
Definition no_negative_bar_rest (x : TimedLeaf) : Prop :=
  match x with
  | ABarRest b => (0 <= BarRest.true_length b)%Q
  | ALeaf _ => True
  end.

(** Two quarter notes in one voice over a half note in another. *)
Definition quarters_over_half : list (option (list Element)) :=
  [Some [Single (ALeaf (sample_note quarter));
         Single (ALeaf (sample_note quarter))];
   Some [Single (ALeaf (sample_note half))]].

(** ** [Note]: the tie properties *)

Definition XMLNote_set_ties (self : XMLNote.t) (value : option TieType)
  : XMLNote.t :=
  XMLNote.mk (XMLNote.pitch self) (XMLNote.duration self) value
    (XMLNote.notations self) (XMLNote.tuplet_bracket self)
    (XMLNote.beams self) (XMLNote.directions self) (XMLNote.is_grace self)
    (XMLNote.is_chord_member self) (XMLNote.voice self).

Module Note.
(** [self.ties in ("start", "continue")] *)
Definition starts_tie (self : XMLNote.t) : bool :=
  match XMLNote.ties self with
  | Some TieStart | Some TieContinue => true
  | Some TieStop | None => false
  end.

(** The setter of [starts_tie]; [value] is tested for truth. *)
Definition set_starts_tie (self : XMLNote.t) (value : bool) : XMLNote.t :=
  if value then
    XMLNote_set_ties self
      (match XMLNote.ties self with
       | Some TieStart | None => Some TieStart
       | _ => Some TieContinue
       end)
  else
    XMLNote_set_ties self
      (match XMLNote.ties self with
       | Some TieStart | None => None
       | _ => Some TieStop
       end).

(** [self.ties in ("stop", "continue")] *)
Definition stops_tie (self : XMLNote.t) : bool :=
  match XMLNote.ties self with
  | Some TieStop | Some TieContinue => true
  | Some TieStart | None => false
  end.

(** The setter of [stops_tie]. *)
Definition set_stops_tie (self : XMLNote.t) (value : bool) : XMLNote.t :=
  if value then
    XMLNote_set_ties self
      (match XMLNote.ties self with
       | Some TieStop | None => Some TieStop
       | _ => Some TieContinue
       end)
  else
    XMLNote_set_ties self
      (match XMLNote.ties self with
       | Some TieStop | None => None
       | _ => Some TieStart
       end).
End Note.

(** ** Tuplets *)

(** What [_set_tuplet_info_for_contents] does to the bracket of the leaf
    at index [i] of [n]: the first leaf gets ["start"], and then the last
    gets ["stop"]. *)
Definition bracket_at (n i : nat) (leaf : Leaf) : Leaf :=
  let leaf :=
    if decide (i = 0%nat) then Leaf.set_tuplet_bracket leaf (Some BracketStart)
    else leaf in
  if decide (i = (n - 1)%nat) then Leaf.set_tuplet_bracket leaf (Some BracketStop)
  else leaf.

(** The factor [normal / actual] of a tuplet ratio. *)
Definition tuplet_modification (ratio : TupletRatio) : Q :=
  (Z.pos (normal_notes ratio) # actual_notes ratio)%Q.

(** No grace note or grace chord. *)
Definition no_grace (leaf : Leaf) : Prop :=
  XMLNote.is_grace (Leaf.head leaf) = false.

(** The true length of a leaf is a fraction that [limit_denominator]
    leaves as it is, and its denominator divides [d]. *)
Definition fits_divisions (d : Z) (leaf : Leaf) : Prop :=
  Z.pos (Qden (Qred (Leaf.true_length leaf))) <= 1000000 /\
  (Leaf.min_denominator leaf | d).

(** ** Slurs across leaves *)

(** A notation that neither starts nor stops the slur [K]. *)
Definition other_slur (K : SlurId) (notation : Notation) : Prop :=
  notation <> StartSlur K /\ notation <> StopSlur K.

(** What the renumbering may change of a notation: the id of a slur. *)
Definition same_kind (notation notation' : Notation) : Prop :=
  match notation, notation' with
  | StartSlur _, StartSlur _ => True
  | StopSlur _, StopSlur _ => True
  | OtherNotation name, OtherNotation name' => name = name'
  | _, _ => False
  end.

(** A leaf with its notations renumbered and nothing else changed. *)
Definition renumbered (leaf leaf' : TimedLeaf) : Prop :=
  exists notations,
    leaf' = TimedLeaf.set_notations leaf notations /\
    Forall2 same_kind (TimedLeaf.notations leaf) notations.

(** ** Beam runs *)

(** The states that open or carry on a beam, and those that carry on or
    close one. *)
Definition beam_goes_on (v : BeamType) : bool :=
  match v with BeamBegin | BeamContinue => true | _ => false end.

Definition beam_comes_in (v : BeamType) : bool :=
  match v with BeamContinue | BeamEnd => true | _ => false end.

(** Leaves as [Note], [Rest] and [Chord] build them: with no beams. *)
Definition unbeamed (leaf : Leaf) : Prop := Leaf.beams leaf = ∅.

(** ** [pad_with_rests] *)

(** What a call that holds [assert] statements ends with: a value, an
    exception, or the [AssertionError] of a failed [assert]. *)
Inductive outcome (A : Type) : Type :=
  | Returns (a : A)
  | Raises (e : PyExn)
  | AssertionError.

Arguments Returns {A} a.
Arguments Raises {A} e.
Arguments AssertionError {A}.

(** [_is_power_of_two(x)]: [math.log2(x) == int(math.log2(x))].  On the
    integers from 1 to 1000000, the denominators it is called on, the
    logarithm of a power of two is exact and that of any other integer is
    off every integer by far more than a rounding error. *)
Definition _is_power_of_two (x : Z) : bool := x =? 2 ^ Z.log2 x.

(** [true_length] of an entry of a voice. *)
Definition Element_true_length (self : Element) : Q :=
  match self with
  | Single x => TimedLeaf.true_length x
  | BeamedGroupOf contents => BeamedGroup.true_length contents
  | TupletOf contents _ => BeamedGroup.true_length contents
  end.

(** [Rest(duration)] on a number: the duration is
    [Duration.from_written_length(duration)]. *)
Definition Rest_init (duration : Q) : option (result XMLNote.t) :=
  match Duration_from_written_length duration None 4 with
  | Some (Ok duration) =>
      Some (Ok (XMLNote.mk None duration None [] None ∅ [] false false None))
  | Some (Raise e) => Some (Raise e)
  | None => None
  end.

(** [while remaining_length >= longer_rest_length] of [pad_with_rests],
    on the state [(remaining_length, longer_rests)]; [fuel] bounds the
    number of iterations. *)
Fixpoint longer_rests_loop (fuel : nat) (longer_rest_length : Z)
    (remaining_length : Q) (longer_rests : list XMLNote.t)
  : option (result (Q * list XMLNote.t)) :=
  if Qle_bool (inject_Z longer_rest_length) remaining_length then
    match fuel with
    | O => None
    | S fuel =>
        match Rest_init (inject_Z longer_rest_length) with
        | Some (Ok rest) =>
            longer_rests_loop fuel longer_rest_length
              (limit_denominator
                 (remaining_length - inject_Z longer_rest_length) 1000000)
              (longer_rests ++ [rest])
        | Some (Raise e) => Some (Raise e)
        | None => None
        end
    end
  else Some (Ok (remaining_length, longer_rests)).

(** [for longer_rest_length in (4, 2, 1)]; every iteration of an inner
    loop takes at least 1 off the remaining length. *)
Fixpoint longer_rests_for (lengths : list Z) (remaining_length : Q)
    (longer_rests : list XMLNote.t) : option (result (Q * list XMLNote.t)) :=
  match lengths with
  | [] => Some (Ok (remaining_length, longer_rests))
  | longer_rest_length :: lengths =>
      match longer_rests_loop (Z.to_nat (Qfloor remaining_length))
              longer_rest_length remaining_length longer_rests with
      | Some (Ok (remaining_length, longer_rests)) =>
          longer_rests_for lengths remaining_length longer_rests
      | other => other
      end
  end.

(** [while remaining_length > 0] of [pad_with_rests], on the state
    [(remaining_length, components)]. *)
Fixpoint odd_rests_loop (fuel : nat) (remaining_length : Q)
    (components : list Element) : option (result (list Element)) :=
  if negb (Qle_bool remaining_length 0) then
    match fuel with
    | O => None
    | S fuel =>
        let odd_remainder := (1 / inject_Z (Z.pos (Qden remaining_length)))%Q in
        match Rest_init odd_remainder with
        | Some (Ok rest) =>
            odd_rests_loop fuel
              (limit_denominator (remaining_length - odd_remainder) 1000000)
              (components ++ [Single (ALeaf (NoteOrRest rest))])
        | Some (Raise e) => Some (Raise e)
        | None => None
        end
    end
  else Some (Ok components).

(** [pad_with_rests(components, desired_length)] on a list of components.
    The second loop takes the lowest binary digit off a remaining length
    below 1 with each rest, so the denominator bounds it.  [sum_length] is
    a sum of rationals where the code adds doubles: the two agree on
    components outside tuplets ([plain]), and differ in the last place on
    some tuplets, whose sum the first [assert] can then find above a
    desired length it equals. *)
Definition pad_with_rests (components : list Element) (desired_length : Q)
  : option (outcome (list Element)) :=
  let sum_length := foldl Qplus 0%Q (Element_true_length <$> components) in
  if negb (Qle_bool sum_length desired_length) then Some AssertionError
  else
    let remaining_length :=
      limit_denominator (desired_length - sum_length) 1000000 in
    if negb (_is_power_of_two (Z.pos (Qden remaining_length)))
    then Some AssertionError
    else
      match longer_rests_for [4; 2; 1] remaining_length [] with
      | None => None
      | Some (Raise e) => Some (Raises e)
      | Some (Ok (remaining_length, longer_rests)) =>
          let longer_rests := reverse longer_rests in
          match odd_rests_loop (Pos.to_nat (Qden remaining_length))
                  remaining_length components with
          | None => None
          | Some (Raise e) => Some (Raises e)
          | Some (Ok components) =>
              Some (Returns
                      (components
                       ++ ((fun rest => Single (ALeaf (NoteOrRest rest)))
                             <$> longer_rests)))
          end
      end.

(** The rest that [Rest] builds of a note type, as an entry of a voice. *)
Definition rest_of (t : NoteType) : Element := Single (ALeaf (sample_rest t)).

(** The rests that fill a remaining length of [m / 256] below 1: one for
    every binary digit of [m] that is set, the lowest digit first. *)
Definition small_rest_types (m : Z) : list NoteType :=
  omap (fun it : Z * NoteType => if Z.testbit m (fst it) then Some (snd it) else None)
       [(0, n1024th); (1, n512th); (2, n256th); (3, n128th); (4, n64th);
        (5, n32nd); (6, n16th); (7, eighth)].

(** Not longer than. *)
Definition not_longer (t t' : NoteType) : Prop :=
  (_note_type_to_length t <= _note_type_to_length t')%Q.

(** ** [_escape_split] *)

(** Strings are lists of characters; the code only compares characters,
    with each other and with the backslash. *)
Section EscapeSplit.
Context {Char : Type} `{EqDecision Char} (backslash : Char).

(** [s.find(delimiter)]: the least index at which [delimiter] starts in
    [s]; [None] stands for -1. *)
Fixpoint find_at (s delimiter : list Char) : option nat :=
  if bool_decide (delimiter `prefix_of` s) then Some 0%nat
  else match s with
       | [] => None
       | _ :: s => S <$> find_at s delimiter
       end.

(** [s.find(delimiter, i)] for [i >= 0] *)
Definition str_find (s delimiter : list Char) (i : nat) : option nat :=
  if decide (i <= length s)%nat
  then (fun j => (i + j)%nat) <$> find_at (drop i s) delimiter
  else None.

(** [s[a:b]] for [a, b >= 0] *)
Definition slice (s : list Char) (a b : nat) : list Char :=
  drop a (take b s).

(** [while j - e and s[j - e - 1] == '\\': e += 1]; the loop runs at most
    [j] times. *)
Fixpoint count_escapes (fuel : nat) (s : list Char) (j e : nat) : nat :=
  match fuel with
  | O => e
  | S fuel =>
      if bool_decide ((j - e)%nat <> 0%nat)
         && bool_decide (s !! (j - e - 1)%nat = Some backslash)
      then count_escapes fuel s j (S e)
      else e
  end.

(** The [while True] loop of [_escape_split] on the state [(i, res,
    buf)]; [fuel] bounds the number of further iterations and [None]
    means that the bound was reached. *)
Fixpoint escape_split_loop (fuel : nat) (s delimiter : list Char) (i : nat)
    (res : list (list Char)) (buf : list Char)
  : option (result (list (list Char))) :=
  match str_find s delimiter i with
  | None => Some (Ok (res ++ [buf ++ drop i s]))
  | Some j =>
      let e := count_escapes j s j 0 in
      let d := (e / 2)%nat in
      match fuel with
      | O => None
      | S fuel =>
          if bool_decide (e <> (d * 2)%nat) then
            match s !! j with
            | Some c =>
                escape_split_loop fuel s delimiter (j + 1) res
                  (buf ++ slice s i (j - d - 1) ++ [c])
            | None => Some (Raise IndexError)
            end
          else
            escape_split_loop fuel s delimiter (j + length delimiter)
              (res ++ [buf ++ slice s i (j - d)]) []
      end
  end.

(** [_escape_split(s, delimiter)]; with a delimiter that is not empty
    every iteration moves [i] on, so the length of [s] bounds the loop. *)
Definition _escape_split (s delimiter : list Char)
  : option (result (list (list Char))) :=
  escape_split_loop (length s) s delimiter 0 [] [].

(** [delimiter.join(pieces)] *)
Fixpoint str_join (delimiter : list Char) (pieces : list (list Char))
  : list Char :=
  match pieces with
  | [] => []
  | [piece] => piece
  | piece :: pieces => piece ++ delimiter ++ str_join delimiter pieces
  end.
End EscapeSplit.

(** The backslash, and a string as the list of its characters. *)
Definition backslash_char : Ascii.ascii := Ascii.ascii_of_nat 92.

Definition chars (s : string) : list Ascii.ascii :=
  String.list_ascii_of_string s.

(** ** [Chord]: the tie property *)

Global Instance TieType_eq_dec : EqDecision TieType.
Proof. solve_decision. Defined.

(** What [Chord.ties] holds: one tie state for all notes, or one for each
    note. *)
Inductive ChordTies : Type :=
  | TiesOfAll (ties : option TieType)
  | TiesOfEach (ties : list (option TieType)).

(** [self.notes] of a chord. *)
Definition Chord_notes (first : XMLNote.t) (others : list XMLNote.t)
  : list XMLNote.t :=
  first :: others.

(** The getter of [Chord.ties]. *)
Definition Chord_ties (first : XMLNote.t) (others : list XMLNote.t)
  : ChordTies :=
  if forallb (fun note => bool_decide (XMLNote.ties note = XMLNote.ties first))
       others
  then TiesOfAll (XMLNote.ties first)
  else TiesOfEach (XMLNote.ties <$> Chord_notes first others).

(** The setter of [Chord.ties]: a list must have one entry for every
    note. *)
Definition Chord_set_ties (first : XMLNote.t) (others : list XMLNote.t)
    (value : ChordTies) : outcome (list XMLNote.t) :=
  match value with
  | TiesOfEach ties =>
      if bool_decide (length ties = length (Chord_notes first others))
      then Returns (zip_with XMLNote_set_ties (Chord_notes first others) ties)
      else AssertionError
  | TiesOfAll ties =>
      Returns ((fun note => XMLNote_set_ties note ties)
                 <$> Chord_notes first others)
  end.

(** What the getter returns of the ties that were set. *)
Definition shown_ties (value : ChordTies) : ChordTies :=
  match value with
  | TiesOfAll ties => TiesOfAll ties
  | TiesOfEach [] => TiesOfEach []
  | TiesOfEach (t :: ties) =>
      if forallb (fun t' => bool_decide (t' = t)) ties then TiesOfAll t
      else TiesOfEach (t :: ties)
  end.

(** ** [Score]: part numbers *)

(** The parts of a score are objects that the score, its part groups and
    the caller share: an entry holds references into a store of parts. *)
Inductive ScoreEntry : Type :=
  | PartRef (part : nat)
  | PartGroupOf (parts : list nat) (has_bracket has_group_bar_line : bool).

Module Score.
Record t : Type := mk {
  contents : list ScoreEntry;
  title : option string;
  composer : option string
}.

(** The [parts] property: part groups expanded. *)
Definition parts (self : t) : list nat :=
  concat ((fun part_or_group =>
             match part_or_group with
             | PartRef part => [part]
             | PartGroupOf parts _ _ => parts
             end) <$> contents self).

Definition set_part_id (part : Part.t) (value : Z) : Part.t :=
  Part.mk (Part.part_name part) (Part.measures part) value.

(** One iteration of [for part in self.parts] on the store and
    [next_id]. *)
Definition number_part (st : gmap nat Part.t * Z) (part : nat)
  : gmap nat Part.t * Z :=
  (alter (fun p => set_part_id p (snd st)) part (fst st), snd st + 1).

(** [_set_part_numbers]: the store after the call. *)
Definition _set_part_numbers (self : t) (store : gmap nat Part.t)
  : gmap nat Part.t :=
  fst (foldl number_part (store, 1) (parts self)).
End Score.

(** The number of the last place at which [part] stands in [parts],
    counted from [first]. *)
Fixpoint last_place (first : Z) (parts : list nat) (part : nat) : option Z :=
  match parts with
  | [] => None
  | p :: parts =>
      match last_place (first + 1) parts part with
      | Some k => Some k
      | None => if decide (p = part) then Some first else None
      end
  end.

(** ** [MetronomeMark] *)

Module MetronomeMark.
Record t : Type := mk {
  beat_unit : Duration.t;
  bpm : Q
}.

(** [MetronomeMark.__init__(beat_length, bpm)]: a beat length that is no
    single note falls back to a quarter-note beat. *)
Definition init (beat_length : Q) (bpm : Q) : option (result t) :=
  match Duration_from_written_length beat_length None 4 with
  | Some (Ok beat_unit) => Some (Ok (mk beat_unit bpm))
  | Some (Raise ValueError) =>
      match Duration_from_written_length 1 None 4 with
      | Some (Ok beat_unit) =>
          if Qeq_bool beat_length 0 then Some (Raise ZeroDivisionError)
          else Some (Ok (mk beat_unit (bpm / beat_length)))
      | Some (Raise e) => Some (Raise e)
      | None => None
      end
  | Some (Raise e) => Some (Raise e)
  | None => None
  end.
End MetronomeMark.

(** ** [MusicXMLContainer]: the other methods *)

Section ContainerMethods.
Context {A : Type} (allowed : A -> bool).

(** [list.insert(i, o)]: an index beyond either end is brought to the
    end. *)
Definition list_insert_at (l : list A) (i : Z) (o : A) : list A :=
  let n := Z.of_nat (length l) in
  let i := if i <? 0 then Z.max 0 (i + n) else Z.min i n in
  take (Z.to_nat i) l ++ o :: drop (Z.to_nat i) l.

(** [MusicXMLContainer.__init__]: [allowed] is
    [isinstance(x, self.allowed_types)]. *)
Definition Container_init (contents : list A)
  : result (MusicXMLContainer A) :=
  if forallb allowed contents then Ok (mkContainer contents)
  else Raise ValueError.

(** [MusicXMLContainer.insert(i, o)] *)
Definition Container_insert (self : MusicXMLContainer A) (i : Z) (o : A)
  : result (MusicXMLContainer A) :=
  if allowed o then Ok (mkContainer (list_insert_at (contents self) i o))
  else Raise ValueError.

(** [__setitem__(i, o)] at an integer index: no type is checked. *)
Definition __setitem__ (self : MusicXMLContainer A) (i : Z) (o : A)
  : result (MusicXMLContainer A) :=
  let n := Z.of_nat (length (contents self)) in
  let j := if i <? 0 then i + n else i in
  if (j <? 0) || (n <=? j) then Raise IndexError
  else Ok (mkContainer (<[Z.to_nat j := o]> (contents self))).

(** [__delitem__(i)] at an integer index. *)
Definition __delitem__ (self : MusicXMLContainer A) (i : Z)
  : result (MusicXMLContainer A) :=
  let n := Z.of_nat (length (contents self)) in
  let j := if i <? 0 then i + n else i in
  if (j <? 0) || (n <=? j) then Raise IndexError
  else Ok (mkContainer (delete (Z.to_nat j) (contents self))).
End ContainerMethods.

(** ** [wrap_as_score] *)

(** [int(x)] of a float: truncation toward zero. *)
Definition int_of_float (x : Q) : Z := Z.quot (Qnum x) (Z.pos (Qden x)).

(** [Measure(contents, time_signature)] on a list of notes, rests, chords
    and groups: the other arguments have their defaults. *)
Definition Measure_init (contents : list Element) (time_signature : Z * Z)
  : Measure.t :=
  Measure.mk (OneVoice contents) (Some time_signature) None None None 1 [].

(** [Measure(pad_with_rests(self, measure_length), (measure_length, 4))] *)
Definition padded_measure (self : Element) (measure_length : Z)
  : option (outcome Measure.t) :=
  match pad_with_rests [self] (inject_Z measure_length) with
  | Some (Returns contents) =>
      Some (Returns (Measure_init contents (measure_length, 4)))
  | Some (Raises e) => Some (Raises e)
  | Some AssertionError => Some AssertionError
  | None => None
  end.

(** The measure on which [wrap_as_score] of a note, rest, bar rest, chord
    or group calls [Measure.wrap_as_score]: [_XMLNote.wrap_as_score] with
    its branch for a [BarRest], [Chord.wrap_as_score], which reads as the
    other branch, and [BeamedGroup.wrap_as_score].  The true length is a
    rational where the code has a double: the two agree outside tuplets
    ([plain]); the double of a tuplet can lie above a whole number that
    the rational equals, and [math.ceil] then gives one more. *)
Definition wrapping_measure (self : Element) : option (outcome Measure.t) :=
  match self with
  | Single (ABarRest b) =>
      let duration_as_fraction :=
        limit_denominator (BarRest.true_length b) 1000000 in
      if negb (_is_power_of_two (Z.pos (Qden duration_as_fraction)))
      then Some AssertionError
      else
        let time_signature :=
          (Qnum duration_as_fraction,
           Z.pos (Qden duration_as_fraction) * 4) in
        Some (Returns (Measure_init [self] time_signature))
  | Single (ALeaf l) =>
      let measure_length :=
        if Qle_bool (Leaf.true_length l) 4 then 4
        else int_of_float (Leaf.true_length l) + 1 in
      padded_measure self measure_length
  | BeamedGroupOf _ | TupletOf _ _ =>
      let measure_length :=
        if Qle_bool (Element_true_length self) 4 then 4
        else Qceiling (Element_true_length self) in
      padded_measure self measure_length
  end.

(** ** [Chord.__init__] *)

(** An entry of the [notations] argument of a chord: a notation, or a
    [StartMultiGliss] or [StopMultiGliss], given by what its [render()]
    returns: a gliss notation or [None] for each of its numbers. *)
Inductive ChordNotation : Type :=
  | PlainNotation (notation : Notation)
  | MultiGliss (rendered : list (option Notation)).

(** [for i, gliss_notation in enumerate(notation.render())], from index
    [i] on. *)
Fixpoint add_glisses (i : nat) (note_notations : list (list Notation))
    (rendered : list (option Notation)) : list (list Notation) :=
  match rendered with
  | [] => note_notations
  | gliss_notation :: rendered =>
      let note_notations :=
        match gliss_notation with
        | Some gliss =>
            if bool_decide (i < length note_notations)%nat
            then alter (fun l => l ++ [gliss]) i note_notations
            else note_notations
        | None => note_notations
        end in
      add_glisses (S i) note_notations rendered
  end.

(** [note_notations] after the loop over [notations]. *)
Definition chord_note_notations (n : nat) (notations : list ChordNotation)
  : list (list Notation) :=
  foldl (fun note_notations notation =>
           match notation with
           | MultiGliss rendered => add_glisses 0 note_notations rendered
           | PlainNotation x => alter (fun l => l ++ [x]) 0%nat note_notations
           end)
        (replicate n []) notations.

(** [ties if not isinstance(ties, (list, tuple)) else ties[i]] *)
Definition tie_at (ties : ChordTies) (i : nat) : option TieType :=
  match ties with
  | TiesOfAll t => t
  | TiesOfEach l => default None (l !! i)
  end.

(** [Chord(pitches, duration, ties, notations, directions=directions)] on
    [Pitch] objects and a [Duration]; [grace] tells a [GraceChord], which
    then marks every note as a grace note. *)
Definition Chord_init (grace : bool) (pitches : list Pitch)
    (duration : Duration.t) (ties : ChordTies)
    (notations : list ChordNotation) (directions : list Direction)
  : outcome Leaf :=
  if negb (bool_decide (1 < length pitches)%nat) then AssertionError
  else if negb (match ties with
                | TiesOfAll _ => true
                | TiesOfEach l => bool_decide (length l = length pitches)
                end)
  then AssertionError
  else
    let note_notations := chord_note_notations (length pitches) notations in
    let notes :=
      imap (fun i pitch =>
              XMLNote.mk (Some pitch) duration (tie_at ties i)
                (default [] (note_notations !! i)) None ∅
                (if bool_decide (i = 0%nat) then directions else [])
                grace (negb (bool_decide (i = 0%nat))) None)
           pitches in
    match notes with
    | first :: others => Returns (Chord first others)
    | [] => AssertionError
    end.

(** The notations of [notations] that go to note [i]: all of them for
    the first note, the [i]-th of every multi-gliss. *)
Definition notations_for (i : nat) (notations : list ChordNotation)
  : list Notation :=
  omap (fun notation =>
          match notation with
          | PlainNotation x => if bool_decide (i = 0%nat) then Some x else None
          | MultiGliss rendered => mjoin (rendered !! i)
          end)
       notations.

(** ** Lengths that doubles hold exactly *)

(** A note, rest or chord that stands in no tuplet and has at most four
    dots.  Its true length is a whole number of 4096ths of a quarter
    note; doubles hold such lengths and, up to a million quarter notes,
    add and subtract them without rounding, so that the sums of the code
    are the sums of the rationals here. *)
Definition plain_leaf (l : Leaf) : Prop :=
  Duration.tuplet_ratio (XMLNote.duration (Leaf.head l)) = None /\
  (Duration.num_dots (XMLNote.duration (Leaf.head l)) <= 4)%nat.

(** A plain leaf, or a beamed group of plain leaves. *)
Definition plain (e : Element) : Prop :=
  match e with
  | Single (ALeaf l) => plain_leaf l
  | BeamedGroupOf contents => Forall plain_leaf contents
  | Single (ABarRest _) | TupletOf _ _ => False
  end.

(** ** Measures as the constructors leave them *)

(** [self.notes] of a chord, the note itself otherwise. *)
Definition Leaf_notes (self : Leaf) : list XMLNote.t :=
  match self with
  | NoteOrRest n => [n]
  | Chord first others => first :: others
  end.

(** A chord as [Chord] builds it: every note after the first is a chord
    member, and all notes hold the one duration they were given; a note or
    rest is no chord member. *)
Definition leaf_built (l : Leaf) : Prop :=
  match l with
  | NoteOrRest n => XMLNote.is_chord_member n = false
  | Chord first others =>
      XMLNote.is_chord_member first = false /\
      Forall (fun n => XMLNote.is_chord_member n = true /\
                       XMLNote.duration n = XMLNote.duration first /\
                       XMLNote.is_grace n = XMLNote.is_grace first)
             others
  end.

(** A leaf that holds the ratio of the tuplet it stands in.  [Tuplet]
    stamps the ratio on the leaves it is built of; a leaf put into the
    tuplet later ([insert], [append]) holds it only once the tuplet has
    been rendered or asked for its [min_denominator]. *)
Definition stamped (ratio : TupletRatio) (l : Leaf) : Prop :=
  Forall (fun n => Duration.tuplet_ratio (XMLNote.duration n) = Some ratio)
         (Leaf_notes l).

Definition element_stamped (e : Element) : Prop :=
  match e with
  | TupletOf contents ratio => Forall (stamped ratio) contents
  | _ => True
  end.

Definition element_built (e : Element) : Prop :=
  match e with
  | Single (ALeaf l) => leaf_built l
  | Single (ABarRest _) => True
  | BeamedGroupOf contents => Forall leaf_built contents
  | TupletOf contents ratio =>
      Forall leaf_built contents /\ Forall (stamped ratio) contents
  end.

Definition voices_built (vs : list (option (list Element))) : Prop :=
  Forall (fun v : option (list Element) =>
            match v with
            | Some elements => Forall element_built elements
            | None => True
            end) vs.

(** A measure of notes, rests, chords, groups and tuplets as their
    constructors leave them. *)
Definition measure_built (m : Measure.t) : Prop :=
  match Measure.voices (Measure.contents m) with
  | Ok vs => voices_built vs
  | Raise _ => False
  end.

(** What tells the time a note takes: its duration, whether it is a grace
    note and whether it is a chord member; of a bar rest, its duration. *)
Definition Timing : Type := (Duration.t * bool * bool) + BarRestDuration.t.

Definition note_timing (n : XMLNote.t) : Timing :=
  inl (XMLNote.duration n, XMLNote.is_grace n, XMLNote.is_chord_member n).

Definition leaf_timings (l : Leaf) : list Timing :=
  note_timing <$> Leaf_notes l.

Definition element_timings (e : Element) : list Timing :=
  match e with
  | Single (ALeaf l) => leaf_timings l
  | Single (ABarRest b) => [inr (BarRest.duration b)]
  | BeamedGroupOf contents => concat (leaf_timings <$> contents)
  | TupletOf contents _ => concat (leaf_timings <$> contents)
  end.

Definition voice_timings (v : list Element) : list Timing :=
  concat (element_timings <$> v).

Definition child_timing (c : XMLChild) : option Timing :=
  match c with
  | NoteEl n => Some (note_timing n)
  | BarRestEl b => Some (inr (BarRest.duration b))
  | _ => None
  end.

Definition child_timings (children : list XMLChild) : list Timing :=
  omap child_timing children.

(** The divisions by which a [note] element moves the position on: its
    [duration], unless it carries [chord] or is a grace note. *)
Definition timing_ticks (t : Timing) : Z :=
  match t with
  | inl (duration, is_grace, is_chord_member) =>
      if is_chord_member then 0
      else if is_grace then 0 else Duration.length_in_divisions duration
  | inr duration => BarRestDuration.length_in_divisions duration
  end.

Definition ticks (ts : list Timing) : Z := foldr Z.add 0 (timing_ticks <$> ts).

(** The position, in divisions from the start of the measure, that the
    children leave: see [direction_positions]. *)
Fixpoint end_position (position : Z) (children : list XMLChild) : Z :=
  match children with
  | [] => position
  | child :: children =>
      match child with
      | BackupEl n => end_position (position - n) children
      | ForwardEl n => end_position (position + n) children
      | NoteEl n =>
          end_position
            (if XMLNote.is_chord_member n then position
             else position + XMLNote.length_in_divisions n) children
      | BarRestEl b =>
          end_position (position + BarRest.length_in_divisions b) children
      | DirectionEl _ | AttributesEl _ _ _ _ | BarlineEl _ =>
          end_position position children
      end
  end.

(** A [note] element whose [duration] is the true length of the note in
    divisions, with nothing lost to rounding; asked of lengths that
    [limit_denominator] leaves as they are. *)
Definition exact_child (d : Z) (c : XMLChild) : Prop :=
  match c with
  | NoteEl n =>
      Z.pos (Qden (Qred (XMLNote.true_length n))) <= 1000000 ->
      (inject_Z (XMLNote.length_in_divisions n)
       == XMLNote.true_length n * inject_Z d)%Q
  | BarRestEl b =>
      Z.pos (Qden (Qred (BarRest.true_length b))) <= 1000000 ->
      (inject_Z (BarRest.length_in_divisions b)
       == BarRest.true_length b * inject_Z d)%Q
  | _ => True
  end.

Definition timing_exact (d : Z) (t : Timing) : Prop :=
  match t with
  | inl (duration, is_grace, _) =>
      is_grace = false ->
      Z.pos (Qden (Qred (Duration.true_length duration))) <= 1000000 ->
      (inject_Z (Duration.length_in_divisions duration)
       == Duration.true_length duration * inject_Z d)%Q
  | inr duration =>
      Z.pos (Qden (Qred (BarRestDuration.true_length duration))) <= 1000000 ->
      (inject_Z (BarRestDuration.length_in_divisions duration)
       == BarRestDuration.true_length duration * inject_Z d)%Q
  end.

Definition voices_timings (vs : list (option (list Element))) : list Timing :=
  concat ((fun v : option (list Element) =>
             match v with
             | Some elements => voice_timings elements
             | None => []
             end) <$> vs).

(** A displacement that is a whole number of 256ths of a quarter note, of
    at most a million quarter notes either way: a double holds it, and its
    product with the divisions, without rounding. *)
Definition on_grid (displacement : Q) : Prop :=
  exists k : Z,
    -256000000 <= k <= 256000000 /\ (displacement == k # 256)%Q.

(** Two quarter notes made a triplet, to which a third quarter note is
    appended afterwards, over a half rest:
    [t = Tuplet([Note("c4", 1.0), Note("c4", 1.0)], (3, 2))],
    [t.append(Note("c4", 1.0))],
    [Measure([[t], [Rest(2.0)]], time_signature=(2, 4))]. *)
Definition stale_tuplet_measure : Measure.t :=
  let ratio := mkRatio 3 2 None in
  let contents :=
    match Tuplet.init [sample_note quarter; sample_note quarter] ratio with
    | Ok contents => contents
    | Raise _ => []
    end in
  Measure.mk
    (ManyVoices
       [Some [TupletOf (contents ++ [sample_note quarter]) ratio];
        Some [Single (ALeaf (sample_rest half))]])
    (Some (2, 4)) None None None 1 [].

(** Two quarter notes over a half note, with two directions displaced by
    a half and by three halves of a quarter note. *)
Definition marked_measure : Measure.t :=
  Measure.mk (ManyVoices quarters_over_half) (Some (2, 4)) None None None 1
    [(mkDirection "a" 1, (1 # 2)%Q); (mkDirection "b" 1, (3 # 2)%Q)].

(* ================================================================== *)
(** * Theorems *)

Example decompose_dotted_quarter :
  get_note_type_and_number_of_dots (3 # 2) 4 = Some (Ok (quarter, 1%nat)).
Proof. reflexivity. Qed.

Example decompose_double_dotted_half :
  get_note_type_and_number_of_dots (7 # 2) 4 = Some (Ok (half, 2%nat)).
Proof. reflexivity. Qed.

Example decompose_five_sixteenths :
  get_note_type_and_number_of_dots (5 # 4) 4 = Some (Raise ValueError).
Proof. reflexivity. Qed.

(** ** Containers *)

Lemma list_getitem_in_range {A : Type} (l : list A) (i : Z) :
  - Z.of_nat (length l) <= i < Z.of_nat (length l) ->
  exists x, list_getitem l i = Ok x.
Proof.
  intros Hi. unfold list_getitem.
  set (n := Z.of_nat (length l)) in *.
  set (j := if i <? 0 then i + n else i).
  assert (Hj : 0 <= j < n).
  { subst j. destruct (Z.ltb_spec i 0); lia. }
  destruct (Z.ltb_spec j 0); [lia |].
  destruct (Z.leb_spec n j); [lia |]. simpl.
  destruct (l !! Z.to_nat j) as [x |] eqn:Hl; [eauto |].
  apply lookup_ge_None in Hl. lia.
Qed.

(** C10: for every container and every in-range index [i] (negative
    indices counting from the end), [container[i]] evaluates the access to
    the stored element, which exists, and yet returns [None]; the
    contents after the call are the contents before it. *)
Theorem getitem_returns_None {A : Type} (c : MusicXMLContainer A) (i : Z) :
  - Z.of_nat (length (contents c)) <= i < Z.of_nat (length (contents c)) ->
  (exists x, list_getitem (contents c) i = Ok x) /\
  __getitem__ c i = Ok (None, c).
Proof.
  intros Hi. destruct (list_getitem_in_range _ _ Hi) as [x Hx].
  split; [eauto |]. unfold __getitem__. rewrite Hx. reflexivity.
Qed.

Lemma getitem_returns_None_witness :
  (- Z.of_nat (length (contents (mkContainer [10; 20; 30])))
     <= 1 < Z.of_nat (length (contents (mkContainer [10; 20; 30])))) /\
  list_getitem [10; 20; 30] 1 = Ok 20 /\
  __getitem__ (mkContainer [10; 20; 30]) 1 = Ok (None, mkContainer [10; 20; 30]).
Proof.
  assert (H : - Z.of_nat (length (contents (mkContainer [10; 20; 30])))
              <= 1 < Z.of_nat (length (contents (mkContainer [10; 20; 30])))).
  { simpl. lia. }
  split; [exact H |]. split; [reflexivity |].
  exact (proj2 (getitem_returns_None (mkContainer [10; 20; 30]) 1 H)).
Defined.

(** ** Tuplet brackets *)

Lemma tuplet_bracket_set_tuplet_ratio (leaf : Leaf) (r : option TupletRatio) :
  Leaf.tuplet_bracket (Leaf.set_tuplet_ratio leaf r) = Leaf.tuplet_bracket leaf.
Proof. destruct leaf; reflexivity. Qed.

Lemma tuplet_bracket_set_tuplet_bracket (leaf : Leaf) (b : option BracketType) :
  Leaf.tuplet_bracket (Leaf.set_tuplet_bracket leaf b) = b.
Proof. destruct leaf; reflexivity. Qed.

(** On one leaf [_set_tuplet_info_for_contents] writes ["start"] and then
    ["stop"] to the same leaf. *)
Lemma set_tuplet_info_single (leaf : Leaf) (ratio : TupletRatio) :
  exists leaf',
    Tuplet._set_tuplet_info_for_contents [leaf] ratio = Ok [leaf'] /\
    Leaf.tuplet_bracket leaf' = Some BracketStop.
Proof.
  eexists. split; [reflexivity |].
  rewrite tuplet_bracket_set_tuplet_ratio.
  apply tuplet_bracket_set_tuplet_bracket.
Qed.

(** With two leaves or more the first gets ["start"] and the last
    ["stop"]. *)
Lemma tuplet_brackets_two_or_more (first second : Leaf) (more : list Leaf)
    (ratio : TupletRatio) :
  exists contents',
    Tuplet._set_tuplet_info_for_contents (first :: second :: more) ratio
      = Ok contents' /\
    length contents' = length (first :: second :: more) /\
    Leaf.tuplet_bracket <$> head contents' = Some (Some BracketStart) /\
    Leaf.tuplet_bracket <$> last contents' = Some (Some BracketStop).
Proof.
  unfold Tuplet._set_tuplet_info_for_contents.
  change (list_getitem (first :: second :: more) 0) with (Ok (A := Leaf) first).
  cbn [mbind result_bind].
  set (contents1 :=
         <[0%nat := Leaf.set_tuplet_bracket first (Some BracketStart)]>
           (first :: second :: more)).
  assert (Hlen : length contents1 = S (S (length more))) by reflexivity.
  destruct (list_getitem_in_range contents1 (-1)) as [lst Hlst].
  { rewrite Hlen. lia. }
  rewrite Hlst. cbn [mbind result_bind].
  eexists. split; [reflexivity |].
  split.
  { rewrite length_fmap, length_insert. exact Hlen. }
  split.
  { rewrite Hlen. replace (S (S (length more)) - 1)%nat with (S (length more)) by lia.
    subst contents1. cbn.
    rewrite tuplet_bracket_set_tuplet_ratio, tuplet_bracket_set_tuplet_bracket.
    reflexivity. }
  rewrite Hlen. replace (S (S (length more)) - 1)%nat with (S (length more)) by lia.
  rewrite fmap_last, last_lookup, length_insert, Hlen.
  change (Init.Nat.pred (S (S (length more)))) with (S (length more)).
  rewrite list_lookup_insert_eq by (rewrite Hlen; lia).
  cbn.
  rewrite tuplet_bracket_set_tuplet_ratio, tuplet_bracket_set_tuplet_bracket.
  reflexivity.
Qed.

(** ** Note type and dots *)

Lemma dots_loop_total (fuel : nat) (length : Q) (max_dots_allowed : Z) :
  forall (dots : nat) (dots_multiplier : Q),
    (Z.to_nat max_dots_allowed <= fuel + dots)%nat ->
    exists r,
      dots_loop fuel length max_dots_allowed dots dots_multiplier = Some r.
Proof.
  induction fuel as [| fuel IH]; intros dots m Hfuel; simpl.
  - destruct (ladder_lookup _); [eauto |].
    destruct (Z.gtb_spec (Z.of_nat (S dots)) max_dots_allowed); [eauto | lia].
  - destruct (ladder_lookup _); [eauto |].
    destruct (Z.gtb_spec (Z.of_nat (S dots)) max_dots_allowed); [eauto |].
    apply IH. lia.
Qed.

(** The loop always ends: the function returns or raises. *)
Lemma get_note_type_and_number_of_dots_total (length : Q)
    (max_dots_allowed : Z) :
  exists r, get_note_type_and_number_of_dots length max_dots_allowed = Some r.
Proof.
  unfold get_note_type_and_number_of_dots,
    get_note_type_and_number_of_dots_fuel.
  destruct (ladder_lookup length); [eauto |].
  apply dots_loop_total. lia.
Qed.

Lemma dots_loop_spec (fuel : nat) (length : Q) (max_dots_allowed : Z) :
  forall (dots : nat) (r : result (NoteType * nat)),
    dots_loop fuel length max_dots_allowed dots (_dot_multiplier dots) = Some r ->
    (exists t d,
        r = Ok (t, d) /\ (dots <= d)%nat /\
        dotted_lookup length d = Some t /\
        (forall d', (dots <= d' < d)%nat -> dotted_lookup length d' = None) /\
        (d = dots \/ Z.of_nat d <= max_dots_allowed)) \/
    (r = Raise ValueError /\
     forall d', (dots <= d')%nat -> Z.of_nat d' <= max_dots_allowed ->
                dotted_lookup length d' = None).
Proof.
  induction fuel as [| fuel IH]; intros dots r; simpl;
    fold (_dot_multiplier (S dots)); fold (dotted_lookup length dots);
    destruct (dotted_lookup length dots) as [t |] eqn:Hhere.
  - intros [= <-]. left. exists t, dots. repeat split; auto; intros; lia.
  - destruct (Z.gtb_spec (Z.of_nat (S dots)) max_dots_allowed); [| discriminate].
    intros [= <-]. right. split; [reflexivity |]. intros d' Hd' Hmax.
    assert (d' = dots) as -> by lia. exact Hhere.
  - intros [= <-]. left. exists t, dots. repeat split; auto; intros; lia.
  - destruct (Z.gtb_spec (Z.of_nat (S dots)) max_dots_allowed) as [Hgt | Hle].
    + intros [= <-]. right. split; [reflexivity |]. intros d' Hd' Hmax.
      assert (d' = dots) as -> by lia. exact Hhere.
    + intros Hr. destruct (IH _ _ Hr) as [(t & d & -> & Hd & Ht & Hmin & Hb) | [-> Hnone]].
      * left. exists t, d.
        split; [reflexivity |]. split; [lia |]. split; [exact Ht |]. split.
        -- intros d' Hd'. destruct (decide (d' = dots)) as [-> | Hne]; [exact Hhere |].
           apply Hmin. lia.
        -- right. destruct Hb as [-> | Hb]; lia.
      * right. split; [reflexivity |]. intros d' Hd' Hmax.
        destruct (decide (d' = dots)) as [-> | Hne]; [exact Hhere |].
        apply Hnone; lia.
Qed.

(** The contract of [get_note_type_and_number_of_dots] when at least one
    dot is allowed: a ladder length comes back with no dot; any other
    length comes back with the least number [d] of dots, [1 <= d <=
    max_dots_allowed], that lands on the ladder; [ValueError] is raised
    exactly when there is no such [d]. *)
Lemma get_note_type_and_number_of_dots_contract (length : Q)
    (max_dots_allowed : Z) :
  1 <= max_dots_allowed ->
  (forall t, ladder_lookup length = Some t ->
     get_note_type_and_number_of_dots length max_dots_allowed
       = Some (Ok (t, 0%nat))) /\
  (ladder_lookup length = None ->
     (forall t d,
        (1 <= d)%nat -> Z.of_nat d <= max_dots_allowed ->
        dotted_lookup length d = Some t ->
        (forall d', (1 <= d' < d)%nat -> dotted_lookup length d' = None) ->
        get_note_type_and_number_of_dots length max_dots_allowed
          = Some (Ok (t, d))) /\
     (get_note_type_and_number_of_dots length max_dots_allowed
        = Some (Raise ValueError) <->
      forall d, (1 <= d)%nat -> Z.of_nat d <= max_dots_allowed ->
                dotted_lookup length d = None)).
Proof.
  intros Hmax. split.
  { intros t Ht. unfold get_note_type_and_number_of_dots,
      get_note_type_and_number_of_dots_fuel. rewrite Ht. reflexivity. }
  intros Hbase.
  destruct (get_note_type_and_number_of_dots_total length max_dots_allowed)
    as [r Hr].
  pose proof Hr as Hr'.
  unfold get_note_type_and_number_of_dots,
    get_note_type_and_number_of_dots_fuel in Hr'.
  rewrite Hbase in Hr'.
  change (3 # 2)%Q with (_dot_multiplier 1) in Hr'.
  apply dots_loop_spec in Hr'.
  split.
  - intros t d Hd Hdmax Ht Hmin. rewrite Hr. f_equal.
    destruct Hr' as [(t0 & d0 & -> & Hd0 & Ht0 & Hmin0 & _) | [-> Hnone]].
    + destruct (Nat.lt_trichotomy d d0) as [Hlt | [-> | Hgt]].
      * rewrite Hmin0 in Ht by lia. discriminate.
      * congruence.
      * rewrite Hmin in Ht0 by lia. discriminate.
    + rewrite Hnone in Ht by lia. discriminate.
  - rewrite Hr. split.
    + intros [= ->]. destruct Hr' as [(? & ? & [=] & _) | [_ Hnone]]. exact Hnone.
    + intros Hnone. f_equal.
      destruct Hr' as [(t0 & d0 & -> & Hd0 & Ht0 & _ & Hb) | [-> _]];
        [| reflexivity].
      rewrite Hnone in Ht0; [discriminate | lia | lia].
Qed.

(** C5 at the bound 0: a dotted quarter, which has no match with 0 dots,
    is returned with one dot whatever [max_dots_allowed] is, in particular
    under [max_dots_allowed = 0], where no [d] with [1 <= d <= 0] exists
    and [ValueError] is due. *)
Theorem one_dot_returned_under_zero_bound :
  ladder_lookup (3 # 2) = None /\
  (forall max_dots_allowed,
     get_note_type_and_number_of_dots (3 # 2) max_dots_allowed
       = Some (Ok (quarter, 1%nat))) /\
  get_note_type_and_number_of_dots (3 # 2) 0 <> Some (Raise ValueError).
Proof.
  split; [reflexivity |]. split.
  - intros m. unfold get_note_type_and_number_of_dots.
    destruct (Z.to_nat m); reflexivity.
  - discriminate.
Qed.

(** ** Slur renumbering *)

Section Slurs.
Implicit Types (d : gmap SlurId (list SlurId)) (K : SlurId) (x : Z).

Lemma elem_of_numbers_in_use d (v : SlurId) :
  v ∈ Part.numbers_in_use d <-> exists k l, d !! k = Some l /\ v ∈ l.
Proof.
  unfold Part.numbers_in_use.
  rewrite list_elem_of_In, in_concat. split.
  - intros (l & Hl & Hv). apply list_elem_of_In, list_elem_of_fmap in Hl.
    destruct Hl as ([k l'] & -> & Hkl). apply elem_of_map_to_list in Hkl.
    exists k, l'. split; [exact Hkl |]. apply list_elem_of_In, Hv.
  - intros (k & l & Hk & Hv). exists l. split; [| apply list_elem_of_In, Hv].
    apply list_elem_of_In, list_elem_of_fmap. exists (k, l).
    split; [reflexivity |]. apply elem_of_map_to_list, Hk.
Qed.

Lemma elem_of_available d x :
  x ∈ Part.available_slur_numbers d <->
  1 <= x <= 6 /\ IdInt x ∉ Part.numbers_in_use d.
Proof.
  unfold Part.available_slur_numbers. rewrite list_elem_of_filter.
  rewrite !elem_of_cons, elem_of_nil. split; intros [H1 H2]; split; auto; lia.
Qed.

Lemma filter_sorted_head (P : Z -> Prop) `{!forall x, Decision (P x)}
    (l : list Z) (a : Z) (rest : list Z) :
  StronglySorted Z.le l -> filter P l = a :: rest ->
  forall x, x ∈ filter P l -> a <= x.
Proof.
  induction 1 as [| y l Hs IH Hy]; [discriminate |].
  rewrite filter_cons. destruct (decide (P y)) as [Hp | Hp].
  - intros [= <- <-] x [-> | Hx]%elem_of_cons; [lia |].
    apply list_elem_of_filter in Hx as [_ Hx].
    rewrite Forall_forall in Hy. apply Hy, Hx.
  - exact IH.
Qed.

Lemma available_head_least d a rest :
  Part.available_slur_numbers d = a :: rest ->
  forall x, x ∈ Part.available_slur_numbers d -> a <= x.
Proof.
  apply filter_sorted_head.
  repeat (constructor; [| repeat (constructor; try lia)]). constructor.
Qed.

Lemma id_in_true K (numbers : list Z) :
  Part.id_in K numbers = true <-> exists n, K = IdInt n /\ n ∈ numbers.
Proof.
  unfold Part.id_in. rewrite bool_decide_eq_true, list_elem_of_fmap.
  split; intros (n & -> & Hn); eauto.
Qed.

Lemma lookup_setdefault_append d K (v : SlurId) k :
  Part.setdefault_append d K v !! k =
    if decide (K = k) then Some (default [] (d !! K) ++ [v]) else d !! k.
Proof. unfold Part.setdefault_append. apply lookup_insert. Qed.

Lemma slots_ok_empty : slots_ok ∅.
Proof. split; intros *; rewrite ?lookup_empty; congruence. Qed.

Lemma slots_ok_append d K n :
  slots_ok d -> n ∈ Part.available_slur_numbers d ->
  slots_ok (Part.setdefault_append d K (IdInt n)).
Proof.
  intros [Hne Hrange Hnd Hapart] [Hn Hfree]%elem_of_available.
  assert (Hold : forall l, d !! K = Some l -> IdInt n ∉ l).
  { intros l Hl Hin. apply Hfree, elem_of_numbers_in_use. eauto. }
  split.
  - intros k. rewrite lookup_setdefault_append. case_decide; [| apply Hne].
    intros [=]. destruct (default [] (d !! K)); discriminate.
  - intros k l v. rewrite lookup_setdefault_append. case_decide; [| apply Hrange].
    intros [= <-] [Hv | Hv%list_elem_of_singleton]%elem_of_app; [| eauto].
    destruct (d !! K) as [l |] eqn:HK; [eapply Hrange; eauto |].
    simpl in Hv. apply elem_of_nil in Hv as [].
  - intros k l. rewrite lookup_setdefault_append. case_decide; [| apply Hnd].
    intros [= <-]. apply NoDup_app. split; [| split].
    + destruct (d !! K) as [l |] eqn:HK; [eapply Hnd; eauto | constructor].
    + intros v Hv ->%list_elem_of_singleton.
      destruct (d !! K) as [l |] eqn:HK; [eapply Hold; eauto |].
      simpl in Hv. apply elem_of_nil in Hv as [].
    + apply NoDup_singleton.
  - intros k1 k2 l1 l2 v Hne12. rewrite !lookup_setdefault_append.
    repeat case_decide; subst; try congruence.
    + intros [= <-] H2 [Hv | ->%list_elem_of_singleton]%elem_of_app Hin.
      * destruct (d !! k1) as [l |] eqn:HK;
          [eapply Hapart; eauto | simpl in Hv; apply elem_of_nil in Hv as []].
      * apply Hfree, elem_of_numbers_in_use. eauto.
    + intros H1 [= <-] Hv [Hin | ->%list_elem_of_singleton]%elem_of_app.
      * destruct (d !! k2) as [l |] eqn:HK;
          [eapply Hapart; eauto | simpl in Hin; apply elem_of_nil in Hin as []].
      * apply Hfree, elem_of_numbers_in_use. eauto.
    + apply Hapart. exact Hne12.
Qed.

Lemma slots_ok_pop d K (first : SlurId) (rest : list SlurId) :
  slots_ok d -> d !! K = Some (first :: rest) ->
  slots_ok (match rest with [] => delete K d | _ => <[K := rest]> d end).
Proof.
  intros [Hne Hrange Hnd Hapart] HK.
  assert (Hsub : forall k l,
    (match rest with [] => delete K d | _ => <[K := rest]> d end) !! k = Some l ->
    l <> [] /\ exists l0, d !! k = Some l0 /\ l ⊆ l0 /\ (NoDup l0 -> NoDup l)).
  { intros k l. destruct rest as [| r rest].
    - rewrite lookup_delete. case_decide; [discriminate |].
      intros Hl. split; [intros ->; eapply Hne; eauto |]. exists l. auto.
    - rewrite lookup_insert. case_decide; subst.
      + intros [= <-]. split; [discriminate |]. exists (first :: r :: rest).
        split; [exact HK |]. split; [intros v Hv; right; exact Hv |].
        intros Hd. apply NoDup_cons in Hd as [_ Hd]. exact Hd.
      + intros Hl. split; [intros ->; eapply Hne; eauto |]. exists l. auto. }
  split.
  - intros k Hk. apply Hsub in Hk as [Hk _]. congruence.
  - intros k l v Hk Hv. apply Hsub in Hk as [_ (l0 & Hl0 & Hincl & _)].
    eapply Hrange; eauto.
  - intros k l Hk. apply Hsub in Hk as [_ (l0 & Hl0 & _ & Hd)]. eauto.
  - intros k1 k2 l1 l2 v Hne12 H1 H2 Hv1 Hv2.
    apply Hsub in H1 as [_ (l1' & H1 & Hi1 & _)].
    apply Hsub in H2 as [_ (l2' & H2 & Hi2 & _)].
    eapply (Hapart k1 k2); eauto.
Qed.

(** From a reachable dict a notation is visited without an exception and
    leaves a reachable dict. *)
Lemma visit_notation_ok d (notation : Notation) :
  slots_ok d ->
  exists d' notation' w,
    Part.visit_notation d notation = Ok (d', notation', w) /\ slots_ok d'.
Proof.
  intros Hd. destruct notation as [K | K | name]; simpl.
  - destruct (Part.id_in K (Part.available_slur_numbers d)) eqn:Hin.
    + apply id_in_true in Hin as (n & -> & Hn).
      do 3 eexists. split; [reflexivity |]. apply slots_ok_append; auto.
    + destruct (Part.available_slur_numbers d) as [| a rest] eqn:Hav.
      * do 3 eexists. split; [reflexivity | exact Hd].
      * do 3 eexists. split; [reflexivity |]. apply slots_ok_append; auto.
        rewrite Hav. left.
  - destruct (d !! K) as [[| first rest] |] eqn:HK.
    + exfalso. eapply slots_nonempty; eauto.
    + do 3 eexists. split; [reflexivity |]. eapply slots_ok_pop; eauto.
    + do 3 eexists. split; [reflexivity | exact Hd].
  - do 3 eexists. split; [reflexivity | exact Hd].
Qed.

Lemma visit_notations_ok (notations : list Notation) :
  forall d, slots_ok d ->
  exists d' notations' w,
    Part.visit_notations d notations = Ok (d', notations', w) /\
    slots_ok d' /\ length notations' = length notations.
Proof.
  induction notations as [| n ns IH]; intros d Hd; simpl.
  - do 3 eexists. split; [reflexivity |]. split; [exact Hd | reflexivity].
  - destruct (visit_notation_ok d n Hd) as (d1 & n1 & w1 & -> & Hd1).
    destruct (IH d1 Hd1) as (d2 & ns2 & w2 & H2 & Hd2 & Hlen).
    exists d2, (n1 :: ns2), (w1 ++ w2). cbn. rewrite H2. cbn.
    split; [reflexivity |]. split; [exact Hd2 |]. simpl. congruence.
Qed.
End Slurs.

(** C7, as the code has it: a start whose id [K] is itself a free number
    of 1..6 keeps [K]; any other start, while a number is free, gets the
    lowest free number of 1..6, whether or not [K] already holds open
    slots; in both cases the number is recorded after the slots [K]
    already holds.  With the ids "A", "B", "C": opening A and B gives 1 and
    2, and C, opened after A is closed, gets 1. *)
Theorem start_slur_numbering (d : gmap SlurId (list SlurId)) (K : SlurId) :
  (forall n, K = IdInt n -> n ∈ Part.available_slur_numbers d ->
     Part.visit_notation d (StartSlur K)
       = Ok (Part.setdefault_append d K K, StartSlur K, [])) /\
  (forall a rest,
     Part.available_slur_numbers d = a :: rest ->
     (forall n, K = IdInt n -> ~ n ∈ Part.available_slur_numbers d) ->
     Part.visit_notation d (StartSlur K)
       = Ok (Part.setdefault_append d K (IdInt a), StartSlur (IdInt a), []) /\
     1 <= a <= 6 /\ (IdInt a ∉ Part.numbers_in_use d) /\
     (forall x, 1 <= x <= 6 -> IdInt x ∉ Part.numbers_in_use d -> a <= x)) /\
  (forall v, Part.setdefault_append d K v !! K
               = Some (default [] (d !! K) ++ [v])) /\
  Part.visit_notations ∅
    [StartSlur (IdStr "A"); StartSlur (IdStr "B"); StopSlur (IdStr "A");
     StartSlur (IdStr "C"); StopSlur (IdStr "B"); StopSlur (IdStr "C")]
  = Ok (∅,
        [StartSlur (IdInt 1); StartSlur (IdInt 2); StopSlur (IdInt 1);
         StartSlur (IdInt 1); StopSlur (IdInt 2); StopSlur (IdInt 1)], []).
Proof.
  split; [| split; [| split]].
  - intros n -> Hn. simpl.
    assert (Hin : Part.id_in (IdInt n) (Part.available_slur_numbers d) = true)
      by (apply id_in_true; eauto).
    rewrite Hin. reflexivity.
  - intros a rest Hav Hnot.
    assert (Hin : Part.id_in K (Part.available_slur_numbers d) = false).
    { apply not_true_is_false. intros (n & -> & Hn)%id_in_true.
      exact (Hnot n eq_refl Hn). }
    assert (Ha : a ∈ Part.available_slur_numbers d) by (rewrite Hav; left).
    split; [simpl; rewrite Hin, Hav; reflexivity |].
    pose proof Ha as [Hrange Hfree]%elem_of_available.
    split; [exact Hrange |]. split; [exact Hfree |].
    intros x Hx Hxfree. eapply available_head_least; [exact Hav |].
    apply elem_of_available. auto.
  - intros v. rewrite lookup_setdefault_append. case_decide; congruence.
  - vm_compute. reflexivity.
Qed.

(** C7 as stated fails on the code: re-opening "A" while it holds slot 1
    takes the new slot 2 and not a slot of "A"; and the id 3, not mapped
    and free, keeps 3 although 1 is the lowest free number. *)
Lemma start_slur_claim_fails :
  (Part.visit_notation {[IdStr "A" := [IdInt 1]]} (StartSlur (IdStr "A"))
     = Ok ({[IdStr "A" := [IdInt 1; IdInt 2]]}, StartSlur (IdInt 2), []) /\
   ~ spec_start_number {[IdStr "A" := [IdInt 1]]} (IdStr "A") (IdInt 2)) /\
  (Part.visit_notation ∅ (StartSlur (IdInt 3))
     = Ok ({[IdInt 3 := [IdInt 3]]}, StartSlur (IdInt 3), []) /\
   ~ spec_start_number ∅ (IdInt 3) (IdInt 3)).
Proof.
  split; split.
  - vm_compute. reflexivity.
  - unfold spec_start_number. rewrite lookup_singleton_eq.
    intros [Heq | Hnil]%elem_of_cons; [discriminate Heq |].
    apply elem_of_nil in Hnil as [].
  - vm_compute. reflexivity.
  - unfold spec_start_number. rewrite lookup_empty.
    intros (n & Hn & [= <-]). vm_compute in Hn. discriminate.
Qed.

(** C8, as the code has it: a stop whose id [K] holds the open slots
    [first :: rest] gets [first], the slot of [K] opened earliest
    ([pop(0)]); [K] keeps [rest], and is removed when [rest] is empty;
    the other ids keep their slots; and in a reachable dict the number
    given is free for the next start right away.  Two slurs opened under
    "A" are closed in the order 1, 2. *)
Theorem stop_slur_fifo (d : gmap SlurId (list SlurId)) (K first : SlurId)
    (rest : list SlurId) :
  d !! K = Some (first :: rest) ->
  exists d',
    Part.visit_notation d (StopSlur K) = Ok (d', StopSlur first, []) /\
    d' !! K = match rest with [] => None | _ => Some rest end /\
    (forall k, k <> K -> d' !! k = d !! k) /\
    (slots_ok d ->
     forall n, first = IdInt n -> n ∈ Part.available_slur_numbers d') /\
    Part.visit_notations ∅
      [StartSlur (IdStr "A"); StartSlur (IdStr "A");
       StopSlur (IdStr "A"); StopSlur (IdStr "A")]
    = Ok (∅, [StartSlur (IdInt 1); StartSlur (IdInt 2);
              StopSlur (IdInt 1); StopSlur (IdInt 2)], []).
Proof.
  intros HK.
  exists (match rest with [] => delete K d | _ => <[K := rest]> d end).
  split; [simpl; rewrite HK; reflexivity |].
  split; [destruct rest; [apply lookup_delete_eq | apply lookup_insert_eq] |].
  split.
  { intros k Hk. destruct rest;
      [apply lookup_delete_ne | apply lookup_insert_ne]; congruence. }
  split; [| vm_compute; reflexivity].
  intros Hd n ->. apply elem_of_available.
  destruct (slots_in_range d Hd K _ (IdInt n) HK) as (n' & [= <-] & Hn);
    [left |].
  split; [exact Hn |].
  intros (k & l & Hk & Hin)%elem_of_numbers_in_use.
  assert (Hnd : NoDup (IdInt n :: rest)) by (eapply slots_nodup; eauto).
  apply NoDup_cons in Hnd as [Hnotin _].
  destruct (decide (k = K)) as [-> | Hne].
  - destruct rest as [| r rest].
    + rewrite lookup_delete_eq in Hk. discriminate.
    + rewrite lookup_insert_eq in Hk. injection Hk as <-. contradiction.
  - assert (Hk' : d !! k = Some l).
    { destruct rest; [rewrite lookup_delete_ne in Hk | rewrite lookup_insert_ne in Hk];
        congruence. }
    eapply (slots_apart d Hd K k); eauto. left.
Qed.

Lemma stop_slur_fifo_witness :
  exists d',
    Part.visit_notation
      (Part.setdefault_append (Part.setdefault_append ∅ (IdStr "A") (IdInt 1))
         (IdStr "A") (IdInt 2))
      (StopSlur (IdStr "A"))
      = Ok (d', StopSlur (IdInt 1), []) /\
    d' !! IdStr "A" = Some [IdInt 2] /\
    1 ∈ Part.available_slur_numbers d'.
Proof.
  destruct (stop_slur_fifo
              (Part.setdefault_append
                 (Part.setdefault_append ∅ (IdStr "A") (IdInt 1))
                 (IdStr "A") (IdInt 2))
              (IdStr "A") (IdInt 1) [IdInt 2]) as (d' & H1 & H2 & _ & H4 & _).
  - vm_compute. reflexivity.
  - exists d'. split; [exact H1 |]. split; [exact H2 |].
    apply H4; [| reflexivity].
    apply slots_ok_append; [apply slots_ok_append; [apply slots_ok_empty |] |].
    + apply elem_of_available. split; [lia |]. vm_compute.
      intros H. inversion H.
    + apply elem_of_available. split; [lia |]. vm_compute.
      intros H. inversion H as [| ? ? ? H']. inversion H'.
Defined.

(** C8 as stated fails on the code: with "A" holding the slots 1 and 2,
    opened in that order, the stop is given 1, and the most recently
    opened slot is 2; and the slot 1 is free again at once, while "A" still
    holds the slot 2. *)
Lemma stop_slur_claim_fails :
  Part.visit_notations ∅ [StartSlur (IdStr "A"); StartSlur (IdStr "A")]
    = Ok ({[IdStr "A" := [IdInt 1; IdInt 2]]},
          [StartSlur (IdInt 1); StartSlur (IdInt 2)], []) /\
  Part.visit_notation {[IdStr "A" := [IdInt 1; IdInt 2]]} (StopSlur (IdStr "A"))
    = Ok ({[IdStr "A" := [IdInt 2]]}, StopSlur (IdInt 1), []) /\
  ~ spec_stop_number {[IdStr "A" := [IdInt 1; IdInt 2]]} (IdStr "A") (IdInt 1) /\
  Part.available_slur_numbers {[IdStr "A" := [IdInt 2]]} = [1; 3; 4; 5; 6].
Proof.
  split; [vm_compute; reflexivity |]. split; [vm_compute; reflexivity |].
  split; [| vm_compute; reflexivity].
  intros (slots & Hs & Hl). rewrite lookup_singleton_eq in Hs.
  injection Hs as <-. discriminate Hl.
Qed.

(** C9: a start met while no number of 1..6 is free does not raise: the
    dict and the notation are left as they are and the overflow warning is
    logged; the notations that follow are visited as if the start were
    not there, and from a reachable dict all of them are visited without
    an exception; and the stop of that id, unless the id is open
    otherwise, is left as it is too, with the warning of a stop without a
    start. *)
Theorem slur_overflow_is_nonfatal (d : gmap SlurId (list SlurId))
    (K : SlurId) (following : list Notation) :
  Part.available_slur_numbers d = [] ->
  Part.visit_notation d (StartSlur K)
    = Ok (d, StartSlur K, [RanOutOfSlurNumbers]) /\
  Part.visit_notations d (StartSlur K :: following)
    = ('(d', notations, w) ← Part.visit_notations d following;
       Ok (d', StartSlur K :: notations, RanOutOfSlurNumbers :: w)) /\
  (slots_ok d ->
   exists d' notations w,
     Part.visit_notations d (StartSlur K :: following)
       = Ok (d', StartSlur K :: notations, RanOutOfSlurNumbers :: w) /\
     Part.visit_notations d following = Ok (d', notations, w)) /\
  (d !! K = None ->
   Part.visit_notation d (StopSlur K) = Ok (d, StopSlur K, [StopWithoutStart])).
Proof.
  intros Hav.
  assert (Hstart : Part.visit_notation d (StartSlur K)
                   = Ok (d, StartSlur K, [RanOutOfSlurNumbers])).
  { simpl. rewrite Hav. reflexivity. }
  assert (Hrun : Part.visit_notations d (StartSlur K :: following)
    = ('(d', notations, w) ← Part.visit_notations d following;
       Ok (d', StartSlur K :: notations, RanOutOfSlurNumbers :: w))).
  { cbn [Part.visit_notations]. rewrite Hstart. cbn.
    destruct (Part.visit_notations d following) as [[[d' ns] w] | e];
      reflexivity. }
  split; [exact Hstart |]. split; [exact Hrun |]. split.
  - intros Hd.
    destruct (visit_notations_ok following d Hd) as (d' & ns & w & Hf & _).
    exists d', ns, w. split; [| exact Hf]. rewrite Hrun, Hf. reflexivity.
  - intros HK. simpl. rewrite HK. reflexivity.
Qed.

Lemma slur_overflow_is_nonfatal_witness :
  Part.visit_notation
    {[IdStr "a" := [IdInt 1]; IdStr "b" := [IdInt 2]; IdStr "c" := [IdInt 3];
      IdStr "d" := [IdInt 4]; IdStr "e" := [IdInt 5]; IdStr "f" := [IdInt 6]]}
    (StartSlur (IdStr "g"))
  = Ok ({[IdStr "a" := [IdInt 1]; IdStr "b" := [IdInt 2]; IdStr "c" := [IdInt 3];
          IdStr "d" := [IdInt 4]; IdStr "e" := [IdInt 5]; IdStr "f" := [IdInt 6]]},
        StartSlur (IdStr "g"), [RanOutOfSlurNumbers]).
Proof.
  refine (proj1 (slur_overflow_is_nonfatal _ (IdStr "g") [] _)).
  vm_compute. reflexivity.
Defined.

(** Seven slurs open at once and closed in the order they were opened: the
    first six are numbered 1 to 6 on both ends, the seventh keeps its id on
    both ends, with one warning each. *)
Example seven_slurs :
  Part.visit_notations ∅
    [StartSlur (IdStr "a"); StartSlur (IdStr "b"); StartSlur (IdStr "c");
     StartSlur (IdStr "d"); StartSlur (IdStr "e"); StartSlur (IdStr "f");
     StartSlur (IdStr "g");
     StopSlur (IdStr "a"); StopSlur (IdStr "b"); StopSlur (IdStr "c");
     StopSlur (IdStr "d"); StopSlur (IdStr "e"); StopSlur (IdStr "f");
     StopSlur (IdStr "g")]
  = Ok (∅,
        [StartSlur (IdInt 1); StartSlur (IdInt 2); StartSlur (IdInt 3);
         StartSlur (IdInt 4); StartSlur (IdInt 5); StartSlur (IdInt 6);
         StartSlur (IdStr "g");
         StopSlur (IdInt 1); StopSlur (IdInt 2); StopSlur (IdInt 3);
         StopSlur (IdInt 4); StopSlur (IdInt 5); StopSlur (IdInt 6);
         StopSlur (IdStr "g")],
        [RanOutOfSlurNumbers; StopWithoutStart]).
Proof. vm_compute. reflexivity. Qed.

(** ** Least common multiples and the divisions of a measure *)

Lemma lcm2_lcm (a b : Z) : 0 < a -> 0 < b -> lcm2 a b = Z.lcm a b.
Proof.
  intros Ha Hb. unfold lcm2, Z.lcm.
  assert (Hg : 0 < Z.gcd a b).
  { pose proof (Z.gcd_nonneg a b).
    destruct (Z.eq_dec (Z.gcd a b) 0) as [H0 | H0]; [| lia].
    apply Z.gcd_eq_0_l in H0. lia. }
  rewrite Z.divide_div_mul_exact by (try lia; apply Z.gcd_divide_r).
  rewrite Z.abs_eq; [reflexivity |].
  apply Z.mul_nonneg_nonneg; [lia |]. apply Z.div_pos; lia.
Qed.

Lemma lcm_pos (a b : Z) : 0 < a -> 0 < b -> 0 < Z.lcm a b.
Proof.
  intros Ha Hb. pose proof (Z.lcm_nonneg a b).
  destruct (Z.eq_dec (Z.lcm a b) 0) as [H0 | H0]; [| lia].
  apply Z.lcm_eq_0 in H0. lia.
Qed.

Lemma least_common_multiple_fold (args : list Z) :
  Forall (fun x => 0 < x) args ->
  _least_common_multiple args = foldr Z.lcm 1 args /\
  0 < _least_common_multiple args.
Proof.
  induction 1 as [| a rest Ha Hrest [IH IHpos]]; [simpl; lia |].
  assert (Hstep : _least_common_multiple (a :: rest)
                  = match rest with
                    | [] => a
                    | _ => lcm2 a (_least_common_multiple rest)
                    end) by (destruct rest; reflexivity).
  rewrite Hstep. destruct rest as [| b rest].
  - simpl. rewrite Z.lcm_1_r, Z.abs_eq by lia. lia.
  - rewrite lcm2_lcm by assumption.
    change (foldr Z.lcm 1 (a :: b :: rest))
      with (Z.lcm a (foldr Z.lcm 1 (b :: rest))).
    rewrite <- IH. split; [reflexivity |]. apply lcm_pos; assumption.
Qed.

Lemma least_common_multiple_pos (args : list Z) :
  Forall (fun x => 0 < x) args -> 0 < _least_common_multiple args.
Proof. intros H. apply least_common_multiple_fold, H. Qed.

Lemma least_common_multiple_app (l1 l2 : list Z) :
  Forall (fun x => 0 < x) l1 -> Forall (fun x => 0 < x) l2 ->
  _least_common_multiple (l1 ++ l2)
  = Z.lcm (_least_common_multiple l1) (_least_common_multiple l2).
Proof.
  intros H1 H2.
  destruct (least_common_multiple_fold (l1 ++ l2)) as [-> _];
    [apply Forall_app; auto |].
  destruct (least_common_multiple_fold l1 H1) as [-> _].
  destruct (least_common_multiple_fold l2 H2) as [E2 P2]. rewrite E2 in *.
  clear E2. induction H1 as [| a l1 Ha H1 IH]; simpl.
  - rewrite Z.lcm_1_l, Z.abs_eq; lia.
  - rewrite IH, Z.lcm_assoc. reflexivity.
Qed.

(** The power-of-two factor of the fallback branch: the largest [2^k]
    that keeps [n * 2^k] within 1024. *)
Lemma max_1_pow2_largest (n : Z) :
  1 <= n <= 1024 ->
  exists k, 0 <= k /\
    Measure.max_1_pow2 (Measure.int_log2_1024_over n) = 2 ^ k /\
    n * 2 ^ k <= 1024 < n * 2 ^ (k + 1).
Proof.
  intros Hn. unfold Measure.max_1_pow2, Measure.int_log2_1024_over.
  destruct (Z.leb_spec n 1024); [| lia].
  set (q := 1024 / n).
  assert (Hq : 1 <= q) by (apply Z.div_le_lower_bound; lia).
  assert (Hqn : n * q <= 1024 < n * (q + 1)).
  { pose proof (Z.div_mod 1024 n ltac:(lia)).
    pose proof (Z.mod_pos_bound 1024 n ltac:(lia)). subst q. lia. }
  destruct (Z.log2_spec q ltac:(lia)) as [Hlo Hhi].
  pose proof (Z.log2_nonneg q) as Hk.
  exists (Z.log2 q). split; [exact Hk |].
  assert (Hp : 1 <= 2 ^ Z.log2 q) by (apply Z.pow_pos_nonneg with (a := 2) in Hk; lia).
  split; [lia |].
  replace (Z.succ (Z.log2 q)) with (Z.log2 q + 1) in Hhi by lia. nia.
Qed.

(** ** Bounded denominators *)

Lemma Qden_Qred_le (q : Q) : Z.pos (Qden (Qred q)) <= Z.pos (Qden q).
Proof.
  destruct q as [n d]. unfold Qred.
  pose proof (Z.ggcd_correct_divisors n (Z.pos d)) as Hdiv.
  pose proof (Z.ggcd_gcd n (Z.pos d)) as Hg.
  pose proof (Z.gcd_nonneg n (Z.pos d)) as Hnn.
  destruct (Z.ggcd n (Z.pos d)) as [g [n' d']]. simpl in *.
  destruct Hdiv as [_ Hd]. rewrite <- Hg in Hnn.
  assert (Hpos : 0 < g * d') by lia.
  assert (Hd' : 0 < d').
  { destruct (Z.lt_trichotomy d' 0) as [Hlt | [-> | Hgt]]; [| lia | exact Hgt].
    assert (g * d' <= 0) by nia. lia. }
  rewrite Z2Pos.id by lia.
  assert (1 <= g) by nia. nia.
Qed.

Lemma to_pos_le (q m : Z) : 1 <= m -> q <= m -> Z.pos (Z.to_pos q) <= m.
Proof. intros Hm Hq. destruct q; simpl; lia. Qed.

Lemma cf_loop_bounds (m : Z) (fuel : nat) :
  forall p0 q0 p1 q1 n d p0' q0' p1' q1' d',
    0 <= q0 <= m -> 0 <= q1 <= m ->
    (q1 = 0 /\ 0 < d) \/ (0 <= n /\ 0 <= d) ->
    cf_loop fuel m p0 q0 p1 q1 n d = (p0', q0', p1', q1', d') ->
    0 <= q0' <= m /\ 0 <= q1' <= m.
Proof.
  induction fuel as [| fuel IH]; intros p0 q0 p1 q1 n d p0' q0' p1' q1' d'
    H0 H1 Hnd; simpl.
  - destruct (_ >? _); intros [= <- <- <- <- <-]; auto.
  - destruct (Z.gtb_spec (q0 + n / d * q1) m) as [Hgt | Hle].
    + intros [= <- <- <- <- <-]; auto.
    + apply IH; [exact H1 | |].
      * split; [| exact Hle].
        destruct Hnd as [[-> _] | [Hn Hd]]; [lia |].
        assert (0 <= n / d).
        { destruct (Z.eq_dec d 0) as [-> | Hne];
            [rewrite Z.div_0_r; lia | apply Z.div_pos; lia]. }
        nia.
      * right. destruct (Z.eq_dec d 0) as [-> | Hne].
        { rewrite Z.div_0_r. lia. }
        assert (Hd : 0 < d) by lia. split; [lia |].
        pose proof (Z.mod_pos_bound n d Hd) as Hmod.
        rewrite Z.mod_eq in Hmod by lia. lia.
Qed.

(** [limit_denominator(n)] keeps the denominator within [1..n]. *)
Lemma limited_denominator_bounds (x : Q) (max_denominator : Z) :
  1 <= max_denominator ->
  1 <= limited_denominator x max_denominator <= max_denominator.
Proof.
  intros Hm. unfold limited_denominator, limit_denominator.
  split; [lia |].
  destruct (Z.leb_spec (Z.pos (Qden (Qred x))) max_denominator) as [Hle | Hgt];
    [exact Hle |].
  destruct (cf_loop _ _ _ _ _ _ _ _) as [[[[p0 q0] p1] q1] d] eqn:Hloop.
  apply cf_loop_bounds in Hloop as [Hq0 Hq1]; [| lia | lia | left; lia].
  destruct (_ <=? _).
  - etransitivity; [apply Qden_Qred_le |]. simpl. apply to_pos_le; lia.
  - etransitivity; [apply Qden_Qred_le |]. simpl. apply to_pos_le; [lia |].
    destruct (Z.eq_dec q1 0) as [-> | Hne]; [rewrite Z.div_0_r; lia |].
    pose proof (Z.mul_div_le (max_denominator - q0) q1 ltac:(lia)). lia.
Qed.

Lemma limited_denominator_pos (x : Q) (max_denominator : Z) :
  0 < limited_denominator x max_denominator.
Proof. unfold limited_denominator. lia. Qed.

(** ** The beam engine *)

Section Beams.
Implicit Types (leaf : Leaf) (contents : list Leaf) (b : gmap nat BeamType).

Lemma num_beams_set_beams leaf b :
  Leaf.num_beams (Leaf.set_beams leaf b) = Leaf.num_beams leaf.
Proof. destruct leaf; reflexivity. Qed.

Lemma written_length_set_beams leaf b :
  Leaf.written_length (Leaf.set_beams leaf b) = Leaf.written_length leaf.
Proof. destruct leaf; reflexivity. Qed.

Lemma beams_set_beams leaf b : Leaf.beams (Leaf.set_beams leaf b) = b.
Proof. destruct leaf; reflexivity. Qed.

Lemma set_beams_set_beams leaf b b' :
  Leaf.set_beams (Leaf.set_beams leaf b) b' = Leaf.set_beams leaf b'.
Proof. destruct leaf; reflexivity. Qed.

Lemma set_beams_beams leaf : Leaf.set_beams leaf (Leaf.beams leaf) = leaf.
Proof. destruct leaf as [[] | [] ?]; reflexivity. Qed.

Lemma same_notes_refl contents : same_notes contents contents.
Proof.
  apply Forall_Forall2_diag, Forall_forall. intros leaf _.
  exists (Leaf.beams leaf). symmetry. apply set_beams_beams.
Qed.

Lemma same_notes_active contents contents' j d :
  same_notes contents contents' ->
  BeamedGroup.active_at contents' j d = BeamedGroup.active_at contents j d.
Proof.
  intros H. unfold BeamedGroup.active_at.
  destruct (contents !! j) as [leaf |] eqn:Hj.
  - destruct (Forall2_lookup_l _ _ _ _ _ H Hj) as (leaf' & -> & b & ->).
    rewrite num_beams_set_beams. reflexivity.
  - assert (contents' !! j = None) as ->; [| reflexivity].
    apply lookup_ge_None. apply lookup_ge_None in Hj.
    rewrite <- (Forall2_length _ _ _ H). exact Hj.
Qed.

Lemma same_notes_start_time contents contents' i :
  same_notes contents contents' ->
  start_time contents' i = start_time contents i.
Proof.
  unfold start_time. generalize 0%Q. intros t H. revert t i.
  induction H as [| leaf leaf' c c' [b ->] H IH]; intros t [| i];
    try reflexivity.
  simpl. rewrite written_length_set_beams. apply IH.
Qed.

Lemma start_time_S contents i leaf :
  contents !! i = Some leaf ->
  start_time contents (S i)
  = (start_time contents i + Leaf.written_length leaf)%Q.
Proof.
  intros Hi. unfold start_time.
  rewrite (take_S_r _ _ _ Hi), foldl_app. reflexivity.
Qed.

Lemma spec_beam_state_same contents contents' d i leaf b :
  same_notes contents contents' ->
  spec_beam_state contents' d i (Leaf.set_beams leaf b)
  = spec_beam_state contents d i leaf.
Proof.
  intros H. unfold spec_beam_state, BeamedGroup.on_even_position.
  rewrite (same_notes_start_time _ _ _ H), num_beams_set_beams.
  rewrite (same_notes_active _ _ (S i) d H).
  destruct i; [reflexivity |].
  rewrite (same_notes_active _ _ i d H). reflexivity.
Qed.

(** The body of the inner loop assigns the specified state at the level,
    to an active leaf. *)
Lemma beam_leaf_spec contents d i leaf :
  is_Some (contents !! i) ->
  BeamedGroup.beam_leaf contents d i leaf (start_time contents i)
  = Leaf.set_beams leaf (assign_level contents i leaf (Leaf.beams leaf) d).
Proof.
  intros Hi. apply lookup_lt_is_Some in Hi.
  unfold BeamedGroup.beam_leaf, assign_level, spec_beam_state,
    BeamedGroup.put_beam.
  destruct (d <=? Leaf.num_beams leaf)%nat; [| symmetry; apply set_beams_beams].
  assert (Hnext : ((i <? length contents - 1)%nat
                   && BeamedGroup.active_at contents (i + 1) d)
                  = BeamedGroup.active_at contents (S i) d).
  { replace (i + 1)%nat with (S i) by lia.
    destruct (Nat.ltb_spec i (length contents - 1)); [reflexivity |].
    unfold BeamedGroup.active_at. rewrite (proj2 (lookup_ge_None _ _)) by lia.
    reflexivity. }
  assert (Hprev : ((0 <? i)%nat && BeamedGroup.active_at contents (i - 1) d)
                  = match i with
                    | O => false
                    | S j => BeamedGroup.active_at contents j d
                    end).
  { destruct i as [| j]; [reflexivity |].
    replace (S j - 1)%nat with j by lia. reflexivity. }
  rewrite Hnext, Hprev.
  destruct (match i with O => false | S j => BeamedGroup.active_at contents j d end),
    (BeamedGroup.active_at contents (S i) d); try reflexivity.
  destruct (BeamedGroup.on_even_position _ _); reflexivity.
Qed.

Lemma assign_level_same contents contents' i leaf b b' d :
  same_notes contents contents' ->
  assign_level contents' i (Leaf.set_beams leaf b) b' d
  = assign_level contents i leaf b' d.
Proof.
  intros H. unfold assign_level.
  rewrite num_beams_set_beams, (spec_beam_state_same _ _ _ _ _ _ H).
  reflexivity.
Qed.

Lemma same_notes_imap contents (B : nat -> Leaf -> gmap nat BeamType) :
  same_notes contents (imap (fun i leaf => Leaf.set_beams leaf (B i leaf)) contents).
Proof.
  apply Forall2_same_length_lookup. split; [rewrite length_imap; reflexivity |].
  intros i leaf leaf' Hi. rewrite list_lookup_imap, Hi. intros [= <-]. eauto.
Qed.

Lemma same_notes_prefix contents contents' k :
  same_notes contents contents' ->
  same_notes contents (take k contents' ++ drop k contents).
Proof.
  intros H. rewrite <- (take_drop k contents) at 1.
  apply Forall2_app; [apply Forall2_take, H | apply same_notes_refl].
Qed.

Lemma inner_loop_spec contents d (n : nat) :
  forall k, (k + n)%nat = length contents ->
  foldl (BeamedGroup.inner_body d)
        (take k (imap (passed contents d) contents) ++ drop k contents,
         start_time contents k)
        (seq k n)
  = (imap (passed contents d) contents, start_time contents (length contents)).
Proof.
  induction n as [| n IH]; intros k Hk.
  - simpl. assert (k = length contents) as -> by lia.
    rewrite take_ge, drop_ge, app_nil_r by (rewrite ?length_imap; lia).
    reflexivity.
  - assert (Hlt : (k < length contents)%nat) by lia.
    destruct (lookup_lt_is_Some_2 _ _ Hlt) as [leaf Hleaf].
    set (cur := take k (imap (passed contents d) contents) ++ drop k contents).
    assert (Hsame : same_notes contents cur).
    { apply same_notes_prefix, same_notes_imap. }
    assert (Hlen : length (take k (imap (passed contents d) contents)) = k).
    { rewrite length_take, length_imap. lia. }
    assert (Hcur : cur !! k = Some leaf).
    { subst cur. rewrite lookup_app_r by lia.
      rewrite Hlen, Nat.sub_diag, lookup_drop, Nat.add_0_r. exact Hleaf. }
    cbn [seq foldl]. unfold BeamedGroup.inner_body at 2. rewrite Hcur.
    assert (Hbl : BeamedGroup.beam_leaf cur d k leaf (start_time contents k)
                  = passed contents d k leaf).
    { transitivity
        (Leaf.set_beams leaf (assign_level cur k leaf (Leaf.beams leaf) d)).
      - rewrite <- (same_notes_start_time contents cur k Hsame).
        apply beam_leaf_spec. eauto.
      - unfold passed. f_equal.
        pose proof (assign_level_same contents cur k leaf (Leaf.beams leaf)
                      (Leaf.beams leaf) d Hsame) as E.
        rewrite set_beams_beams in E. exact E. }
    rewrite Hbl. unfold passed at 2. rewrite written_length_set_beams.
    rewrite <- (start_time_S _ _ _ Hleaf).
    replace (<[k := passed contents d k leaf]> cur)
      with (take (S k) (imap (passed contents d) contents)
            ++ drop (S k) contents); [apply IH; lia |].
    subst cur.
    rewrite (take_S_r _ _ (passed contents d k leaf))
      by (rewrite list_lookup_imap, Hleaf; reflexivity).
    rewrite (drop_S _ _ _ Hleaf), <- app_assoc. simpl.
    rewrite insert_app_r_alt by lia. rewrite Hlen, Nat.sub_diag. reflexivity.
Qed.

Lemma depth_pass_spec contents d :
  BeamedGroup.depth_pass contents d = imap (passed contents d) contents.
Proof.
  unfold BeamedGroup.depth_pass.
  pose proof (inner_loop_spec contents d (length contents) 0 eq_refl) as H.
  rewrite take_0, drop_0 in H. simpl in H.
  change (start_time contents 0) with 0%Q in H. rewrite H. reflexivity.
Qed.

Lemma outer_loop_spec contents (ds : list nat) :
  foldl BeamedGroup.depth_pass contents ds
  = imap (fun i leaf => Leaf.set_beams leaf (assigned_beams contents i leaf ds))
         contents.
Proof.
  induction ds as [| d ds IH] using rev_ind.
  - simpl. apply list_eq. intros i. rewrite list_lookup_imap.
    destruct (contents !! i) as [leaf |]; [| reflexivity]. simpl.
    unfold assigned_beams. simpl. rewrite set_beams_beams. reflexivity.
  - rewrite foldl_app. simpl. rewrite IH, depth_pass_spec.
    apply list_eq. intros i. rewrite !list_lookup_imap.
    destruct (contents !! i) as [leaf |]; [| reflexivity]. simpl. f_equal.
    unfold passed. rewrite beams_set_beams, set_beams_set_beams.
    rewrite (assign_level_same contents) by apply same_notes_imap.
    unfold assigned_beams. rewrite foldl_app. reflexivity.
Qed.

Lemma clear_hooks_set_beams leaf b :
  BeamedGroup.clear_hooks (Leaf.set_beams leaf b)
  = Leaf.set_beams leaf (cleared b).
Proof.
  unfold BeamedGroup.clear_hooks, cleared. rewrite beams_set_beams.
  destruct (BeamedGroup.only_hooks b); [apply set_beams_set_beams | reflexivity].
Qed.

(** The closed form of [render_contents_beaming]. *)
Lemma render_contents_beaming_spec contents :
  contents <> [] ->
  BeamedGroup.render_contents_beaming contents
  = Ok (imap (beamed contents) contents).
Proof.
  intros Hne. unfold BeamedGroup.render_contents_beaming.
  assert (BeamedGroup.max_num_beams contents = Ok (max_beams contents)) as ->.
  { destruct contents; [contradiction | reflexivity]. }
  cbn [mbind result_bind]. rewrite outer_loop_spec. f_equal.
  apply list_eq. intros i. rewrite list_lookup_fmap, !list_lookup_imap.
  destruct (contents !! i) as [leaf |]; [| reflexivity]. simpl.
  rewrite clear_hooks_set_beams. reflexivity.
Qed.

Lemma render_contents_beaming_empty :
  BeamedGroup.render_contents_beaming [] = Raise ValueError.
Proof. reflexivity. Qed.

Lemma assigned_from_lookup contents i leaf b (s n d : nat) :
  foldl (assign_level contents i leaf) b (seq s n) !! d
  = if decide ((s <= d < s + n)%nat /\ (d <= Leaf.num_beams leaf)%nat)
    then Some (spec_beam_state contents d i leaf) else b !! d.
Proof.
  induction n as [| n IH].
  - simpl. case_decide; [lia | reflexivity].
  - rewrite seq_S, foldl_app. simpl. unfold assign_level at 1.
    destruct (Nat.leb_spec (s + n) (Leaf.num_beams leaf)) as [Hle | Hgt].
    + rewrite lookup_insert. destruct (decide ((s + n)%nat = d)) as [<- | Hne].
      * rewrite decide_True by lia. reflexivity.
      * rewrite IH. repeat case_decide; try reflexivity; lia.
    + rewrite IH. repeat case_decide; try reflexivity; lia.
Qed.

Lemma num_beams_le_max contents i leaf :
  contents !! i = Some leaf -> (Leaf.num_beams leaf <= max_beams contents)%nat.
Proof.
  unfold max_beams. revert i.
  induction contents as [| x c IH]; intros [| i]; try discriminate;
    rewrite fmap_cons; cbn [foldr lookup list_lookup].
  - intros [= ->]. apply Nat.le_max_l.
  - intros Hi. specialize (IH _ Hi).
    etransitivity; [exact IH | apply Nat.le_max_r].
Qed.

Lemma assigned_beams_lookup contents i leaf (d : nat) :
  contents !! i = Some leaf ->
  assigned_beams contents i leaf (seq 1 (max_beams contents)) !! d
  = if decide (1 <= d <= Leaf.num_beams leaf)%nat
    then Some (spec_beam_state contents d i leaf) else Leaf.beams leaf !! d.
Proof.
  intros Hi. apply num_beams_le_max in Hi.
  unfold assigned_beams. rewrite assigned_from_lookup.
  repeat case_decide; try reflexivity; lia.
Qed.

Lemma only_hooks_true b :
  BeamedGroup.only_hooks b = true <->
  forall (k : nat) v, b !! k = Some v -> hook_in v = true.
Proof.
  unfold BeamedGroup.only_hooks. rewrite forallb_forall. split.
  - intros H k v Hk. apply H, list_elem_of_In, list_elem_of_fmap.
    exists (k, v). split; [reflexivity |]. apply elem_of_map_to_list, Hk.
  - intros H v [[k v'] [-> Hkv]]%list_elem_of_In%list_elem_of_fmap.
    apply elem_of_map_to_list in Hkv. exact (H _ _ Hkv).
Qed.
End Beams.

(** C3: on a non-empty sequence [render_contents_beaming] returns, and
    leaves every leaf as it was but for its beams, which are as follows.
    At every level [d] from 1 to the leaf's beam count (the levels the leaf
    is active at) the state assigned is [continue] when both neighbours are
    active at [d], [end] when only the preceding one is, [begin] when only
    the following one is, and otherwise the forward hook when the start
    time of the leaf, in units of [0.5 ** num_beams] and rounded, is even
    and the backward hook when it is odd; the other levels keep what the
    map held.  If every value of the map is then a hook the leaf ends with
    no beams, otherwise with that map; for a leaf that held no beams the
    values of the map are the states assigned at its levels.  Four eighth notes get [begin;
    continue; continue; end] at level 1; an eighth note before or between
    quarter notes (positions 0 and 2) gets the forward hook and an eighth
    note after an eighth rest (position 1) the backward hook, and each
    ends with no beams. *)
Theorem render_contents_beaming_states :
  (forall contents : list Leaf,
     contents <> [] ->
     exists out,
       BeamedGroup.render_contents_beaming contents = Ok out /\
       length out = length contents /\
       forall i leaf,
         contents !! i = Some leaf ->
         exists assigned : gmap nat BeamType,
           (forall d, (1 <= d <= Leaf.num_beams leaf)%nat ->
              assigned !! d = Some (spec_beam_state contents d i leaf)) /\
           (forall d, ~ (1 <= d <= Leaf.num_beams leaf)%nat ->
              assigned !! d = Leaf.beams leaf !! d) /\
           ((forall (d : nat) v, assigned !! d = Some v -> hook_in v = true) ->
            out !! i = Some (Leaf.set_beams leaf ∅)) /\
           (~ (forall (d : nat) v, assigned !! d = Some v -> hook_in v = true) ->
            out !! i = Some (Leaf.set_beams leaf assigned)) /\
           (Leaf.beams leaf = ∅ ->
            (forall (d : nat) v, assigned !! d = Some v -> hook_in v = true) <->
            (forall d, (1 <= d <= Leaf.num_beams leaf)%nat ->
               hook_in (spec_beam_state contents d i leaf) = true))) /\
  final_beams_at 1 (replicate 4 (sample_note eighth))
    = Ok [Some BeamBegin; Some BeamContinue; Some BeamContinue; Some BeamEnd] /\
  (beams_at 1 (BeamedGroup.depth_pass [sample_note eighth; sample_note quarter] 1)
     = [Some ForwardHook; None] /\
   final_beams [sample_note eighth; sample_note quarter]
     = Ok [∅; ∅]) /\
  (beams_at 1 (BeamedGroup.depth_pass
                 [sample_note quarter; sample_note eighth; sample_note quarter] 1)
     = [None; Some ForwardHook; None] /\
   final_beams [sample_note quarter; sample_note eighth; sample_note quarter]
     = Ok [∅; ∅; ∅]) /\
  (beams_at 1 (BeamedGroup.depth_pass
                 [sample_rest eighth; sample_note eighth; sample_note quarter] 1)
     = [None; Some BackwardHook; None] /\
   final_beams [sample_rest eighth; sample_note eighth; sample_note quarter]
     = Ok [∅; ∅; ∅]).
Proof.
  split; [| repeat split; vm_compute; reflexivity].
  intros contents Hne. exists (imap (beamed contents) contents).
  split; [apply render_contents_beaming_spec, Hne |].
  split; [apply length_imap |].
  intros i leaf Hi.
  exists (assigned_beams contents i leaf (seq 1 (max_beams contents))).
  split; [| split; [| split; [| split]]].
  - intros d Hd. rewrite assigned_beams_lookup by exact Hi.
    rewrite decide_True by exact Hd. reflexivity.
  - intros d Hd. rewrite assigned_beams_lookup by exact Hi.
    rewrite decide_False by exact Hd. reflexivity.
  - intros Hall. pose proof (proj2 (only_hooks_true _) Hall) as Hb.
    rewrite list_lookup_imap, Hi. simpl.
    unfold beamed, cleared. rewrite Hb. reflexivity.
  - intros Hnot. rewrite list_lookup_imap, Hi. simpl.
    unfold beamed, cleared.
    destruct (BeamedGroup.only_hooks _) eqn:Hall; [| reflexivity].
    exfalso. apply Hnot. apply only_hooks_true. exact Hall.
  - intros Hfresh. split.
    + intros Hall d Hd. apply (Hall d).
      rewrite assigned_beams_lookup by exact Hi.
      rewrite decide_True by exact Hd. reflexivity.
    + intros Hall d v. rewrite assigned_beams_lookup by exact Hi.
      case_decide as Hd.
      * intros [= <-]. apply Hall, Hd.
      * rewrite Hfresh, lookup_empty. discriminate.
Qed.

Lemma render_contents_beaming_states_witness :
  exists out,
    BeamedGroup.render_contents_beaming
      [sample_note eighth; sample_note n16th; sample_note n16th] = Ok out /\
    length out = 3%nat.
Proof.
  destruct (proj1 render_contents_beaming_states
              [sample_note eighth; sample_note n16th; sample_note n16th])
    as (out & Hout & Hlen & _).
  - discriminate.
  - exists out. split; [exact Hout | exact Hlen].
Defined.

(** ** Idempotence of the beam engine *)

Section Idempotence.
Implicit Types (leaf : Leaf) (contents : list Leaf) (b : gmap nat BeamType).

Lemma max_beams_same contents contents' :
  same_notes contents contents' -> max_beams contents' = max_beams contents.
Proof.
  unfold max_beams.
  induction 1 as [| leaf leaf' c c' [b ->] _ IH]; [reflexivity |].
  rewrite !fmap_cons. cbn [foldr]. rewrite num_beams_set_beams, IH.
  reflexivity.
Qed.

Lemma foldl_assign_level_same contents contents' i leaf b b' (ds : list nat) :
  same_notes contents contents' ->
  foldl (assign_level contents' i (Leaf.set_beams leaf b)) b' ds
  = foldl (assign_level contents i leaf) b' ds.
Proof.
  intros H. revert b'. induction ds as [| d ds IH]; intros b'; [reflexivity |].
  simpl. rewrite (assign_level_same contents contents') by exact H. apply IH.
Qed.

(** Assigning the levels again to the map left by a run, and clearing
    again, changes nothing. *)
Lemma reassign_cleared contents i leaf b (s n : nat) :
  cleared (foldl (assign_level contents i leaf)
             (cleared (foldl (assign_level contents i leaf) b (seq s n)))
             (seq s n))
  = cleared (foldl (assign_level contents i leaf) b (seq s n)).
Proof.
  set (A := fun b => foldl (assign_level contents i leaf) b (seq s n)).
  change (cleared (A (cleared (A b))) = cleared (A b)).
  assert (HA : forall b d,
    A b !! d = if decide ((s <= d < s + n)%nat /\ (d <= Leaf.num_beams leaf)%nat)
               then Some (spec_beam_state contents d i leaf) else b !! d).
  { intros b' d. apply assigned_from_lookup. }
  unfold cleared at 2 3. destruct (BeamedGroup.only_hooks (A b)) eqn:Hh.
  - unfold cleared.
    assert (BeamedGroup.only_hooks (A ∅) = true) as ->; [| reflexivity].
    apply only_hooks_true. intros k v. rewrite HA. case_decide as Hk.
    + intros Hv. apply (proj1 (only_hooks_true _) Hh k).
      rewrite HA, decide_True by exact Hk. exact Hv.
    + rewrite lookup_empty. discriminate.
  - assert (A (A b) = A b) as ->.
    { apply map_eq. intros d. rewrite !HA. case_decide; reflexivity. }
    unfold cleared. rewrite Hh. reflexivity.
Qed.

Lemma beamed_beamed contents i leaf :
  beamed (imap (beamed contents) contents) i (beamed contents i leaf)
  = beamed contents i leaf.
Proof.
  set (out := imap (beamed contents) contents).
  assert (Hsame : same_notes contents out).
  { apply (same_notes_imap contents
             (fun i leaf =>
                cleared (assigned_beams contents i leaf
                           (seq 1 (max_beams contents))))). }
  unfold beamed. rewrite set_beams_set_beams. f_equal.
  rewrite (max_beams_same _ _ Hsame).
  unfold assigned_beams. rewrite beams_set_beams.
  rewrite (foldl_assign_level_same _ _ _ _ _ _ _ Hsame).
  apply reassign_cleared.
Qed.
End Idempotence.

(** C4: running [render_contents_beaming] on the contents a first run left
    gives exactly what the first run gave, for every leaf and every level,
    whatever beams the leaves held before; on an empty group both raise. *)
Theorem render_contents_beaming_idempotent (contents : list Leaf) :
  (BeamedGroup.render_contents_beaming contents
     ≫= BeamedGroup.render_contents_beaming)
  = BeamedGroup.render_contents_beaming contents.
Proof.
  destruct (decide (contents = [])) as [-> | Hne]; [reflexivity |].
  rewrite (render_contents_beaming_spec contents Hne). cbn [mbind result_bind].
  rewrite render_contents_beaming_spec.
  - f_equal. apply list_eq. intros i. rewrite !list_lookup_imap.
    destruct (contents !! i) as [leaf |]; [| reflexivity]. simpl.
    rewrite beamed_beamed. reflexivity.
  - intros Himap. apply Hne. apply (f_equal length) in Himap.
    rewrite length_imap in Himap. destruct contents; [reflexivity | discriminate].
Qed.

(** ** The leaves of a measure *)

Section Leaves.
Implicit Types (st : list (Q * list TimedLeaf)).

Lemma argmin_from_bound (keys : list (Q * Q)) :
  forall best_k best k,
    (best_k < k)%nat ->
    (Measure.argmin_from best_k best k keys < k + length keys)%nat.
Proof.
  induction keys as [| x keys IH]; intros best_k best k Hk; simpl; [lia |].
  destruct (Measure.key_lt x best).
  - specialize (IH k x (S k)). lia.
  - specialize (IH best_k best (S k)). lia.
Qed.

Lemma voice_keys_ok st :
  Forall (fun v => snd v <> []) st ->
  exists keys, Measure.voice_keys st = Ok keys /\ length keys = length st.
Proof.
  induction 1 as [| [beat v] st Hv _ (keys & Hkeys & Hlen)]; simpl.
  - exists []. split; reflexivity.
  - destruct v as [| x v]; [contradiction |]. cbn. rewrite Hkeys. cbn.
    eexists. split; [reflexivity |]. simpl. congruence.
Qed.

Lemma total_length_delete st k beat x :
  st !! k = Some (beat, [x]) ->
  length (concat (snd <$> st)) = S (length (concat (snd <$> delete k st))).
Proof.
  revert k. induction st as [| v st IH]; intros [| k]; try discriminate.
  - intros [= ->]. reflexivity.
  - intros Hk.
    change (length (snd v ++ concat (snd <$> st))
            = S (length (snd v ++ concat (snd <$> delete k st)))).
    rewrite !length_app, (IH _ Hk). lia.
Qed.

Lemma total_length_insert st k beat beat' x rest :
  st !! k = Some (beat, x :: rest) ->
  length (concat (snd <$> st))
  = S (length (concat (snd <$> <[k := (beat', rest)]> st))).
Proof.
  revert k. induction st as [| v st IH]; intros [| k]; try discriminate.
  - intros [= ->]. reflexivity.
  - intros Hk.
    change (length (snd v ++ concat (snd <$> st))
            = S (length (snd v ++ concat (snd <$> <[k := (beat', rest)]> st)))).
    rewrite !length_app, (IH _ Hk). lia.
Qed.

(** With every pending voice non-empty and enough fuel the loop returns
    all the leaves. *)
Lemma iter_leaves_loop_ok (fuel : nat) :
  forall st,
    Forall (fun v => snd v <> []) st ->
    (length (concat (snd <$> st)) <= fuel)%nat ->
    exists leaves,
      Measure.iter_leaves_loop fuel st = Some (Ok leaves) /\
      length leaves = length (concat (snd <$> st)).
Proof.
  induction fuel as [| fuel IH]; intros st Hst Hfuel.
  - destruct st as [| [beat v] st]; [exists []; split; reflexivity |].
    apply Forall_cons in Hst as [Hv _]. simpl in Hv, Hfuel.
    destruct v; [contradiction | simpl in Hfuel; lia].
  - destruct st as [| v0 st0] eqn:Est; [exists []; split; reflexivity |].
    rewrite <- Est in *. assert (Hne : st <> []) by (subst; discriminate).
    destruct (voice_keys_ok st Hst) as (keys & Hkeys & Hlen).
    assert (Hstep : Measure.iter_leaves_loop (S fuel) st
      = let voice_to_pop :=
          match keys with
          | [] => 0%nat
          | key :: keys => Measure.argmin_from 0 key 1 keys
          end in
        match st !! voice_to_pop with
        | Some (beat, popped_note :: rest) =>
            let beat := (beat + TimedLeaf.true_length popped_note)%Q in
            let st :=
              match rest with
              | [] => delete voice_to_pop st
              | _ => <[voice_to_pop := (beat, rest)]> st
              end in
            match Measure.iter_leaves_loop fuel st with
            | Some (Ok leaves) => Some (Ok (popped_note :: leaves))
            | other => other
            end
        | _ => Some (Raise IndexError)
        end).
    { rewrite Est. cbn [Measure.iter_leaves_loop]. rewrite <- Est, Hkeys.
      reflexivity. }
    rewrite Hstep. clear Hstep. cbv zeta.
    set (k := match keys with
              | [] => 0%nat
              | key :: keys => Measure.argmin_from 0 key 1 keys
              end).
    assert (Hk : (k < length st)%nat).
    { subst k. rewrite <- Hlen. destruct keys as [| key keys].
      - rewrite Est in Hlen. discriminate.
      - pose proof (argmin_from_bound keys 0 key 1 ltac:(lia)). simpl. lia. }
    destruct (lookup_lt_is_Some_2 _ _ Hk) as [[beat v] Hv].
    rewrite Hv.
    assert (Hvne : v <> []).
    { rewrite Forall_forall in Hst.
      exact (Hst _ (list_elem_of_lookup_2 _ _ _ Hv)). }
    destruct v as [| popped rest]; [contradiction |].
    destruct rest as [| r rest].
    + pose proof (total_length_delete _ _ _ _ Hv) as Hlen'.
      destruct (IH (delete k st)) as (leaves & Hl & Hll).
      * apply Forall_delete, Hst.
      * lia.
      * rewrite Hl. exists (popped :: leaves). split; [reflexivity |].
        simpl. lia.
    + set (beat' := (beat + TimedLeaf.true_length popped)%Q).
      pose proof (total_length_insert _ _ _ beat' _ _ Hv) as Hlen'.
      destruct (IH (<[k := (beat', r :: rest)]> st)) as (leaves & Hl & Hll).
      * apply Forall_insert; [exact Hst | discriminate].
      * lia.
      * rewrite Hl. exists (popped :: leaves). split; [reflexivity |].
        simpl. lia.
Qed.
End Leaves.

Section WellFormed.
Implicit Types (n : XMLNote.t) (l leaf : Leaf) (e : Element)
  (v : option (list Element)) (vs : list (option (list Element))).

Lemma nonempty_fmap {A B : Type} (f : A -> B) (xs : list A) :
  nonempty (f <$> xs) = nonempty xs.
Proof. destruct xs; reflexivity. Qed.

Lemma nonempty_true {A : Type} (xs : list A) : nonempty xs = true <-> xs <> [].
Proof. destruct xs; simpl; split; congruence. Qed.

Lemma forallb_fmap_ext {A : Type} (p : A -> bool) (f : A -> A) (xs : list A) :
  (forall x, p (f x) = p x) -> forallb p (f <$> xs) = forallb p xs.
Proof.
  intros H. induction xs as [| x xs IH]; [reflexivity |].
  rewrite fmap_cons. simpl. rewrite H, IH. reflexivity.
Qed.

Lemma leaf_ok_map_all (f : XMLNote.t -> XMLNote.t) l :
  (forall n, note_ok (f n) = note_ok n) ->
  leaf_ok (Leaf.map_all f l) = leaf_ok l.
Proof.
  intros H. destruct l as [n | first others]; simpl; [apply H |].
  rewrite H, forallb_fmap_ext by exact H. reflexivity.
Qed.

Lemma leaf_ok_map_head (f : XMLNote.t -> XMLNote.t) l :
  (forall n, note_ok (f n) = note_ok n) ->
  leaf_ok (Leaf.map_head f l) = leaf_ok l.
Proof.
  intros H. destruct l as [n | first others]; simpl; rewrite H; reflexivity.
Qed.

Lemma element_ok_set_voice (z : Z) e :
  element_ok (Measure.set_element_voice z e) = element_ok e.
Proof.
  destruct e as [[l | b] | contents | contents ratio]; simpl.
  - rewrite leaf_ok_map_head by reflexivity. apply leaf_ok_map_all. reflexivity.
  - reflexivity.
  - rewrite nonempty_fmap, forallb_fmap_ext; [reflexivity |].
    intros l. apply leaf_ok_map_all. reflexivity.
  - rewrite nonempty_fmap. reflexivity.
Qed.

Lemma element_ok_set_divisions (z : Z) e :
  element_ok (Element.map_leaves (fun l => Leaf.set_divisions l z)
                (fun b => BarRest.set_divisions b z) e)
  = element_ok e.
Proof.
  destruct e as [[l | b] | contents | contents ratio]; simpl.
  - apply leaf_ok_map_all. reflexivity.
  - reflexivity.
  - rewrite nonempty_fmap, forallb_fmap_ext; [reflexivity |].
    intros l. apply leaf_ok_map_all. reflexivity.
  - rewrite nonempty_fmap. reflexivity.
Qed.

Lemma voices_ok_set_leaf_voices vs :
  forallb voice_ok (Measure._set_leaf_voices vs) = forallb voice_ok vs.
Proof.
  unfold Measure._set_leaf_voices.
  enough (H : forall g : nat -> Z,
    forallb voice_ok
      (imap (fun i (voice : option (list Element)) =>
               (fun els : list Element =>
                  Measure.set_element_voice (g i) <$> els) <$> voice) vs)
    = forallb voice_ok vs) by apply (H (fun i => Z.of_nat i + 1)).
  induction vs as [| v vs IH]; intros g; [reflexivity |].
  cbn [imap forallb]. f_equal; [| apply (IH (g ∘ S))].
  destruct v as [elements |]; [| reflexivity]. simpl.
  rewrite nonempty_fmap, forallb_fmap_ext; [reflexivity |].
  intros e. apply element_ok_set_voice.
Qed.

Lemma voices_ok_set_all_divisions (z : Z) vs :
  forallb voice_ok (Measure.set_all_divisions z vs) = forallb voice_ok vs.
Proof.
  unfold Measure.set_all_divisions.
  induction vs as [| v vs IH]; [reflexivity |].
  rewrite fmap_cons. cbn [forallb]. f_equal; [| apply IH].
  destruct v as [elements |]; [| reflexivity]. simpl.
  rewrite nonempty_fmap, forallb_fmap_ext; [reflexivity |].
  intros e. apply element_ok_set_divisions.
Qed.

Lemma unravel_nonempty e : element_ok e = true -> Element.unravel e <> [].
Proof.
  destruct e as [[l | b] | contents | contents ratio]; simpl; try discriminate.
  - intros [H _]%andb_prop. destruct contents; [discriminate | discriminate].
  - intros [H _]%andb_prop. destruct contents; [discriminate | discriminate].
Qed.

Lemma voice_list_copy_nonempty vs :
  forallb voice_ok vs = true ->
  Forall (fun leaves => leaves <> []) (Measure.voice_list_copy vs).
Proof.
  unfold Measure.voice_list_copy.
  induction vs as [| v vs IH]; [constructor |].
  cbn [forallb]. intros [Hv Hvs]%andb_prop.
  destruct v as [elements |]; cbn; [| apply IH, Hvs].
  constructor; [| apply IH, Hvs].
  simpl in Hv. apply andb_prop in Hv as [Hne Hall].
  destruct elements as [| e elements]; [discriminate |].
  simpl in Hall. apply andb_prop in Hall as [He _].
  rewrite fmap_cons. simpl. pose proof (unravel_nonempty e He).
  destruct (Element.unravel e); [contradiction | discriminate].
Qed.

(** The leaves of well-formed voices are found without an exception. *)
Lemma leaves_ok vs :
  forallb voice_ok vs = true ->
  exists leaves, Measure.leaves vs = Some (Ok leaves).
Proof.
  intros Hvs. unfold Measure.leaves.
  set (copy := Measure.voice_list_copy vs).
  assert (Hsnd : snd <$> ((fun x => (0%Q, x)) <$> copy) = copy).
  { rewrite <- list_fmap_compose. apply list_fmap_id. }
  destruct (iter_leaves_loop_ok (S (length (concat copy)))
              ((fun x => (0%Q, x)) <$> copy)) as (leaves & Hl & _).
  - apply Forall_fmap. eapply Forall_impl; [apply voice_list_copy_nonempty, Hvs |].
    intros x Hx. exact Hx.
  - rewrite Hsnd. lia.
  - eauto.
Qed.
End WellFormed.

(** ** Rendering the elements of a voice *)

Section Rendering.
Implicit Types (n : XMLNote.t) (l leaf : Leaf) (e : Element)
  (c contents : list Leaf) (r ratio : TupletRatio).

Lemma list_getitem_nonneg {A : Type} (xs : list A) (i : nat) (x : A) :
  xs !! i = Some x -> list_getitem xs (Z.of_nat i) = Ok x.
Proof.
  intros Hi. pose proof (lookup_lt_Some _ _ _ Hi) as Hlt.
  unfold list_getitem.
  destruct (Z.ltb_spec (Z.of_nat i) 0); [lia |].
  destruct (Z.ltb_spec (Z.of_nat i) 0); [lia |].
  destruct (Z.leb_spec (Z.of_nat (length xs)) (Z.of_nat i)); [lia |].
  simpl. rewrite Nat2Z.id, Hi. reflexivity.
Qed.

Lemma list_getitem_last {A : Type} (xs : list A) (x : A) :
  xs !! (length xs - 1)%nat = Some x -> list_getitem xs (-1) = Ok x.
Proof.
  intros Hi. pose proof (lookup_lt_Some _ _ _ Hi) as Hlt.
  unfold list_getitem.
  destruct (Z.ltb_spec (-1) 0); [| lia].
  destruct (Z.ltb_spec (-1 + Z.of_nat (length xs)) 0); [lia |].
  destruct (Z.leb_spec (Z.of_nat (length xs)) (-1 + Z.of_nat (length xs)));
    [lia |].
  simpl. replace (Z.to_nat (-1 + Z.of_nat (length xs)))
    with (length xs - 1)%nat by lia.
  rewrite Hi. reflexivity.
Qed.

Lemma note_render_ok n :
  note_ok n = true ->
  exists els n',
    XMLNote_render n = Ok (els, n') /\
    forallb leaf_child els = true /\ els <> [] /\
    note_divisions n' = note_divisions n.
Proof.
  intros Hn. unfold XMLNote_render.
  assert (Duration_render_check (XMLNote.duration n) = Ok ()) as ->.
  { unfold note_ok, ratio_ok in Hn. unfold Duration_render_check.
    destruct (Duration.tuplet_ratio _) as [r |]; [| reflexivity].
    destruct (normal_type r) as [x |]; [| reflexivity].
    destruct (ladder_lookup x); [reflexivity | discriminate]. }
  cbn [mbind result_bind]. do 2 eexists. split; [reflexivity |].
  split; [| split; [| reflexivity]].
  - rewrite forallb_app. simpl. rewrite andb_true_r.
    induction (XMLNote.directions _); [reflexivity | assumption].
  - intros H. apply app_eq_nil in H as [_ H]. discriminate.
Qed.

Lemma render_notes_ok (ns : list XMLNote.t) :
  forallb note_ok ns = true ->
  exists els ns',
    render_notes ns = Ok (els, ns') /\
    forallb leaf_child els = true /\
    note_divisions <$> ns' = note_divisions <$> ns.
Proof.
  induction ns as [| n ns IH]; simpl.
  - intros _. exists [], []. repeat split.
  - intros [Hn Hns]%andb_prop.
    destruct (note_render_ok n Hn) as (els & n' & -> & Hels & _ & Hd).
    destruct (IH Hns) as (els' & ns' & -> & Hels' & Hd').
    cbn. exists (els ++ els'), (n' :: ns'). split; [reflexivity |].
    split; [rewrite forallb_app, Hels, Hels'; reflexivity |].
    rewrite !fmap_cons. rewrite Hd, Hd'. reflexivity.
Qed.

Lemma leaf_render_ok l :
  leaf_ok l = true ->
  exists els l',
    Leaf_render l = Ok (els, l') /\
    forallb leaf_child els = true /\ els <> [] /\
    leaf_divisions l' = leaf_divisions l.
Proof.
  destruct l as [n | first others]; simpl.
  - intros Hn.
    destruct (note_render_ok n Hn) as (els & n' & -> & Hels & Hne & Hd).
    cbn. exists els, (NoteOrRest n'). repeat split; auto. simpl. congruence.
  - intros [Hn Hns]%andb_prop.
    destruct (note_render_ok first Hn) as (els & n' & -> & Hels & Hne & Hd).
    destruct (render_notes_ok others Hns) as (els' & ns' & -> & Hels' & Hd').
    cbn. exists (els ++ els'), (Chord n' ns'). split; [reflexivity |].
    split; [rewrite forallb_app, Hels, Hels'; reflexivity |].
    split; [| simpl; congruence].
    intros H. apply app_eq_nil in H as [H _]. contradiction.
Qed.

Lemma render_leaves_ok c :
  forallb leaf_ok c = true ->
  exists els c',
    render_leaves c = Ok (els, c') /\
    forallb leaf_child els = true /\ (c <> [] -> els <> []) /\
    concat (leaf_divisions <$> c') = concat (leaf_divisions <$> c).
Proof.
  induction c as [| l c IH]; simpl.
  - intros _. exists [], []. repeat split. intros H. contradiction.
  - intros [Hl Hc]%andb_prop.
    destruct (leaf_render_ok l Hl) as (els & l' & -> & Hels & Hne & Hd).
    destruct (IH Hc) as (els' & c' & -> & Hels' & _ & Hd').
    cbn. exists (els ++ els'), (l' :: c'). split; [reflexivity |].
    split; [rewrite forallb_app, Hels, Hels'; reflexivity |].
    split.
    + intros _ H. apply app_eq_nil in H as [H _]. contradiction.
    + rewrite !fmap_cons. cbn [concat]. rewrite Hd, Hd'. reflexivity.
Qed.

Lemma leaf_ok_set_beams l (b : gmap nat BeamType) :
  leaf_ok (Leaf.set_beams l b) = leaf_ok l.
Proof. destruct l; reflexivity. Qed.

Lemma leaf_divisions_set_beams l (b : gmap nat BeamType) :
  leaf_divisions (Leaf.set_beams l b) = leaf_divisions l.
Proof. destruct l; reflexivity. Qed.

Lemma same_notes_ok c c' :
  same_notes c c' ->
  forallb leaf_ok c' = forallb leaf_ok c /\
  concat (leaf_divisions <$> c') = concat (leaf_divisions <$> c).
Proof.
  induction 1 as [| l l' c c' [b ->] _ [IH1 IH2]]; [split; reflexivity |].
  rewrite !fmap_cons. simpl.
  rewrite leaf_ok_set_beams, leaf_divisions_set_beams, IH1, IH2.
  split; reflexivity.
Qed.

Lemma group_render_ok c :
  c <> [] -> forallb leaf_ok c = true ->
  exists els c',
    BeamedGroup_render c = Ok (els, c') /\
    forallb leaf_child els = true /\ els <> [] /\
    concat (leaf_divisions <$> c') = concat (leaf_divisions <$> c).
Proof.
  intros Hne Hok. unfold BeamedGroup_render.
  rewrite (render_contents_beaming_spec c Hne). cbn [mbind result_bind].
  set (c1 := imap (beamed c) c).
  assert (Hsame : same_notes c c1).
  { apply (same_notes_imap c
             (fun i leaf =>
                cleared (assigned_beams c i leaf (seq 1 (max_beams c))))). }
  destruct (same_notes_ok _ _ Hsame) as [Hok1 Hd1].
  destruct (render_leaves_ok c1) as (els & c' & Hr & Hels & Hnil & Hd).
  { rewrite Hok1. exact Hok. }
  exists els, c'. split; [exact Hr |]. split; [exact Hels |].
  split; [| congruence].
  apply Hnil. intros H1. apply Hne. apply (f_equal length) in H1.
  unfold c1 in H1. rewrite length_imap in H1.
  destruct c; [reflexivity | discriminate].
Qed.

Lemma leaf_divisions_set_tuplet_bracket l (b : option BracketType) :
  leaf_divisions (Leaf.set_tuplet_bracket l b) = leaf_divisions l.
Proof. destruct l; reflexivity. Qed.

Lemma leaf_divisions_set_tuplet_ratio l (x : option TupletRatio) :
  leaf_divisions (Leaf.set_tuplet_ratio l x) = leaf_divisions l.
Proof.
  destruct l as [n | first others]; simpl; [reflexivity |]. f_equal.
  rewrite <- list_fmap_compose. reflexivity.
Qed.

Lemma leaf_ok_set_tuplet_ratio l r :
  ratio_ok r = true -> leaf_ok (Leaf.set_tuplet_ratio l (Some r)) = true.
Proof.
  intros Hr. destruct l as [n | first others]; simpl; [exact Hr |].
  unfold note_ok at 1. simpl. rewrite Hr. simpl.
  induction others as [| n ns IH]; [reflexivity |].
  rewrite fmap_cons. simpl. rewrite IH. unfold note_ok. simpl. rewrite Hr.
  reflexivity.
Qed.

Lemma leaf_divisions_insert c (i : nat) l l' :
  c !! i = Some l -> leaf_divisions l' = leaf_divisions l ->
  leaf_divisions <$> <[i := l']> c = leaf_divisions <$> c.
Proof.
  intros Hi Hd. rewrite list_fmap_insert, Hd. apply list_insert_id.
  rewrite list_lookup_fmap, Hi. reflexivity.
Qed.

Lemma set_tuplet_info_ok c r :
  c <> [] ->
  exists c1,
    Tuplet._set_tuplet_info_for_contents c r = Ok c1 /\
    c1 <> [] /\
    (ratio_ok r = true -> forallb leaf_ok c1 = true) /\
    concat (leaf_divisions <$> c1) = concat (leaf_divisions <$> c).
Proof.
  intros Hne. destruct c as [| first c]; [contradiction |].
  unfold Tuplet._set_tuplet_info_for_contents.
  pose proof (list_getitem_nonneg (first :: c) 0 first eq_refl) as H0.
  change (Z.of_nat 0) with 0 in H0. rewrite H0. clear H0.
  cbn [mbind result_bind].
  set (c0 := <[0%nat := Leaf.set_tuplet_bracket first (Some BracketStart)]>
               (first :: c)).
  assert (Hd0 : leaf_divisions <$> c0 = leaf_divisions <$> first :: c).
  { apply (leaf_divisions_insert _ 0 first); [reflexivity |].
    apply leaf_divisions_set_tuplet_bracket. }
  assert (Hlen0 : length c0 = S (length c)) by reflexivity.
  destruct (lookup_lt_is_Some_2 c0 (length c0 - 1)) as [lst Hlst]; [lia |].
  rewrite (list_getitem_last c0 lst Hlst). cbn [mbind result_bind].
  eexists. split; [reflexivity |]. split; [| split].
  - intros H. apply (f_equal length) in H.
    rewrite length_fmap, length_insert, Hlen0 in H. discriminate.
  - intros Hr. rewrite forallb_forall. intros l Hl.
    apply list_elem_of_In, list_elem_of_fmap in Hl as (l0 & -> & _).
    apply leaf_ok_set_tuplet_ratio, Hr.
  - rewrite <- list_fmap_compose.
    rewrite (list_fmap_ext _ leaf_divisions)
      by (intros ? ? _; apply leaf_divisions_set_tuplet_ratio).
    rewrite (leaf_divisions_insert _ _ lst) by
      (auto using leaf_divisions_set_tuplet_bracket).
    rewrite Hd0. reflexivity.
Qed.

Lemma tuplet_render_ok c r :
  c <> [] -> ratio_ok r = true ->
  exists els c',
    Tuplet_render c r = Ok (els, c') /\
    forallb leaf_child els = true /\ els <> [] /\
    concat (leaf_divisions <$> c') = concat (leaf_divisions <$> c).
Proof.
  intros Hne Hr. unfold Tuplet_render.
  destruct (set_tuplet_info_ok c r Hne) as (c1 & -> & Hne1 & Hok1 & Hd1).
  cbn [mbind result_bind].
  destruct (group_render_ok c1 Hne1 (Hok1 Hr)) as (els & c' & -> & ? & ? & Hd).
  exists els, c'. repeat split; auto. congruence.
Qed.

Lemma element_render_ok e :
  element_ok e = true ->
  exists els e',
    Element_render e = Ok (els, e') /\
    forallb leaf_child els = true /\ els <> [] /\
    element_divisions e' = element_divisions e.
Proof.
  destruct e as [[l | b] | c | c r]; simpl.
  - intros Hl.
    destruct (leaf_render_ok l Hl) as (els & l' & -> & Hels & Hne & Hd).
    cbn. exists els, (Single (ALeaf l')). repeat split; auto.
  - intros _. do 2 eexists. split; [reflexivity |].
    split; [| split; [| reflexivity]].
    + unfold BarRest_render. rewrite forallb_app. simpl. rewrite andb_true_r.
      induction (BarRest.directions b); [reflexivity | assumption].
    + intros H. apply app_eq_nil in H as [_ H]. discriminate.
  - intros [Hne%nonempty_true Hok]%andb_prop.
    destruct (group_render_ok c Hne Hok) as (els & c' & -> & ? & ? & Hd).
    cbn. exists els, (BeamedGroupOf c'). repeat split; auto.
  - intros [Hne%nonempty_true Hr]%andb_prop.
    destruct (tuplet_render_ok c r Hne Hr) as (els & c' & -> & ? & ? & Hd).
    cbn. exists els, (TupletOf c' r). repeat split; auto.
Qed.
End Rendering.

(** ** The voice loop *)

Section Voices.
Implicit Types (e : Element) (v : list Element)
  (vs : list (option (list Element))).

Lemma render_voice_ok v :
  forallb element_ok v = true ->
  exists els v',
    (forall amount,
       Measure.render_voice v amount = Ok (els, v', amount + voice_ticks v)) /\
    forallb leaf_child els = true /\ (v <> [] -> els <> []) /\
    voice_divisions (Some v') = voice_divisions (Some v).
Proof.
  induction v as [| e v IH]; cbn [forallb].
  - intros _. exists [], []. split; [| repeat split; congruence].
    intros amount. unfold voice_ticks. simpl. rewrite Z.add_0_r. reflexivity.
  - intros [He Hv]%andb_prop.
    destruct (element_render_ok e He) as (els & e' & He' & Hels & Hne & Hd).
    destruct (IH Hv) as (els' & v' & Hv' & Hels' & _ & Hd').
    exists (els ++ els'), (e' :: v'). split; [| split; [| split]].
    + intros amount.
      assert (Ht : voice_ticks (e :: v)
                   = Element.length_in_divisions e + voice_ticks v)
        by reflexivity.
      rewrite Ht, Z.add_assoc. cbn [Measure.render_voice].
      rewrite He'. cbn [mbind result_bind]. rewrite Hv'. reflexivity.
    + rewrite forallb_app, Hels, Hels'. reflexivity.
    + intros _ H. apply app_eq_nil in H as [H _]. contradiction.
    + unfold voice_divisions in *. rewrite !fmap_cons. cbn [concat].
      rewrite Hd, Hd'. reflexivity.
Qed.

Lemma render_voices_app vs1 :
  forall vs2 i amount,
    Measure.render_voices i (vs1 ++ vs2) amount
    = match Measure.render_voices i vs1 amount with
      | Ok (els1, vs1', amount1) =>
          match Measure.render_voices (i + length vs1) vs2 amount1 with
          | Ok (els2, vs2', amount2) =>
              Ok (els1 ++ els2, vs1' ++ vs2', amount2)
          | Raise ex => Raise ex
          end
      | Raise ex => Raise ex
      end.
Proof.
  induction vs1 as [| [v |] vs1 IH]; intros vs2 i amount.
  - simpl. rewrite Nat.add_0_r.
    destruct (Measure.render_voices i vs2 amount) as [[[? ?] ?] |]; reflexivity.
  - cbn [app Measure.render_voices length].
    destruct (Measure.render_voice v 0) as [[[els v'] a] |]; [| reflexivity].
    cbn. rewrite IH. replace (S i + length vs1)%nat with (i + S (length vs1))%nat by lia.
    destruct (Measure.render_voices (S i) vs1 a) as [[[els1 vs1'] a1] |];
      [| reflexivity].
    cbn.
    destruct (Measure.render_voices (i + S (length vs1)) vs2 a1)
      as [[[els2 vs2'] a2] |]; [| reflexivity].
    cbn. rewrite <- !app_assoc. reflexivity.
  - cbn [app Measure.render_voices length].
    rewrite IH. replace (S i + length vs1)%nat with (i + S (length vs1))%nat by lia.
    destruct (Measure.render_voices (S i) vs1 amount) as [[[els1 vs1'] a1] |];
      [| reflexivity].
    cbn.
    destruct (Measure.render_voices (i + S (length vs1)) vs2 a1)
      as [[[els2 vs2'] a2] |]; reflexivity.
Qed.

Lemma render_voices_nones vs :
  Forall (fun o : option (list Element) => o = None) vs ->
  forall i amount, Measure.render_voices i vs amount = Ok ([], vs, amount).
Proof.
  induction 1 as [| o vs -> _ IH]; intros i amount; [reflexivity |].
  simpl. rewrite IH. reflexivity.
Qed.

Lemma render_voices_ok vs :
  forallb voice_ok vs = true ->
  forall i amount,
    exists els vs' amount',
      Measure.render_voices i vs amount = Ok (els, vs', amount') /\
      voices_divisions vs' = voices_divisions vs.
Proof.
  induction vs as [| [v |] vs IH]; simpl.
  - intros _ i amount. exists [], [], amount. split; reflexivity.
  - intros [[_ Hv]%andb_prop Hvs]%andb_prop i amount.
    destruct (render_voice_ok v Hv) as (els & v' & Hr & _ & _ & Hd).
    rewrite Hr. cbn.
    destruct (IH Hvs (S i) (0 + voice_ticks v)) as (els' & vs' & a' & -> & Hd').
    cbn. do 3 eexists. split; [reflexivity |].
    unfold voices_divisions in *. rewrite !fmap_cons. cbn [concat].
    rewrite Hd, Hd'. reflexivity.
  - intros Hvs i amount.
    destruct (IH Hvs (S i) amount) as (els' & vs' & a' & -> & Hd').
    cbn. do 3 eexists. split; [reflexivity |].
    unfold voices_divisions in *. rewrite !fmap_cons. cbn [concat].
    rewrite Hd'. reflexivity.
Qed.

(** Between the leaves of a rendered voice and the leaves of the next
    rendered voice stands one [backup], by the tick length of the
    former. *)
Lemma render_voices_rewound pre v1 gap v2 post els vs' amount' :
  forallb voice_ok (pre ++ Some v1 :: gap ++ Some v2 :: post) = true ->
  Forall (fun o : option (list Element) => o = None) gap ->
  Measure.render_voices 0 (pre ++ Some v1 :: gap ++ Some v2 :: post) 0
    = Ok (els, vs', amount') ->
  exists before els1 els2 after v1' v2',
    els = before ++ els1 ++ BackupEl (voice_ticks v1) :: els2 ++ after /\
    Measure.render_voice v1 0 = Ok (els1, v1', voice_ticks v1) /\
    Measure.render_voice v2 0 = Ok (els2, v2', voice_ticks v2) /\
    els1 <> [] /\ els2 <> [] /\
    forallb leaf_child els1 = true /\ forallb leaf_child els2 = true.
Proof.
  rewrite !forallb_app. cbn [forallb]. rewrite !forallb_app. cbn [forallb].
  intros [Hpre [Hv1 [Hgap [Hv2 Hpost]%andb_prop]%andb_prop]%andb_prop]%andb_prop
    Hnone.
  simpl in Hv1, Hv2.
  apply andb_prop in Hv1 as [Hne1%nonempty_true Hv1].
  apply andb_prop in Hv2 as [Hne2%nonempty_true Hv2].
  destruct (render_voice_ok v1 Hv1) as (els1 & v1' & Hr1 & Hc1 & Hn1 & _).
  destruct (render_voice_ok v2 Hv2) as (els2 & v2' & Hr2 & Hc2 & Hn2 & _).
  destruct (render_voices_ok pre Hpre 0%nat 0) as (e0 & p' & a0 & Hr0 & _).
  set (j := (0 + length pre + 1 + length gap + 1)%nat).
  destruct (render_voices_ok post Hpost j (0 + voice_ticks v2))
    as (e3 & q' & a3 & Hr3 & _).
  assert (Hpos : (0 <? 0 + length pre + 1 + length gap)%nat = true)
    by (apply Nat.ltb_lt; lia).
  assert (Hall :
    Measure.render_voices 0 (pre ++ [Some v1] ++ gap ++ [Some v2] ++ post) 0
    = Ok (e0 ++ ((if (0 <? 0 + length pre)%nat then [BackupEl a0] else [])
                 ++ els1 ++ [])
             ++ [] ++ ([BackupEl (0 + voice_ticks v1)] ++ els2 ++ []) ++ e3,
          p' ++ [Some v1'] ++ gap ++ [Some v2'] ++ q', a3)).
  { rewrite render_voices_app, Hr0.
    rewrite render_voices_app. cbn [Measure.render_voices]. rewrite Hr1.
    cbn [mbind result_bind].
    rewrite render_voices_app, (render_voices_nones gap Hnone).
    rewrite render_voices_app. cbn [Measure.render_voices]. rewrite Hr2.
    cbn [mbind result_bind length].
    fold j. rewrite Hpos, Hr3. reflexivity. }
  change (Some v1 :: gap ++ Some v2 :: post)
    with ([Some v1] ++ gap ++ [Some v2] ++ post).
  rewrite Hall. intros [= <- _ _].
  exists (e0 ++ (if (0 <? 0 + length pre)%nat then [BackupEl a0] else [])),
    els1, els2, e3, v1', v2'.
  split.
  { rewrite Z.add_0_l, !app_nil_r. cbn [app].
    rewrite <- ?app_assoc. reflexivity. }
  split; [rewrite Hr1, Z.add_0_l; reflexivity |].
  split; [rewrite Hr2, Z.add_0_l; reflexivity |].
  auto.
Qed.
End Voices.

(** ** The measure *)

Section MeasureRender.
Implicit Types (m : Measure.t) (vs : list (option (list Element))).

Lemma min_denominator_pos (x : TimedLeaf) : 0 < TimedLeaf.min_denominator x.
Proof.
  destruct x as [l | b]; simpl.
  - unfold Leaf.min_denominator, XMLNote.min_denominator.
    destruct (XMLNote.is_grace _); [lia | apply limited_denominator_pos].
  - apply limited_denominator_pos.
Qed.

(** The value of [num_beat_divisions]: the combined multiple when it fits
    in 1024, else the leaves' multiple times the largest power of two that
    fits. *)
Lemma compute_divisions_spec (leaf_denominators : list Z)
    (dwd : list (Direction * Q)) :
  Forall (fun x => 0 < x) leaf_denominators ->
  let base := _least_common_multiple leaf_denominators in
  let dirs := (fun dd : Direction * Q => limited_denominator (snd dd) 256) <$> dwd in
  let combined := _least_common_multiple (dirs ++ [base]) in
  let d := Measure.compute_divisions leaf_denominators dwd in
  0 < base /\
  Forall (fun x => 1 <= x <= 256) dirs /\
  (base <= 1024 ->
   d <= 1024 /\
   (combined <= 1024 -> d = combined) /\
   (1024 < combined ->
    exists k, 0 <= k /\ d = base * 2 ^ k /\
              base * 2 ^ k <= 1024 < base * 2 ^ (k + 1))).
Proof.
  intros Hpos base dirs combined d.
  assert (Hbase : 0 < base) by (apply least_common_multiple_pos, Hpos).
  assert (Hdirs : Forall (fun x => 1 <= x <= 256) dirs).
  { apply Forall_fmap, Forall_forall. intros dd _.
    apply limited_denominator_bounds. lia. }
  split; [exact Hbase |]. split; [exact Hdirs |]. intros Hle.
  assert (Hd : d = if (0 <? length dwd)%nat
                   then if combined <=? 1024 then combined
                        else base * Measure.max_1_pow2
                                      (Measure.int_log2_1024_over base)
                   else base).
  { subst d. unfold Measure.compute_divisions. fold base.
    destruct dwd as [| dd dwd]; [reflexivity |].
    cbn [length Nat.ltb Nat.leb].
    assert (Hc : _least_common_multiple
                   [Measure._get_beat_division_for_directions (dd :: dwd); base]
                 = combined).
    { subst combined. unfold Measure._get_beat_division_for_directions.
      fold dirs. rewrite least_common_multiple_app.
      - cbn [_least_common_multiple]. apply lcm2_lcm; [| exact Hbase].
        apply least_common_multiple_pos.
        eapply Forall_impl; [exact Hdirs |]. simpl. intros; lia.
      - eapply Forall_impl; [exact Hdirs |]. simpl. intros; lia.
      - constructor; [exact Hbase | constructor]. }
    rewrite Hc. reflexivity. }
  assert (Hnil : dwd = [] -> combined = base).
  { intros ->. reflexivity. }
  destruct (max_1_pow2_largest base ltac:(lia)) as (k & Hk & Hpow & Hfit).
  rewrite Hpow in Hd.
  destruct dwd as [| dd dwd].
  - rewrite (Hnil eq_refl). simpl in Hd. repeat split; try lia.
  - clear Hnil. cbn [length Nat.ltb Nat.leb] in Hd.
    destruct (Z.leb_spec combined 1024) as [Hc | Hc].
    + repeat split; try lia.
    + split; [lia |]. split; [lia |]. intros _. exists k. repeat split; lia.
Qed.

Lemma leaf_divisions_set_divisions (l : Leaf) (d : Z) :
  Forall (fun x => x = d) (leaf_divisions (Leaf.set_divisions l d)).
Proof.
  destruct l as [n | first others]; simpl; repeat constructor.
  apply Forall_fmap, Forall_fmap, Forall_forall. reflexivity.
Qed.

Lemma concat_Forall {A : Type} (P : A -> Prop) (xss : list (list A)) :
  Forall (Forall P) xss -> Forall P (concat xss).
Proof.
  induction 1 as [| xs xss Hxs _ IH]; [constructor |].
  simpl. apply Forall_app. split; assumption.
Qed.

Lemma voices_divisions_set_all (d : Z) vs :
  Forall (fun x => x = d) (voices_divisions (Measure.set_all_divisions d vs)).
Proof.
  unfold voices_divisions, Measure.set_all_divisions.
  apply concat_Forall, Forall_fmap, Forall_fmap, Forall_forall.
  intros [elements |] _; simpl; [| constructor].
  apply concat_Forall, Forall_fmap, Forall_fmap, Forall_forall.
  intros [[l | b] | c | c r] _; simpl.
  - apply leaf_divisions_set_divisions.
  - repeat constructor.
  - apply concat_Forall, Forall_fmap, Forall_fmap, Forall_forall.
    intros l _. apply leaf_divisions_set_divisions.
  - apply concat_Forall, Forall_fmap, Forall_fmap, Forall_forall.
    intros l _. apply leaf_divisions_set_divisions.
Qed.

(** A well-formed measure renders: the attributes come first, then what
    the voice loop emits, then the displaced directions and the barline. *)
Lemma render_ok m vs :
  Measure.voices (Measure.contents m) = Ok vs ->
  forallb voice_ok vs = true ->
  exists all_leaves els vs' amount,
    Measure.leaves (Measure._set_leaf_voices vs) = Some (Ok all_leaves) /\
    let dwd := Measure.directions_with_displacements m in
    let d := Measure.compute_divisions
               (TimedLeaf.min_denominator <$> all_leaves) dwd in
    let vs1 := Measure.set_all_divisions d (Measure._set_leaf_voices vs) in
    forallb voice_ok vs1 = true /\
    Measure.render_voices 0 vs1 0 = Ok (els, vs', amount) /\
    voices_divisions vs' = voices_divisions vs1 /\
    Measure.render m
    = Some (Ok (mkMeasureEl (Measure.number m)
                  (AttributesEl d (Measure.time_signature m) (Measure.clef m)
                     (Measure.staves m)
                   :: els
                   ++ (if (0 <? length dwd)%nat
                       then Measure.render_displaced d dwd amount else [])
                   ++ match Measure.barline m with
                      | Some style => [BarlineEl style]
                      | None => []
                      end),
                vs')).
Proof.
  intros Hvs Hok.
  destruct (leaves_ok (Measure._set_leaf_voices vs)) as [all_leaves Hl].
  { rewrite voices_ok_set_leaf_voices. exact Hok. }
  set (dwd := Measure.directions_with_displacements m).
  set (d := Measure.compute_divisions
              (TimedLeaf.min_denominator <$> all_leaves) dwd).
  set (vs1 := Measure.set_all_divisions d (Measure._set_leaf_voices vs)).
  assert (Hok1 : forallb voice_ok vs1 = true).
  { subst vs1. rewrite voices_ok_set_all_divisions, voices_ok_set_leaf_voices.
    exact Hok. }
  destruct (render_voices_ok vs1 Hok1 0%nat 0) as (els & vs' & amount & Hr & Hd).
  exists all_leaves, els, vs', amount.
  split; [exact Hl |]. cbv zeta. fold dwd d vs1.
  split; [exact Hok1 |]. split; [exact Hr |]. split; [exact Hd |].
  unfold Measure.render. rewrite Hvs, Hl. fold dwd d vs1. rewrite Hr.
  reflexivity.
Qed.
End MeasureRender.

Lemma measure_ok_voices (m : Measure.t) :
  measure_ok m = true ->
  exists vs, Measure.voices (Measure.contents m) = Ok vs /\
             forallb voice_ok vs = true.
Proof.
  unfold measure_ok.
  destruct (Measure.voices (Measure.contents m)) as [vs |]; [eauto | discriminate].
Qed.

(** The voice loop.  A well-formed measure renders, and for every two
    voices rendered one after the other (only [None] voices between them),
    as they stand when the voice loop runs, the children of the [measure]
    element hold, in a row, the leaves of the first, non-empty and free of
    [backup] and [forward], one [backup] whose duration is the sum of
    [length_in_divisions] over the elements of the first, read before they
    are rendered, and the leaves of the second.  The measure of four
    quarter notes over two quarter notes at 480 divisions renders to four
    notes, one backup of 1920, two notes, and then the displaced
    directions.  That the [backup] is what the voice emitted is
    [built_voices_are_rewound], for measures as the constructors leave
    them. *)
Theorem voices_are_rewound :
  (forall m : Measure.t,
     measure_ok m = true ->
     exists vs el vs' d,
       Measure.voices (Measure.contents m) = Ok vs /\
       Measure.render m = Some (Ok (el, vs')) /\
       head (el_children el)
         = Some (AttributesEl d (Measure.time_signature m) (Measure.clef m)
                   (Measure.staves m)) /\
       forall pre v1 gap v2 post,
         Measure.set_all_divisions d (Measure._set_leaf_voices vs)
           = pre ++ Some v1 :: gap ++ Some v2 :: post ->
         Forall (fun o : option (list Element) => o = None) gap ->
         exists before els1 els2 after v1' v2',
           el_children el
             = before ++ els1 ++ BackupEl (voice_ticks v1) :: els2 ++ after /\
           Measure.render_voice v1 0 = Ok (els1, v1', voice_ticks v1) /\
           Measure.render_voice v2 0 = Ok (els2, v2', voice_ticks v2) /\
           els1 <> [] /\ els2 <> [] /\
           forallb leaf_child els1 = true /\ forallb leaf_child els2 = true) /\
  rendered_kinds two_voice_measure
    = Some (Ok [KAttributes 480; KNote 480; KNote 480; KNote 480; KNote 480;
                KBackup 1920; KNote 480; KNote 480;
                KBackup 945; KDirection; KForward 17; KDirection]).
Proof.
  split; [| vm_compute; reflexivity].
  intros m Hm. destruct (measure_ok_voices m Hm) as (vs & Hvs & Hok).
  destruct (render_ok m vs Hvs Hok)
    as (all_leaves & els & vs' & amount & Hl & Hok1 & Hr & _ & Hrender).
  cbv zeta in *.
  set (d := Measure.compute_divisions
              (TimedLeaf.min_denominator <$> all_leaves)
              (Measure.directions_with_displacements m)) in *.
  exists vs. eexists. exists vs', d. split; [exact Hvs |]. split; [exact Hrender |].
  split; [reflexivity |].
  intros pre v1 gap v2 post Hsplit Hgap. rewrite Hsplit in Hok1, Hr.
  destruct (render_voices_rewound _ _ _ _ _ _ _ _ Hok1 Hgap Hr)
    as (before & els1 & els2 & after & v1' & v2' & -> & H1 & H2 & Hrest).
  eexists (_ :: before), els1, els2, (after ++ _), v1', v2'.
  split; [| split; [exact H1 | split; [exact H2 | exact Hrest]]].
  cbn [el_children]. rewrite <- !app_assoc. cbn [app].
  rewrite <- !app_assoc. reflexivity.
Qed.

Lemma voices_are_rewound_witness :
  exists vs el vs' d,
    Measure.voices (Measure.contents two_voice_measure) = Ok vs /\
    Measure.render two_voice_measure = Some (Ok (el, vs')) /\
    head (el_children el) = Some (AttributesEl d (Some (4, 4)) None None).
Proof.
  destruct (proj1 voices_are_rewound two_voice_measure)
    as (vs & el & vs' & d & H1 & H2 & H3 & _).
  - vm_compute. reflexivity.
  - exists vs, el, vs', d. split; [exact H1 |]. split; [exact H2 | exact H3].
Defined.

(** C2: a well-formed measure renders with one divisions value [d], put
    in the attributes and left in the [divisions] field of every leaf.
    Each displacement contributes a denominator of at most 256; with
    [base] the multiple of the leaves' minimal denominators and [combined]
    the multiple of [base] and the displacement denominators: if [base]
    is at most 1024 then so is [d]; [d] is [combined] when that is at most
    1024, and otherwise [base] times the largest power of two that keeps
    the product within 1024.  Denominators 3 for the leaves and 125 and 8
    for the displacements (combined 3000) give 768. *)
Theorem divisions_ceiling :
  (forall m : Measure.t,
     measure_ok m = true ->
     exists vs all_leaves el vs' d,
       Measure.voices (Measure.contents m) = Ok vs /\
       Measure.leaves (Measure._set_leaf_voices vs) = Some (Ok all_leaves) /\
       Measure.render m = Some (Ok (el, vs')) /\
       head (el_children el)
         = Some (AttributesEl d (Measure.time_signature m) (Measure.clef m)
                   (Measure.staves m)) /\
       Forall (fun x => x = d) (voices_divisions vs') /\
       let base :=
         _least_common_multiple (TimedLeaf.min_denominator <$> all_leaves) in
       let dirs :=
         (fun dd : Direction * Q => limited_denominator (snd dd) 256)
           <$> Measure.directions_with_displacements m in
       let combined := _least_common_multiple (dirs ++ [base]) in
       0 < base /\
       Forall (fun x => 1 <= x <= 256) dirs /\
       (base <= 1024 ->
        d <= 1024 /\
        (combined <= 1024 -> d = combined) /\
        (1024 < combined ->
         exists k, 0 <= k /\ d = base * 2 ^ k /\
                   base * 2 ^ k <= 1024 < base * 2 ^ (k + 1)))) /\
  (_least_common_multiple [125; 8; 3] = 3000 /\
   Measure.compute_divisions [3]
     [(mkDirection "a" 1, (1 # 125)%Q); (mkDirection "b" 1, (1 # 8)%Q)]
   = 768).
Proof.
  split; [| split; vm_compute; reflexivity].
  intros m Hm. destruct (measure_ok_voices m Hm) as (vs & Hvs & Hok).
  destruct (render_ok m vs Hvs Hok)
    as (all_leaves & els & vs' & amount & Hl & Hok1 & Hr & Hd & Hrender).
  cbv zeta in *.
  set (d := Measure.compute_divisions
              (TimedLeaf.min_denominator <$> all_leaves)
              (Measure.directions_with_displacements m)) in *.
  exists vs, all_leaves. eexists. exists vs', d.
  split; [exact Hvs |]. split; [exact Hl |]. split; [exact Hrender |].
  split; [reflexivity |]. split.
  { rewrite Hd. apply voices_divisions_set_all. }
  apply compute_divisions_spec.
  apply Forall_fmap, Forall_forall. intros x _. apply min_denominator_pos.
Qed.

Lemma divisions_ceiling_witness :
  exists el vs',
    Measure.render two_voice_measure = Some (Ok (el, vs')) /\
    head (el_children el) = Some (AttributesEl 480 (Some (4, 4)) None None) /\
    Forall (fun x => x = 480) (voices_divisions vs').
Proof.
  destruct (proj1 divisions_ceiling two_voice_measure)
    as (vs & all_leaves & el & vs' & d & H1 & H2 & H3 & H4 & H5 & _).
  - vm_compute. reflexivity.
  - assert (Hd : d = 480).
    { vm_compute in H3. injection H3 as <- _. vm_compute in H4.
      injection H4 as <-. reflexivity. }
    subst d. exists el, vs'. split; [exact H3 |]. split; [exact H4 | exact H5].
Defined.

(** ** Totality of the fuelled loops *)

Lemma voice_keys_nonempty (st : list (Q * list TimedLeaf)) keys :
  Measure.voice_keys st = Ok keys ->
  Forall (fun v => snd v <> []) st.
Proof.
  revert keys. induction st as [| [beat v] st IH]; intros keys;
    [constructor |].
  simpl. destruct v as [| x v]; [discriminate |]. cbn.
  destruct (Measure.voice_keys st) as [keys' |] eqn:Hk; [| discriminate].
  intros _. constructor; [discriminate | eapply IH; reflexivity].
Qed.

(** With more fuel than leaves the loop of [iter_leaves] ends, with the
    leaves or with an exception. *)
Lemma iter_leaves_loop_total (fuel : nat) (st : list (Q * list TimedLeaf)) :
  (length (concat (snd <$> st)) < fuel)%nat ->
  exists r, Measure.iter_leaves_loop fuel st = Some r.
Proof.
  intros Hfuel. destruct fuel as [| fuel]; [lia |].
  destruct (Measure.voice_keys st) as [keys | ex] eqn:Hkeys.
  - pose proof (voice_keys_nonempty st keys Hkeys) as Hst.
    destruct (iter_leaves_loop_ok (S fuel) st Hst ltac:(lia)) as (leaves & Hl & _).
    eauto.
  - destruct st as [| v0 st0]; [discriminate |].
    cbn [Measure.iter_leaves_loop]. rewrite Hkeys. eauto.
Qed.

Lemma leaves_total (vs : list (option (list Element))) :
  exists r, Measure.leaves vs = Some r.
Proof.
  unfold Measure.leaves. apply iter_leaves_loop_total.
  rewrite <- list_fmap_compose, list_fmap_id. lia.
Qed.

(** [Measure.render] returns or raises. *)
Lemma render_total (m : Measure.t) : exists r, Measure.render m = Some r.
Proof.
  unfold Measure.render.
  destruct (Measure.voices (Measure.contents m)) as [vs |]; [| eauto].
  destruct (leaves_total (Measure._set_leaf_voices vs)) as [[all_leaves |] ->];
    eauto.
Qed.

(** ** The slur numbers of a part *)

Lemma visit_leaves_ok (leaves : list TimedLeaf) :
  forall d : gmap SlurId (list SlurId),
    slots_ok d ->
    exists d' leaves' w,
      Part.visit_leaves d leaves = Ok (d', leaves', w) /\ slots_ok d' /\
      length leaves' = length leaves.
Proof.
  induction leaves as [| leaf leaves IH]; intros d Hd; simpl.
  - do 3 eexists. split; [reflexivity |]. split; [exact Hd | reflexivity].
  - destruct (visit_notations_ok (TimedLeaf.notations leaf) d Hd)
      as (d1 & ns & w1 & -> & Hd1 & _).
    cbn. destruct (IH d1 Hd1) as (d2 & leaves' & w2 & -> & Hd2 & Hlen).
    cbn. do 3 eexists. split; [reflexivity |]. split; [exact Hd2 |].
    simpl. congruence.
Qed.

Lemma part_iter_leaves_ok (measures : list Measure.t) :
  forallb measure_ok measures = true ->
  exists leaves, Part.iter_leaves measures = Some (Ok leaves).
Proof.
  induction measures as [| m ms IH]; simpl; [eauto |].
  intros [Hm Hms]%andb_prop.
  destruct (measure_ok_voices m Hm) as (vs & -> & Hok).
  destruct (leaves_ok vs Hok) as [leaves ->].
  destruct (IH Hms) as [leaves' ->]. eauto.
Qed.

(** On a part of well-formed measures the renumbering ends without an
    exception, whatever slurs the leaves carry. *)
Lemma validate_slur_numbers_ok (part : Part.t) :
  forallb measure_ok (Part.measures part) = true ->
  exists leaves w, Part._validate_slur_numbers part = Some (Ok (leaves, w)).
Proof.
  intros Hok. unfold Part._validate_slur_numbers.
  destruct (part_iter_leaves_ok _ Hok) as [leaves ->].
  destruct (visit_leaves_ok leaves ∅ slots_ok_empty)
    as (d' & leaves' & w & -> & _).
  cbn. eauto.
Qed.

(** The first start of a part with the id "A" gets the number 1 through
    the second clause of the start rule. *)
Lemma start_slur_numbering_witness :
  Part.visit_notation ∅ (StartSlur (IdStr "A"))
  = Ok (Part.setdefault_append ∅ (IdStr "A") (IdInt 1), StartSlur (IdInt 1), []).
Proof.
  refine (proj1 (proj1 (proj2 (start_slur_numbering ∅ (IdStr "A")))
                   1 [2; 3; 4; 5; 6] _ _)).
  - vm_compute. reflexivity.
  - intros n Hn. discriminate Hn.
Defined.

Lemma tuplet_bracket_render (l : Leaf) els l' :
  Leaf_render l = Ok (els, l') ->
  Leaf.tuplet_bracket l' = Leaf.tuplet_bracket l.
Proof.
  destruct l as [n | first others]; simpl; unfold XMLNote_render.
  - destruct (Duration_render_check _); [| discriminate]. cbn.
    intros [= _ <-]. reflexivity.
  - destruct (Duration_render_check _); [| discriminate]. cbn.
    destruct (render_notes others) as [[els' others'] |]; [| discriminate].
    cbn. intros [= _ <-]. reflexivity.
Qed.

Lemma tuplet_bracket_set_beams (l : Leaf) (b : gmap nat BeamType) :
  Leaf.tuplet_bracket (Leaf.set_beams l b) = Leaf.tuplet_bracket l.
Proof. destruct l; reflexivity. Qed.

(** A one-leaf tuplet keeps the bracket ["stop"] through [render]. *)
Lemma tuplet_single_leaf_render (leaf : Leaf) (ratio : TupletRatio) els c' :
  Tuplet_render [leaf] ratio = Ok (els, c') ->
  exists leaf', c' = [leaf'] /\ Leaf.tuplet_bracket leaf' = Some BracketStop.
Proof.
  unfold Tuplet_render.
  destruct (set_tuplet_info_single leaf ratio) as (leaf1 & Hinit & Hstop).
  rewrite Hinit. cbn [mbind result_bind].
  unfold BeamedGroup_render.
  rewrite render_contents_beaming_spec by discriminate.
  cbn [mbind result_bind imap render_leaves].
  destruct (Leaf_render (beamed [leaf1] 0 leaf1)) as [[els1 l1] |] eqn:Hr;
    [| discriminate].
  cbn. intros [= _ <-]. exists l1. split; [reflexivity |].
  rewrite (tuplet_bracket_render _ _ _ Hr). unfold beamed.
  rewrite tuplet_bracket_set_beams. exact Hstop.
Qed.

(** C6, the one-leaf case as the code has it: for every tuplet with exactly
    one leaf, [_set_tuplet_info_for_contents], run by the constructor and
    again by [min_denominator] and [render], leaves that leaf with
    [tuplet_bracket] equal to ["stop"], which is neither ["both"] nor
    ["start"]; so it stands after construction, after [min_denominator],
    and after every [render] that returns. *)
Theorem tuplet_single_leaf_bracket_is_stop (leaf : Leaf) (ratio : TupletRatio) :
  exists leaf',
    Tuplet.init [leaf] ratio = Ok [leaf'] /\
    Leaf.tuplet_bracket leaf' = Some BracketStop /\
    Leaf.tuplet_bracket leaf' <> Some BracketBoth /\
    Leaf.tuplet_bracket leaf' <> Some BracketStart /\
    (exists d, Tuplet.min_denominator [leaf] ratio = Ok (d, [leaf'])) /\
    (forall els c',
       Tuplet_render [leaf] ratio = Ok (els, c') ->
       exists leaf'', c' = [leaf''] /\
                      Leaf.tuplet_bracket leaf'' = Some BracketStop).
Proof.
  destruct (set_tuplet_info_single leaf ratio) as (leaf' & Hinit & Hstop).
  exists leaf'. split; [exact Hinit |]. split; [exact Hstop |].
  split; [rewrite Hstop; discriminate |].
  split; [rewrite Hstop; discriminate |]. split.
  - unfold Tuplet.min_denominator. rewrite Hinit. cbn. eauto.
  - apply tuplet_single_leaf_render.
Qed.

(** ** Constructors of [Duration] *)

Lemma written_length_init (t : NoteType) (num_dots : nat)
    (r : option TupletRatio) :
  Duration.written_length (Duration.init t num_dots r)
  = (_note_type_to_length t * _dot_multiplier num_dots)%Q.
Proof. reflexivity. Qed.

(** The ladder is keyed by value: equal numbers find the same entry. *)
Lemma ladder_lookup_proper (x y : Q) :
  (x == y)%Q -> ladder_lookup x = ladder_lookup y.
Proof.
  intros Hxy. unfold ladder_lookup. f_equal.
  induction _length_to_note_type as [| e l IH]; [reflexivity |]. simpl.
  assert (Hb : Qeq_bool (fst e) x = Qeq_bool (fst e) y).
  { destruct (Qeq_bool (fst e) x) eqn:Hx, (Qeq_bool (fst e) y) eqn:Hy;
      try reflexivity.
    - apply Qeq_bool_iff in Hx. rewrite Hxy in Hx. apply Qeq_bool_iff in Hx.
      congruence.
    - apply Qeq_bool_iff in Hy. rewrite <- Hxy in Hy. apply Qeq_bool_iff in Hy.
      congruence. }
  rewrite Hb, IH. reflexivity.
Qed.

Lemma ladder_lookup_length (t : NoteType) :
  ladder_lookup (_note_type_to_length t) = Some t.
Proof. destruct t; reflexivity. Qed.

Lemma ladder_lookup_Some (x : Q) (t : NoteType) :
  ladder_lookup x = Some t -> (x == _note_type_to_length t)%Q.
Proof.
  unfold ladder_lookup, _length_to_note_type. simpl.
  repeat (match goal with
          | |- context [Qeq_bool ?a x] =>
              destruct (Qeq_bool a x) eqn:?H
          end; simpl;
          [intros [= <-]; symmetry; apply Qeq_bool_iff; assumption |]).
  discriminate.
Qed.

Lemma dots_loop_proper (x y : Q) (max_dots_allowed : Z) (fuel : nat) :
  (x == y)%Q ->
  forall (dots : nat) (m : Q),
    dots_loop fuel x max_dots_allowed dots m
    = dots_loop fuel y max_dots_allowed dots m.
Proof.
  intros Hxy. induction fuel as [| fuel IH]; intros dots m; simpl.
  - rewrite (ladder_lookup_proper (x / m) (y / m)) by (rewrite Hxy; reflexivity).
    reflexivity.
  - rewrite (ladder_lookup_proper (x / m) (y / m)) by (rewrite Hxy; reflexivity).
    rewrite IH. reflexivity.
Qed.

(** Equal lengths decompose alike. *)
Lemma get_note_type_and_number_of_dots_proper (x y : Q) (max_dots_allowed : Z) :
  (x == y)%Q ->
  get_note_type_and_number_of_dots x max_dots_allowed
  = get_note_type_and_number_of_dots y max_dots_allowed.
Proof.
  intros Hxy. unfold get_note_type_and_number_of_dots,
    get_note_type_and_number_of_dots_fuel.
  rewrite (ladder_lookup_proper x y Hxy), (dots_loop_proper x y _ _ Hxy).
  reflexivity.
Qed.

(** A note type with up to four dots is found again from its written
    length: no smaller number of dots lands on the ladder. *)
Lemma dotted_decomposition (t : NoteType) (num_dots : nat) :
  (num_dots <= 4)%nat ->
  let length := (_note_type_to_length t * _dot_multiplier num_dots)%Q in
  dotted_lookup length num_dots = Some t /\
  forall d', (d' < num_dots)%nat -> dotted_lookup length d' = None.
Proof.
  intros Hd.
  assert (Hc : (num_dots = 0 \/ num_dots = 1 \/ num_dots = 2 \/ num_dots = 3
                \/ num_dots = 4)%nat) by lia.
  destruct Hc as [-> | [-> | [-> | [-> | ->]]]]; cbv zeta; split;
    try (destruct t; vm_compute; reflexivity);
    intros d' Hd';
    repeat (destruct d' as [| d']; [destruct t; vm_compute; reflexivity |]);
    lia.
Qed.

Lemma decomposition_of_dotted (t : NoteType) (num_dots : nat)
    (max_dots_allowed : Z) :
  (num_dots <= 4)%nat -> Z.of_nat num_dots <= max_dots_allowed ->
  get_note_type_and_number_of_dots
    (_note_type_to_length t * _dot_multiplier num_dots) max_dots_allowed
  = Some (Ok (t, num_dots)).
Proof.
  intros Hd Hmax.
  destruct (dotted_decomposition t num_dots Hd) as [Hhere Hbelow].
  destruct num_dots as [| d].
  - unfold get_note_type_and_number_of_dots,
      get_note_type_and_number_of_dots_fuel.
    assert (Hl : ladder_lookup (_note_type_to_length t * _dot_multiplier 0)
                 = Some t).
    { destruct t; vm_compute; reflexivity. }
    rewrite Hl. reflexivity.
  - assert (Hbase : ladder_lookup
                      (_note_type_to_length t * _dot_multiplier (S d)) = None).
    { specialize (Hbelow 0%nat ltac:(lia)). unfold dotted_lookup in Hbelow.
      rewrite <- Hbelow. apply ladder_lookup_proper.
      change (_dot_multiplier 0) with 1%Q. unfold Qdiv.
      change (/ 1)%Q with 1%Q. rewrite Qmult_1_r. reflexivity. }
    destruct (get_note_type_and_number_of_dots_contract
                (_note_type_to_length t * _dot_multiplier (S d))
                max_dots_allowed ltac:(lia)) as [_ Hrest].
    destruct (Hrest Hbase) as [Hfind _].
    apply Hfind; [lia | lia | exact Hhere |].
    intros d' Hd'. apply Hbelow. lia.
Qed.

(** X1: a [Duration] of any note type with at most four dots, the default
    bound, is rebuilt by [Duration.from_written_length] from its own
    written length, under every bound that admits its dots and with any
    tuplet ratio. *)
Theorem from_written_length_round_trip (t : NoteType) (num_dots : nat)
    (r : option TupletRatio) (max_dots_allowed : Z) :
  (num_dots <= 4)%nat -> Z.of_nat num_dots <= max_dots_allowed ->
  Duration_from_written_length
    (Duration.written_length (Duration.init t num_dots r)) r max_dots_allowed
  = Some (Ok (Duration.init t num_dots r)).
Proof.
  intros Hd Hmax. rewrite written_length_init.
  unfold Duration_from_written_length.
  rewrite decomposition_of_dotted by assumption. reflexivity.
Qed.

Lemma from_written_length_round_trip_witness :
  Duration_from_written_length
    (Duration.written_length (Duration.init eighth 2 None)) None 4
  = Some (Ok (Duration.init eighth 2 None)).
Proof.
  apply (from_written_length_round_trip eighth 2 None 4); [lia | lia].
Defined.

(** X2: [Duration.from_divisor] on an integer divisor.  0 raises
    [ZeroDivisionError]; a divisor of which [4 / divisor] is the length
    of a note type gives that note type with the dots asked for, as long
    as these are at most four; any other divisor that a double can hold
    raises [ValueError]. *)
Theorem from_divisor_cases (divisor : Z) (num_dots : nat)
    (r : option TupletRatio) :
  (divisor = 0 ->
   Duration_from_divisor divisor num_dots r = Some (Raise ZeroDivisionError)) /\
  (forall t,
     divisor <> 0 ->
     (_note_type_to_length t == 4 / inject_Z divisor)%Q ->
     (num_dots <= 4)%nat ->
     Duration_from_divisor divisor num_dots r
     = Some (Ok (Duration.init t num_dots r))) /\
  (divisor <> 0 -> Z.abs divisor < 2 ^ 1023 ->
   (forall t, ~ (_note_type_to_length t == 4 / inject_Z divisor)%Q) ->
   Duration_from_divisor divisor num_dots r = Some (Raise ValueError)).
Proof.
  split; [| split].
  - intros ->. reflexivity.
  - intros t Hne Ht Hd. unfold Duration_from_divisor.
    destruct (Z.eqb_spec divisor 0) as [| _]; [contradiction |].
    rewrite <- (ladder_lookup_proper _ _ Ht), ladder_lookup_length.
    unfold Duration_from_written_length.
    assert (Hq : (4 / inject_Z divisor * _dot_multiplier num_dots
                  == _note_type_to_length t * _dot_multiplier num_dots)%Q).
    { rewrite Ht. reflexivity. }
    rewrite (get_note_type_and_number_of_dots_proper _ _ 4 Hq).
    rewrite decomposition_of_dotted by lia. reflexivity.
  - intros Hne _ Hnone. unfold Duration_from_divisor.
    destruct (Z.eqb_spec divisor 0) as [| _]; [contradiction |].
    destruct (ladder_lookup (4 / inject_Z divisor)) as [t |] eqn:Hl;
      [| reflexivity].
    apply ladder_lookup_Some in Hl. exfalso. apply (Hnone t). symmetry.
    exact Hl.
Qed.

Lemma from_divisor_cases_witness :
  Duration_from_divisor 0 1 None = Some (Raise ZeroDivisionError) /\
  Duration_from_divisor 8 1 None = Some (Ok (Duration.init eighth 1 None)) /\
  Duration_from_divisor 3 0 None = Some (Raise ValueError).
Proof.
  split; [| split].
  - apply (proj1 (from_divisor_cases 0 1 None)). reflexivity.
  - apply (proj1 (proj2 (from_divisor_cases 8 1 None)) eighth);
      [lia | reflexivity | lia].
  - apply (proj2 (proj2 (from_divisor_cases 3 0 None))); [lia | | ].
    + assert (2 ^ 2 <= 2 ^ 1023) by (apply Z.pow_le_mono_r; lia).
      change (Z.abs 3) with 3. change (2 ^ 2) with 4 in *. lia.
    + intros t Ht. destruct t; vm_compute in Ht; discriminate.
Defined.

(** ** [_least_common_multiple] *)

Lemma foldr_lcm_divide (args : list Z) (x : Z) :
  x ∈ args -> (x | foldr Z.lcm 1 args).
Proof.
  induction args as [| a args IH]; [inversion 1 |].
  intros [-> | Hin]%elem_of_cons; simpl.
  - apply Z.divide_lcm_l.
  - etransitivity; [apply IH, Hin | apply Z.divide_lcm_r].
Qed.

Lemma foldr_lcm_least (args : list Z) (m : Z) :
  Forall (fun x => (x | m)) args -> (foldr Z.lcm 1 args | m).
Proof.
  induction 1 as [| a args Ha _ IH]; simpl.
  - apply Z.divide_1_l.
  - apply Z.lcm_least; assumption.
Qed.

(** X3: on positive integers [_least_common_multiple] returns their least
    common multiple: a positive number that every argument divides and
    that divides every number all arguments divide. *)
Theorem least_common_multiple_is_least (args : list Z) :
  Forall (fun x => 0 < x) args ->
  0 < _least_common_multiple args /\
  Forall (fun x => (x | _least_common_multiple args)) args /\
  forall m, Forall (fun x => (x | m)) args -> (_least_common_multiple args | m).
Proof.
  intros Hpos. destruct (least_common_multiple_fold args Hpos) as [-> Hp].
  split; [exact Hp |]. split.
  - apply Forall_forall. intros x Hx. apply foldr_lcm_divide, Hx.
  - intros m Hm. apply foldr_lcm_least, Hm.
Qed.

Lemma least_common_multiple_is_least_witness :
  _least_common_multiple [4; 6; 10] = 60 /\
  Forall (fun x => (x | _least_common_multiple [4; 6; 10])) [4; 6; 10] /\
  (_least_common_multiple [4; 6; 10] | 120).
Proof.
  assert (Hpos : Forall (fun x => 0 < x) [4; 6; 10]).
  { repeat constructor. }
  destruct (least_common_multiple_is_least [4; 6; 10] Hpos) as (_ & Hdiv & Hleast).
  split; [reflexivity |]. split; [exact Hdiv |].
  apply Hleast. repeat constructor.
  - exists 30. reflexivity.
  - exists 20. reflexivity.
  - exists 12. reflexivity.
Defined.

(** ** Exact durations *)

Lemma limit_denominator_small (x : Q) (max_denominator : Z) :
  Z.pos (Qden (Qred x)) <= max_denominator ->
  limit_denominator x max_denominator = Qred x.
Proof.
  intros Hle. unfold limit_denominator.
  destruct (Z.leb_spec (Z.pos (Qden (Qred x))) max_denominator); [reflexivity | lia].
Qed.

Lemma py_round_integer (x : Q) (z : Z) : (x == inject_Z z)%Q -> py_round x = z.
Proof.
  intros Hx. unfold py_round.
  assert (Hf : Qfloor x = z).
  { rewrite (Qfloor_comp _ _ Hx). apply Qfloor_Z. }
  rewrite Hf.
  assert (Hc : (x - inject_Z z ?= 1 # 2)%Q = Lt).
  { apply Qlt_alt. rewrite Hx.
    assert (H0 : (inject_Z z - inject_Z z == 0)%Q) by ring.
    rewrite H0. reflexivity. }
  rewrite Hc. reflexivity.
Qed.

(** A length times a multiple of its reduced denominator is an integer,
    which [round] returns as it is. *)
Lemma round_of_multiple (x : Q) (v : Z) :
  Z.pos (Qden (Qred x)) <= 1000000 ->
  (limited_denominator x 1000000 | v) ->
  (inject_Z (py_round (x * inject_Z v)) == x * inject_Z v)%Q.
Proof.
  intros Hden [k ->]. unfold limited_denominator.
  rewrite limit_denominator_small by exact Hden.
  set (n := Qnum (Qred x)). set (den := Qden (Qred x)).
  assert (Hx : (x == n # den)%Q).
  { rewrite <- (Qred_correct x). subst n den. destruct (Qred x); reflexivity. }
  assert (Hz : (x * inject_Z (k * Z.pos den) == inject_Z (n * k))%Q).
  { rewrite Hx. unfold Qeq, Qmult, inject_Z. simpl. nia. }
  rewrite (py_round_integer _ _ Hz). symmetry. exact Hz.
Qed.

Lemma compute_divisions_multiple (leaf_denominators : list Z)
    (dwd : list (Direction * Q)) :
  Forall (fun x => 0 < x) leaf_denominators ->
  Forall (fun x => (x | Measure.compute_divisions leaf_denominators dwd))
         leaf_denominators.
Proof.
  intros Hpos.
  destruct (least_common_multiple_fold leaf_denominators Hpos) as [Hfold Hbase].
  assert (Hdiv : forall x, x ∈ leaf_denominators ->
                           (x | _least_common_multiple leaf_denominators)).
  { intros x Hx. rewrite Hfold. apply foldr_lcm_divide, Hx. }
  assert (Hmul : (_least_common_multiple leaf_denominators
                  | Measure.compute_divisions leaf_denominators dwd)).
  { unfold Measure.compute_divisions.
    destruct (0 <? length dwd)%nat; [| reflexivity].
    destruct (_ <=? 1024).
    - cbn [_least_common_multiple]. unfold lcm2.
      set (a := Measure._get_beat_division_for_directions dwd).
      set (b := _least_common_multiple leaf_denominators).
      destruct (Z.eq_dec (Z.gcd a b) 0) as [H0 | H0].
      { apply Z.gcd_eq_0_r in H0. subst b. lia. }
      exists (a / Z.gcd a b).
      rewrite (Z.mul_comm a b), Z.divide_div_mul_exact
        by (try assumption; apply Z.gcd_divide_l).
      ring.
    - apply Z.divide_factor_l. }
  apply Forall_forall. intros x Hx.
  etransitivity; [apply Hdiv, Hx | exact Hmul].
Qed.

Lemma timed_leaf_length_exact (x : TimedLeaf) (d : Z) :
  Z.pos (Qden (Qred (TimedLeaf.true_length x))) <= 1000000 ->
  (TimedLeaf.min_denominator x | d) ->
  (inject_Z (TimedLeaf.length_in_divisions (TimedLeaf.set_divisions x d))
   == TimedLeaf.true_length x * inject_Z d)%Q.
Proof.
  destruct x as [l | b]; simpl.
  - unfold Leaf.true_length, Leaf.length_in_divisions, Leaf.min_denominator,
      XMLNote.true_length, XMLNote.length_in_divisions,
      XMLNote.min_denominator.
    assert (Hh : Leaf.head (Leaf.set_divisions l d)
                 = XMLNote.set_divisions (Leaf.head l) d).
    { destruct l; reflexivity. }
    rewrite Hh. simpl.
    destruct (XMLNote.is_grace (Leaf.head l)).
    + intros _ _. rewrite Qmult_0_l. reflexivity.
    + intros Hden Hdiv. unfold Duration.length_in_divisions. simpl.
      apply (round_of_multiple (Duration.true_length (XMLNote.duration (Leaf.head l)))
               d Hden Hdiv).
  - unfold BarRest.true_length, BarRest.length_in_divisions,
      BarRest.min_denominator, BarRestDuration.length_in_divisions. simpl.
    intros Hden Hdiv. apply (round_of_multiple _ d Hden Hdiv).
Qed.

(** The triplet measure gets 3 divisions: each triplet eighth lasts one,
    the quarter three. *)
Example triplet_measure_kinds :
  rendered_kinds triplet_measure
  = Some (Ok [KAttributes 3; KNote 1; KNote 1; KNote 1; KNote 3]).
Proof. vm_compute. reflexivity. Qed.

(** ** The order of the leaves of a measure *)

Lemma elem_of_concat {A : Type} (x : A) (ls : list (list A)) :
  x ∈ concat ls <-> exists l, x ∈ l /\ l ∈ ls.
Proof.
  induction ls as [| l ls IH]; simpl.
  - split; [inversion 1 | intros (l & _ & Hl); inversion Hl].
  - rewrite elem_of_app, IH. split.
    + intros [Hx | (l' & Hx & Hl')]; [exists l | exists l'];
        (split; [assumption |]); [left | right; assumption].
    + intros (l' & Hx & [-> | Hl']%elem_of_cons); [left; exact Hx |].
      right. exists l'. auto.
Qed.

Section Merge.
Implicit Types (st : list (Q * list TimedLeaf)) (timed : list (Q * TimedLeaf)).

Lemma key_lt_true a b : Measure.key_lt a b = true -> (fst a <= fst b)%Q.
Proof.
  unfold Measure.key_lt. destruct (fst a ?= fst b)%Q eqn:Hc; try discriminate.
  - intros _. apply Qeq_alt in Hc. rewrite Hc. apply Qle_refl.
  - intros _. apply Qlt_alt in Hc. apply Qlt_le_weak, Hc.
Qed.

Lemma key_lt_false a b : Measure.key_lt a b = false -> (fst b <= fst a)%Q.
Proof.
  unfold Measure.key_lt. destruct (fst a ?= fst b)%Q eqn:Hc; try discriminate.
  - intros _. apply Qeq_alt in Hc. rewrite Hc. apply Qle_refl.
  - intros _. apply Qgt_alt in Hc. apply Qlt_le_weak, Hc.
Qed.

(** [min] picks a voice whose next beat is the least. *)
Lemma argmin_from_least (keys : list (Q * Q)) :
  forall best_k best k (seen : list (Q * Q)),
    length seen = k -> seen !! best_k = Some best ->
    Forall (fun x => (fst best <= fst x)%Q) seen ->
    exists b,
      (seen ++ keys) !! Measure.argmin_from best_k best k keys = Some b /\
      Forall (fun x => (fst b <= fst x)%Q) (seen ++ keys).
Proof.
  induction keys as [| x keys IH]; intros best_k best k seen Hlen Hbest Hall;
    simpl.
  - exists best. rewrite app_nil_r. auto.
  - destruct (Measure.key_lt x best) eqn:Hlt.
    + apply key_lt_true in Hlt.
      destruct (IH k x (S k) (seen ++ [x])) as (b & Hb & Hmin).
      * rewrite length_app. simpl. lia.
      * rewrite lookup_app_r by lia. rewrite Hlen, Nat.sub_diag. reflexivity.
      * apply Forall_app. split.
        -- eapply Forall_impl; [exact Hall |]. simpl. intros y Hy.
           eapply Qle_trans; eassumption.
        -- repeat constructor. apply Qle_refl.
      * exists b. rewrite <- app_assoc in Hb, Hmin. auto.
    + apply key_lt_false in Hlt.
      destruct (IH best_k best (S k) (seen ++ [x])) as (b & Hb & Hmin).
      * rewrite length_app. simpl. lia.
      * apply lookup_app_l_Some, Hbest.
      * apply Forall_app. split; [exact Hall |]. repeat constructor. exact Hlt.
      * exists b. rewrite <- app_assoc in Hb, Hmin. auto.
Qed.

Lemma voice_keys_fst st keys :
  Measure.voice_keys st = Ok keys -> fst <$> keys = fst <$> st.
Proof.
  revert keys. induction st as [| [beat v] st IH]; intros keys; simpl.
  - intros [= <-]. reflexivity.
  - destruct v as [| x v]; [discriminate |]. cbn.
    destruct (Measure.voice_keys st) as [keys' | e]; [| discriminate]. cbn.
    intros [= <-]. rewrite !fmap_cons. f_equal. apply IH. reflexivity.
Qed.

(** The voice that is popped starts no later than any pending voice. *)
Lemma voice_to_pop_least st keys :
  st <> [] -> Measure.voice_keys st = Ok keys ->
  let k := match keys with
           | [] => 0%nat
           | key :: keys => Measure.argmin_from 0 key 1 keys
           end in
  exists v, st !! k = Some v /\ Forall (fun w => (fst v <= fst w)%Q) st.
Proof.
  intros Hne Hkeys. pose proof (voice_keys_fst _ _ Hkeys) as Hfst.
  destruct keys as [| key keys].
  { destruct st; [contradiction | discriminate]. }
  cbv zeta.
  destruct (argmin_from_least keys 0 key 1 [key]) as (b & Hb & Hmin);
    [reflexivity | reflexivity | repeat constructor; apply Qle_refl |].
  simpl in Hb, Hmin.
  set (k := Measure.argmin_from 0 key 1 keys) in *.
  assert (Hk : (fst <$> st) !! k = Some (fst b)).
  { rewrite <- Hfst, list_lookup_fmap, Hb. reflexivity. }
  rewrite list_lookup_fmap in Hk.
  destruct (st !! k) as [v |] eqn:Hv; [| discriminate].
  injection Hk as Hk. exists v. split; [reflexivity |].
  apply Forall_forall. intros w Hw.
  assert (Hw' : fst w ∈ fst <$> (key :: keys)).
  { rewrite Hfst. apply list_elem_of_fmap. eauto. }
  apply list_elem_of_fmap in Hw' as (y & Hy & Hin).
  rewrite Forall_forall in Hmin. rewrite Hk, Hy. apply Hmin, Hin.
Qed.

Lemma with_onsets_snd (beat : Q) (voice : list TimedLeaf) :
  snd <$> with_onsets beat voice = voice.
Proof.
  revert beat. induction voice as [| x voice IH]; intros beat; simpl;
    [| rewrite IH]; reflexivity.
Qed.

(** With lengths that are not negative, nothing in a voice starts before
    the voice does. *)
Lemma with_onsets_ge (voice : list TimedLeaf) :
  forall beat,
    Forall (fun x => (0 <= TimedLeaf.true_length x)%Q) voice ->
    Forall (fun t => (beat <= fst t)%Q) (with_onsets beat voice).
Proof.
  induction voice as [| x voice IH]; intros beat Hv; simpl; [constructor |].
  apply Forall_cons in Hv as [Hx Hv]. constructor; [apply Qle_refl |].
  eapply Forall_impl; [apply IH, Hv |]. simpl. intros t Ht.
  eapply Qle_trans; [| exact Ht].
  rewrite <- (Qplus_0_r beat) at 1. apply Qplus_le_r, Hx.
Qed.

Lemma with_onsets_sorted (voice : list TimedLeaf) :
  forall beat,
    Forall (fun x => (0 <= TimedLeaf.true_length x)%Q) voice ->
    StronglySorted starts_by (with_onsets beat voice).
Proof.
  induction voice as [| x voice IH]; intros beat Hv; simpl; [constructor |].
  pose proof Hv as Hv'. apply Forall_cons in Hv' as [Hx Hv'].
  constructor; [apply IH, Hv' |].
  pose proof (with_onsets_ge (x :: voice) beat Hv) as Hge. simpl in Hge.
  apply Forall_cons in Hge as [_ Hge].
  eapply Forall_impl; [apply with_onsets_ge, Hv' |]. simpl. intros t Ht.
  unfold starts_by. simpl. eapply Qle_trans; [| exact Ht].
  rewrite <- (Qplus_0_r beat) at 1. apply Qplus_le_r, Hx.
Qed.

(** What one iteration does to the pending voices. *)
Lemma pop_voice st k beat popped rest :
  st !! k = Some (beat, popped :: rest) ->
  let st' := match rest with
             | [] => delete k st
             | _ => <[k := ((beat + TimedLeaf.true_length popped)%Q, rest)]> st
             end in
  concat (onsets_of <$> st) ≡ₚ (beat, popped) :: concat (onsets_of <$> st') /\
  (forall timed,
     Forall (fun v => onsets_of v `sublist_of` timed) st' ->
     Forall (fun v => onsets_of v `sublist_of` (beat, popped) :: timed) st) /\
  (forall w, w ∈ st' ->
     w ∈ st \/ w = ((beat + TimedLeaf.true_length popped)%Q, rest)).
Proof.
  intros Hk. cbv zeta.
  pose proof (take_drop_middle _ _ _ Hk) as Hst.
  assert (Hlt : (k < length st)%nat) by (eapply lookup_lt_Some; eassumption).
  set (pre := take k st) in *. set (post := drop (S k) st) in *.
  set (v' := ((beat + TimedLeaf.true_length popped)%Q, rest)).
  assert (Hst' : match rest with
                 | [] => delete k st
                 | _ => <[k := v']> st
                 end
                 = pre ++ match rest with [] => [] | _ => [v'] end ++ post).
  { destruct rest.
    - subst pre post. apply delete_take_drop.
    - subst pre post. rewrite insert_take_drop by exact Hlt. reflexivity. }
  rewrite Hst'. clear Hst'. rewrite <- Hst.
  assert (Hmid : concat (onsets_of <$> match rest with [] => [] | _ => [v'] end)
                 = onsets_of v').
  { destruct rest; [reflexivity |]. simpl. rewrite app_nil_r. reflexivity. }
  split; [| split].
  - rewrite !fmap_app, !concat_app, Hmid. rewrite fmap_cons, concat_cons.
    change (onsets_of (beat, popped :: rest)) with ((beat, popped) :: onsets_of v').
    rewrite <- app_comm_cons. symmetry. apply Permutation_middle.
  - intros timed Hall.
    apply Forall_app in Hall as [Hpre Hall].
    apply Forall_app in Hall as [Hmid' Hpost].
    apply Forall_app. split.
    { eapply Forall_impl; [exact Hpre |]. simpl. intros. apply sublist_cons.
      assumption. }
    constructor.
    + change (onsets_of (beat, popped :: rest))
        with ((beat, popped) :: onsets_of v').
      apply sublist_skip. destruct rest as [| r rest].
      * apply sublist_nil_l.
      * apply Forall_cons in Hmid' as [Hv' _]. exact Hv'.
    + eapply Forall_impl; [exact Hpost |]. simpl. intros. apply sublist_cons.
      assumption.
  - intros w Hw. rewrite !elem_of_app in Hw. rewrite !elem_of_app.
    destruct Hw as [Hw | [Hw | Hw]]; [left; left; exact Hw | | ].
    + right. destruct rest; [inversion Hw |].
      apply list_elem_of_singleton in Hw. exact Hw.
    + left. right. apply elem_of_cons. right. exact Hw.
Qed.

(** The loop is a merge of the pending voices by start time. *)
Lemma iter_leaves_loop_merge (fuel : nat) :
  forall st out,
    Forall (fun v => Forall (fun x => (0 <= TimedLeaf.true_length x)%Q) (snd v))
           st ->
    Measure.iter_leaves_loop fuel st = Some (Ok out) ->
    exists timed,
      snd <$> timed = out /\
      timed ≡ₚ concat (onsets_of <$> st) /\
      Forall (fun v => onsets_of v `sublist_of` timed) st /\
      StronglySorted starts_by timed.
Proof.
  induction fuel as [| fuel IH]; intros st out Hnn.
  - destruct st; [| discriminate]. intros [= <-]. exists [].
    repeat split; constructor.
  - destruct st as [| v0 st0] eqn:Est.
    { intros [= <-]. exists []. repeat split; constructor. }
    rewrite <- Est in *. assert (Hne : st <> []) by (subst; discriminate).
    intros Hrun.
    assert (Hstep : Measure.iter_leaves_loop (S fuel) st
      = match Measure.voice_keys st with
        | Raise e => Some (Raise e)
        | Ok keys =>
            let voice_to_pop :=
              match keys with
              | [] => 0%nat
              | key :: keys => Measure.argmin_from 0 key 1 keys
              end in
            match st !! voice_to_pop with
            | Some (beat, popped_note :: rest) =>
                let beat' := (beat + TimedLeaf.true_length popped_note)%Q in
                let st :=
                  match rest with
                  | [] => delete voice_to_pop st
                  | _ => <[voice_to_pop := (beat', rest)]> st
                  end in
                match Measure.iter_leaves_loop fuel st with
                | Some (Ok leaves) => Some (Ok (popped_note :: leaves))
                | other => other
                end
            | _ => Some (Raise IndexError)
            end
        end).
    { rewrite Est. reflexivity. }
    rewrite Hstep in Hrun. clear Hstep.
    destruct (Measure.voice_keys st) as [keys | e] eqn:Hkeys; [| discriminate].
    destruct (voice_to_pop_least st keys Hne Hkeys) as (v & Hv & Hmin).
    cbv zeta in Hrun, Hv. rewrite Hv in Hrun.
    destruct v as [beat [| popped rest]]; [discriminate |].
    destruct (pop_voice st _ beat popped rest Hv) as (Hperm & Hsub & Hmem).
    cbv zeta in Hperm, Hsub, Hmem.
    set (st' := match rest with
                | [] => delete _ st
                | _ => <[_ := ((beat + TimedLeaf.true_length popped)%Q, rest)]> st
                end) in *.
    destruct (Measure.iter_leaves_loop fuel st') as [[leaves | e] |] eqn:Hrec;
      try discriminate.
    injection Hrun as <-.
    assert (Hpop : Forall (fun x => (0 <= TimedLeaf.true_length x)%Q)
                          (popped :: rest)).
    { rewrite Forall_forall in Hnn.
      exact (Hnn _ (list_elem_of_lookup_2 _ _ _ Hv)). }
    apply Forall_cons in Hpop as [Hpopped Hrest].
    assert (Hnn' : Forall (fun v => Forall (fun x => (0 <= TimedLeaf.true_length x)%Q)
                                      (snd v)) st').
    { apply Forall_forall. intros w Hw. destruct (Hmem w Hw) as [Hin | ->].
      - rewrite Forall_forall in Hnn. apply Hnn, Hin.
      - exact Hrest. }
    destruct (IH st' leaves Hnn' Hrec) as (timed & Hsnd & Hp & Hs & Hsorted).
    exists ((beat, popped) :: timed).
    split; [rewrite fmap_cons, Hsnd; reflexivity |].
    split; [rewrite Hperm, Hp; reflexivity |].
    split; [apply Hsub, Hs |].
    constructor; [exact Hsorted |].
    apply Forall_forall. intros t Ht. unfold starts_by. simpl.
    rewrite Hp in Ht. apply elem_of_concat in Ht as (ts & Ht & Hts).
    apply list_elem_of_fmap in Hts as (w & -> & Hw).
    assert (Hwb : (beat <= fst w)%Q).
    { destruct (Hmem w Hw) as [Hin | ->].
      - rewrite Forall_forall in Hmin. apply (Hmin w Hin).
      - simpl. rewrite <- (Qplus_0_r beat) at 1. apply Qplus_le_r, Hpopped. }
    eapply Qle_trans; [exact Hwb |].
    assert (Hwn : Forall (fun x => (0 <= TimedLeaf.true_length x)%Q) (snd w)).
    { rewrite Forall_forall in Hnn'. apply Hnn', Hw. }
    pose proof (with_onsets_ge (snd w) (fst w) Hwn) as Hge.
    rewrite Forall_forall in Hge. apply Hge, Ht.
Qed.
End Merge.

(** The true length of a note, rest or chord is never negative. *)
Lemma leaf_true_length_nonneg (l : Leaf) : (0 <= Leaf.true_length l)%Q.
Proof.
  unfold Leaf.true_length, XMLNote.true_length.
  destruct (XMLNote.is_grace _); [apply Qle_refl |].
  unfold Duration.true_length, Duration.written_length.
  set (dots := Duration.num_dots (XMLNote.duration (Leaf.head l))).
  apply Qmult_le_0_compat; [apply Qmult_le_0_compat |].
  - destruct (Duration.note_type _); discriminate.
  - unfold _dot_multiplier.
    pose proof (Z.pow_pos_nonneg 2 (Z.of_nat dots)) as Hd.
    pose proof (Z.pow_pos_nonneg 2 (Z.of_nat (S dots))) as Hn.
    apply Qle_shift_div_l.
    + unfold Qlt, inject_Z. simpl. lia.
    + rewrite Qmult_0_l. unfold Qle, inject_Z. simpl. lia.
  - destruct (Duration.tuplet_ratio _); discriminate.
Qed.

Lemma timed_leaf_true_length_nonneg (x : TimedLeaf) :
  no_negative_bar_rest x -> (0 <= TimedLeaf.true_length x)%Q.
Proof.
  destruct x as [l | b]; simpl; [intros _; apply leaf_true_length_nonneg |].
  auto.
Qed.

(** X6: [Measure.leaves] is a merge of the voices by start time.  When no
    bar rest has a negative length, what the measure yields are the leaves
    of all its voices, each once, every voice in its own order, and
    ordered in time: no leaf is yielded before one that starts earlier in
    the measure. *)
Theorem leaves_ordered_in_time (vs : list (option (list Element)))
    (out : list TimedLeaf) :
  Forall no_negative_bar_rest (concat (Measure.voice_list_copy vs)) ->
  Measure.leaves vs = Some (Ok out) ->
  exists timed : list (Q * TimedLeaf),
    snd <$> timed = out /\
    timed ≡ₚ concat (with_onsets 0 <$> Measure.voice_list_copy vs) /\
    Forall (fun voice => with_onsets 0 voice `sublist_of` timed)
           (Measure.voice_list_copy vs) /\
    StronglySorted starts_by timed.
Proof.
  intros Hnn Hrun. unfold Measure.leaves in Hrun.
  apply iter_leaves_loop_merge in Hrun.
  - destruct Hrun as (timed & Hsnd & Hp & Hs & Hsorted).
    exists timed. split; [exact Hsnd |].
    rewrite <- list_fmap_compose in Hp. split; [exact Hp |].
    split; [| exact Hsorted].
    apply Forall_fmap in Hs. exact Hs.
  - apply Forall_fmap, Forall_forall. intros v Hv. simpl.
    apply Forall_forall. intros x Hx. rewrite Forall_forall in Hnn.
    apply timed_leaf_true_length_nonneg, Hnn, elem_of_concat. eauto.
Qed.

Lemma leaves_ordered_in_time_witness :
  Measure.leaves quarters_over_half
  = Some (Ok (ALeaf <$> [sample_note quarter; sample_note half;
                         sample_note quarter])) /\
  exists timed : list (Q * TimedLeaf),
    snd <$> timed
    = ALeaf <$> [sample_note quarter; sample_note half; sample_note quarter] /\
    timed ≡ₚ concat (with_onsets 0 <$> Measure.voice_list_copy quarters_over_half) /\
    Forall (fun voice => with_onsets 0 voice `sublist_of` timed)
           (Measure.voice_list_copy quarters_over_half) /\
    StronglySorted starts_by timed.
Proof.
  assert (Hrun : Measure.leaves quarters_over_half
                 = Some (Ok (ALeaf <$> [sample_note quarter; sample_note half;
                                        sample_note quarter]))).
  { vm_compute. reflexivity. }
  split; [exact Hrun |].
  apply (leaves_ordered_in_time quarters_over_half _); [| exact Hrun].
  repeat constructor.
Defined.

(** ** Ties *)

(** X7: [starts_tie] and [stops_tie] of a [Note] are two independent
    flags packed into [ties]: each setter makes its own getter return the
    value set and leaves the other flag as it was, and the two setters
    commute.  A pitched note that starts (stops) a tie is the one whose
    [render] adds a [tied] element of type start (stop). *)
Theorem tie_flags_independent (n : XMLNote.t) (v w : bool) :
  Note.starts_tie (Note.set_starts_tie n v) = v /\
  Note.stops_tie (Note.set_starts_tie n v) = Note.stops_tie n /\
  Note.stops_tie (Note.set_stops_tie n w) = w /\
  Note.starts_tie (Note.set_stops_tie n w) = Note.starts_tie n /\
  Note.set_starts_tie (Note.set_stops_tie n w) v
  = Note.set_stops_tie (Note.set_starts_tie n v) w /\
  (XMLNote.pitch n <> None ->
   (OtherNotation "tied start" ∈ tied_notations n <-> Note.starts_tie n = true) /\
   (OtherNotation "tied stop" ∈ tied_notations n <-> Note.stops_tie n = true)).
Proof.
  destruct n as [p d t nots br bm dirs g cm vo].
  unfold Note.starts_tie, Note.stops_tie, Note.set_starts_tie,
    Note.set_stops_tie, XMLNote_set_ties, tied_notations. simpl.
  split; [destruct t as [[| |] |], v; reflexivity |].
  split; [destruct t as [[| |] |], v; reflexivity |].
  split; [destruct t as [[| |] |], w; reflexivity |].
  split; [destruct t as [[| |] |], w; reflexivity |].
  split; [destruct t as [[| |] |], v, w; reflexivity |].
  intros Hp. destruct p as [p |]; [| contradiction].
  destruct t as [[| |] |]; split; split; intros H;
    try reflexivity; try discriminate; try (repeat constructor; fail);
    repeat (apply elem_of_cons in H as [H | H]; [discriminate |]);
    inversion H.
Qed.

(** ** Tuplets *)

Section TupletInfo.
Implicit Types (c : list Leaf) (r : TupletRatio) (l : Leaf).

Lemma set_tuplet_bracket_twice l (b b' : option BracketType) :
  Leaf.set_tuplet_bracket (Leaf.set_tuplet_bracket l b') b
  = Leaf.set_tuplet_bracket l b.
Proof. destruct l; reflexivity. Qed.

Lemma set_tuplet_ratio_twice l (x x' : option TupletRatio) :
  Leaf.set_tuplet_ratio (Leaf.set_tuplet_ratio l x') x
  = Leaf.set_tuplet_ratio l x.
Proof.
  destruct l as [n | first others]; simpl; [reflexivity |].
  rewrite <- list_fmap_compose. reflexivity.
Qed.

Lemma set_tuplet_bracket_ratio l (b : option BracketType)
    (x : option TupletRatio) :
  Leaf.set_tuplet_bracket (Leaf.set_tuplet_ratio l x) b
  = Leaf.set_tuplet_ratio (Leaf.set_tuplet_bracket l b) x.
Proof. destruct l; reflexivity. Qed.

Lemma bracket_at_twice (n i : nat) l :
  bracket_at n i (bracket_at n i l) = bracket_at n i l.
Proof.
  unfold bracket_at. destruct (decide (i = 0%nat)), (decide (i = (n - 1)%nat));
    rewrite ?set_tuplet_bracket_twice; reflexivity.
Qed.

Lemma bracket_at_ratio (n i : nat) l (x : option TupletRatio) :
  bracket_at n i (Leaf.set_tuplet_ratio l x)
  = Leaf.set_tuplet_ratio (bracket_at n i l) x.
Proof.
  unfold bracket_at. destruct (decide (i = 0%nat)), (decide (i = (n - 1)%nat));
    rewrite ?set_tuplet_bracket_ratio; reflexivity.
Qed.

(** The contents after [_set_tuplet_info_for_contents], leaf by leaf. *)
Lemma set_tuplet_info_spec c r :
  c <> [] ->
  Tuplet._set_tuplet_info_for_contents c r
  = Ok (imap (fun i l =>
                Leaf.set_tuplet_ratio (bracket_at (length c) i l) (Some r)) c).
Proof.
  intros Hne. destruct c as [| first c]; [contradiction |].
  unfold Tuplet._set_tuplet_info_for_contents.
  pose proof (list_getitem_nonneg (first :: c) 0 first eq_refl) as H0.
  change (Z.of_nat 0) with 0 in H0. rewrite H0. clear H0.
  cbn [mbind result_bind].
  set (c0 := <[0%nat := Leaf.set_tuplet_bracket first (Some BracketStart)]>
               (first :: c)).
  assert (Hlen0 : length c0 = S (length c)) by reflexivity.
  destruct (lookup_lt_is_Some_2 c0 (length c0 - 1)) as [lst Hlst]; [lia |].
  rewrite (list_getitem_last c0 lst Hlst). cbn [mbind result_bind].
  f_equal. apply list_eq. intros i.
  rewrite list_lookup_fmap, list_lookup_imap.
  rewrite Hlen0 in *. cbn [length].
  replace (S (length c) - 1)%nat with (length c) in * by lia.
  destruct (decide (i = length c)) as [-> | Hlast].
  - rewrite list_lookup_insert_eq by (rewrite Hlen0; lia).
    subst c0. destruct (decide (length c = 0%nat)) as [E0 | E0].
    + rewrite E0 in *. simpl in Hlst. injection Hlst as <-. simpl.
      unfold bracket_at. repeat case_decide; try lia. reflexivity.
    + rewrite list_lookup_insert_ne in Hlst by lia. rewrite Hlst. simpl.
      unfold bracket_at. repeat case_decide; try lia. reflexivity.
  - rewrite list_lookup_insert_ne by lia. subst c0.
    destruct i as [| i]; simpl.
    + unfold bracket_at. repeat case_decide; try lia. reflexivity.
    + destruct (c !! i) as [l |]; [| reflexivity]. simpl.
      unfold bracket_at. repeat case_decide; try lia. reflexivity.
Qed.

Lemma set_tuplet_info_empty r :
  Tuplet._set_tuplet_info_for_contents [] r = Raise IndexError.
Proof. reflexivity. Qed.

Lemma true_length_in_tuplet l r (n i : nat) :
  no_grace l ->
  (Leaf.true_length (Leaf.set_tuplet_ratio (bracket_at n i l) (Some r))
   == Leaf.written_length l * tuplet_modification r)%Q.
Proof.
  unfold no_grace, bracket_at. intros Hg.
  destruct (decide (i = 0%nat)), (decide (i = (n - 1)%nat));
    destruct l as [x | x others]; simpl in *;
    unfold Leaf.true_length, Leaf.written_length, XMLNote.true_length;
    simpl; rewrite Hg; reflexivity.
Qed.

Lemma written_length_in_tuplet l r (n i : nat) :
  Leaf.written_length (Leaf.set_tuplet_ratio (bracket_at n i l) (Some r))
  = Leaf.written_length l.
Proof.
  unfold bracket_at.
  destruct (decide (i = 0%nat)), (decide (i = (n - 1)%nat));
    destruct l; reflexivity.
Qed.

Lemma sum_scaled (F : nat -> Leaf -> Leaf) (m : Q) c :
  (forall i l, c !! i = Some l ->
     (Leaf.true_length (F i l) == Leaf.written_length l * m)%Q) ->
  (foldr Qplus 0 (Leaf.true_length <$> imap F c)
   == foldr Qplus 0 (Leaf.written_length <$> c) * m)%Q.
Proof.
  revert F. induction c as [| l c IH]; intros F HF.
  - simpl. rewrite Qmult_0_l. reflexivity.
  - rewrite imap_cons, !fmap_cons. cbn [foldr].
    rewrite (HF 0%nat l eq_refl), IH.
    + ring.
    + intros i l' Hl'. apply (HF (S i) l' Hl').
Qed.

Lemma sum_written (F : nat -> Leaf -> Leaf) c :
  (forall i l, Leaf.written_length (F i l) = Leaf.written_length l) ->
  Leaf.written_length <$> imap F c = Leaf.written_length <$> c.
Proof.
  intros HF. revert F HF. induction c as [| l c IH]; intros F HF;
    [reflexivity |].
  rewrite imap_cons, !fmap_cons, HF, IH; [reflexivity |].
  intros i l'. apply HF.
Qed.

(** The durations of the leaves of a group add up exactly. *)
Lemma group_length_exact (d : Z) c :
  Forall (fits_divisions d) c ->
  (inject_Z (BeamedGroup.length_in_divisions
               ((fun l => Leaf.set_divisions l d) <$> c))
   == BeamedGroup.true_length c * inject_Z d)%Q.
Proof.
  unfold BeamedGroup.length_in_divisions, BeamedGroup.true_length.
  induction 1 as [| l c [Hden Hdiv] _ IH].
  - simpl. rewrite Qmult_0_l. reflexivity.
  - rewrite !fmap_cons. cbn [foldr].
    rewrite inject_Z_plus, IH.
    pose proof (timed_leaf_length_exact (ALeaf l) d Hden Hdiv) as Hl.
    simpl in Hl. rewrite Hl. ring.
Qed.
End TupletInfo.

(** X8: a tuplet lasts [normal / actual] of what is written in it, counted
    in divisions.  A [Tuplet] of leaves that are not grace notes is built
    without error; its written length is that of the leaves it was given,
    and once the [divisions] of the leaves are set to a value their
    denominators divide, the durations in divisions, which are integers,
    add up to exactly the written length times [normal / actual] times
    the divisions.  An empty tuplet cannot be built: [IndexError]. *)
Theorem tuplet_length (c : list Leaf) (r : TupletRatio) (d : Z) :
  c <> [] -> Forall no_grace c ->
  Tuplet.init [] r = Raise IndexError /\
  exists c',
    Tuplet.init c r = Ok c' /\
    BeamedGroup.written_length c' = BeamedGroup.written_length c /\
    (Forall (fits_divisions d) c' ->
     (inject_Z (BeamedGroup.length_in_divisions
                  ((fun l => Leaf.set_divisions l d) <$> c'))
      == BeamedGroup.written_length c * tuplet_modification r * inject_Z d)%Q).
Proof.
  intros Hne Hg. split; [reflexivity |].
  unfold Tuplet.init. rewrite (set_tuplet_info_spec c r Hne).
  eexists. split; [reflexivity |].
  assert (Ht : (BeamedGroup.true_length
                  (imap (fun i l => Leaf.set_tuplet_ratio
                                      (bracket_at (length c) i l) (Some r)) c)
                == BeamedGroup.written_length c * tuplet_modification r)%Q).
  { unfold BeamedGroup.true_length, BeamedGroup.written_length.
    apply sum_scaled. intros i l Hl. apply true_length_in_tuplet.
    rewrite Forall_forall in Hg. apply Hg. eapply list_elem_of_lookup_2, Hl. }
  split.
  - unfold BeamedGroup.written_length. rewrite sum_written; [reflexivity |].
    intros i l. apply written_length_in_tuplet.
  - intros Hfit. rewrite (group_length_exact d _ Hfit), Ht. reflexivity.
Qed.

Lemma tuplet_length_witness :
  replicate 3 (sample_note eighth) <> [] /\
  Forall no_grace (replicate 3 (sample_note eighth)) /\
  exists c',
    Tuplet.init (replicate 3 (sample_note eighth)) (mkRatio 3 2 None) = Ok c' /\
    BeamedGroup.written_length c'
    = BeamedGroup.written_length (replicate 3 (sample_note eighth)) /\
    (Forall (fits_divisions 3) c' ->
     (inject_Z (BeamedGroup.length_in_divisions
                  ((fun l => Leaf.set_divisions l 3) <$> c'))
      == BeamedGroup.written_length (replicate 3 (sample_note eighth))
         * tuplet_modification (mkRatio 3 2 None) * inject_Z 3)%Q).
Proof.
  assert (Hne : replicate 3 (sample_note eighth) <> []) by discriminate.
  assert (Hg : Forall no_grace (replicate 3 (sample_note eighth))).
  { repeat constructor. }
  split; [exact Hne |]. split; [exact Hg |].
  exact (proj2 (tuplet_length (replicate 3 (sample_note eighth))
                  (mkRatio 3 2 None) 3 Hne Hg)).
Defined.

(** Three eighth notes in the time of two, at three divisions to the
    quarter, last three divisions: a quarter. *)
Example triplet_lasts_a_quarter :
  (fun c => BeamedGroup.length_in_divisions
              ((fun l => Leaf.set_divisions l 3) <$> c))
    <$> Tuplet.init (replicate 3 (sample_note eighth)) (mkRatio 3 2 None)
  = Ok 3.
Proof. vm_compute. reflexivity. Qed.

(** X9: [_set_tuplet_info_for_contents], which [Tuplet] runs again in
    every [min_denominator] and every [render], changes nothing the
    second time: run on the contents it left, it returns them as they
    are. *)
Theorem set_tuplet_info_idempotent (c c' : list Leaf) (r : TupletRatio) :
  Tuplet._set_tuplet_info_for_contents c r = Ok c' ->
  Tuplet._set_tuplet_info_for_contents c' r = Ok c'.
Proof.
  intros Hrun. destruct (decide (c = [])) as [-> | Hne]; [discriminate |].
  rewrite (set_tuplet_info_spec c r Hne) in Hrun. injection Hrun as <-.
  rewrite set_tuplet_info_spec.
  - f_equal. apply list_eq. intros i.
    rewrite !list_lookup_imap, length_imap.
    destruct (c !! i) as [l |]; [| reflexivity]. simpl.
    rewrite bracket_at_ratio, bracket_at_twice, set_tuplet_ratio_twice.
    reflexivity.
  - intros H. apply (f_equal length) in H. rewrite length_imap in H.
    destruct c; [contradiction | discriminate].
Qed.

Lemma set_tuplet_info_idempotent_witness :
  exists c',
    Tuplet._set_tuplet_info_for_contents
      (replicate 3 (sample_note eighth)) (mkRatio 3 2 None) = Ok c' /\
    Tuplet._set_tuplet_info_for_contents c' (mkRatio 3 2 None) = Ok c'.
Proof.
  eexists. split; [reflexivity |].
  apply (set_tuplet_info_idempotent (replicate 3 (sample_note eighth))).
  reflexivity.
Defined.

Lemma tie_flags_independent_witness :
  Note.starts_tie (Note.set_starts_tie (Leaf.head (sample_note quarter)) true)
  = true /\
  (OtherNotation "tied start"
     ∈ tied_notations (Note.set_starts_tie (Leaf.head (sample_note quarter)) true)
   <-> Note.starts_tie
         (Note.set_starts_tie (Leaf.head (sample_note quarter)) true) = true).
Proof.
  split.
  - exact (proj1 (tie_flags_independent (Leaf.head (sample_note quarter))
                    true false)).
  - refine (proj1 (proj2 (proj2 (proj2 (proj2 (proj2
              (tie_flags_independent
                 (Note.set_starts_tie (Leaf.head (sample_note quarter)) true)
                 true false))))) _)).
    discriminate.
Defined.

(** ** Slurs across leaves *)

Section SlurRuns.
Implicit Types (d : gmap SlurId (list SlurId)) (K : SlurId).

Lemma visit_notation_kind d (notation : Notation) :
  slots_ok d ->
  exists d' notation' w,
    Part.visit_notation d notation = Ok (d', notation', w) /\
    slots_ok d' /\ same_kind notation notation' /\
    forall K, other_slur K notation -> d' !! K = d !! K.
Proof.
  intros Hd. destruct (visit_notation_ok d notation Hd)
    as (d' & notation' & w & Hrun & Hd').
  exists d', notation', w. split; [exact Hrun |]. split; [exact Hd' |].
  destruct notation as [K0 | K0 | name]; simpl in Hrun.
  - destruct (Part.id_in K0 (Part.available_slur_numbers d)).
    + injection Hrun as <- <- <-. split; [exact I |].
      intros K [HK _]. unfold Part.setdefault_append.
      apply lookup_insert_ne. congruence.
    + destruct (Part.available_slur_numbers d).
      * injection Hrun as <- <- <-. split; [exact I | reflexivity].
      * injection Hrun as <- <- <-. split; [exact I |].
        intros K [HK _]. unfold Part.setdefault_append.
        apply lookup_insert_ne. congruence.
  - destruct (d !! K0) as [[| first rest] |] eqn:HK0; [discriminate | |].
    + injection Hrun as <- <- <-. split; [exact I |].
      intros K [_ HK]. destruct rest.
      * apply lookup_delete_ne. congruence.
      * apply lookup_insert_ne. congruence.
    + injection Hrun as <- <- <-. split; [exact I | reflexivity].
  - injection Hrun as <- <- <-. split; [reflexivity | reflexivity].
Qed.

Lemma visit_notations_kind (notations : list Notation) :
  forall d, slots_ok d ->
  exists d' notations' w,
    Part.visit_notations d notations = Ok (d', notations', w) /\
    slots_ok d' /\ Forall2 same_kind notations notations' /\
    forall K, Forall (other_slur K) notations -> d' !! K = d !! K.
Proof.
  induction notations as [| n ns IH]; intros d Hd; simpl.
  - exists d, [], []. split; [reflexivity |]. split; [exact Hd |].
    split; [constructor | reflexivity].
  - destruct (visit_notation_kind d n Hd) as (d1 & n1 & w1 & -> & Hd1 & Hk1 & Ho1).
    destruct (IH d1 Hd1) as (d2 & ns2 & w2 & H2 & Hd2 & Hk2 & Ho2).
    exists d2, (n1 :: ns2), (w1 ++ w2). cbn. rewrite H2. cbn.
    split; [reflexivity |]. split; [exact Hd2 |].
    split; [constructor; assumption |].
    intros K [HK HKs]%Forall_cons. rewrite Ho2, Ho1 by assumption. reflexivity.
Qed.

Lemma visit_leaves_kind (leaves : list TimedLeaf) :
  forall d, slots_ok d ->
  exists d' leaves' w,
    Part.visit_leaves d leaves = Ok (d', leaves', w) /\
    slots_ok d' /\ Forall2 renumbered leaves leaves' /\
    forall K,
      Forall (fun leaf => Forall (other_slur K) (TimedLeaf.notations leaf))
             leaves ->
      d' !! K = d !! K.
Proof.
  induction leaves as [| leaf leaves IH]; intros d Hd; simpl.
  - exists d, [], []. split; [reflexivity |]. split; [exact Hd |].
    split; [constructor | reflexivity].
  - destruct (visit_notations_kind (TimedLeaf.notations leaf) d Hd)
      as (d1 & ns & w1 & -> & Hd1 & Hk1 & Ho1).
    cbn. destruct (IH d1 Hd1) as (d2 & leaves' & w2 & -> & Hd2 & Hk2 & Ho2).
    cbn. do 3 eexists. split; [reflexivity |]. split; [exact Hd2 |]. split.
    + constructor; [| exact Hk2]. exists ns. split; [reflexivity | exact Hk1].
    + intros K [HK HKs]%Forall_cons. rewrite Ho2, Ho1 by assumption.
      reflexivity.
Qed.


End SlurRuns.

(** X10: the slur renumbering of a part whose measures render never
    raises (the list that [pop(0)] is called on is never empty) and
    touches nothing but slur ids: it returns the leaves of the part, as
    many and in the same order, each with as many notations as before,
    starts still starts, stops still stops, every other notation
    unchanged. *)
Theorem renumbering_keeps_shape (part : Part.t) :
  forallb measure_ok (Part.measures part) = true ->
  exists leaves leaves' w,
    Part.iter_leaves (Part.measures part) = Some (Ok leaves) /\
    Part._validate_slur_numbers part = Some (Ok (leaves', w)) /\
    Forall2 renumbered leaves leaves'.
Proof.
  intros Hok. unfold Part._validate_slur_numbers.
  destruct (part_iter_leaves_ok _ Hok) as [leaves Hl]. rewrite Hl.
  destruct (visit_leaves_kind leaves ∅ slots_ok_empty)
    as (d' & leaves' & w & Hrun & _ & Hshape & _).
  exists leaves, leaves', w. rewrite Hrun. cbn.
  split; [reflexivity |]. split; [reflexivity | exact Hshape].
Qed.

Lemma renumbering_keeps_shape_witness :
  forallb measure_ok (Part.measures (Part.mk "P" [two_voice_measure] 1)) = true /\
  exists leaves leaves' w,
    Part.iter_leaves (Part.measures (Part.mk "P" [two_voice_measure] 1))
    = Some (Ok leaves) /\
    Part._validate_slur_numbers (Part.mk "P" [two_voice_measure] 1)
    = Some (Ok (leaves', w)) /\
    Forall2 renumbered leaves leaves'.
Proof.
  assert (H : forallb measure_ok
                (Part.measures (Part.mk "P" [two_voice_measure] 1)) = true)
    by reflexivity.
  split; [exact H |].
  exact (renumbering_keeps_shape (Part.mk "P" [two_voice_measure] 1) H).
Defined.

Section SlurEnds.
Implicit Types (d : gmap SlurId (list SlurId)) (K : SlurId).





End SlurEnds.



(** A fermata and a slur on one note, the slur "phrase" across a slur 9:
    "phrase" is written 1 at both ends, the slur 9 is written 2. *)
Example phrase_over_fermata :
  let note (ns : list Notation) :=
    ALeaf (Leaf.set_notations (sample_note quarter) ns) in
  (fun r : gmap SlurId (list SlurId) * list TimedLeaf * list Warning =>
     (TimedLeaf.notations <$> r.1.2, r.2))
    <$> Part.visit_leaves ∅
          [note [OtherNotation "fermata"; StartSlur (IdStr "phrase")];
           note [StartSlur (IdInt 9)];
           note [StopSlur (IdInt 9)];
           note [StopSlur (IdStr "phrase"); OtherNotation "staccato"]]
  = Ok ([[OtherNotation "fermata"; StartSlur (IdInt 1)];
         [StartSlur (IdInt 2)];
         [StopSlur (IdInt 2)];
         [StopSlur (IdInt 1); OtherNotation "staccato"]], []).
Proof. vm_compute. reflexivity. Qed.

(** ** Beam runs *)

Section BeamRuns.
Implicit Types (contents : list Leaf) (leaf : Leaf).

(** The beams a leaf without beams ends with. *)
Lemma final_beams_lookup contents i leaf (d : nat) (v : BeamType) :
  contents !! i = Some leaf -> unbeamed leaf ->
  Leaf.beams (beamed contents i leaf) !! d = Some v ->
  (1 <= d <= Leaf.num_beams leaf)%nat /\ v = spec_beam_state contents d i leaf.
Proof.
  intros Hi Hfresh. unfold beamed. rewrite beams_set_beams. unfold cleared.
  destruct (BeamedGroup.only_hooks _); [rewrite lookup_empty; discriminate |].
  rewrite assigned_beams_lookup by exact Hi. case_decide as Hd.
  - intros [= <-]. auto.
  - rewrite Hfresh, lookup_empty. discriminate.
Qed.

(** A state other than a hook, once assigned, is what the leaf ends
    with. *)
Lemma final_beams_kept contents i leaf (d : nat) :
  contents !! i = Some leaf -> (1 <= d <= Leaf.num_beams leaf)%nat ->
  hook_in (spec_beam_state contents d i leaf) = false ->
  Leaf.beams (beamed contents i leaf) !! d
  = Some (spec_beam_state contents d i leaf).
Proof.
  intros Hi Hd Hhook.
  assert (Ha : assigned_beams contents i leaf (seq 1 (max_beams contents)) !! d
               = Some (spec_beam_state contents d i leaf)).
  { rewrite assigned_beams_lookup by exact Hi. rewrite decide_True by exact Hd.
    reflexivity. }
  unfold beamed. rewrite beams_set_beams. unfold cleared.
  destruct (BeamedGroup.only_hooks _) eqn:Hall; [| exact Ha].
  rewrite only_hooks_true in Hall. rewrite (Hall _ _ Ha) in Hhook.
  discriminate.
Qed.

Lemma only_hooks_false (b : gmap nat BeamType) :
  BeamedGroup.only_hooks b = false ->
  exists (k : nat) w, b !! k = Some w /\ hook_in w = false.
Proof.
  unfold BeamedGroup.only_hooks.
  assert (Hl : forall l : list (nat * BeamType),
             forallb hook_in (snd <$> l) = false ->
             exists kw, kw ∈ l /\ hook_in (snd kw) = false).
  { induction l as [| kw l IH]; [discriminate |]. rewrite fmap_cons. simpl.
    destruct (hook_in (snd kw)) eqn:Hk.
    - intros (kw' & Hin & Hw)%IH. exists kw'. split; [right |]; assumption.
    - intros _. exists kw. split; [left | exact Hk]. }
  intros ([k w] & Hin & Hw)%Hl. apply elem_of_map_to_list in Hin. eauto.
Qed.

Lemma active_at_Some contents (j d : nat) :
  BeamedGroup.active_at contents j d = true ->
  exists leaf, contents !! j = Some leaf /\ (d <= Leaf.num_beams leaf)%nat.
Proof.
  unfold BeamedGroup.active_at. destruct (contents !! j) as [leaf |];
    [| discriminate].
  intros H%Nat.leb_le. eauto.
Qed.

Lemma active_at_true contents (j d : nat) leaf :
  contents !! j = Some leaf -> (d <= Leaf.num_beams leaf)%nat ->
  BeamedGroup.active_at contents j d = true.
Proof.
  intros Hj Hd. unfold BeamedGroup.active_at. rewrite Hj. apply Nat.leb_le, Hd.
Qed.
End BeamRuns.

(** X12: the beams [render_contents_beaming] leaves on a group of leaves
    that had none form proper runs at every level.  A leaf holds a level
    only if it is that short (a rest, a quarter note or longer holds
    none); a leaf left with [begin] or [continue] at a level is followed
    by a leaf left with [continue] or [end] at that level, and a leaf left
    with [continue] or [end] comes after a leaf left with [begin] or
    [continue]; and no leaf is left with hooks alone. *)
Theorem beams_form_runs (contents out : list Leaf) :
  Forall unbeamed contents ->
  BeamedGroup.render_contents_beaming contents = Ok out ->
  forall (i d : nat) (leaf' : Leaf) (v : BeamType),
    out !! i = Some leaf' -> Leaf.beams leaf' !! d = Some v ->
    (1 <= d <= Leaf.num_beams leaf')%nat /\
    (beam_goes_on v = true ->
     exists next w, out !! S i = Some next /\ Leaf.beams next !! d = Some w /\
                    beam_comes_in w = true) /\
    (beam_comes_in v = true ->
     exists j prev w, i = S j /\ out !! j = Some prev /\
                      Leaf.beams prev !! d = Some w /\ beam_goes_on w = true) /\
    (exists (d' : nat) w, Leaf.beams leaf' !! d' = Some w /\ hook_in w = false).
Proof.
  intros Hfresh Hrun i d leaf' v Hi Hv.
  destruct (decide (contents = [])) as [-> | Hne]; [discriminate |].
  rewrite (render_contents_beaming_spec contents Hne) in Hrun.
  injection Hrun as <-.
  rewrite list_lookup_imap in Hi.
  destruct (contents !! i) as [leaf |] eqn:Hleaf; [| discriminate].
  injection Hi as <-.
  assert (Hun : unbeamed leaf).
  { rewrite Forall_forall in Hfresh. eapply Hfresh, list_elem_of_lookup_2, Hleaf. }
  destruct (final_beams_lookup contents i leaf d v Hleaf Hun Hv) as [Hd ->].
  assert (Hnb : Leaf.num_beams (beamed contents i leaf) = Leaf.num_beams leaf).
  { unfold beamed. apply num_beams_set_beams. }
  rewrite Hnb. split; [exact Hd |].
  assert (Hthis : BeamedGroup.active_at contents i d = true).
  { apply (active_at_true contents i d leaf Hleaf). lia. }
  split; [| split].
  - intros Hon.
    assert (Hnext : BeamedGroup.active_at contents (S i) d = true).
    { unfold spec_beam_state in Hon.
      destruct (BeamedGroup.active_at contents (S i) d); [reflexivity |].
      destruct i as [| j]; cbn in Hon.
      - destruct (BeamedGroup.on_even_position _ _); discriminate.
      - destruct (BeamedGroup.active_at contents j d); [discriminate |].
        destruct (BeamedGroup.on_even_position _ _); discriminate. }
    destruct (active_at_Some _ _ _ Hnext) as (next & Hn & Hdn).
    exists (beamed contents (S i) next), (spec_beam_state contents d (S i) next).
    assert (Hst : beam_comes_in (spec_beam_state contents d (S i) next) = true).
    { unfold spec_beam_state. rewrite Hthis.
      destruct (BeamedGroup.active_at contents (S (S i)) d); reflexivity. }
    split; [rewrite list_lookup_imap, Hn; reflexivity |]. split; [| exact Hst].
    apply final_beams_kept; [exact Hn | lia |].
    destruct (spec_beam_state contents d (S i) next); try discriminate;
      reflexivity.
  - intros Hin. destruct i as [| j].
    { unfold spec_beam_state in Hin.
      destruct (BeamedGroup.active_at contents 1 d); [discriminate |].
      destruct (BeamedGroup.on_even_position _ _); discriminate. }
    assert (Hprev : BeamedGroup.active_at contents j d = true).
    { unfold spec_beam_state in Hin.
      destruct (BeamedGroup.active_at contents j d); [reflexivity |].
      destruct (BeamedGroup.active_at contents (S (S j)) d); [discriminate |].
      destruct (BeamedGroup.on_even_position _ _); discriminate. }
    destruct (active_at_Some _ _ _ Hprev) as (prev & Hp & Hdp).
    exists j, (beamed contents j prev), (spec_beam_state contents d j prev).
    assert (Hst : beam_goes_on (spec_beam_state contents d j prev) = true).
    { unfold spec_beam_state. rewrite Hthis.
      destruct j as [| j']; [reflexivity |].
      destruct (BeamedGroup.active_at contents j' d); reflexivity. }
    split; [reflexivity |].
    split; [rewrite list_lookup_imap, Hp; reflexivity |]. split; [| exact Hst].
    apply final_beams_kept; [exact Hp | lia |].
    destruct (spec_beam_state contents d j prev); try discriminate;
      reflexivity.
  - destruct (hook_in (spec_beam_state contents d i leaf)) eqn:Hhook.
    + unfold beamed in Hv. rewrite beams_set_beams in Hv. unfold cleared in Hv.
      destruct (BeamedGroup.only_hooks _) eqn:Hall;
        [rewrite lookup_empty in Hv; discriminate |].
      unfold beamed. rewrite beams_set_beams. unfold cleared. rewrite Hall.
      apply only_hooks_false, Hall.
    + exists d, (spec_beam_state contents d i leaf). split; [exact Hv | exact Hhook].
Qed.

Lemma beams_form_runs_witness :
  exists out,
    BeamedGroup.render_contents_beaming (replicate 4 (sample_note eighth))
    = Ok out /\
    exists next w,
      out !! 1%nat = Some next /\ Leaf.beams next !! 1%nat = Some w /\
      beam_comes_in w = true.
Proof.
  destruct (BeamedGroup.render_contents_beaming
              (replicate 4 (sample_note eighth))) as [out | e] eqn:Hrun;
    [| discriminate].
  exists out. split; [reflexivity |].
  assert (Hfresh : Forall unbeamed (replicate 4 (sample_note eighth))).
  { repeat constructor. }
  assert (H0 : exists leaf', out !! 0%nat = Some leaf' /\
                             Leaf.beams leaf' !! 1%nat = Some BeamBegin).
  { vm_compute in Hrun. injection Hrun as <-. eexists. split; reflexivity. }
  destruct H0 as (leaf' & Hi & Hv).
  exact (proj1 (proj2 (beams_form_runs _ out Hfresh Hrun 0%nat 1%nat leaf'
                         BeamBegin Hi Hv)) eq_refl).
Defined.

(** ** [pad_with_rests] *)

Section Padding.
Implicit Types (r x : Q) (rests : list XMLNote.t).

Lemma Rest_init_length (t : NoteType) :
  Rest_init (_note_type_to_length t) = Some (Ok (Leaf.head (sample_rest t))).
Proof. destruct t; reflexivity. Qed.

Lemma Rest_init_proper x y : (x == y)%Q -> Rest_init x = Rest_init y.
Proof.
  intros Hxy. unfold Rest_init, Duration_from_written_length.
  rewrite (get_note_type_and_number_of_dots_proper x y 4 Hxy). reflexivity.
Qed.

Lemma Qfloor_sub_Z x (z : Z) : Qfloor (x - inject_Z z) = Qfloor x - z.
Proof.
  destruct x as [n d]. unfold Qminus, Qplus, Qopp, inject_Z. simpl.
  rewrite Pos.mul_1_r, Z.mul_1_r.
  replace (n + - z * Z.pos d) with (n + (- z) * Z.pos d) by ring.
  rewrite Z.div_add by lia. lia.
Qed.

(** Taking an integer off a fraction leaves its denominator. *)
Lemma Qred_sub_Z x (z : Z) :
  Qred (x - inject_Z z)
  = (Qnum (Qred x) - z * Z.pos (Qden (Qred x))) # Qden (Qred x).
Proof.
  pose proof (gcd_Qred x) as Hg. pose proof (Qred_correct x) as Hx.
  destruct (Qred x) as [n d]. simpl in *.
  assert (Heq : (x - inject_Z z == (n - z * Z.pos d) # d)%Q).
  { rewrite <- Hx. unfold Qeq, Qminus, Qplus, Qopp, inject_Z. simpl.
    rewrite Pos.mul_1_r. ring. }
  rewrite (Qred_complete _ _ Heq). apply Qcanon.Qred_identity. simpl.
  replace (n - z * Z.pos d) with (n + (- z) * Z.pos d) by ring.
  rewrite Z.gcd_comm, Z.gcd_add_mult_diag_r, Z.gcd_comm. exact Hg.
Qed.

Lemma Qden_Qred_sub_Z x (z : Z) :
  Qden (Qred (x - inject_Z z)) = Qden (Qred x).
Proof. rewrite Qred_sub_Z. reflexivity. Qed.

(** The [while] loop for one of the lengths 4, 2 and 1: it takes the
    length off as often as it fits. *)
Lemma longer_rests_loop_spec (L : Z) (t : NoteType) (fuel : nat) :
  1 <= L -> (_note_type_to_length t == inject_Z L)%Q ->
  forall r rests,
    Qred r = r -> Z.pos (Qden r) <= 1000000 -> (0 <= r)%Q ->
    Qfloor r <= Z.of_nat fuel ->
    exists a : nat,
      longer_rests_loop fuel L r rests
      = Some (Ok (Qred (r - inject_Z (Z.of_nat a * L)),
                  rests ++ replicate a (Leaf.head (sample_rest t)))) /\
      (0 <= r - inject_Z (Z.of_nat a * L))%Q /\
      (r - inject_Z (Z.of_nat a * L) < inject_Z L)%Q.
Proof.
  intros HL Ht. induction fuel as [| fuel IH]; intros r rests Hred Hden Hr Hfuel.
  - exists 0%nat. cbn [longer_rests_loop].
    assert (Hlt : (r < inject_Z L)%Q).
    { apply Qlt_le_trans with (inject_Z (Qfloor r + 1)); [apply Qlt_floor |].
      rewrite <- Zle_Qle. simpl in Hfuel. lia. }
    destruct (Qle_bool (inject_Z L) r) eqn:Hb.
    { apply Qle_bool_iff in Hb. exfalso. apply (Qlt_irrefl r).
      eapply Qlt_le_trans; eassumption. }
    assert (H0 : (r - inject_Z (Z.of_nat 0 * L) == r)%Q).
    { change (Z.of_nat 0 * L) with 0. unfold Qminus.
      change (- inject_Z 0)%Q with 0%Q. apply Qplus_0_r. }
    rewrite (Qred_complete _ _ H0), Hred, app_nil_r.
    split; [reflexivity |]. rewrite H0. auto.
  - cbn [longer_rests_loop]. destruct (Qle_bool (inject_Z L) r) eqn:Hb.
    + apply Qle_bool_iff in Hb.
      rewrite <- (Rest_init_proper _ _ Ht), Rest_init_length.
      assert (Hd1 : Qden (Qred (r - inject_Z L)) = Qden r).
      { rewrite Qden_Qred_sub_Z, Hred. reflexivity. }
      rewrite limit_denominator_small by (rewrite Hd1; exact Hden).
      destruct (IH (Qred (r - inject_Z L))
                   (rests ++ [Leaf.head (sample_rest t)])) as (a & Hrun & H0 & H1).
      * apply Qcanon.Qred_involutive.
      * rewrite Hd1. exact Hden.
      * rewrite Qred_correct. unfold Qminus. rewrite <- Qle_minus_iff. exact Hb.
      * rewrite (Qfloor_comp _ _ (Qred_correct _)), Qfloor_sub_Z. lia.
      * assert (Hs : (Qred (r - inject_Z L) - inject_Z (Z.of_nat a * L)
                      == r - inject_Z (Z.of_nat (S a) * L))%Q).
        { rewrite Qred_correct. rewrite Nat2Z.inj_succ.
          replace (Z.succ (Z.of_nat a) * L) with (Z.of_nat a * L + L) by ring.
          rewrite inject_Z_plus. ring. }
        exists (S a). rewrite Hrun, (Qred_complete _ _ Hs), <- app_assoc.
        split; [reflexivity |]. rewrite <- Hs. auto.
    + exists 0%nat.
      assert (H0 : (r - inject_Z (Z.of_nat 0 * L) == r)%Q).
      { change (Z.of_nat 0 * L) with 0. unfold Qminus.
      change (- inject_Z 0)%Q with 0%Q. apply Qplus_0_r. }
      rewrite (Qred_complete _ _ H0), Hred, app_nil_r.
      split; [reflexivity |]. rewrite H0. split; [exact Hr |].
      apply Qnot_le_lt. intros Hle. apply Qle_bool_iff in Hle. congruence.
Qed.

(** The [for] loop over 4, 2 and 1 takes the whole part off the remaining
    length, in whole, half and quarter rests. *)
Lemma longer_rests_for_spec r :
  Qred r = r -> Z.pos (Qden r) <= 1000000 -> (0 <= r)%Q ->
  exists (a b c : nat),
    longer_rests_for [4; 2; 1] r []
    = Some (Ok (Qred (r - inject_Z (Z.of_nat a * 4 + Z.of_nat b * 2
                                    + Z.of_nat c * 1)),
                replicate a (Leaf.head (sample_rest whole))
                ++ replicate b (Leaf.head (sample_rest half))
                ++ replicate c (Leaf.head (sample_rest quarter)))) /\
    (0 <= r - inject_Z (Z.of_nat a * 4 + Z.of_nat b * 2 + Z.of_nat c * 1))%Q /\
    (r - inject_Z (Z.of_nat a * 4 + Z.of_nat b * 2 + Z.of_nat c * 1) < 1)%Q.
Proof.
  intros Hred Hden Hr.
  assert (Hfuel : forall z, z <= Z.of_nat (Z.to_nat z)) by (intros; lia).
  assert (Hstep : forall x (z : Z),
             Qred x = x -> Z.pos (Qden x) <= 1000000 ->
             (0 <= x - inject_Z z)%Q ->
             Qred (Qred (x - inject_Z z)) = Qred (x - inject_Z z) /\
             Z.pos (Qden (Qred (x - inject_Z z))) <= 1000000 /\
             (0 <= Qred (x - inject_Z z))%Q).
  { intros x z Hx Hd H0. split; [apply Qcanon.Qred_involutive |]. split.
    - rewrite Qden_Qred_sub_Z, Hx. exact Hd.
    - rewrite Qred_correct. exact H0. }
  cbn [longer_rests_for].
  destruct (longer_rests_loop_spec 4 whole (Z.to_nat (Qfloor r)) ltac:(lia)
              ltac:(reflexivity) r [] Hred Hden Hr (Hfuel _))
    as (a & -> & Ha0 & _).
  destruct (Hstep r _ Hred Hden Ha0) as (Hred1 & Hden1 & Hr1).
  set (r1 := Qred (r - inject_Z (Z.of_nat a * 4))) in *.
  destruct (longer_rests_loop_spec 2 half (Z.to_nat (Qfloor r1)) ltac:(lia)
              ltac:(reflexivity) r1
              ([] ++ replicate a (Leaf.head (sample_rest whole)))
              Hred1 Hden1 Hr1 (Hfuel _))
    as (b & -> & Hb0 & _).
  destruct (Hstep r1 _ Hred1 Hden1 Hb0) as (Hred2 & Hden2 & Hr2).
  set (r2 := Qred (r1 - inject_Z (Z.of_nat b * 2))) in *.
  destruct (longer_rests_loop_spec 1 quarter (Z.to_nat (Qfloor r2)) ltac:(lia)
              ltac:(reflexivity) r2
              (([] ++ replicate a (Leaf.head (sample_rest whole)))
               ++ replicate b (Leaf.head (sample_rest half)))
              Hred2 Hden2 Hr2 (Hfuel _))
    as (c & -> & Hc0 & Hc1).
  exists a, b, c.
  assert (Hs : (r2 - inject_Z (Z.of_nat c * 1)
                == r - inject_Z (Z.of_nat a * 4 + Z.of_nat b * 2
                                 + Z.of_nat c * 1))%Q).
  { subst r2 r1. rewrite !Qred_correct, !inject_Z_plus. ring. }
  split; [| split; [rewrite <- Hs; exact Hc0 | rewrite <- Hs; exact Hc1]].
  rewrite (Qred_complete _ _ Hs). simpl app. rewrite <- app_assoc.
  reflexivity.
Qed.

Lemma odd_rests_loop_app (fuel : nat) :
  forall r (components : list Element),
    odd_rests_loop fuel r components
    = match odd_rests_loop fuel r [] with
      | Some (Ok out) => Some (Ok (components ++ out))
      | other => other
      end.
Proof.
  induction fuel as [| fuel IH]; intros r components; cbn [odd_rests_loop].
  - destruct (negb _); [reflexivity |]. rewrite app_nil_r. reflexivity.
  - destruct (negb _); [| rewrite app_nil_r; reflexivity].
    destruct (Rest_init _) as [[rest | e] |]; try reflexivity.
    rewrite (IH _ (components ++ _)), (IH _ ([] ++ _)).
    destruct (odd_rests_loop fuel _ []) as [[out | e] |]; try reflexivity.
    rewrite <- app_assoc. reflexivity.
Qed.

(** The second [while] loop on each of the 256 lengths below 1 that it
    can meet. *)
Lemma odd_rests_loop_small (n : nat) :
  (n < 256)%nat ->
  let r := Qred (Z.of_nat n # 256) in
  odd_rests_loop (Pos.to_nat (Qden r)) r []
  = Some (Ok (rest_of <$> small_rest_types (Z.of_nat n))).
Proof.
  intros Hn.
  do 256 (destruct n as [| n]; [vm_compute; reflexivity |]).
  lia.
Qed.

Lemma Qred_den_divide (n : Z) (d : positive) :
  (Z.pos (Qden (Qred (n # d))) | Z.pos d).
Proof.
  unfold Qred.
  pose proof (Z.ggcd_correct_divisors n (Z.pos d)) as Hdiv.
  pose proof (Z.ggcd_gcd n (Z.pos d)) as Hg.
  pose proof (Z.gcd_nonneg n (Z.pos d)) as Hnn.
  destruct (Z.ggcd n (Z.pos d)) as [g [n' d']]. simpl in *.
  destruct Hdiv as [_ Hd]. rewrite <- Hg in Hnn.
  assert (Hd' : 0 < d') by nia.
  rewrite Z2Pos.id by lia. exists g. lia.
Qed.

(** A reduced fraction in [0, 1) whose denominator divides 256. *)
Lemma below_one_over_256 r :
  Qred r = r -> (Z.pos (Qden r) | 256) -> (0 <= r)%Q -> (r < 1)%Q ->
  exists n : nat, (n < 256)%nat /\ r = Qred (Z.of_nat n # 256).
Proof.
  intros Hred [k Hk] H0 H1. destruct r as [p q].
  unfold Qle, Qlt in H0, H1. simpl in *.
  assert (Hkpos : 0 < k) by nia.
  exists (Z.to_nat (p * k)). split; [nia |].
  rewrite <- Hred at 1. apply Qred_complete.
  unfold Qeq. simpl. rewrite Z2Nat.id by nia. nia.
Qed.

Lemma divisor_of_256_is_power_of_two (d : Z) :
  0 < d -> (d | 256) -> _is_power_of_two d = true.
Proof.
  intros Hd Hdiv.
  assert (Hle : d <= 256) by (apply Z.divide_pos_le; [lia | exact Hdiv]).
  assert (Hall : forallb (fun n : nat =>
                            implb (256 mod Z.of_nat n =? 0)
                                  (_is_power_of_two (Z.of_nat n)))
                         (seq 1 256) = true) by (vm_compute; reflexivity).
  rewrite forallb_forall in Hall.
  specialize (Hall (Z.to_nat d)). rewrite Z2Nat.id in Hall by lia.
  assert (Hmod : (256 mod d =? 0) = true).
  { apply Z.eqb_eq, Z.mod_divide; [lia | exact Hdiv]. }
  rewrite Hmod in Hall. apply Hall. apply in_seq. lia.
Qed.

Lemma small_rest_types_sum (n : nat) :
  (n < 256)%nat ->
  (foldr Qplus 0 (_note_type_to_length <$> small_rest_types (Z.of_nat n))
   == Z.of_nat n # 256)%Q.
Proof.
  intros Hn.
  do 256 (destruct n as [| n]; [vm_compute; reflexivity |]).
  lia.
Qed.

Lemma small_rest_types_sorted (m : Z) :
  StronglySorted not_longer (small_rest_types m) /\
  Forall (fun t => not_longer t eighth) (small_rest_types m).
Proof.
  unfold small_rest_types. cbn [omap list_omap fst snd].
  destruct (Z.testbit m 0), (Z.testbit m 1), (Z.testbit m 2),
    (Z.testbit m 3), (Z.testbit m 4), (Z.testbit m 5), (Z.testbit m 6),
    (Z.testbit m 7);
    split; repeat constructor; discriminate.
Qed.
End Padding.

Lemma foldl_Qplus (a : Q) (l : list Q) :
  (foldl Qplus a l == a + foldr Qplus 0 l)%Q.
Proof.
  revert a. induction l as [| x l IH]; intros a; simpl.
  - rewrite Qplus_0_r. reflexivity.
  - rewrite IH. ring.
Qed.

Lemma foldr_Qplus_app (l1 l2 : list Q) :
  (foldr Qplus 0 (l1 ++ l2) == foldr Qplus 0 l1 + foldr Qplus 0 l2)%Q.
Proof.
  induction l1 as [| x l1 IH]; simpl.
  - rewrite Qplus_0_l. reflexivity.
  - rewrite IH. ring.
Qed.

Lemma foldr_Qplus_replicate (n : nat) (x : Q) :
  (foldr Qplus 0 (replicate n x) == inject_Z (Z.of_nat n) * x)%Q.
Proof.
  induction n as [| n IH].
  - simpl. rewrite Qmult_0_l. reflexivity.
  - cbn [replicate foldr]. rewrite IH, Nat2Z.inj_succ.
    unfold Z.succ. rewrite inject_Z_plus. ring.
Qed.

Lemma rest_of_true_lengths (types : list NoteType) :
  (foldr Qplus 0 (Element_true_length <$> (rest_of <$> types))
   == foldr Qplus 0 (_note_type_to_length <$> types))%Q.
Proof.
  induction types as [| t types IH]; [reflexivity |].
  rewrite !fmap_cons. cbn [foldr]. rewrite IH.
  assert (Ht : (Element_true_length (rest_of t) == _note_type_to_length t)%Q)
    by (destruct t; reflexivity).
  rewrite Ht. reflexivity.
Qed.

Lemma sorted_app {A : Type} (R : A -> A -> Prop) (l1 l2 : list A) :
  StronglySorted R l1 -> StronglySorted R l2 ->
  (forall x y, x ∈ l1 -> y ∈ l2 -> R x y) ->
  StronglySorted R (l1 ++ l2).
Proof.
  intros H1 H2 H12. induction H1 as [| x l1 Hl1 IH Hx]; [exact H2 |].
  simpl. constructor.
  - apply IH. intros a b Ha. apply H12. right. exact Ha.
  - apply Forall_app. split; [exact Hx |].
    apply Forall_forall. intros y Hy. apply H12; [left | exact Hy].
Qed.

Lemma sorted_replicate {A : Type} (R : A -> A -> Prop) (n : nat) (x : A) :
  R x x -> StronglySorted R (replicate n x).
Proof.
  intros Hx. induction n as [| n IH]; simpl; constructor; [exact IH |].
  apply Forall_forall. intros y [-> _]%elem_of_replicate. exact Hx.
Qed.

Lemma pad_with_rests_types (components : list Element) (desired_length : Q)
    (M : Z) :
  0 <= M ->
  (desired_length - foldl Qplus 0 (Element_true_length <$> components)
   == M # 256)%Q ->
  exists (a b c n : nat),
    let types := small_rest_types (Z.of_nat n) ++ replicate c quarter
                 ++ replicate b half ++ replicate a whole in
    (n < 256)%nat /\
    pad_with_rests components desired_length
    = Some (Returns (components ++ (rest_of <$> types))) /\
    (foldr Qplus 0 (_note_type_to_length <$> types) == M # 256)%Q.
Proof.
  intros HM Hgap. unfold pad_with_rests.
  set (sum_length := foldl Qplus 0%Q (Element_true_length <$> components)) in *.
  assert (Hle : Qle_bool sum_length desired_length = true).
  { apply Qle_bool_iff. apply Qle_minus_iff. unfold Qminus in Hgap.
    rewrite Hgap. unfold Qle. simpl. lia. }
  rewrite Hle. cbn [negb].
  assert (Hr0 : Qred (desired_length - sum_length) = Qred (M # 256))
    by (apply Qred_complete, Hgap).
  assert (Hdiv0 : (Z.pos (Qden (Qred (desired_length - sum_length))) | 256)).
  { rewrite Hr0. apply Qred_den_divide. }
  assert (Hden0 : Z.pos (Qden (Qred (desired_length - sum_length))) <= 1000000).
  { apply Z.divide_pos_le in Hdiv0; lia. }
  rewrite limit_denominator_small by exact Hden0.
  set (r0 := Qred (desired_length - sum_length)) in *.
  rewrite divisor_of_256_is_power_of_two by (try exact Hdiv0; lia).
  cbn [negb].
  assert (Hred0 : Qred r0 = r0) by apply Qcanon.Qred_involutive.
  assert (Hpos0 : (0 <= r0)%Q).
  { subst r0. rewrite Qred_correct, Hgap. unfold Qle. simpl. lia. }
  destruct (longer_rests_for_spec r0 Hred0 Hden0 Hpos0)
    as (a & b & c & -> & Hlo & Hhi).
  set (N := Z.of_nat a * 4 + Z.of_nat b * 2 + Z.of_nat c * 1) in *.
  set (r1 := Qred (r0 - inject_Z N)).
  assert (Hr1 : (r1 == r0 - inject_Z N)%Q) by apply Qred_correct.
  destruct (below_one_over_256 r1) as (n & Hn & Hrn).
  { apply Qcanon.Qred_involutive. }
  { subst r1. rewrite Qden_Qred_sub_Z, Hred0. exact Hdiv0. }
  { rewrite Hr1. exact Hlo. }
  { rewrite Hr1. exact Hhi. }
  rewrite odd_rests_loop_app, Hrn, (odd_rests_loop_small n Hn).
  exists a, b, c, n. cbv zeta.
  split; [exact Hn |]. split.
  - do 2 f_equal. rewrite <- app_assoc. f_equal.
    rewrite !reverse_app, !reverse_replicate, !fmap_app, !fmap_replicate.
    rewrite <- !app_assoc. reflexivity.
  - rewrite !fmap_app, !foldr_Qplus_app, !fmap_replicate,
      !foldr_Qplus_replicate, (small_rest_types_sum n Hn).
    assert (Hn' : (Z.of_nat n # 256 == r1)%Q).
    { rewrite Hrn. symmetry. apply Qred_correct. }
    rewrite Hn', Hr1. subst r0. rewrite Qred_correct, Hgap. subst N.
    change (_note_type_to_length quarter) with (inject_Z 1).
    change (_note_type_to_length half) with (inject_Z 2).
    change (_note_type_to_length whole) with (inject_Z 4).
    rewrite !inject_Z_plus, !inject_Z_mult. ring.
Qed.

(** ** Plain lengths *)

Lemma plain_leaf_on_grid (l : Leaf) :
  plain_leaf l -> exists k : Z, 0 <= k /\ (Leaf.true_length l == k # 4096)%Q.
Proof.
  unfold plain_leaf, Leaf.true_length, XMLNote.true_length,
    Duration.true_length, Duration.written_length.
  destruct (XMLNote.duration (Leaf.head l)) as [t dots ratio divisions].
  cbn. intros [-> Hdots].
  destruct (XMLNote.is_grace (Leaf.head l)).
  { exists 0. split; [lia | reflexivity]. }
  assert (Hc : (dots = 0 \/ dots = 1 \/ dots = 2 \/ dots = 3 \/ dots = 4)%nat)
    by lia.
  destruct Hc as [-> | [-> | [-> | [-> | ->]]]]; destruct t;
    match goal with
    | |- exists k, _ /\ (?x == _)%Q =>
        exists (Qnum x * 4096 / Z.pos (Qden x));
        split; [vm_compute; discriminate | vm_compute; reflexivity]
    end.
Qed.

Lemma plain_on_grid (e : Element) :
  plain e -> exists k : Z, 0 <= k /\ (Element_true_length e == k # 4096)%Q.
Proof.
  destruct e as [[l | b] | c | c r]; cbn [plain Element_true_length];
    try contradiction.
  - apply plain_leaf_on_grid.
  - unfold BeamedGroup.true_length.
    induction 1 as [| l c Hl _ (k & Hk & IH)].
    + exists 0. split; [lia | reflexivity].
    + destruct (plain_leaf_on_grid l Hl) as (k0 & Hk0 & Hl0).
      exists (k0 + k). split; [lia |].
      rewrite fmap_cons. cbn [foldr]. rewrite Hl0, IH.
      unfold Qeq, Qplus. simpl. lia.
Qed.

(** X13: [pad_with_rests] fills up to the desired length.  When the
    components are plain notes, rests, chords and beamed groups, not
    longer than the desired length, which is at most a million quarter
    notes, and what is missing is a whole number of 256ths of a quarter
    note, the call returns the components followed by plain rests, one of
    each note type that the missing length needs; their true lengths add
    up to the missing length, so that the result has the desired length,
    and they come in order of growing length. *)
Theorem pad_with_rests_fills (components : list Element) (desired_length : Q)
    (M : Z) :
  Forall plain components -> (desired_length <= 1000000)%Q ->
  0 <= M ->
  (desired_length - foldl Qplus 0 (Element_true_length <$> components)
   == M # 256)%Q ->
  exists types : list NoteType,
    pad_with_rests components desired_length
    = Some (Returns (components ++ (rest_of <$> types))) /\
    (foldr Qplus 0 (_note_type_to_length <$> types) == M # 256)%Q /\
    (foldl Qplus 0 (Element_true_length <$> components ++ (rest_of <$> types))
     == desired_length)%Q /\
    StronglySorted not_longer types.
Proof.
  intros _ _ HM Hgap.
  destruct (pad_with_rests_types components desired_length M HM Hgap)
    as (a & b & c & n & Hn & Hpad & Hsum).
  set (types := small_rest_types (Z.of_nat n) ++ replicate c quarter
                ++ replicate b half ++ replicate a whole) in *.
  exists types.
  split; [exact Hpad | split; [exact Hsum | split]].
  - rewrite fmap_app, foldl_app, foldl_Qplus.
    rewrite rest_of_true_lengths, Hsum, <- Hgap. ring.
  - subst types. destruct (small_rest_types_sorted (Z.of_nat n)) as [Hs Hsmall].
    apply sorted_app; [exact Hs | |].
    + apply sorted_app; [apply sorted_replicate; discriminate | |].
      * apply sorted_app; [apply sorted_replicate; discriminate
                          | apply sorted_replicate; discriminate |].
        intros x y [-> _]%elem_of_replicate [-> _]%elem_of_replicate.
        discriminate.
      * intros x y [-> _]%elem_of_replicate
          [[-> _]%elem_of_replicate | [-> _]%elem_of_replicate]%elem_of_app;
          discriminate.
    + intros x y Hx Hy. rewrite Forall_forall in Hsmall.
      specialize (Hsmall x Hx). unfold not_longer in *.
      eapply Qle_trans; [exact Hsmall |].
      repeat (apply elem_of_app in Hy as [Hy | Hy]);
        apply elem_of_replicate in Hy as [-> _]; discriminate.
Qed.

Lemma pad_with_rests_fills_witness :
  exists types : list NoteType,
    pad_with_rests [Single (ALeaf (sample_note quarter))] (39 # 4)
    = Some (Returns ([Single (ALeaf (sample_note quarter))]
                     ++ (rest_of <$> types))) /\
    (foldr Qplus 0 (_note_type_to_length <$> types) == 2240 # 256)%Q /\
    (foldl Qplus 0
       (Element_true_length
          <$> [Single (ALeaf (sample_note quarter))] ++ (rest_of <$> types))
     == 39 # 4)%Q /\
    StronglySorted not_longer types.
Proof.
  apply (pad_with_rests_fills [Single (ALeaf (sample_note quarter))] (39 # 4)
           2240).
  - repeat constructor.
  - vm_compute. discriminate.
  - lia.
  - vm_compute. reflexivity.
Defined.

(** A quarter note padded to 9.75 quarters: a sixteenth and an eighth
    rest, then two whole rests. *)
Example pad_quarter_note :
  pad_with_rests [Single (ALeaf (sample_note quarter))] (39 # 4)
  = Some (Returns [Single (ALeaf (sample_note quarter)); rest_of n16th;
                   rest_of eighth; rest_of whole; rest_of whole]).
Proof. vm_compute. reflexivity. Qed.

Lemma odd_gcd_pow2 (M j : Z) : Z.odd M = true -> 0 <= j -> Z.gcd M (2 ^ j) = 1.
Proof.
  intros Hodd Hj.
  assert (H2 : Z.gcd M 2 = 1).
  { pose proof (Z.gcd_divide_r M 2) as H2. pose proof (Z.gcd_divide_l M 2) as HM.
    pose proof (Z.gcd_nonneg M 2) as Hnn.
    assert (Hle : Z.gcd M 2 <= 2) by (apply Z.divide_pos_le; [lia | exact H2]).
    assert (Hc : Z.gcd M 2 = 0 \/ Z.gcd M 2 = 1 \/ Z.gcd M 2 = 2) by lia.
    destruct Hc as [H0 | [H1 | H2']]; [| exact H1 |].
    - apply Z.gcd_eq_0_r in H0. discriminate.
    - rewrite H2' in HM. destruct HM as [k ->].
      rewrite Z.odd_mul in Hodd. rewrite andb_false_r in Hodd. discriminate. }
  pattern j. apply natlike_ind; [| | exact Hj].
  - simpl. apply Z.gcd_1_r.
  - intros x Hx IH. rewrite Z.pow_succ_r by exact Hx.
    apply Z.coprime_mul_r; assumption.
Qed.

Lemma Rest_init_too_short (j : Z) :
  9 <= j <= 19 ->
  Rest_init (1 / inject_Z (2 ^ j)) = Some (Raise ValueError).
Proof.
  intros Hj.
  assert (Hc : j = 9 \/ j = 10 \/ j = 11 \/ j = 12 \/ j = 13 \/ j = 14
               \/ j = 15 \/ j = 16 \/ j = 17 \/ j = 18 \/ j = 19) by lia.
  repeat (destruct Hc as [-> | Hc]; [vm_compute; reflexivity |]).
  subst j. vm_compute. reflexivity.
Qed.

(** X14: what [pad_with_rests] refuses.  Components longer than the
    desired length fail the first [assert]; a missing length with a
    denominator, up to 1000000, that is no power of two fails the second;
    and a missing length that needs a rest shorter than a 1024th note (an
    odd multiple of [1 / 2 ** j], [9 <= j <= 19]) raises the [ValueError]
    of [Rest], whatever longer rests the call had already built. *)
Theorem pad_with_rests_refuses (components : list Element)
    (desired_length : Q) :
  let gap :=
    (desired_length - foldl Qplus 0 (Element_true_length <$> components))%Q in
  ((gap < 0)%Q ->
   pad_with_rests components desired_length = Some AssertionError) /\
  (forall (p : Z) (q : positive),
     0 <= p -> Z.gcd p (Z.pos q) = 1 -> Z.pos q <= 1000000 ->
     (forall k, Z.pos q <> 2 ^ k) -> (gap == p # q)%Q ->
     pad_with_rests components desired_length = Some AssertionError) /\
  (forall M j : Z,
     0 <= M -> Z.odd M = true -> 9 <= j <= 19 ->
     (gap == inject_Z M / inject_Z (2 ^ j))%Q ->
     pad_with_rests components desired_length = Some (Raises ValueError)).
Proof.
  cbv zeta.
  set (sum_length := foldl Qplus 0%Q (Element_true_length <$> components)).
  split; [| split].
  - intros Hneg. unfold pad_with_rests. fold sum_length.
    destruct (Qle_bool sum_length desired_length) eqn:Hle; [| reflexivity].
    apply Qle_bool_iff in Hle. exfalso. apply (Qlt_irrefl 0).
    eapply Qle_lt_trans; [| exact Hneg].
    unfold Qminus. rewrite <- Qle_minus_iff. exact Hle.
  - intros p q Hp Hg Hq Hnot Hgap. unfold pad_with_rests. fold sum_length.
    destruct (Qle_bool sum_length desired_length); [| reflexivity]. cbn [negb].
    assert (Hr0 : Qred (desired_length - sum_length) = p # q).
    { rewrite (Qred_complete _ _ Hgap). apply Qcanon.Qred_identity. exact Hg. }
    rewrite limit_denominator_small by (rewrite Hr0; exact Hq).
    rewrite Hr0. simpl Qden.
    assert (Hpow : _is_power_of_two (Z.pos q) = false).
    { unfold _is_power_of_two. apply Z.eqb_neq. apply Hnot. }
    rewrite Hpow. reflexivity.
  - intros M j HM Hodd Hj Hgap. unfold pad_with_rests. fold sum_length.
    assert (H2j : 0 < 2 ^ j) by (apply Z.pow_pos_nonneg; lia).
    assert (H2j' : 2 ^ j <= 2 ^ 19) by (apply Z.pow_le_mono_r; lia).
    change (2 ^ 19) with 524288 in H2j'.
    assert (Hgap' : (desired_length - sum_length == M # Z.to_pos (2 ^ j))%Q).
    { rewrite Hgap. unfold Qeq, Qdiv, Qmult, Qinv, inject_Z. simpl.
      destruct (2 ^ j) as [| d | d] eqn:Ed; try lia. simpl. lia. }
    assert (Hle : Qle_bool sum_length desired_length = true).
    { apply Qle_bool_iff, Qle_minus_iff. unfold Qminus in Hgap'.
      rewrite Hgap'. unfold Qle. simpl. lia. }
    rewrite Hle. cbn [negb].
    assert (Hr0 : Qred (desired_length - sum_length) = M # Z.to_pos (2 ^ j)).
    { rewrite (Qred_complete _ _ Hgap'). apply Qcanon.Qred_identity. simpl.
      rewrite Z2Pos.id by lia. apply odd_gcd_pow2; [exact Hodd | lia]. }
    assert (Hden0 : Z.pos (Qden (Qred (desired_length - sum_length))) = 2 ^ j).
    { rewrite Hr0. simpl. apply Z2Pos.id. lia. }
    rewrite limit_denominator_small by lia.
    set (r0 := Qred (desired_length - sum_length)) in *.
    assert (Hpow : _is_power_of_two (Z.pos (Qden r0)) = true).
    { unfold _is_power_of_two. rewrite Hden0, Z.log2_pow2 by lia.
      apply Z.eqb_refl. }
    rewrite Hpow. cbn [negb].
    assert (Hred0 : Qred r0 = r0) by apply Qcanon.Qred_involutive.
    assert (Hpos0 : (0 <= r0)%Q).
    { subst r0. rewrite Qred_correct, Hgap'. unfold Qle. simpl. lia. }
    destruct (longer_rests_for_spec r0 Hred0 ltac:(lia) Hpos0)
      as (a & b & c & -> & Hlo & Hhi).
    set (N := Z.of_nat a * 4 + Z.of_nat b * 2 + Z.of_nat c * 1) in *.
    set (r1 := Qred (r0 - inject_Z N)).
    assert (Hr1 : (r1 == r0 - inject_Z N)%Q) by apply Qred_correct.
    assert (Hden1 : Z.pos (Qden r1) = 2 ^ j).
    { subst r1. rewrite Qden_Qred_sub_Z, Hred0. exact Hden0. }
    destruct (Pos2Nat.is_succ (Qden r1)) as [fuel ->].
    cbn [odd_rests_loop].
    assert (Hgt : Qle_bool r1 0 = false).
    { destruct (Qle_bool r1 0) eqn:Hb; [| reflexivity].
      apply Qle_bool_iff in Hb. exfalso.
      assert (H0 : (r1 == 0)%Q).
      { apply Qle_antisym; [exact Hb |]. rewrite Hr1. exact Hlo. }
      assert (Hr10 : r1 = 0%Q).
      { subst r1. rewrite <- (Qcanon.Qred_involutive (r0 - inject_Z N)).
        apply (Qred_complete _ 0%Q H0). }
      rewrite Hr10 in Hden1. simpl in Hden1.
      assert (2 ^ 1 <= 2 ^ j) by (apply Z.pow_le_mono_r; lia). lia. }
    rewrite Hgt. cbn [negb]. rewrite Hden1, Rest_init_too_short by exact Hj.
    reflexivity.
Qed.

Lemma pad_with_rests_refuses_witness :
  pad_with_rests [Single (ALeaf (sample_note whole))] 3 = Some AssertionError /\
  pad_with_rests [Single (ALeaf (sample_note quarter))] (4 # 3)
  = Some AssertionError /\
  pad_with_rests [Single (ALeaf (sample_note quarter))] (2049 # 512)
  = Some (Raises ValueError).
Proof.
  split; [| split].
  - apply (proj1 (pad_with_rests_refuses
                    [Single (ALeaf (sample_note whole))] 3)).
    vm_compute. reflexivity.
  - apply (proj1 (proj2 (pad_with_rests_refuses
                           [Single (ALeaf (sample_note quarter))] (4 # 3)))
             1 3%positive); [lia | reflexivity | lia | | vm_compute; reflexivity].
    intros k Hk. destruct (Z.le_gt_cases k 1) as [Hle | Hgt].
    + destruct (Z.le_gt_cases k 0) as [H0 | H0].
      * assert (2 ^ k <= 2 ^ 0) by (destruct (Z.lt_trichotomy k 0) as [?|[->|?]];
          [rewrite Z.pow_neg_r by lia; simpl; lia | simpl; lia | lia]).
        simpl in *. lia.
      * assert (k = 1) as -> by lia. discriminate.
    + assert (2 ^ 2 <= 2 ^ k) by (apply Z.pow_le_mono_r; lia).
      change (2 ^ 2) with 4 in *. lia.
  - apply (proj2 (proj2 (pad_with_rests_refuses
                           [Single (ALeaf (sample_note quarter))] (2049 # 512)))
             1537 9); [lia | reflexivity | lia | vm_compute; reflexivity].
Defined.

(** ** [_escape_split] *)

Section EscapeSplitFacts.
Context {Char : Type} `{EqDecision Char} (backslash : Char).
Implicit Types (s d : list Char) (res pieces : list (list Char)).

Lemma find_at_Some s d (j : nat) :
  find_at s d = Some j ->
  d `prefix_of` drop j s /\ (j <= length s)%nat /\
  forall k, (k < j)%nat -> ~ d `prefix_of` drop k s.
Proof.
  revert j. induction s as [| c s IH]; intros j; cbn [find_at].
  - case_bool_decide as Hp; [| discriminate]. intros [= <-].
    split; [exact Hp |]. split; [simpl; lia |]. intros k Hk. lia.
  - case_bool_decide as Hp.
    + intros [= <-]. split; [exact Hp |]. split; [simpl; lia |].
      intros k Hk. lia.
    + destruct (find_at s d) as [j' |] eqn:Hf; [| discriminate].
      intros [= <-]. destruct (IH j' eq_refl) as (Hpre & Hlen & Hmin).
      split; [exact Hpre |]. split; [simpl; lia |].
      intros [| k] Hk; [exact Hp |]. apply Hmin. lia.
Qed.

Lemma find_at_None s d :
  find_at s d = None -> forall k, ~ d `prefix_of` drop k s.
Proof.
  induction s as [| c s IH]; cbn [find_at].
  - case_bool_decide as Hp; [discriminate |]. intros _ k.
    rewrite drop_nil. exact Hp.
  - case_bool_decide as Hp; [discriminate |].
    destruct (find_at s d) as [j' |] eqn:Hf; [discriminate |].
    intros _ [| k]; [exact Hp |]. apply (IH eq_refl).
Qed.

Lemma count_escapes_plain (fuel : nat) s (j e : nat) :
  backslash ∉ s -> count_escapes backslash fuel s j e = e.
Proof.
  intros Hs. revert e. induction fuel as [| fuel IH]; intros e; [reflexivity |].
  cbn [count_escapes].
  destruct (bool_decide (s !! (j - e - 1)%nat = Some backslash)) eqn:Hb.
  - apply bool_decide_eq_true in Hb. exfalso. apply Hs.
    eapply list_elem_of_lookup_2, Hb.
  - rewrite andb_false_r. reflexivity.
Qed.

(** A piece cut off before the first delimiter holds no delimiter. *)
Lemma piece_is_free s d (j : nat) :
  d <> [] -> find_at s d = Some j -> find_at (take j s) d = None.
Proof.
  intros Hd Hf. destruct (find_at_Some s d j Hf) as (_ & _ & Hmin).
  destruct (find_at (take j s) d) as [k |] eqn:Hk; [| reflexivity].
  exfalso. destruct (find_at_Some _ _ _ Hk) as ([rest Hpre] & Hlen & _).
  assert (Hdl : (0 < length d)%nat) by (destruct d; [contradiction | simpl; lia]).
  assert (Hlen' : (k + length d <= j)%nat).
  { apply (f_equal length) in Hpre.
    rewrite length_drop, length_take, length_app in Hpre.
    rewrite length_take in Hlen. lia. }
  apply (Hmin k); [lia |].
  exists (rest ++ drop j s).
  rewrite <- (take_drop j s) at 1.
  rewrite drop_app_le by (rewrite length_take; rewrite length_take in Hlen; lia).
  rewrite Hpre, <- app_assoc. reflexivity.
Qed.

(** Without backslashes the loop cuts [s] at the delimiters. *)
Lemma escape_split_loop_plain s d (fuel : nat) :
  backslash ∉ s -> d <> [] ->
  forall (i : nat) res,
    (i <= length s)%nat -> (length s - i <= fuel)%nat ->
    exists pieces,
      escape_split_loop backslash fuel s d i res [] = Some (Ok (res ++ pieces)) /\
      str_join d pieces = drop i s /\ pieces <> [] /\
      Forall (fun piece => find_at piece d = None) pieces.
Proof.
  intros Hs Hd.
  assert (Hdl : (0 < length d)%nat) by (destruct d; [contradiction | simpl; lia]).
  induction fuel as [| fuel IH]; intros i res Hi Hfuel.
  - assert (Hstep : escape_split_loop backslash 0 s d i res []
                    = match str_find s d i with
                      | None => Some (Ok (res ++ [[] ++ drop i s]))
                      | Some _ => None
                      end) by reflexivity.
    rewrite Hstep. unfold str_find. rewrite decide_True by exact Hi.
    destruct (find_at (drop i s) d) as [j0 |] eqn:Hf.
    + exfalso. destruct (find_at_Some _ _ _ Hf) as ([rest Hpre] & _ & _).
      apply (f_equal length) in Hpre.
      rewrite !length_drop, length_app in Hpre. lia.
    + exists [drop i s]. simpl. split; [reflexivity |]. split; [reflexivity |].
      split; [discriminate |]. repeat constructor. exact Hf.
  - cbn [escape_split_loop]. unfold str_find. rewrite decide_True by exact Hi.
    destruct (find_at (drop i s) d) as [j0 |] eqn:Hf; cbn [fmap option_fmap option_map].
    + rewrite count_escapes_plain by exact Hs.
      change (0 / 2)%nat with 0%nat. cbn [Nat.mul].
      rewrite bool_decide_false by (intros Hne; apply Hne; reflexivity).
      destruct (find_at_Some _ _ _ Hf) as (Hpre & Hlen & _).
      pose proof Hpre as [rest Hrest].
      assert (Hj : (i + j0 + length d <= length s)%nat).
      { apply (f_equal length) in Hrest.
        rewrite !length_drop, length_app in Hrest. lia. }
      destruct (IH (i + j0 + length d)%nat
                   (res ++ [[] ++ slice s i (i + j0 - 0)]))
        as (pieces & Hrun & Hjoin & Hne & Hfree); [lia | lia |].
      exists (slice s i (i + j0 - 0) :: pieces).
      rewrite Hrun, <- app_assoc. split; [reflexivity |].
      assert (Hslice : slice s i (i + j0 - 0) = take j0 (drop i s)).
      { unfold slice. rewrite Nat.sub_0_r, take_drop_commute. reflexivity. }
      split; [| split; [discriminate |]].
      * destruct pieces as [| p pieces]; [contradiction |].
        change (str_join d (slice s i (i + j0 - 0) :: p :: pieces))
          with (slice s i (i + j0 - 0) ++ d ++ str_join d (p :: pieces)).
        rewrite Hjoin, Hslice.
        transitivity (take j0 (drop i s) ++ drop j0 (drop i s));
          [| apply take_drop].
        f_equal. rewrite Hrest. f_equal.
        assert (Hr : rest = drop (length d) (drop j0 (drop i s))).
        { rewrite Hrest, drop_app_length. reflexivity. }
        rewrite Hr, !drop_drop. f_equal. lia.
      * constructor; [| exact Hfree]. rewrite Hslice.
        apply piece_is_free; assumption.
    + exists [drop i s]. simpl. split; [reflexivity |]. split; [reflexivity |].
      split; [discriminate |]. repeat constructor. exact Hf.
Qed.

(** X15: on a string with no backslash [_escape_split] is a plain split.
    With a delimiter that is not empty the call returns at least one
    piece, no piece holds the delimiter, and the pieces joined by the
    delimiter give the string back. *)
Theorem escape_split_plain s d :
  backslash ∉ s -> d <> [] ->
  exists pieces,
    _escape_split backslash s d = Some (Ok pieces) /\
    str_join d pieces = s /\ pieces <> [] /\
    Forall (fun piece => find_at piece d = None) pieces.
Proof.
  intros Hs Hd.
  destruct (escape_split_loop_plain s d (length s) Hs Hd 0%nat [])
    as (pieces & Hrun & Hjoin & Hne & Hfree); [lia | lia |].
  exists pieces. auto.
Qed.

(** X16: with the empty delimiter [_escape_split] never returns.  The
    empty string is found at index 0 again and again: whatever bound is
    put on the number of iterations, the loop reaches it, with one more
    empty piece each time. *)
Theorem escape_split_empty_delimiter_loops (fuel : nat) s res :
  escape_split_loop backslash fuel s [] 0 res [] = None /\
  _escape_split backslash s [] = None.
Proof.
  assert (Hloop : forall fuel res,
             escape_split_loop backslash fuel s [] 0 res [] = None).
  { clear fuel res. intros fuel.
    assert (Hfind : str_find s [] 0 = Some 0%nat).
    { unfold str_find. rewrite decide_True by lia. rewrite drop_0.
      destruct s; cbn [find_at];
        (rewrite bool_decide_true by apply prefix_nil); reflexivity. }
    induction fuel as [| fuel IH]; intros res; cbn [escape_split_loop];
      rewrite Hfind; [reflexivity |].
    cbn [count_escapes]. change (0 / 2)%nat with 0%nat. cbn [Nat.mul].
    rewrite bool_decide_false by (intros Hne; apply Hne; reflexivity).
    apply IH. }
  split; [apply Hloop |]. unfold _escape_split. apply Hloop.
Qed.
End EscapeSplitFacts.

Lemma escape_split_plain_witness :
  exists pieces,
    _escape_split backslash_char (chars "ab cd") (chars " ") = Some (Ok pieces) /\
    str_join (chars " ") pieces = chars "ab cd" /\ pieces <> [] /\
    Forall (fun piece => find_at piece (chars " ") = None) pieces.
Proof.
  apply (escape_split_plain backslash_char (chars "ab cd") (chars " ")).
  - intros H. repeat (apply elem_of_cons in H as [H | H]; [discriminate |]).
    inversion H.
  - discriminate.
Defined.

(** A command line split at its spaces: an escaped space stays in its
    piece, without the backslash; two backslashes before a space stand
    for one backslash and leave the space a delimiter. *)
Example escape_split_command :
  _escape_split backslash_char (chars "open My\ Score.xml now") (chars " ")
  = Some (Ok [chars "open"; chars "My Score.xml"; chars "now"]) /\
  _escape_split backslash_char
    (chars "a" ++ [backslash_char; backslash_char] ++ chars " b") (chars " ")
  = Some (Ok [chars "a" ++ [backslash_char]; chars "b"]).
Proof. split; vm_compute; reflexivity. Qed.

(** ** The ties of a chord *)

Lemma ties_set_each (notes : list XMLNote.t) (ties : list (option TieType)) :
  length ties = length notes ->
  XMLNote.ties <$> zip_with XMLNote_set_ties notes ties = ties.
Proof.
  revert ties. induction notes as [| n notes IH]; intros [| t ties] Hlen;
    try discriminate; [reflexivity |].
  simpl. f_equal. apply IH. simpl in Hlen. lia.
Qed.

Lemma ties_set_same (notes : list XMLNote.t) :
  zip_with XMLNote_set_ties notes (XMLNote.ties <$> notes) = notes.
Proof.
  induction notes as [| x notes IH]; [reflexivity |].
  rewrite fmap_cons. cbn [zip_with]. rewrite IH. f_equal.
  destruct x; reflexivity.
Qed.

(** X17: the getter and the setter of [Chord.ties].  Setting one tie
    state for all notes and reading it back gives that state; setting a
    list with an entry for every note gives the list back, except that a
    list of equal entries is read back as the single state; a list of
    another length fails the [assert]; and writing back what was read
    changes nothing. *)
Theorem chord_ties_round_trip (first : XMLNote.t) (others : list XMLNote.t)
    (value : ChordTies) :
  (forall ties, value = TiesOfEach ties ->
     length ties <> length (Chord_notes first others) ->
     Chord_set_ties first others value = AssertionError) /\
  (forall first' others',
     Chord_set_ties first others value = Returns (first' :: others') ->
     Chord_ties first' others' = shown_ties value) /\
  Chord_set_ties first others (Chord_ties first others)
  = Returns (Chord_notes first others).
Proof.
  split; [| split].
  - intros ties -> Hlen. simpl. rewrite bool_decide_false by exact Hlen.
    reflexivity.
  - intros first' others'.
    destruct value as [t | ties]; unfold Chord_set_ties, Chord_notes.
    + rewrite fmap_cons. intros [= <- <-]. unfold Chord_ties.
      assert (Hall : forallb (fun note => bool_decide
                        (XMLNote.ties note
                         = XMLNote.ties (XMLNote_set_ties first t)))
                       ((fun note => XMLNote_set_ties note t) <$> others) = true).
      { apply forallb_forall. intros x Hx.
        apply list_elem_of_In, list_elem_of_fmap in Hx as (y & -> & _).
        apply bool_decide_eq_true. reflexivity. }
      rewrite Hall. reflexivity.
    + case_bool_decide as Hlen; [| discriminate].
      destruct ties as [| t ties]; [discriminate |].
      cbn [zip_with]. intros [= <- <-]. unfold Chord_ties.
      cbn [length] in Hlen.
      assert (Hties : XMLNote.ties <$> zip_with XMLNote_set_ties others ties
                      = ties) by (apply ties_set_each; lia).
      assert (Hsame : forallb (fun note => bool_decide
                         (XMLNote.ties note
                          = XMLNote.ties (XMLNote_set_ties first t)))
                        (zip_with XMLNote_set_ties others ties)
                      = forallb (fun t' => bool_decide (t' = t)) ties).
      { rewrite <- Hties at 2. clear.
        induction (zip_with XMLNote_set_ties others ties) as [| x l IH];
          [reflexivity |].
        rewrite fmap_cons. cbn [forallb]. rewrite IH. reflexivity. }
      rewrite Hsame. cbn [shown_ties].
      destruct (forallb _ ties); [reflexivity |].
      unfold Chord_notes. rewrite fmap_cons, Hties. reflexivity.
  - unfold Chord_ties.
    destruct (forallb _ others) eqn:Hall; unfold Chord_set_ties.
    + f_equal. unfold Chord_notes. rewrite fmap_cons. f_equal.
      * destruct first; reflexivity.
      * rewrite forallb_forall in Hall.
        rewrite <- (list_fmap_id others) at 2. apply list_fmap_ext.
        intros i x Hx. apply list_elem_of_lookup_2, list_elem_of_In, Hall in Hx.
        apply bool_decide_eq_true in Hx. rewrite <- Hx. destruct x; reflexivity.
    + rewrite bool_decide_true by (rewrite length_fmap; reflexivity).
      f_equal. apply ties_set_same.
Qed.

Lemma chord_ties_round_trip_witness :
  let first := Leaf.head (sample_note quarter) in
  let others := [Leaf.head (sample_note quarter)] in
  Chord_set_ties first others (TiesOfEach [Some TieStart])
  = AssertionError /\
  Chord_ties (XMLNote_set_ties first (Some TieStart))
    [XMLNote_set_ties first (Some TieStart)]
  = shown_ties (TiesOfEach [Some TieStart; Some TieStart]).
Proof.
  intros first others. split.
  - apply (proj1 (chord_ties_round_trip first others
                    (TiesOfEach [Some TieStart])) [Some TieStart]);
      [reflexivity | discriminate].
  - apply (proj1 (proj2 (chord_ties_round_trip first others
                           (TiesOfEach [Some TieStart; Some TieStart])))).
    reflexivity.
Defined.

(** ** Part numbers *)

Section PartNumbers.
Implicit Types (store : gmap nat Part.t) (parts : list nat).

Lemma set_part_id_twice (p : Part.t) (a b : Z) :
  Score.set_part_id (Score.set_part_id p a) b = Score.set_part_id p b.
Proof. reflexivity. Qed.

(** The store after the loop, part by part. *)
Lemma number_parts_lookup parts :
  forall store (next_id : Z) (r : nat),
    fst (foldl Score.number_part (store, next_id) parts) !! r
    = (fun p => match last_place next_id parts r with
                | Some k => Score.set_part_id p k
                | None => p
                end) <$> store !! r.
Proof.
  induction parts as [| q parts IH]; intros store next_id r.
  - simpl. destruct (store !! r); reflexivity.
  - cbn [foldl last_place]. unfold Score.number_part at 2. cbn [fst snd].
    rewrite IH. destruct (decide (q = r)) as [-> | Hne].
    + rewrite lookup_alter_eq. destruct (store !! r) as [p |]; [| reflexivity].
      simpl. destruct (last_place (next_id + 1) parts r); reflexivity.
    + rewrite lookup_alter_ne by exact Hne.
      destruct (store !! r) as [p |]; [| reflexivity]. simpl.
      destruct (last_place (next_id + 1) parts r); reflexivity.
Qed.

Lemma last_place_None parts (first : Z) (r : nat) :
  r ∉ parts -> last_place first parts r = None.
Proof.
  revert first. induction parts as [| q parts IH]; intros first Hr;
    [reflexivity |].
  apply not_elem_of_cons in Hr as [Hne Hr]. cbn [last_place].
  rewrite IH by exact Hr. rewrite decide_False by congruence. reflexivity.
Qed.

Lemma last_place_NoDup parts :
  NoDup parts ->
  forall (first : Z) (k : nat) (r : nat),
    parts !! k = Some r -> last_place first parts r = Some (first + Z.of_nat k).
Proof.
  induction 1 as [| q parts Hq Hnd IH]; intros first k r; [discriminate |].
  destruct k as [| k]; cbn [last_place].
  - intros [= ->]. rewrite last_place_None by exact Hq.
    rewrite decide_True by reflexivity. f_equal. lia.
  - intros Hk. change ((q :: parts) !! S k) with (parts !! k) in Hk.
    rewrite (IH (first + 1) k r Hk). f_equal. lia.
Qed.
End PartNumbers.

(** X18: the part numbers that [Score._set_part_numbers] gives.  Every
    part of the score, part groups expanded, ends with the number of the
    last place at which it stands among the parts, counted from 1; so
    when no part stands twice, the parts are numbered 1, 2, 3, ... in
    score order, while a part that is listed twice shows the later number
    at both places.  Name and measures of the parts stay as they are. *)
Theorem part_numbers_follow_places (self : Score.t)
    (store : gmap nat Part.t) (r : nat) (p : Part.t) :
  store !! r = Some p ->
  (forall k : nat,
     NoDup (Score.parts self) -> Score.parts self !! k = Some r ->
     Score._set_part_numbers self store !! r
     = Some (Score.set_part_id p (Z.of_nat k + 1))) /\
  (forall z,
     last_place 1 (Score.parts self) r = Some z ->
     Score._set_part_numbers self store !! r = Some (Score.set_part_id p z)) /\
  (r ∉ Score.parts self -> Score._set_part_numbers self store !! r = Some p).
Proof.
  intros Hr. unfold Score._set_part_numbers.
  split; [| split].
  - intros k Hnd Hk. rewrite number_parts_lookup, Hr.
    rewrite (last_place_NoDup _ Hnd 1 k r Hk). simpl. do 2 f_equal. lia.
  - intros z Hz. rewrite number_parts_lookup, Hr, Hz. reflexivity.
  - intros Hnot. rewrite number_parts_lookup, Hr.
    rewrite last_place_None by exact Hnot. reflexivity.
Qed.

Lemma part_numbers_follow_places_witness :
  let score :=
    Score.mk [PartRef 7%nat; PartGroupOf [3%nat; 5%nat] true true] None None in
  let store : gmap nat Part.t :=
    {[ 3%nat := Part.mk "Viola" [] 1; 5%nat := Part.mk "Cello" [] 1;
       7%nat := Part.mk "Flute" [] 1 ]} in
  Score._set_part_numbers score store !! 5%nat
  = Some (Score.set_part_id (Part.mk "Cello" [] 1) (Z.of_nat 2 + 1)).
Proof.
  intros score store.
  apply (proj1 (part_numbers_follow_places score store 5%nat
                  (Part.mk "Cello" [] 1) eq_refl) 2%nat).
  - apply (bool_decide_unpack _). vm_compute. reflexivity.
  - reflexivity.
Defined.

(** ** Metronome marks *)

Lemma decomposition_raises (x : Q) :
  (forall t d, (d <= 4)%nat -> ~ (x == _note_type_to_length t * _dot_multiplier d)%Q) ->
  get_note_type_and_number_of_dots x 4 = Some (Raise ValueError).
Proof.
  intros Hno.
  assert (Hdm : forall d, ~ (_dot_multiplier d == 0)%Q).
  { intros d. unfold _dot_multiplier, Qeq, Qdiv, Qmult, Qinv, inject_Z.
    pose proof (Z.pow_pos_nonneg 2 (Z.of_nat d)) as Hd.
    pose proof (Z.pow_pos_nonneg 2 (Z.of_nat (S d))) as Hn.
    assert (Hle : 2 ^ 1 <= 2 ^ Z.of_nat (S d)) by (apply Z.pow_le_mono_r; lia).
    change (2 ^ 1) with 2 in Hle. simpl.
    destruct (2 ^ Z.of_nat d) eqn:E; try lia. simpl. lia. }
  assert (Hnone : forall d, (d <= 4)%nat -> dotted_lookup x d = None).
  { intros d Hd. unfold dotted_lookup.
    destruct (ladder_lookup (x / _dot_multiplier d)) as [t |] eqn:Hl;
      [| reflexivity].
    exfalso. apply ladder_lookup_Some in Hl. apply (Hno t d Hd).
    rewrite <- Hl. field. apply Hdm. }
  destruct (get_note_type_and_number_of_dots_contract x 4 ltac:(lia))
    as [_ Hrest].
  assert (Hbase : ladder_lookup x = None).
  { rewrite <- (Hnone 0%nat ltac:(lia)). unfold dotted_lookup.
    apply ladder_lookup_proper. change (_dot_multiplier 0) with 1%Q.
    unfold Qdiv. change (/ 1)%Q with 1%Q. rewrite Qmult_1_r. reflexivity. }
  destruct (Hrest Hbase) as [_ Hraise]. apply Hraise.
  intros d Hd1 Hd4. apply Hnone. lia.
Qed.

(** X19: what [MetronomeMark] makes of a beat length.  A beat length of
    0 raises [ZeroDivisionError]; any other is accepted: a beat that is a
    note type with at most four dots becomes the beat unit and the tempo
    is kept, and any other beat falls back to a quarter-note beat with
    the tempo divided by the beat length. *)
Theorem metronome_mark_beat (beat_length bpm : Q) :
  ((beat_length == 0)%Q ->
   MetronomeMark.init beat_length bpm = Some (Raise ZeroDivisionError)) /\
  (forall t d,
     (d <= 4)%nat ->
     (beat_length == _note_type_to_length t * _dot_multiplier d)%Q ->
     MetronomeMark.init beat_length bpm
     = Some (Ok (MetronomeMark.mk (Duration.init t d None) bpm))) /\
  (~ (beat_length == 0)%Q ->
   (forall t d, (d <= 4)%nat ->
      ~ (beat_length == _note_type_to_length t * _dot_multiplier d)%Q) ->
   MetronomeMark.init beat_length bpm
   = Some (Ok (MetronomeMark.mk (Duration.init quarter 0 None)
                 (bpm / beat_length)))).
Proof.
  unfold MetronomeMark.init, Duration_from_written_length.
  split; [| split].
  - intros H0. rewrite (get_note_type_and_number_of_dots_proper _ _ 4 H0).
    change (get_note_type_and_number_of_dots 0 4) with
      (Some (Raise (A := NoteType * nat) ValueError)).
    cbv iota beta.
    change (get_note_type_and_number_of_dots 1 4) with
      (Some (Ok (quarter, 0%nat))).
    cbv iota beta. apply Qeq_bool_iff in H0. rewrite H0. reflexivity.
  - intros t d Hd Hb.
    rewrite (get_note_type_and_number_of_dots_proper _ _ 4 Hb).
    rewrite decomposition_of_dotted by lia. reflexivity.
  - intros Hne Hno. rewrite (decomposition_raises _ Hno).
    change (get_note_type_and_number_of_dots 1 4) with
      (Some (Ok (quarter, 0%nat))).
    cbv iota beta.
    destruct (Qeq_bool beat_length 0) eqn:Hb; [| reflexivity].
    apply Qeq_bool_iff in Hb. contradiction.
Qed.

Lemma metronome_mark_beat_witness :
  MetronomeMark.init 0 60 = Some (Raise ZeroDivisionError) /\
  MetronomeMark.init (3 # 2) 60
  = Some (Ok (MetronomeMark.mk (Duration.init quarter 1 None) 60)).
Proof.
  split.
  - apply (proj1 (metronome_mark_beat 0 60)). reflexivity.
  - apply (proj1 (proj2 (metronome_mark_beat (3 # 2) 60)) quarter 1%nat);
      [lia | reflexivity].
Defined.

(** ** Editing a container *)

Section ContainerEdits.
Context {A : Type} (allowed : A -> bool).

Lemma list_insert_at_perm (l : list A) (i : Z) (o : A) :
  list_insert_at l i o ≡ₚ o :: l.
Proof.
  unfold list_insert_at. cbv zeta.
  rewrite <- Permutation_middle. rewrite take_drop. reflexivity.
Qed.

Lemma list_insert_at_in_range (l : list A) (i : Z) (o : A) :
  0 <= i <= Z.of_nat (length l) ->
  list_insert_at l i o = take (Z.to_nat i) l ++ o :: drop (Z.to_nat i) l.
Proof.
  intros Hi. unfold list_insert_at. cbv zeta.
  destruct (Z.ltb_spec i 0) as [Hlt | _]; [lia |].
  rewrite Z.min_l by lia. reflexivity.
Qed.

(** X20: [insert] on a container.  An object of a type that is not
    allowed raises [ValueError]; an allowed one is inserted whatever the
    index is (no index raises), the container then holds the old
    contents and the object, so it is one longer and still holds allowed
    objects only; at an index from 0 to the length the object stands at
    that index, the objects before it keep their place, and deleting at
    that index gives the container back. *)
Theorem insert_then_delete (self : MusicXMLContainer A) (i : Z) (o : A) :
  (allowed o = false -> Container_insert allowed self i o = Raise ValueError) /\
  (allowed o = true ->
   exists after,
     Container_insert allowed self i o = Ok after /\
     contents after ≡ₚ o :: contents self /\
     (Forall (fun x => allowed x = true) (contents self) ->
      Forall (fun x => allowed x = true) (contents after)) /\
     (0 <= i <= Z.of_nat (length (contents self)) ->
      contents after !! Z.to_nat i = Some o /\
      take (Z.to_nat i) (contents after) = take (Z.to_nat i) (contents self) /\
      __delitem__ after i = Ok self)).
Proof.
  unfold Container_insert. split; [intros ->; reflexivity |].
  intros Ho. rewrite Ho. eexists. split; [reflexivity |]. cbn [contents].
  split; [apply list_insert_at_perm |]. split.
  - intros Hall. rewrite list_insert_at_perm.
    apply Forall_cons. split; [assumption | exact Hall].
  - intros Hi. rewrite list_insert_at_in_range by exact Hi.
    assert (Hlen : length (take (Z.to_nat i) (contents self)) = Z.to_nat i)
      by (rewrite length_take; lia).
    split; [| split].
    + rewrite lookup_app_r by lia. rewrite Hlen, Nat.sub_diag. reflexivity.
    + rewrite take_app_length' by (symmetry; exact Hlen). reflexivity.
    + unfold __delitem__. cbn [contents]. cbv zeta.
      destruct (Z.ltb_spec i 0) as [Hlt | _]; [lia |].
      rewrite length_app, length_cons, length_drop, Hlen.
      destruct (Z.ltb_spec i 0) as [Hlt | _]; [lia |].
      destruct (Z.leb_spec (Z.of_nat (Z.to_nat i
                  + S (length (contents self) - Z.to_nat i))) i)
        as [Hle | _]; [lia |].
      cbn [orb]. rewrite <- Hlen at 1. rewrite delete_middle, take_drop.
      destruct self; reflexivity.
Qed.
End ContainerEdits.

Lemma insert_then_delete_witness :
  exists after,
    Container_insert (A := Z) (fun x => 0 <=? x) (mkContainer [1; 2]) 1 5
    = Ok after /\
    contents after ≡ₚ 5 :: [1; 2] /\
    (Forall (fun x => (0 <=? x) = true) [1; 2] ->
     Forall (fun x => (0 <=? x) = true) (contents after)) /\
    (0 <= 1 <= Z.of_nat (length [1; 2]) ->
     contents after !! Z.to_nat 1 = Some 5 /\
     take (Z.to_nat 1) (contents after) = take (Z.to_nat 1) [1; 2] /\
     __delitem__ after 1 = Ok (mkContainer [1; 2])).
Proof.
  apply (proj2 (insert_then_delete (fun x => 0 <=? x)
                  (mkContainer [1; 2]) 1 5)).
  reflexivity.
Defined.

(** ** Wrapping in a measure *)


Lemma note_type_length_pos (t : NoteType) : (0 < _note_type_to_length t)%Q.
Proof. destruct t; reflexivity. Qed.

Lemma sum_of_lengths_nonneg (types : list NoteType) :
  (0 <= foldr Qplus 0 (_note_type_to_length <$> types))%Q.
Proof.
  induction types as [| t types IH]; [apply Qle_refl |].
  rewrite fmap_cons. cbn [foldr].
  pose proof (note_type_length_pos t) as Ht.
  apply Qlt_le_weak in Ht.
  apply (Qplus_le_compat 0 _ 0 _ Ht IH).
Qed.

Lemma sum_of_lengths_zero (types : list NoteType) :
  (foldr Qplus 0 (_note_type_to_length <$> types) == 0)%Q -> types = [].
Proof.
  destruct types as [| t types]; [reflexivity |].
  rewrite fmap_cons. cbn [foldr]. intros H0. exfalso.
  pose proof (note_type_length_pos t) as Ht.
  pose proof (sum_of_lengths_nonneg types) as Hs.
  apply (Qlt_irrefl 0). rewrite <- H0 at 2.
  apply (Qplus_lt_le_compat 0 _ 0 _ Ht Hs).
Qed.

Lemma padded_measure_full (self : Element) (measure_length k : Z) :
  (Element_true_length self == k # 256)%Q ->
  (Element_true_length self <= inject_Z measure_length)%Q ->
  exists types : list NoteType,
    padded_measure self measure_length
    = Some (Returns (Measure_init (self :: (rest_of <$> types))
                       (measure_length, 4))) /\
    (foldl Qplus 0 (Element_true_length <$> self :: (rest_of <$> types))
     == inject_Z measure_length)%Q /\
    (types = [] <-> (Element_true_length self == inject_Z measure_length)%Q).
Proof.
  intros Hk Hle.
  assert (Hgap : (inject_Z measure_length
                  - foldl Qplus 0 (Element_true_length <$> [self])
                  == (256 * measure_length - k) # 256)%Q).
  { cbn [fmap list_fmap foldl]. rewrite Qplus_0_l, Hk.
    unfold Qeq, Qminus, Qplus, Qopp, inject_Z. simpl. lia. }
  assert (HM : 0 <= 256 * measure_length - k).
  { rewrite Hk in Hle. unfold Qle, inject_Z in Hle. simpl in Hle. lia. }
  destruct (pad_with_rests_types [self] (inject_Z measure_length) _ HM Hgap)
    as (a & b & c & n & _ & Hpad & Hsum).
  set (types := small_rest_types (Z.of_nat n) ++ replicate c quarter
                ++ replicate b half ++ replicate a whole) in *.
  exists types. unfold padded_measure. rewrite Hpad.
  split; [reflexivity |].
  assert (Htotal : (Element_true_length self
                    + foldr Qplus 0 (_note_type_to_length <$> types)
                    == inject_Z measure_length)%Q).
  { rewrite Hsum, <- Hgap. cbn [fmap list_fmap foldl]. ring. }
  split.
  - rewrite fmap_cons. cbn [foldl]. rewrite foldl_Qplus.
    rewrite rest_of_true_lengths, Qplus_0_l. exact Htotal.
  - split.
    + intros Hnil. rewrite Hnil in Htotal. cbn [fmap list_fmap foldr] in Htotal.
      rewrite Qplus_0_r in Htotal. exact Htotal.
    + intros Heq. apply sum_of_lengths_zero.
      rewrite Heq in Htotal.
      apply (Qplus_inj_l _ _ (inject_Z measure_length)).
      rewrite Htotal. ring.
Qed.

Lemma int_of_float_bounds (x : Q) :
  (0 <= x)%Q ->
  (inject_Z (int_of_float x) <= x)%Q /\ (x < inject_Z (int_of_float x + 1))%Q.
Proof.
  intros Hx. unfold int_of_float.
  assert (Hq : Z.quot (Qnum x) (Z.pos (Qden x)) = Qfloor x).
  { destruct x as [n d]. cbn [Qnum Qden Qfloor].
    apply Z.quot_div_nonneg; [| lia].
    unfold Qle in Hx. simpl in Hx. lia. }
  rewrite Hq. split; [apply Qfloor_le | apply Qlt_floor].
Qed.

(** X21: the measure that [wrap_as_score] builds of a plain note, rest
    or chord, or of a beamed group of such, whose length is a whole number
    of 256ths of a quarter note.  The measure holds the object followed by
    plain rests, is exactly as long as its time signature, measure length
    over 4, says, and has rests exactly when the object is shorter than
    the measure.  The measure length is 4 for a length up to 4; beyond
    that it is the next whole number above the length of a note, rest or
    chord, which so always gets a rest, and the length rounded up for a
    group, which gets none when its length is a whole number. *)
Theorem wrapping_measure_is_full (self : Element) (k : Z) :
  plain self -> (Element_true_length self <= 1000000)%Q ->
  (Element_true_length self == k # 256)%Q ->
  exists (measure_length : Z) (types : list NoteType),
    wrapping_measure self
    = Some (Returns (Measure_init (self :: (rest_of <$> types))
                       (measure_length, 4))) /\
    (foldl Qplus 0 (Element_true_length <$> self :: (rest_of <$> types))
     == inject_Z measure_length)%Q /\
    (types = [] <-> (Element_true_length self == inject_Z measure_length)%Q) /\
    ((Element_true_length self <= 4)%Q -> measure_length = 4) /\
    ((4 < Element_true_length self)%Q ->
     match self with
     | Single _ =>
         (inject_Z measure_length - 1 <= Element_true_length self)%Q /\
         (Element_true_length self < inject_Z measure_length)%Q /\
         types <> []
     | _ =>
         (inject_Z measure_length - 1 < Element_true_length self)%Q /\
         (Element_true_length self <= inject_Z measure_length)%Q
     end).
Proof.
  intros Hkind _ Hk.
  destruct (Qle_bool (Element_true_length self) 4) eqn:Hshort.
  - (* up to 4 quarters *)
    assert (Hle : (Element_true_length self <= inject_Z 4)%Q)
      by (apply Qle_bool_iff; exact Hshort).
    destruct (padded_measure_full self 4 k Hk Hle) as (types & Hm & Hfull & Hnil).
    exists 4, types. split.
    { destruct self as [[l | b] | contents | contents ratio];
        [| destruct Hkind | |]; unfold wrapping_measure;
        cbn [Element_true_length TimedLeaf.true_length] in Hshort |- *;
        rewrite Hshort; exact Hm. }
    split; [exact Hfull |]. split; [exact Hnil |].
    split; [reflexivity |].
    intros Hlong. exfalso. apply (Qlt_irrefl 4).
    eapply Qlt_le_trans; [exact Hlong | exact Hle].
  - (* longer than 4 quarters *)
    assert (Hlong : (4 < Element_true_length self)%Q).
    { apply Qnot_le_lt. intros Hle. apply Qle_bool_iff in Hle. congruence. }
    assert (Hpos : (0 <= Element_true_length self)%Q).
    { apply Qlt_le_weak. eapply Qlt_trans; [| exact Hlong]. reflexivity. }
    destruct self as [[l | b] | contents | contents ratio];
      [| destruct Hkind | |].
    + destruct (int_of_float_bounds _ Hpos) as [Hlo Hhi].
      set (L := Element_true_length (Single (ALeaf l))) in *.
      destruct (padded_measure_full (Single (ALeaf l)) (int_of_float L + 1) k
                  Hk (Qlt_le_weak _ _ Hhi)) as (types & Hm & Hfull & Hnil).
      exists (int_of_float L + 1), types. split.
      { unfold wrapping_measure. change (Leaf.true_length l) with L.
        rewrite Hshort. exact Hm. }
      split; [exact Hfull |]. split; [exact Hnil |]. split.
      { intros Hle. exfalso. apply (Qlt_irrefl 4).
        eapply Qlt_le_trans; [exact Hlong | exact Hle]. }
      intros _. split; [| split; [exact Hhi |]].
      * rewrite inject_Z_plus. unfold Qminus.
        rewrite <- Qplus_assoc. change (inject_Z 1 + - (1))%Q with 0%Q.
        rewrite Qplus_0_r. exact Hlo.
      * intros Hn. apply Hnil in Hn. apply Qlt_not_le in Hhi. apply Hhi.
        apply Qle_lteq. right. symmetry. exact Hn.
    + set (L := Element_true_length (BeamedGroupOf contents)) in *.
      destruct (padded_measure_full (BeamedGroupOf contents) (Qceiling L) k
                  Hk (Qle_ceiling L)) as (types & Hm & Hfull & Hnil).
      exists (Qceiling L), types. split.
      { unfold wrapping_measure. fold L. rewrite Hshort. exact Hm. }
      split; [exact Hfull |]. split; [exact Hnil |]. split.
      { intros Hle. exfalso. apply (Qlt_irrefl 4).
        eapply Qlt_le_trans; [exact Hlong | exact Hle]. }
      intros _. split; [| apply Qle_ceiling].
      pose proof (Qceiling_lt L) as Hc. unfold Z.sub in Hc.
      rewrite inject_Z_plus in Hc. exact Hc.
    + set (L := Element_true_length (TupletOf contents ratio)) in *.
      destruct (padded_measure_full (TupletOf contents ratio) (Qceiling L) k
                  Hk (Qle_ceiling L)) as (types & Hm & Hfull & Hnil).
      exists (Qceiling L), types. split.
      { unfold wrapping_measure. fold L. rewrite Hshort. exact Hm. }
      split; [exact Hfull |]. split; [exact Hnil |]. split.
      { intros Hle. exfalso. apply (Qlt_irrefl 4).
        eapply Qlt_le_trans; [exact Hlong | exact Hle]. }
      intros _. split; [| apply Qle_ceiling].
      pose proof (Qceiling_lt L) as Hc. unfold Z.sub in Hc.
      rewrite inject_Z_plus in Hc. exact Hc.
Qed.

Lemma wrapping_measure_is_full_witness :
  let self := Single (ALeaf (sample_note breve)) in
  exists (measure_length : Z) (types : list NoteType),
    wrapping_measure self
    = Some (Returns (Measure_init (self :: (rest_of <$> types))
                       (measure_length, 4))) /\
    (foldl Qplus 0 (Element_true_length <$> self :: (rest_of <$> types))
     == inject_Z measure_length)%Q /\
    (types = [] <-> (Element_true_length self == inject_Z measure_length)%Q) /\
    ((Element_true_length self <= 4)%Q -> measure_length = 4) /\
    ((4 < Element_true_length self)%Q ->
     (inject_Z measure_length - 1 <= Element_true_length self)%Q /\
     (Element_true_length self < inject_Z measure_length)%Q /\
     types <> []).
Proof.
  intros self.
  apply (wrapping_measure_is_full self 2048).
  - repeat constructor.
  - vm_compute. discriminate.
  - reflexivity.
Defined.

Example breve_in_nine_four :
  wrapping_measure (Single (ALeaf (sample_note breve)))
  = Some (Returns (Measure_init [Single (ALeaf (sample_note breve));
                                 rest_of quarter] (9, 4))).
Proof. vm_compute. reflexivity. Qed.

(** X22: the measure that [wrap_as_score] builds of a bar rest whose
    length is the fraction [n / d] in lowest terms, [d] up to 1000000.
    When [d] is a power of two the measure holds the bar rest alone under
    the time signature [n] over [4 * d], which is as long as the bar rest;
    any other [d] fails the [assert]. *)
Theorem bar_rest_time_signature (b : BarRest.t) (n : Z) (d : positive) :
  Z.gcd n (Z.pos d) = 1 -> Z.pos d <= 1000000 ->
  (BarRest.true_length b == n # d)%Q ->
  (forall j,
     Z.pos d = 2 ^ j ->
     wrapping_measure (Single (ABarRest b))
     = Some (Returns (Measure_init [Single (ABarRest b)] (n, Z.pos d * 4))) /\
     (inject_Z n / inject_Z (Z.pos d * 4) * 4 == BarRest.true_length b)%Q) /\
  ((forall j, Z.pos d <> 2 ^ j) ->
   wrapping_measure (Single (ABarRest b)) = Some AssertionError).
Proof.
  intros Hg Hd Hlen.
  assert (Hr : Qred (BarRest.true_length b) = n # d).
  { rewrite (Qred_complete _ _ Hlen). apply Qcanon.Qred_identity. exact Hg. }
  assert (Hlim : limit_denominator (BarRest.true_length b) 1000000 = n # d).
  { rewrite limit_denominator_small by (rewrite Hr; exact Hd). exact Hr. }
  unfold wrapping_measure. rewrite Hlim. cbn [Qnum Qden]. split.
  - intros j Hj.
    assert (Hpow : _is_power_of_two (Z.pos d) = true).
    { unfold _is_power_of_two. apply Z.eqb_eq. rewrite Hj.
      destruct (Z.lt_ge_cases j 0) as [Hneg | Hpos].
      - rewrite Z.pow_neg_r in Hj by exact Hneg. lia.
      - rewrite Z.log2_pow2 by lia. reflexivity. }
    rewrite Hpow. split; [reflexivity |].
    rewrite Hlen. unfold Qeq, Qdiv, Qmult, Qinv, inject_Z. simpl. lia.
  - intros Hnot.
    assert (Hpow : _is_power_of_two (Z.pos d) = false).
    { unfold _is_power_of_two. apply Z.eqb_neq. apply Hnot. }
    rewrite Hpow. reflexivity.
Qed.

Lemma bar_rest_time_signature_witness :
  let b := BarRest.mk (BarRestDuration.init (7 # 2)) [] [] None in
  wrapping_measure (Single (ABarRest b))
  = Some (Returns (Measure_init [Single (ABarRest b)] (7, 2 * 4))) /\
  (inject_Z 7 / inject_Z (2 * 4) * 4 == BarRest.true_length b)%Q.
Proof.
  intros b.
  apply (proj1 (bar_rest_time_signature b 7 2 eq_refl ltac:(lia)
                  ltac:(reflexivity)) 1).
  reflexivity.
Defined.

(** ** Building a chord *)

Lemma add_glisses_length (rendered : list (option Notation)) :
  forall i nn, length (add_glisses i nn rendered) = length nn.
Proof.
  induction rendered as [| g rendered IH]; intros i nn; [reflexivity |].
  cbn [add_glisses]. rewrite IH. destruct g as [g |]; [| reflexivity].
  case_bool_decide; [apply length_alter | reflexivity].
Qed.

Lemma add_glisses_lookup (rendered : list (option Notation)) :
  forall (i : nat) nn (k : nat),
    add_glisses i nn rendered !! k
    = (fun l => l ++ match (if bool_decide (i <= k)%nat
                            then mjoin (rendered !! (k - i)%nat) else None) with
                     | Some g => [g]
                     | None => []
                     end) <$> nn !! k.
Proof.
  induction rendered as [| g rendered IH]; intros i nn k.
  - cbn [add_glisses]. rewrite lookup_nil.
    destruct (nn !! k) as [l |]; [| reflexivity].
    case_bool_decide; cbn; rewrite app_nil_r; reflexivity.
  - cbn [add_glisses]. rewrite IH.
    destruct (decide (k = i)) as [-> | Hne].
    + rewrite (bool_decide_false (S i <= i)%nat) by lia.
      rewrite (bool_decide_true (i <= i)%nat) by lia.
      rewrite Nat.sub_diag. cbn [lookup list_lookup mjoin option_join].
      destruct g as [g |].
      * case_bool_decide as Hlt.
        -- rewrite list_lookup_alter_eq. destruct (nn !! i); [| reflexivity].
           cbn. rewrite app_nil_r. reflexivity.
        -- rewrite (lookup_ge_None_2 nn i) by lia. reflexivity.
      * destruct (nn !! i) as [l |]; reflexivity.
    + assert (Hk : (match g with
                    | Some gliss =>
                        if bool_decide (i < length nn)%nat
                        then alter (fun l => l ++ [gliss]) i nn else nn
                    | None => nn
                    end) !! k = nn !! k).
      { destruct g as [g |]; [| reflexivity].
        case_bool_decide; [| reflexivity].
        apply list_lookup_alter_ne. congruence. }
      rewrite Hk. destruct (nn !! k) as [l |]; [| reflexivity]. cbn.
      do 2 f_equal.
      destruct (decide (i <= k)%nat) as [Hle | Hgt].
      * rewrite (bool_decide_true (S i <= k)%nat) by lia.
        rewrite (bool_decide_true (i <= k)%nat) by lia.
        replace (k - i)%nat with (S (k - S i)) by lia. reflexivity.
      * rewrite (bool_decide_false (S i <= k)%nat) by lia.
        rewrite (bool_decide_false (i <= k)%nat) by lia. reflexivity.
Qed.

Lemma note_notations_lookup (notations : list ChordNotation) :
  forall (nn : list (list Notation)) (k : nat),
    foldl (fun note_notations notation =>
             match notation with
             | MultiGliss rendered => add_glisses 0 note_notations rendered
             | PlainNotation x =>
                 alter (fun l => l ++ [x]) 0%nat note_notations
             end) nn notations !! k
    = (fun l => l ++ notations_for k notations) <$> nn !! k.
Proof.
  induction notations as [| notation notations IH]; intros nn k.
  - cbn. destruct (nn !! k); [| reflexivity]. cbn. rewrite app_nil_r.
    reflexivity.
  - cbn [foldl]. rewrite IH. unfold notations_for. cbn [omap list_omap].
    destruct notation as [x | rendered].
    + destruct (decide (k = 0%nat)) as [-> | Hne].
      * rewrite list_lookup_alter_eq. rewrite bool_decide_true by reflexivity.
        destruct (nn !! 0%nat); [| reflexivity]. cbn.
        rewrite <- app_assoc. reflexivity.
      * rewrite list_lookup_alter_ne by congruence.
        rewrite bool_decide_false by exact Hne. reflexivity.
    + rewrite add_glisses_lookup.
      rewrite (bool_decide_true (0 <= k)%nat) by lia.
      rewrite Nat.sub_0_r. destruct (nn !! k); [| reflexivity]. cbn.
      rewrite <- app_assoc. destruct (mjoin (rendered !! k)); reflexivity.
Qed.

Lemma chord_note_notations_lookup (n : nat) (notations : list ChordNotation)
    (k : nat) :
  (k < n)%nat ->
  default [] (chord_note_notations n notations !! k)
  = notations_for k notations.
Proof.
  intros Hk. unfold chord_note_notations.
  rewrite note_notations_lookup, lookup_replicate_2 by exact Hk.
  reflexivity.
Qed.

Lemma Chord_ties_of_list (first : XMLNote.t) (others : list XMLNote.t)
    (t : option TieType) (l : list (option TieType)) :
  XMLNote.ties <$> first :: others = t :: l ->
  Chord_ties first others = shown_ties (TiesOfEach (t :: l)).
Proof.
  rewrite fmap_cons. intros [= Ht Hl]. unfold Chord_ties, Chord_notes.
  rewrite fmap_cons, Ht, Hl. cbn [shown_ties].
  assert (Hsame : forallb (fun note => bool_decide (XMLNote.ties note = t))
                    others
                  = forallb (fun t' => bool_decide (t' = t)) l).
  { rewrite <- Hl. clear. induction others as [| x others IH]; [reflexivity |].
    rewrite fmap_cons. cbn [forallb]. rewrite IH. reflexivity. }
  rewrite Hsame. reflexivity.
Qed.

Lemma shown_ties_replicate (t : option TieType) (n : nat) :
  shown_ties (TiesOfEach (t :: replicate n t)) = TiesOfAll t.
Proof.
  cbn [shown_ties].
  assert (Hall : forallb (fun t' => bool_decide (t' = t)) (replicate n t) = true).
  { induction n as [| n IH]; [reflexivity |]. cbn [replicate forallb].
    rewrite IH, bool_decide_true by reflexivity. reflexivity. }
  rewrite Hall. reflexivity.
Qed.

Lemma ties_of_notes {A : Type} (f : nat -> A -> XMLNote.t) (ties : ChordTies)
    (l : list A) :
  (forall i x, XMLNote.ties (f i x) = tie_at ties i) ->
  (forall each, ties = TiesOfEach each -> length each = length l) ->
  XMLNote.ties <$> imap f l
  = match ties with
    | TiesOfAll t => replicate (length l) t
    | TiesOfEach each => each
    end.
Proof.
  intros Hf Hlen. apply list_eq. intros i.
  rewrite list_lookup_fmap, list_lookup_imap.
  destruct ties as [t | each].
  - destruct (l !! i) as [x |] eqn:Hx; cbn.
    + rewrite Hf. cbn [tie_at]. symmetry. apply lookup_replicate_2.
      apply lookup_lt_Some in Hx. exact Hx.
    + symmetry. apply lookup_replicate_None. apply lookup_ge_None in Hx. lia.
  - specialize (Hlen each eq_refl).
    destruct (l !! i) as [x |] eqn:Hx; cbn.
    + rewrite Hf. cbn [tie_at]. apply lookup_lt_Some in Hx.
      destruct (lookup_lt_is_Some_2 each i ltac:(lia)) as [t Ht].
      rewrite Ht. reflexivity.
    + symmetry. apply lookup_ge_None. apply lookup_ge_None in Hx. lia.
Qed.

(** X23: the notes that [Chord] and [GraceChord] build.  Fewer than two
    pitches, or a list of ties that has not one entry for every pitch,
    fail an [assert].  Otherwise there is one note for every pitch, in
    order, each with the duration; the directions go to the first note
    only, every later note is a chord member, a notation goes to the
    first note and the [i]-th gliss of a multi-gliss to note [i] (a gliss
    beyond the last note is dropped), in the order of the argument; the
    [ties] property reads back the ties that were given; and the chord is
    as long as its duration, or has no length when it is a grace chord. *)
Theorem chord_init_notes (grace : bool) (pitches : list Pitch)
    (duration : Duration.t) (ties : ChordTies)
    (notations : list ChordNotation) (directions : list Direction) :
  ((length pitches <= 1)%nat ->
   Chord_init grace pitches duration ties notations directions
   = AssertionError) /\
  (forall each,
     ties = TiesOfEach each -> length each <> length pitches ->
     Chord_init grace pitches duration ties notations directions
     = AssertionError) /\
  ((1 < length pitches)%nat ->
   (forall each, ties = TiesOfEach each -> length each = length pitches) ->
   exists first others,
     Chord_init grace pitches duration ties notations directions
     = Returns (Chord first others) /\
     XMLNote.pitch <$> first :: others = Some <$> pitches /\
     (forall (i : nat) note,
        (first :: others) !! i = Some note ->
        XMLNote.duration note = duration /\
        XMLNote.notations note = notations_for i notations /\
        XMLNote.directions note
        = (if bool_decide (i = 0%nat) then directions else []) /\
        XMLNote.is_chord_member note = negb (bool_decide (i = 0%nat)) /\
        XMLNote.is_grace note = grace) /\
     Chord_ties first others = shown_ties ties /\
     Leaf.true_length (Chord first others)
     = if grace then 0%Q else Duration.true_length duration).
Proof.
  unfold Chord_init. split; [| split].
  - intros Hlen. rewrite bool_decide_false by lia. reflexivity.
  - intros each -> Hlen. destruct (bool_decide (1 < length pitches)%nat);
      [| reflexivity].
    cbn [negb]. rewrite bool_decide_false by exact Hlen. reflexivity.
  - intros Hlen Hties. rewrite bool_decide_true by exact Hlen. cbn [negb].
    assert (Hok : match ties with
                  | TiesOfAll _ => true
                  | TiesOfEach l => bool_decide (length l = length pitches)
                  end = true).
    { destruct ties as [t | each]; [reflexivity |].
      apply bool_decide_eq_true. apply Hties. reflexivity. }
    rewrite Hok. cbn [negb]. cbv zeta.
    set (f := fun (i : nat) (pitch : Pitch) =>
                XMLNote.mk (Some pitch) duration (tie_at ties i)
                  (default [] (chord_note_notations (length pitches) notations
                               !! i)) None ∅
                  (if bool_decide (i = 0%nat) then directions else [])
                  grace (negb (bool_decide (i = 0%nat))) None).
    destruct (imap f pitches) as [| first others] eqn:Hnotes.
    { apply (f_equal length) in Hnotes. rewrite length_imap in Hnotes.
      simpl in Hnotes. lia. }
    exists first, others. split; [reflexivity |].
    rewrite <- Hnotes. split; [| split; [| split]].
    + apply list_eq. intros i.
      rewrite !list_lookup_fmap, list_lookup_imap.
      destruct (pitches !! i); reflexivity.
    + intros i note. rewrite list_lookup_imap.
      destruct (pitches !! i) as [pitch |] eqn:Hp; [| discriminate].
      intros [= <-]. subst f. cbn.
      rewrite chord_note_notations_lookup
        by (apply lookup_lt_Some in Hp; exact Hp).
      repeat split; reflexivity.
    + assert (Hl : XMLNote.ties <$> first :: others
                   = match ties with
                     | TiesOfAll t => replicate (length pitches) t
                     | TiesOfEach each => each
                     end).
      { rewrite <- Hnotes. apply ties_of_notes; [reflexivity | exact Hties]. }
      destruct ties as [t | each].
      * destruct (length pitches) as [| n]; [lia |]. cbn [replicate] in Hl.
        rewrite (Chord_ties_of_list _ _ _ _ Hl). apply shown_ties_replicate.
      * destruct each as [| t each]; [discriminate |].
        apply (Chord_ties_of_list _ _ _ _ Hl).
    + unfold Leaf.true_length, XMLNote.true_length.
      cbn [Leaf.head].
      assert (Hfirst : imap f pitches !! 0%nat = Some first)
        by (rewrite Hnotes; reflexivity).
      rewrite list_lookup_imap in Hfirst.
      destruct (pitches !! 0%nat); [| discriminate].
      injection Hfirst as <-. reflexivity.
Qed.

Lemma chord_init_notes_witness :
  let c4 := mkPitch "C" 4 0 in
  let e4 := mkPitch "E" 4 0 in
  Chord_init false [c4] (Duration.init quarter 0 None) (TiesOfAll None) [] []
  = AssertionError /\
  Chord_init false [c4; e4] (Duration.init quarter 0 None)
    (TiesOfEach [Some TieStart]) [] []
  = AssertionError /\
  exists first others,
    Chord_init false [c4; e4] (Duration.init quarter 0 None)
      (TiesOfAll (Some TieStart))
      [MultiGliss [None; Some (OtherNotation "slide"); Some (OtherNotation "slide")];
       PlainNotation (StartSlur (IdInt 1))] []
    = Returns (Chord first others) /\
    XMLNote.notations <$> first :: others
    = [[StartSlur (IdInt 1)]; [OtherNotation "slide"]].
Proof.
  intros c4 e4. split; [| split].
  - apply (proj1 (chord_init_notes false [c4] (Duration.init quarter 0 None)
                    (TiesOfAll None) [] [])).
    simpl. lia.
  - apply (proj1 (proj2 (chord_init_notes false [c4; e4]
                           (Duration.init quarter 0 None)
                           (TiesOfEach [Some TieStart]) [] []))
             [Some TieStart]); [reflexivity | discriminate].
  - destruct (proj2 (proj2 (chord_init_notes false [c4; e4]
                (Duration.init quarter 0 None) (TiesOfAll (Some TieStart))
                [MultiGliss [None; Some (OtherNotation "slide");
                             Some (OtherNotation "slide")];
                 PlainNotation (StartSlur (IdInt 1))] []))
              ltac:(simpl; lia) ltac:(discriminate))
      as (first & others & Hinit & _ & Hnotes & _).
    exists first, others. split; [exact Hinit |].
    vm_compute in Hinit. injection Hinit as <- <-. reflexivity.
Defined.

(** ** What rendering keeps of the notes *)

Section Timings.
Implicit Types (n : XMLNote.t) (l : Leaf) (c : list Leaf) (e : Element)
  (v : list Element) (r : TupletRatio).

Lemma child_timings_app (a b : list XMLChild) :
  child_timings (a ++ b) = child_timings a ++ child_timings b.
Proof. apply omap_app. Qed.

Lemma child_timings_directions (ds : list Direction) :
  child_timings (DirectionEl <$> ds) = [].
Proof. induction ds as [| d ds IH]; [reflexivity | exact IH]. Qed.

Lemma note_render_timing n els n' :
  XMLNote_render n = Ok (els, n') ->
  child_timings els = [note_timing n] /\ note_timing n' = note_timing n.
Proof.
  unfold XMLNote_render.
  destruct (Duration_render_check (XMLNote.duration n)); [| discriminate].
  cbn [mbind result_bind]. intros [= <- <-].
  rewrite child_timings_app, child_timings_directions. split; reflexivity.
Qed.

Lemma render_notes_timing (ns : list XMLNote.t) :
  forall els ns',
    render_notes ns = Ok (els, ns') ->
    child_timings els = note_timing <$> ns /\
    note_timing <$> ns' = note_timing <$> ns.
Proof.
  induction ns as [| n ns IH]; intros els ns'; cbn [render_notes].
  - intros [= <- <-]. split; reflexivity.
  - destruct (XMLNote_render n) as [[els1 n1] |] eqn:Hn; [| discriminate].
    cbn [mbind result_bind].
    destruct (render_notes ns) as [[els2 ns2] |] eqn:Hns; [| discriminate].
    cbn [mbind result_bind]. intros [= <- <-].
    destruct (note_render_timing _ _ _ Hn) as [H1 H1'].
    destruct (IH _ _ eq_refl) as [H2 H2'].
    rewrite child_timings_app, H1, H2, !fmap_cons, H1', H2'.
    split; reflexivity.
Qed.

Lemma leaf_render_timing l els l' :
  Leaf_render l = Ok (els, l') ->
  child_timings els = leaf_timings l /\ leaf_timings l' = leaf_timings l.
Proof.
  destruct l as [n | first others]; cbn [Leaf_render].
  - destruct (XMLNote_render n) as [[els1 n1] |] eqn:Hn; [| discriminate].
    cbn [mbind result_bind]. intros [= <- <-].
    destruct (note_render_timing _ _ _ Hn) as [H1 H1'].
    unfold leaf_timings. cbn [Leaf_notes]. rewrite !fmap_cons, H1, H1'.
    split; reflexivity.
  - destruct (XMLNote_render first) as [[els1 n1] |] eqn:Hn; [| discriminate].
    cbn [mbind result_bind].
    destruct (render_notes others) as [[els2 ns2] |] eqn:Hns; [| discriminate].
    cbn [mbind result_bind]. intros [= <- <-].
    destruct (note_render_timing _ _ _ Hn) as [H1 H1'].
    destruct (render_notes_timing _ _ _ Hns) as [H2 H2'].
    unfold leaf_timings. cbn [Leaf_notes].
    rewrite child_timings_app, H1, H2, !fmap_cons, H1', H2'.
    split; reflexivity.
Qed.

Lemma render_leaves_timing c :
  forall els c',
    render_leaves c = Ok (els, c') ->
    child_timings els = concat (leaf_timings <$> c) /\
    leaf_timings <$> c' = leaf_timings <$> c.
Proof.
  induction c as [| l c IH]; intros els c'; cbn [render_leaves].
  - intros [= <- <-]. split; reflexivity.
  - destruct (Leaf_render l) as [[els1 l1] |] eqn:Hl; [| discriminate].
    cbn [mbind result_bind].
    destruct (render_leaves c) as [[els2 c2] |] eqn:Hc; [| discriminate].
    cbn [mbind result_bind]. intros [= <- <-].
    destruct (leaf_render_timing _ _ _ Hl) as [H1 H1'].
    destruct (IH _ _ eq_refl) as [H2 H2'].
    rewrite child_timings_app, H1, H2, !fmap_cons, H1', H2'.
    split; reflexivity.
Qed.

Lemma leaf_timings_set_beams l (b : gmap nat BeamType) :
  leaf_timings (Leaf.set_beams l b) = leaf_timings l.
Proof. destruct l; reflexivity. Qed.

Lemma same_notes_timings c c' :
  same_notes c c' -> leaf_timings <$> c' = leaf_timings <$> c.
Proof.
  induction 1 as [| l l' c c' [b ->] _ IH]; [reflexivity |].
  rewrite !fmap_cons, leaf_timings_set_beams, IH. reflexivity.
Qed.

Lemma group_render_timing c els c' :
  BeamedGroup_render c = Ok (els, c') ->
  child_timings els = concat (leaf_timings <$> c) /\
  leaf_timings <$> c' = leaf_timings <$> c.
Proof.
  unfold BeamedGroup_render.
  destruct (decide (c = [])) as [-> | Hne]; [discriminate |].
  rewrite (render_contents_beaming_spec c Hne). cbn [mbind result_bind].
  intros Hr. apply render_leaves_timing in Hr as [H1 H2].
  assert (Hsame : same_notes c (imap (beamed c) c)).
  { apply (same_notes_imap c
             (fun i leaf =>
                cleared (assigned_beams c i leaf (seq 1 (max_beams c))))). }
  apply same_notes_timings in Hsame. rewrite H1, H2, Hsame.
  split; reflexivity.
Qed.

Lemma set_tuplet_ratio_stamped (d : Duration.t) r :
  Duration.tuplet_ratio d = Some r ->
  Duration.set_tuplet_ratio d (Some r) = d.
Proof. destruct d. simpl. intros ->. reflexivity. Qed.

Lemma leaf_timings_stamp l r (n i : nat) :
  stamped r l ->
  leaf_timings (Leaf.set_tuplet_ratio (bracket_at n i l) (Some r))
  = leaf_timings l.
Proof.
  unfold stamped. intros Hs.
  assert (Hb : forall b, leaf_timings (Leaf.set_tuplet_ratio
                                         (Leaf.set_tuplet_bracket l b) (Some r))
                         = leaf_timings l).
  { intros b. destruct l as [x | first others]; cbn in Hs |- *.
    - apply Forall_cons in Hs as [Hx _].
      unfold leaf_timings, note_timing. cbn.
      rewrite (set_tuplet_ratio_stamped _ _ Hx). reflexivity.
    - apply Forall_cons in Hs as [Hx Hs].
      unfold leaf_timings, note_timing. cbn.
      rewrite (set_tuplet_ratio_stamped _ _ Hx). f_equal.
      rewrite <- list_fmap_compose. apply list_fmap_ext.
      intros j y Hy. cbn.
      rewrite Forall_forall in Hs.
      rewrite (set_tuplet_ratio_stamped _ _
                 (Hs y (list_elem_of_lookup_2 _ _ _ Hy))).
      reflexivity. }
  assert (H0 : leaf_timings (Leaf.set_tuplet_ratio l (Some r)) = leaf_timings l).
  { destruct l as [x | first others]; cbn in Hs |- *.
    - apply Forall_cons in Hs as [Hx _].
      unfold leaf_timings, note_timing. cbn.
      rewrite (set_tuplet_ratio_stamped _ _ Hx). reflexivity.
    - apply Forall_cons in Hs as [Hx Hs].
      unfold leaf_timings, note_timing. cbn.
      rewrite (set_tuplet_ratio_stamped _ _ Hx). f_equal.
      rewrite <- list_fmap_compose. apply list_fmap_ext.
      intros j y Hy. cbn.
      rewrite Forall_forall in Hs.
      rewrite (set_tuplet_ratio_stamped _ _
                 (Hs y (list_elem_of_lookup_2 _ _ _ Hy))).
      reflexivity. }
  unfold bracket_at.
  destruct (decide (i = 0%nat)), (decide (i = (n - 1)%nat));
    rewrite ?set_tuplet_bracket_twice; auto.
Qed.

Lemma set_tuplet_info_timing c r c1 :
  Tuplet._set_tuplet_info_for_contents c r = Ok c1 ->
  Forall (stamped r) c ->
  leaf_timings <$> c1 = leaf_timings <$> c.
Proof.
  destruct (decide (c = [])) as [-> | Hne]; [discriminate |].
  rewrite (set_tuplet_info_spec c r Hne). intros [= <-] Hs.
  apply list_eq. intros i. rewrite !list_lookup_fmap, list_lookup_imap.
  destruct (c !! i) as [l |] eqn:Hl; [| reflexivity]. cbn. f_equal.
  apply leaf_timings_stamp. rewrite Forall_forall in Hs.
  apply Hs. eapply list_elem_of_lookup_2, Hl.
Qed.

Lemma tuplet_render_timing c r els c' :
  Tuplet_render c r = Ok (els, c') ->
  Forall (stamped r) c ->
  child_timings els = concat (leaf_timings <$> c) /\
  leaf_timings <$> c' = leaf_timings <$> c.
Proof.
  unfold Tuplet_render.
  destruct (Tuplet._set_tuplet_info_for_contents c r) as [c1 |] eqn:H1;
    [| discriminate].
  cbn [mbind result_bind]. intros Hr Hs.
  apply group_render_timing in Hr as [Hr1 Hr2].
  rewrite Hr1, Hr2, (set_tuplet_info_timing _ _ _ H1 Hs). split; reflexivity.
Qed.

(** Rendering an element writes one [note] for every note of it, with
    the timing the note had, and leaves the timings as they were; a
    tuplet must hold stamped leaves for that. *)
Lemma element_render_timing e els e' :
  Element_render e = Ok (els, e') ->
  element_stamped e ->
  child_timings els = element_timings e /\
  element_timings e' = element_timings e.
Proof.
  destruct e as [[l | b] | c | c r]; cbn [Element_render element_stamped].
  - destruct (Leaf_render l) as [[els1 l1] |] eqn:Hl; [| discriminate].
    cbn [mbind result_bind]. intros [= <- <-] _.
    apply (leaf_render_timing _ _ _ Hl).
  - intros [= <- <-] _. unfold BarRest_render.
    rewrite child_timings_app, child_timings_directions. split; reflexivity.
  - destruct (BeamedGroup_render c) as [[els1 c1] |] eqn:Hc; [| discriminate].
    cbn [mbind result_bind]. intros [= <- <-] _.
    destruct (group_render_timing _ _ _ Hc) as [H1 H2].
    cbn [element_timings]. rewrite H1, H2. split; reflexivity.
  - destruct (Tuplet_render c r) as [[els1 c1] |] eqn:Hc; [| discriminate].
    cbn [mbind result_bind]. intros [= <- <-] Hs.
    destruct (tuplet_render_timing _ _ _ _ Hc Hs) as [H1 H2].
    cbn [element_timings]. rewrite H1, H2. split; reflexivity.
Qed.

Lemma render_voice_timing v :
  forall amount els v' amount',
    Measure.render_voice v amount = Ok (els, v', amount') ->
    Forall element_stamped v ->
    child_timings els = voice_timings v /\
    element_timings <$> v' = element_timings <$> v.
Proof.
  induction v as [| e v IH]; intros amount els v' amount';
    cbn [Measure.render_voice].
  - intros [= <- <- <-] _. split; reflexivity.
  - destruct (Element_render e) as [[els1 e1] |] eqn:He; [| discriminate].
    cbn [mbind result_bind].
    destruct (Measure.render_voice v _) as [[[els2 v2] a2] |] eqn:Hv;
      [| discriminate].
    cbn [mbind result_bind]. intros [= <- <- <-] [Hse Hsv]%Forall_cons.
    destruct (element_render_timing _ _ _ He Hse) as [H1 H1'].
    destruct (IH _ _ _ _ Hv Hsv) as [H2 H2'].
    unfold voice_timings in *.
    rewrite child_timings_app, H1, H2, !fmap_cons, H1', H2'.
    split; reflexivity.
Qed.
End Timings.

(** ** Positions *)

Section Positions.
Implicit Types (n : XMLNote.t) (l : Leaf) (c : list Leaf) (e : Element)
  (v : list Element) (vs : list (option (list Element))).

Lemma ticks_app (a b : list Timing) : ticks (a ++ b) = ticks a + ticks b.
Proof.
  unfold ticks. rewrite fmap_app.
  induction (timing_ticks <$> a) as [| x xs IH]; simpl; [reflexivity | lia].
Qed.

Lemma end_position_app (a b : list XMLChild) :
  forall p, end_position p (a ++ b) = end_position (end_position p a) b.
Proof.
  induction a as [| x a IH]; intros p; [reflexivity |].
  destruct x; cbn [app end_position]; apply IH.
Qed.

Lemma direction_positions_app (a b : list XMLChild) :
  forall p,
    direction_positions p (a ++ b)
    = direction_positions p a ++ direction_positions (end_position p a) b.
Proof.
  induction a as [| x a IH]; intros p; [reflexivity |].
  destruct x; cbn [app end_position direction_positions]; rewrite IH;
    reflexivity.
Qed.

(** Notes and directions move the position on by the ticks of the
    notes. *)
Lemma end_position_leaves (els : list XMLChild) :
  forallb leaf_child els = true ->
  forall p, end_position p els = p + ticks (child_timings els).
Proof.
  induction els as [| x els IH]; cbn [forallb].
  - intros _ p. unfold ticks. simpl. lia.
  - intros [Hx Hels]%andb_prop p.
    destruct x as [| n | b | d | |  |]; try discriminate;
      cbn [end_position]; rewrite (IH Hels).
    + unfold child_timings. cbn [omap list_omap child_timing].
      fold (child_timings els).
      change (note_timing n :: child_timings els)
        with ([note_timing n] ++ child_timings els).
      rewrite ticks_app. unfold ticks at 2. cbn.
      unfold XMLNote.length_in_divisions.
      destruct (XMLNote.is_chord_member n), (XMLNote.is_grace n); lia.
    + unfold child_timings. cbn [omap list_omap child_timing].
      fold (child_timings els).
      change (inr (BarRest.duration b) :: child_timings els)
        with ([inr (BarRest.duration b) : Timing] ++ child_timings els).
      rewrite ticks_app. unfold ticks at 2. cbn.
      unfold BarRest.length_in_divisions. lia.
    + reflexivity.
Qed.

Lemma leaf_ticks l :
  leaf_built l -> ticks (leaf_timings l) = Leaf.length_in_divisions l.
Proof.
  unfold Leaf.length_in_divisions, XMLNote.length_in_divisions, leaf_timings.
  destruct l as [n | first others]; cbn [leaf_built Leaf_notes Leaf.head].
  - intros Hc. unfold ticks. cbn. rewrite Hc.
    destruct (XMLNote.is_grace n); lia.
  - intros [Hc Ho]. rewrite fmap_cons.
    change (?x :: ?xs) with ([x] ++ xs). rewrite ticks_app.
    assert (H0 : ticks (note_timing <$> others) = 0).
    { induction Ho as [| x others (Hx & _ & _) _ IH]; [reflexivity |].
      rewrite fmap_cons. change (?y :: ?ys) with ([y] ++ ys).
      rewrite ticks_app, IH. unfold ticks. cbn. rewrite Hx. reflexivity. }
    rewrite H0. unfold ticks. cbn. rewrite Hc.
    destruct (XMLNote.is_grace first); lia.
Qed.

Lemma group_ticks c :
  Forall leaf_built c ->
  ticks (concat (leaf_timings <$> c)) = BeamedGroup.length_in_divisions c.
Proof.
  unfold BeamedGroup.length_in_divisions.
  induction 1 as [| l c Hl _ IH]; [reflexivity |].
  rewrite !fmap_cons. cbn [concat foldr].
  rewrite ticks_app, IH, (leaf_ticks l Hl). reflexivity.
Qed.

Lemma element_ticks e :
  element_built e -> ticks (element_timings e) = Element.length_in_divisions e.
Proof.
  destruct e as [[l | b] | c | c r];
    cbn [element_built element_timings Element.length_in_divisions
         TimedLeaf.length_in_divisions].
  - apply leaf_ticks.
  - intros _. unfold ticks. cbn. unfold BarRest.length_in_divisions. lia.
  - apply group_ticks.
  - intros [Hb _]. apply group_ticks, Hb.
Qed.

Lemma voice_ticks_timings v :
  Forall element_built v -> ticks (voice_timings v) = voice_ticks v.
Proof.
  unfold voice_timings, voice_ticks.
  induction 1 as [| e v He _ IH]; [reflexivity |].
  rewrite !fmap_cons. cbn [concat foldr].
  rewrite ticks_app, IH, (element_ticks e He). reflexivity.
Qed.

Lemma element_built_stamped e : element_built e -> element_stamped e.
Proof. destruct e as [[l | b] | c | c r]; simpl; tauto. Qed.

(** What a timing list tells of the leaf: whether it is built. *)
Lemma leaf_built_timings l l' :
  leaf_timings l' = leaf_timings l -> leaf_built l -> leaf_built l'.
Proof.
  unfold leaf_timings, note_timing.
  destruct l as [n | first others], l' as [n' | first' others'];
    cbn [Leaf_notes leaf_built]; rewrite ?fmap_cons.
  - intros [= _ _ H]. congruence.
  - intros [= _ _ H Ho]. destruct others'; [| discriminate].
    intros Hc. split; [congruence | constructor].
  - intros [= _ _ H Ho]. intros [Hc _]. congruence.
  - intros [= Hd Hg H Ho] [Hc Hall]. split; [congruence |].
    revert others Ho Hall.
    induction others' as [| x' others' IH]; intros others Ho Hall;
      [constructor |].
    destruct others as [| x others]; [discriminate |].
    rewrite !fmap_cons in Ho. injection Ho as Hxd Hxg Hxc Ho.
    apply Forall_cons in Hall as [(Hx1 & Hx2 & Hx3) Hall].
    constructor; [| exact (IH others Ho Hall)].
    repeat split; congruence.
Qed.

Lemma stamped_timings r l l' :
  leaf_timings l' = leaf_timings l -> stamped r l -> stamped r l'.
Proof.
  unfold stamped, leaf_timings. intros Ht Hs.
  apply Forall_forall. intros n' Hn'.
  assert (Hin : note_timing n' ∈ note_timing <$> Leaf_notes l).
  { rewrite <- Ht. apply list_elem_of_fmap. eauto. }
  apply list_elem_of_fmap in Hin as (n & Hn & Hin).
  rewrite Forall_forall in Hs. specialize (Hs n Hin).
  unfold note_timing in Hn. injection Hn as Hd _ _. congruence.
Qed.

Lemma leaves_built_timings c c' (P : Leaf -> Prop) :
  (forall l l', leaf_timings l' = leaf_timings l -> P l -> P l') ->
  leaf_timings <$> c' = leaf_timings <$> c -> Forall P c -> Forall P c'.
Proof.
  intros HP. revert c. induction c' as [| l' c' IH]; intros c Ht Hc;
    [constructor |].
  destruct c as [| l c]; [discriminate |].
  rewrite !fmap_cons in Ht. injection Ht as Hl Ht.
  apply Forall_cons in Hc as [Hl0 Hc].
  constructor; [exact (HP _ _ Hl Hl0) | exact (IH _ Ht Hc)].
Qed.

Lemma length_of_timings l l' :
  leaf_timings l' = leaf_timings l ->
  Leaf.length_in_divisions l' = Leaf.length_in_divisions l.
Proof.
  unfold leaf_timings, Leaf.length_in_divisions, XMLNote.length_in_divisions,
    note_timing.
  destruct l, l'; cbn [Leaf_notes Leaf.head]; rewrite ?fmap_cons;
    intros [= -> -> _]; reflexivity.
Qed.

Lemma group_length_of_timings c :
  forall c', leaf_timings <$> c' = leaf_timings <$> c ->
  BeamedGroup.length_in_divisions c' = BeamedGroup.length_in_divisions c.
Proof.
  unfold BeamedGroup.length_in_divisions.
  induction c as [| l c IH]; intros [| l' c']; try discriminate;
    [reflexivity |].
  rewrite !fmap_cons. intros [= Hl Hc]. cbn [foldr].
  rewrite (length_of_timings _ _ Hl), (IH _ Hc). reflexivity.
Qed.

(** Rendering a built element leaves it built and as long as it was. *)
Lemma element_render_built e els e' :
  Element_render e = Ok (els, e') -> element_built e ->
  element_built e' /\
  Element.length_in_divisions e' = Element.length_in_divisions e.
Proof.
  destruct e as [[l | b] | c | c r]; cbn [Element_render element_built].
  - destruct (Leaf_render l) as [[els1 l1] |] eqn:Hl; [| discriminate].
    cbn [mbind result_bind]. intros [= <- <-] Hb.
    destruct (leaf_render_timing _ _ _ Hl) as [_ Ht].
    split; [exact (leaf_built_timings _ _ Ht Hb) |].
    apply (length_of_timings _ _ Ht).
  - intros [= <- <-] _. split; [exact I | reflexivity].
  - destruct (BeamedGroup_render c) as [[els1 c1] |] eqn:Hc; [| discriminate].
    cbn [mbind result_bind]. intros [= <- <-] Hb.
    destruct (group_render_timing _ _ _ Hc) as [_ Ht].
    split; [exact (leaves_built_timings _ _ _ leaf_built_timings Ht Hb) |].
    apply (group_length_of_timings _ _ Ht).
  - destruct (Tuplet_render c r) as [[els1 c1] |] eqn:Hc; [| discriminate].
    cbn [mbind result_bind]. intros [= <- <-] [Hb Hs].
    destruct (tuplet_render_timing _ _ _ _ Hc Hs) as [_ Ht].
    split; [split |].
    + exact (leaves_built_timings _ _ _ leaf_built_timings Ht Hb).
    + exact (leaves_built_timings _ _ _ (stamped_timings r) Ht Hs).
    + apply (group_length_of_timings _ _ Ht).
Qed.

Lemma render_voice_built v :
  forall amount els v' amount',
    Measure.render_voice v amount = Ok (els, v', amount') ->
    Forall element_built v ->
    Forall element_built v' /\ voice_ticks v' = voice_ticks v /\
    amount' = amount + voice_ticks v.
Proof.
  induction v as [| e v IH]; intros amount els v' amount';
    cbn [Measure.render_voice].
  - intros [= <- <- <-] _. unfold voice_ticks. simpl.
    split; [constructor | split; [reflexivity | lia]].
  - destruct (Element_render e) as [[els1 e1] |] eqn:He; [| discriminate].
    cbn [mbind result_bind].
    destruct (Measure.render_voice v _) as [[[els2 v2] a2] |] eqn:Hv;
      [| discriminate].
    cbn [mbind result_bind]. intros [= <- <- <-] [Hbe Hbv]%Forall_cons.
    destruct (element_render_built _ _ _ He Hbe) as [Hb1 Hl1].
    destruct (IH _ _ _ _ Hv Hbv) as (Hb2 & Ht2 & Ha2).
    split; [constructor; assumption |].
    unfold voice_ticks in *. rewrite !fmap_cons. cbn [foldr].
    rewrite Hl1, Ht2. split; [reflexivity | lia].
Qed.

(** The notes that a built voice renders to take the ticks of the
    voice. *)
Lemma render_voice_position v amount els v' amount' :
  forallb element_ok v = true -> Forall element_built v ->
  Measure.render_voice v amount = Ok (els, v', amount') ->
  forall p, end_position p els = p + voice_ticks v.
Proof.
  intros Hok Hb Hr p.
  destruct (render_voice_ok v Hok) as (els0 & v0 & Hr0 & Hleaf & _ & _).
  rewrite (Hr0 amount) in Hr. injection Hr as <- <- <-.
  rewrite (end_position_leaves _ Hleaf).
  assert (Hs : Forall element_stamped v).
  { eapply Forall_impl; [exact Hb |]. apply element_built_stamped. }
  destruct (render_voice_timing _ _ _ _ _ (Hr0 amount) Hs) as [Ht _].
  rewrite Ht, (voice_ticks_timings v Hb). reflexivity.
Qed.

(** In the voice loop over built voices the position is what
    [amount_to_backup] holds: every voice starts at 0. *)
Lemma render_voices_position vs :
  forallb voice_ok vs = true -> voices_built vs ->
  forall (i : nat) amount els vs' amount',
    (i = 0%nat -> amount = 0) ->
    Measure.render_voices i vs amount = Ok (els, vs', amount') ->
    end_position amount els = amount' /\ voices_built vs'.
Proof.
  unfold voices_built.
  induction vs as [| [v |] vs IH]; cbn [forallb Measure.render_voices].
  - intros _ _ i amount els vs' amount' _ [= <- <- <-].
    split; [reflexivity | constructor].
  - intros [[_ Hv]%andb_prop Hvs]%andb_prop [Hbv Hbvs]%Forall_cons
      i amount els vs' amount' Hi.
    destruct (Measure.render_voice v 0) as [[[els1 v1] a1] |] eqn:Hr1;
      [| discriminate].
    cbn [mbind result_bind].
    destruct (Measure.render_voices (S i) vs a1) as [[[els2 vs2] a2] |] eqn:Hr2;
      [| discriminate].
    cbn [mbind result_bind]. intros [= <- <- <-].
    destruct (render_voice_built _ _ _ _ _ Hr1 Hbv) as (Hb1 & _ & Ha1).
    pose proof (render_voice_position _ _ _ _ _ Hv Hbv Hr1) as Hp1.
    destruct (IH Hvs Hbvs (S i) a1 els2 vs2 a2 ltac:(discriminate) Hr2)
      as [Hp2 Hb2].
    split; [| constructor; assumption].
    rewrite !end_position_app.
    assert (H0 : end_position amount
                   (if (0 <? i)%nat then [BackupEl amount] else []) = 0).
    { destruct i as [| i]; cbn; [apply Hi; reflexivity | lia]. }
    rewrite H0, Hp1, <- Ha1. exact Hp2.
  - intros Hvs [_ Hbvs]%Forall_cons i amount els vs' amount' Hi.
    destruct (Measure.render_voices (S i) vs amount) as [[[els2 vs2] a2] |] eqn:Hr2;
      [| discriminate].
    cbn [mbind result_bind]. intros [= <- <- <-].
    destruct (IH Hvs Hbvs (S i) amount els2 vs2 a2 ltac:(discriminate) Hr2)
      as [Hp2 Hb2].
    split; [exact Hp2 | constructor; [exact I | exact Hb2]].
Qed.
End Positions.

(** ** Built measures through the steps of [Measure.render] *)

Section Built.
Implicit Types (n : XMLNote.t) (l : Leaf) (c : list Leaf) (e : Element)
  (v : list Element) (vs : list (option (list Element))).

Lemma leaf_timings_set_voice l (z : option Z) :
  leaf_timings (Leaf.set_voice l z) = leaf_timings l.
Proof.
  destruct l as [n | first others]; unfold leaf_timings; cbn; [reflexivity |].
  f_equal. rewrite <- list_fmap_compose. apply list_fmap_ext. reflexivity.
Qed.

Lemma leaf_timings_map_head (g : XMLNote.t -> XMLNote.t) l :
  (forall n, note_timing (g n) = note_timing n) ->
  leaf_timings (Leaf.map_head g l) = leaf_timings l.
Proof.
  intros Hg. destruct l as [n | first others]; unfold leaf_timings; cbn;
    rewrite Hg; reflexivity.
Qed.

Lemma element_built_set_voice (z : Z) e :
  element_built e -> element_built (Measure.set_element_voice z e).
Proof.
  assert (Hall : forall (P : Leaf -> Prop) c,
            (forall l l', leaf_timings l' = leaf_timings l -> P l -> P l') ->
            Forall P c ->
            Forall P ((fun l => Leaf.set_voice l (Some z)) <$> c)).
  { intros P c HP Hc. apply Forall_fmap. eapply Forall_impl; [exact Hc |].
    intros l Hl. cbn. eapply HP; [| exact Hl]. apply leaf_timings_set_voice. }
  destruct e as [[l | b] | c | c r]; cbn [Measure.set_element_voice element_built].
  - apply leaf_built_timings.
    rewrite leaf_timings_map_head by reflexivity.
    apply leaf_timings_set_voice.
  - exact id.
  - apply Hall, leaf_built_timings.
  - intros [Hb Hs]. split; [apply Hall; [apply leaf_built_timings | exact Hb] |].
    apply Hall; [apply stamped_timings | exact Hs].
Qed.

Lemma leaf_built_set_divisions (d : Z) l :
  leaf_built l -> leaf_built (Leaf.set_divisions l d).
Proof.
  destruct l as [n | first others]; cbn; [exact id |].
  intros [Hc Ho]. split; [exact Hc |].
  apply Forall_fmap. eapply Forall_impl; [exact Ho |].
  intros x (H1 & H2 & H3). cbn. rewrite H2. repeat split; assumption.
Qed.

Lemma stamped_set_divisions (d : Z) r l :
  stamped r l -> stamped r (Leaf.set_divisions l d).
Proof.
  unfold stamped. destruct l as [n | first others]; cbn.
  - intros [Hn _]%Forall_cons. repeat constructor. exact Hn.
  - intros [Hn Ho]%Forall_cons. constructor; [exact Hn |].
    apply Forall_fmap. eapply Forall_impl; [exact Ho |]. intros x Hx. exact Hx.
Qed.

Lemma element_built_set_divisions (d : Z) e :
  element_built e ->
  element_built (Element.map_leaves (fun l => Leaf.set_divisions l d)
                   (fun b => BarRest.set_divisions b d) e).
Proof.
  destruct e as [[l | b] | c | c r]; cbn [Element.map_leaves element_built].
  - apply leaf_built_set_divisions.
  - exact id.
  - intros Hb. apply Forall_fmap. eapply Forall_impl; [exact Hb |].
    intros l. apply leaf_built_set_divisions.
  - intros [Hb Hs]. split; apply Forall_fmap.
    + eapply Forall_impl; [exact Hb |]. intros l. apply leaf_built_set_divisions.
    + eapply Forall_impl; [exact Hs |]. intros l. apply stamped_set_divisions.
Qed.

Lemma voices_built_set_leaf_voices vs :
  voices_built vs -> voices_built (Measure._set_leaf_voices vs).
Proof.
  unfold voices_built, Measure._set_leaf_voices.
  enough (H : forall g : nat -> Z,
    Forall (fun v : option (list Element) =>
              match v with
              | Some elements => Forall element_built elements
              | None => True
              end) vs ->
    Forall (fun v : option (list Element) =>
              match v with
              | Some elements => Forall element_built elements
              | None => True
              end)
      (imap (fun i (voice : option (list Element)) =>
               (fun els : list Element =>
                  Measure.set_element_voice (g i) <$> els) <$> voice) vs))
    by apply (H (fun i => Z.of_nat i + 1)).
  induction vs as [| v vs IH]; intros g Hvs; [constructor |].
  apply Forall_cons in Hvs as [Hv Hvs]. cbn [imap]. constructor.
  - destruct v as [elements |]; [| exact I]. cbn.
    apply Forall_fmap. eapply Forall_impl; [exact Hv |].
    intros e. apply element_built_set_voice.
  - apply (IH (g ∘ S) Hvs).
Qed.

Lemma voices_built_set_all_divisions (d : Z) vs :
  voices_built vs -> voices_built (Measure.set_all_divisions d vs).
Proof.
  unfold voices_built, Measure.set_all_divisions. intros Hvs.
  apply Forall_fmap. eapply Forall_impl; [exact Hvs |].
  intros [elements |] Hv; [| exact I]. cbn.
  apply Forall_fmap. eapply Forall_impl; [exact Hv |].
  intros e. apply element_built_set_divisions.
Qed.

(** The divisions make the durations exact, note by note. *)
Lemma leaf_timings_exact (d : Z) l :
  leaf_built l -> (Leaf.min_denominator l | d) ->
  Forall (timing_exact d) (leaf_timings (Leaf.set_divisions l d)).
Proof.
  unfold Leaf.min_denominator, XMLNote.min_denominator, leaf_timings.
  assert (Hn : forall n,
            (XMLNote.is_grace n = false ->
             (limited_denominator
                (Duration.true_length (XMLNote.duration n)) 1000000 | d)) ->
            timing_exact d (note_timing (XMLNote.set_divisions n d))).
  { intros n Hdiv. unfold note_timing, timing_exact. cbn.
    intros Hg Hden. apply (round_of_multiple _ d Hden (Hdiv Hg)). }
  destruct l as [n | first others]; cbn [Leaf.head leaf_built].
  - intros _ Hdiv. repeat constructor. apply Hn. intros Hg.
    rewrite Hg in Hdiv. exact Hdiv.
  - intros [_ Ho] Hdiv. cbn. constructor.
    + apply Hn. intros Hg. rewrite Hg in Hdiv. exact Hdiv.
    + rewrite <- list_fmap_compose. apply Forall_fmap.
      eapply Forall_impl; [exact Ho |]. intros x (_ & Hd & Hgx). cbn.
      apply (Hn x). rewrite Hd, Hgx. intros Hg. rewrite Hg in Hdiv.
      exact Hdiv.
Qed.

Lemma concat_Forall_2 {A : Type} (P : A -> Prop) (xss : list (list A)) :
  Forall P (concat xss) -> Forall (Forall P) xss.
Proof.
  induction xss as [| xs xss IH]; [constructor |].
  cbn [concat]. intros [H1 H2]%Forall_app. constructor; auto.
Qed.

Lemma group_timings_exact (d : Z) c :
  Forall leaf_built c ->
  Forall (fun x => (TimedLeaf.min_denominator x | d)) (ALeaf <$> c) ->
  Forall (timing_exact d)
    (concat (leaf_timings <$> ((fun l => Leaf.set_divisions l d) <$> c))).
Proof.
  intros Hb Hdiv. apply concat_Forall. rewrite <- list_fmap_compose.
  apply Forall_fmap. rewrite Forall_fmap in Hdiv.
  apply Forall_forall. intros l Hl. cbn.
  rewrite Forall_forall in Hb, Hdiv.
  apply leaf_timings_exact; [apply Hb, Hl | apply (Hdiv l Hl)].
Qed.

Lemma element_timings_exact (d : Z) e :
  element_built e ->
  Forall (fun x => (TimedLeaf.min_denominator x | d)) (Element.unravel e) ->
  Forall (timing_exact d)
    (element_timings (Element.map_leaves (fun l => Leaf.set_divisions l d)
                        (fun b => BarRest.set_divisions b d) e)).
Proof.
  destruct e as [[l | b] | c | c r];
    cbn [element_built Element.unravel Element.map_leaves element_timings].
  - intros Hb [Hdiv _]%Forall_cons. apply leaf_timings_exact; assumption.
  - intros _ [Hdiv _]%Forall_cons. repeat constructor.
    unfold timing_exact. cbn. intros Hden.
    apply (round_of_multiple _ d Hden Hdiv).
  - apply group_timings_exact.
  - intros [Hb _]. apply group_timings_exact, Hb.
Qed.

Lemma voices_timings_exact (d : Z) vs :
  voices_built vs ->
  Forall (fun x => (TimedLeaf.min_denominator x | d))
         (concat (Measure.voice_list_copy vs)) ->
  Forall (timing_exact d) (voices_timings (Measure.set_all_divisions d vs)).
Proof.
  unfold voices_built, voices_timings, Measure.set_all_divisions,
    Measure.voice_list_copy.
  induction vs as [| v vs IH]; [constructor |].
  intros [Hv Hvs]%Forall_cons Hdiv. rewrite !fmap_cons. cbn [concat].
  destruct v as [elements |]; cbn in Hdiv |- *.
  - apply Forall_app in Hdiv as [Hd1 Hd2]. apply Forall_app. split.
    + clear IH Hvs Hd2. unfold voice_timings. apply concat_Forall.
      rewrite <- list_fmap_compose. apply Forall_fmap.
      apply concat_Forall_2 in Hd1. rewrite Forall_fmap in Hd1.
      apply Forall_forall. intros e He. cbn.
      rewrite Forall_forall in Hv, Hd1.
      apply element_timings_exact; [apply Hv, He | apply (Hd1 e He)].
    + apply (IH Hvs Hd2).
  - apply (IH Hvs Hdiv).
Qed.

Lemma render_voices_timing vs :
  forall (i : nat) amount els vs' amount',
    Measure.render_voices i vs amount = Ok (els, vs', amount') ->
    voices_built vs ->
    child_timings els = voices_timings vs.
Proof.
  unfold voices_built, voices_timings.
  induction vs as [| [v |] vs IH]; intros i amount els vs' amount';
    cbn [Measure.render_voices].
  - intros [= <- <- <-] _. reflexivity.
  - destruct (Measure.render_voice v 0) as [[[els1 v1] a1] |] eqn:Hr1;
      [| discriminate].
    cbn [mbind result_bind].
    destruct (Measure.render_voices (S i) vs a1) as [[[els2 vs2] a2] |] eqn:Hr2;
      [| discriminate].
    cbn [mbind result_bind]. intros [= <- <- <-] [Hbv Hbvs]%Forall_cons.
    assert (Hs : Forall element_stamped v).
    { eapply Forall_impl; [exact Hbv |]. apply element_built_stamped. }
    destruct (render_voice_timing _ _ _ _ _ Hr1 Hs) as [Ht _].
    rewrite !child_timings_app, Ht, (IH _ _ _ _ _ Hr2 Hbvs).
    rewrite fmap_cons. cbn [concat].
    destruct (0 <? i)%nat; reflexivity.
  - destruct (Measure.render_voices (S i) vs amount) as [[[els2 vs2] a2] |] eqn:Hr2;
      [| discriminate].
    cbn [mbind result_bind]. intros [= <- <- <-] [_ Hbvs]%Forall_cons.
    rewrite (IH _ _ _ _ _ Hr2 Hbvs). reflexivity.
Qed.

Lemma exact_children (d : Z) (els : list XMLChild) :
  Forall (timing_exact d) (child_timings els) -> Forall (exact_child d) els.
Proof.
  unfold child_timings. induction els as [| x els IH]; [constructor |].
  cbn [omap list_omap].
  destruct x as [| n | b | | | |]; cbn [child_timing];
    try (intros H; constructor; [exact I | exact (IH H)]).
  - intros [Hx H]%Forall_cons. constructor; [| exact (IH H)].
    unfold exact_child, timing_exact, note_timing in *.
    unfold XMLNote.true_length, XMLNote.length_in_divisions.
    destruct (XMLNote.is_grace n).
    + intros _. rewrite Qmult_0_l. reflexivity.
    + apply Hx. reflexivity.
  - intros [Hx H]%Forall_cons. constructor; [| exact (IH H)]. exact Hx.
Qed.

Lemma render_displaced_exact (d : Z) (dwd : list (Direction * Q)) :
  forall current,
    Forall (exact_child d) (Measure.render_displaced d dwd current).
Proof.
  induction dwd as [| [direction displacement] dwd IH]; intros current;
    [constructor |].
  cbn [Measure.render_displaced].
  apply Forall_app. split; [| constructor; [exact I | apply IH]].
  destruct (_ <? _); [repeat constructor |].
  destruct (_ >? _); repeat constructor.
Qed.
End Built.

(** The leaves of a measure are the leaves of its voices. *)
Lemma onsets_leaves (st : list (Q * list TimedLeaf)) :
  snd <$> concat (onsets_of <$> st) = concat (snd <$> st).
Proof.
  induction st as [| [beat v] st IH]; [reflexivity |].
  rewrite !fmap_cons. cbn [concat]. rewrite fmap_app, IH.
  unfold onsets_of at 1. cbn [fst snd]. rewrite with_onsets_snd. reflexivity.
Qed.

Lemma iter_leaves_loop_perm (fuel : nat) :
  forall st out,
    Measure.iter_leaves_loop fuel st = Some (Ok out) ->
    out ≡ₚ concat (snd <$> st).
Proof.
  induction fuel as [| fuel IH]; intros st out.
  - destruct st; [| discriminate]. intros [= <-]. reflexivity.
  - destruct st as [| v0 st0] eqn:Est.
    { intros [= <-]. reflexivity. }
    rewrite <- Est in *. assert (Hne : st <> []) by (subst; discriminate).
    intros Hrun.
    assert (Hstep : Measure.iter_leaves_loop (S fuel) st
      = match Measure.voice_keys st with
        | Raise e => Some (Raise e)
        | Ok keys =>
            let voice_to_pop :=
              match keys with
              | [] => 0%nat
              | key :: keys => Measure.argmin_from 0 key 1 keys
              end in
            match st !! voice_to_pop with
            | Some (beat, popped_note :: rest) =>
                let beat' := (beat + TimedLeaf.true_length popped_note)%Q in
                let st :=
                  match rest with
                  | [] => delete voice_to_pop st
                  | _ => <[voice_to_pop := (beat', rest)]> st
                  end in
                match Measure.iter_leaves_loop fuel st with
                | Some (Ok leaves) => Some (Ok (popped_note :: leaves))
                | other => other
                end
            | _ => Some (Raise IndexError)
            end
        end).
    { rewrite Est. reflexivity. }
    rewrite Hstep in Hrun. clear Hstep.
    destruct (Measure.voice_keys st) as [keys | e] eqn:Hkeys; [| discriminate].
    destruct (voice_to_pop_least st keys Hne Hkeys) as (v & Hv & _).
    cbv zeta in Hrun, Hv. rewrite Hv in Hrun.
    destruct v as [beat [| popped rest]]; [discriminate |].
    destruct (pop_voice st _ beat popped rest Hv) as (Hperm & _ & _).
    cbv zeta in Hperm.
    set (st' := match rest with
                | [] => delete _ st
                | _ => <[_ := ((beat + TimedLeaf.true_length popped)%Q, rest)]> st
                end) in *.
    destruct (Measure.iter_leaves_loop fuel st') as [[leaves | e] |] eqn:Hrec;
      try discriminate.
    injection Hrun as <-.
    rewrite (IH st' leaves Hrec).
    apply (fmap_Permutation snd) in Hperm.
    rewrite fmap_cons, !onsets_leaves in Hperm. cbn [snd] in Hperm.
    symmetry. exact Hperm.
Qed.

Lemma leaves_perm (vs : list (option (list Element))) (out : list TimedLeaf) :
  Measure.leaves vs = Some (Ok out) ->
  out ≡ₚ concat (Measure.voice_list_copy vs).
Proof.
  unfold Measure.leaves. intros Hrun.
  apply iter_leaves_loop_perm in Hrun. rewrite Hrun.
  rewrite <- list_fmap_compose. cbn. rewrite list_fmap_id. reflexivity.
Qed.

(** ** Built measures *)

(** What [Measure.render] does with a built measure that renders: the
    position after the voice loop is its [amount_to_backup], every [note]
    written is a note of the voices as the loop found them, and the
    divisions make their durations exact. *)
Lemma render_built (m : Measure.t) (vs : list (option (list Element))) :
  Measure.voices (Measure.contents m) = Ok vs ->
  forallb voice_ok vs = true -> voices_built vs ->
  exists all_leaves els vs' amount,
    Measure.leaves (Measure._set_leaf_voices vs) = Some (Ok all_leaves) /\
    let dwd := Measure.directions_with_displacements m in
    let d := Measure.compute_divisions
               (TimedLeaf.min_denominator <$> all_leaves) dwd in
    let vs1 := Measure.set_all_divisions d (Measure._set_leaf_voices vs) in
    forallb voice_ok vs1 = true /\ voices_built vs1 /\
    Measure.render_voices 0 vs1 0 = Ok (els, vs', amount) /\
    end_position 0 els = amount /\
    Forall (fun x => (TimedLeaf.min_denominator x | d)) all_leaves /\
    Forall (exact_child d) els /\
    Measure.render m
    = Some (Ok (mkMeasureEl (Measure.number m)
                  (AttributesEl d (Measure.time_signature m) (Measure.clef m)
                     (Measure.staves m)
                   :: els
                   ++ (if (0 <? length dwd)%nat
                       then Measure.render_displaced d dwd amount else [])
                   ++ match Measure.barline m with
                      | Some style => [BarlineEl style]
                      | None => []
                      end),
                vs')).
Proof.
  intros Hvs Hok Hb.
  destruct (render_ok m vs Hvs Hok)
    as (all_leaves & els & vs' & amount & Hl & Hok1 & Hr & _ & Hrender).
  exists all_leaves, els, vs', amount. split; [exact Hl |].
  cbv zeta in *.
  set (dwd := Measure.directions_with_displacements m) in *.
  set (d := Measure.compute_divisions
              (TimedLeaf.min_denominator <$> all_leaves) dwd) in *.
  set (vs0 := Measure._set_leaf_voices vs) in *.
  set (vs1 := Measure.set_all_divisions d vs0) in *.
  assert (Hb0 : voices_built vs0) by apply voices_built_set_leaf_voices, Hb.
  assert (Hb1 : voices_built vs1) by apply voices_built_set_all_divisions, Hb0.
  assert (Hdiv : Forall (fun x => (TimedLeaf.min_denominator x | d)) all_leaves).
  { assert (Hpos : Forall (fun x => 0 < x)
                     (TimedLeaf.min_denominator <$> all_leaves)).
    { apply Forall_fmap, Forall_forall. intros x _. apply min_denominator_pos. }
    pose proof (compute_divisions_multiple _ dwd Hpos) as Hmul.
    rewrite Forall_fmap in Hmul. exact Hmul. }
  split; [exact Hok1 |]. split; [exact Hb1 |]. split; [exact Hr |].
  split; [| split; [exact Hdiv | split; [| exact Hrender]]].
  - apply (render_voices_position vs1 Hok1 Hb1 0%nat 0 els vs' amount
             (fun _ => eq_refl) Hr).
  - apply exact_children. rewrite (render_voices_timing _ _ _ _ _ _ Hr Hb1).
    apply voices_timings_exact; [exact Hb0 |].
    rewrite <- (leaves_perm _ _ Hl). exact Hdiv.
Qed.

Lemma measure_built_voices (m : Measure.t) vs :
  Measure.voices (Measure.contents m) = Ok vs ->
  measure_built m -> voices_built vs.
Proof. unfold measure_built. intros ->. exact id. Qed.

(** In a built measure every voice is rewound by what it emitted: the
    [backup] after a voice is the number of divisions its [note] elements
    moved the position on, and the sum of [length_in_divisions] over its
    elements before and after they were rendered. *)
Lemma built_voices_are_rewound (m : Measure.t) :
  measure_ok m = true -> measure_built m ->
  exists vs el vs' d,
    Measure.voices (Measure.contents m) = Ok vs /\
    Measure.render m = Some (Ok (el, vs')) /\
    forall pre v1 gap v2 post,
      Measure.set_all_divisions d (Measure._set_leaf_voices vs)
        = pre ++ Some v1 :: gap ++ Some v2 :: post ->
      Forall (fun o : option (list Element) => o = None) gap ->
      exists before els1 els2 after v1' v2',
        el_children el
          = before ++ els1 ++ BackupEl (voice_ticks v1) :: els2 ++ after /\
        Measure.render_voice v1 0 = Ok (els1, v1', voice_ticks v1) /\
        Measure.render_voice v2 0 = Ok (els2, v2', voice_ticks v2) /\
        end_position 0 els1 = voice_ticks v1 /\
        voice_ticks v1' = voice_ticks v1.
Proof.
  intros Hm Hbm. destruct (measure_ok_voices m Hm) as (vs & Hvs & Hok).
  pose proof (measure_built_voices m vs Hvs Hbm) as Hb.
  destruct (render_built m vs Hvs Hok Hb)
    as (all_leaves & els & vs' & amount & Hl & Hok1 & Hb1 & Hr & _ & _ & _
        & Hrender).
  cbv zeta in *.
  set (d := Measure.compute_divisions
              (TimedLeaf.min_denominator <$> all_leaves)
              (Measure.directions_with_displacements m)) in *.
  exists vs. eexists. exists vs', d. split; [exact Hvs |].
  split; [exact Hrender |].
  intros pre v1 gap v2 post Hsplit Hgap. rewrite Hsplit in Hok1, Hr, Hb1.
  destruct (render_voices_rewound _ _ _ _ _ _ _ _ Hok1 Hgap Hr)
    as (before & els1 & els2 & after & v1' & v2' & -> & H1 & H2 & _).
  assert (Hbv1 : Forall element_built v1).
  { unfold voices_built in Hb1. apply Forall_app in Hb1 as [_ Hb1].
    apply Forall_cons in Hb1 as [Hb1 _]. exact Hb1. }
  assert (Hokv1 : forallb element_ok v1 = true).
  { rewrite forallb_app in Hok1. apply andb_prop in Hok1 as [_ Hok1].
    cbn [forallb] in Hok1. apply andb_prop in Hok1 as [Hok1 _].
    simpl in Hok1. apply andb_prop in Hok1 as [_ Hok1]. exact Hok1. }
  eexists (_ :: before), els1, els2, (after ++ _), v1', v2'.
  split; [| split; [exact H1 | split; [exact H2 | split]]].
  - cbn [el_children]. rewrite <- !app_assoc. cbn [app].
    rewrite <- !app_assoc. reflexivity.
  - rewrite (render_voice_position _ _ _ _ _ Hokv1 Hbv1 H1). lia.
  - apply (render_voice_built _ _ _ _ _ H1 Hbv1).
Qed.

(** C1: a tuplet that got a leaf after it was built is not rewound by
    what it emitted.  [Measure.render] adds [length_in_divisions] of the
    tuplet to [amount_to_backup] before [Tuplet.render] stamps the ratio on
    the new leaf: of the triplet of quarter notes at 3 divisions, whose
    third note was appended, the three notes are written with 2 divisions
    each, and the voice after them holds 6, but the [backup] is 7. *)
Theorem stale_tuplet_is_not_rewound :
  measure_ok stale_tuplet_measure = true /\
  rendered_kinds stale_tuplet_measure
  = Some (Ok [KAttributes 3; KNote 2; KNote 2; KNote 2; KBackup 7; KNote 6]) /\
  exists el v1' v2',
    Measure.render stale_tuplet_measure = Some (Ok (el, [Some v1'; Some v2'])) /\
    end_position 0 (take 4 (el_children el)) = 6 /\
    voice_ticks v1' = 6 /\
    el_children el !! 4%nat = Some (BackupEl 7).
Proof.
  split; [vm_compute; reflexivity |]. split; [vm_compute; reflexivity |].
  destruct (Measure.render stale_tuplet_measure) as [[[el vs'] |] |] eqn:Hr;
    try (vm_compute in Hr; discriminate).
  vm_compute in Hr. injection Hr as <- <-.
  do 3 eexists. split; [reflexivity |]. repeat split.
Qed.

(** X4: the divisions that [Measure.render] computes make the durations
    it writes exact.  For every built measure that renders, the value
    written to the [attributes] element is a multiple of the minimal
    denominator of every leaf, and every [note] element of the measure,
    chord members and notes of tuplets included, whose true length has a
    denominator of at most 1000000 is written with a duration equal to
    its true length times the divisions, with nothing lost to rounding. *)
Theorem rendered_durations_exact (m : Measure.t) :
  measure_ok m = true -> measure_built m ->
  exists vs all_leaves el vs' d,
    Measure.voices (Measure.contents m) = Ok vs /\
    Measure.leaves (Measure._set_leaf_voices vs) = Some (Ok all_leaves) /\
    Measure.render m = Some (Ok (el, vs')) /\
    head (el_children el)
      = Some (AttributesEl d (Measure.time_signature m) (Measure.clef m)
                (Measure.staves m)) /\
    Forall (fun x => (TimedLeaf.min_denominator x | d)) all_leaves /\
    Forall (exact_child d) (el_children el).
Proof.
  intros Hm Hbm. destruct (measure_ok_voices m Hm) as (vs & Hvs & Hok).
  pose proof (measure_built_voices m vs Hvs Hbm) as Hb.
  destruct (render_built m vs Hvs Hok Hb)
    as (all_leaves & els & vs' & amount & Hl & _ & _ & _ & _ & Hdiv & Hex
        & Hrender).
  cbv zeta in *.
  exists vs, all_leaves. eexists. exists vs'. eexists.
  split; [exact Hvs |]. split; [exact Hl |]. split; [exact Hrender |].
  split; [reflexivity |]. split; [exact Hdiv |].
  cbn [el_children]. constructor; [exact I |].
  apply Forall_app. split; [exact Hex |].
  apply Forall_app. split.
  - destruct (0 <? _)%nat; [apply render_displaced_exact | constructor].
  - destruct (Measure.barline m); repeat constructor.
Qed.

Lemma rendered_durations_exact_witness :
  measure_ok triplet_measure = true /\
  exists vs all_leaves el vs' d,
    Measure.voices (Measure.contents triplet_measure) = Ok vs /\
    Measure.leaves (Measure._set_leaf_voices vs) = Some (Ok all_leaves) /\
    Measure.render triplet_measure = Some (Ok (el, vs')) /\
    head (el_children el)
      = Some (AttributesEl d (Measure.time_signature triplet_measure)
                (Measure.clef triplet_measure)
                (Measure.staves triplet_measure)) /\
    Forall (fun x => (TimedLeaf.min_denominator x | d)) all_leaves /\
    Forall (exact_child d) (el_children el).
Proof.
  assert (H : measure_ok triplet_measure = true) by reflexivity.
  split; [exact H |]. apply (rendered_durations_exact triplet_measure H).
  vm_compute. repeat constructor.
Defined.

(** ** Displaced directions *)

(** The [backup] and [forward] elements between the displaced directions
    bring every direction to its displacement, rounded to divisions,
    wherever the position was before. *)
Lemma render_displaced_positions (num_beat_divisions : Z)
    (dwd : list (Direction * Q)) (current_location_in_measure : Z) :
  direction_positions current_location_in_measure
    (Measure.render_displaced num_beat_divisions dwd
       current_location_in_measure)
  = (fun dd : Direction * Q =>
       (fst dd, py_round (snd dd * inject_Z num_beat_divisions))) <$> dwd /\
  Forall moves_forth
    (Measure.render_displaced num_beat_divisions dwd
       current_location_in_measure).
Proof.
  revert current_location_in_measure.
  induction dwd as [| [direction displacement] dwd IH]; intros current.
  - split; [reflexivity | constructor].
  - cbn [Measure.render_displaced fmap list_fmap fst snd].
    set (p := py_round (displacement * inject_Z num_beat_divisions)).
    destruct (IH p) as [IHpos IHmoves].
    destruct (Z.ltb_spec p current) as [Hlt | Hge].
    + split.
      * cbn. replace (current - (current - p)) with p by lia.
        rewrite IHpos. reflexivity.
      * repeat constructor; [simpl; lia | exact IHmoves].
    + destruct (Z.gtb_spec p current) as [Hgt | Hle].
      * split.
        -- cbn. replace (current + (p - current)) with p by lia.
           rewrite IHpos. reflexivity.
        -- repeat constructor; [simpl; lia | exact IHmoves].
      * assert (p = current) as Hp by lia. split.
        -- cbn. rewrite <- Hp, IHpos. reflexivity.
        -- repeat constructor. exact IHmoves.
Qed.

(** X5: where the displaced directions of a rendered measure stand.  In
    a built measure that renders, with displacements that are whole
    numbers of 256ths of a quarter note, the children of the [measure]
    element are the attributes, what the voice loop wrote, the displaced
    directions with the [backup] and [forward] elements between them, and
    the barline; counted from the start of the measure, every displaced
    direction stands at its displacement times the divisions, rounded,
    after the directions of the voices; and no [backup] or [forward] of
    zero or negative length is written among them. *)
Theorem displaced_directions_positions (m : Measure.t) :
  measure_ok m = true -> measure_built m ->
  Forall (fun dd : Direction * Q => on_grid (snd dd))
         (Measure.directions_with_displacements m) ->
  exists vs el vs' d els displaced,
    Measure.voices (Measure.contents m) = Ok vs /\
    Measure.render m = Some (Ok (el, vs')) /\
    Measure.render_voices 0
      (Measure.set_all_divisions d (Measure._set_leaf_voices vs)) 0
    = Ok (els, vs', end_position 0 els) /\
    el_children el
    = AttributesEl d (Measure.time_signature m) (Measure.clef m)
        (Measure.staves m)
      :: els ++ displaced
      ++ match Measure.barline m with
         | Some style => [BarlineEl style]
         | None => []
         end /\
    direction_positions 0 (el_children el)
    = direction_positions 0 els
      ++ ((fun dd : Direction * Q => (fst dd, py_round (snd dd * inject_Z d)))
            <$> Measure.directions_with_displacements m) /\
    Forall moves_forth displaced.
Proof.
  intros Hm Hbm _. destruct (measure_ok_voices m Hm) as (vs & Hvs & Hok).
  pose proof (measure_built_voices m vs Hvs Hbm) as Hb.
  destruct (render_built m vs Hvs Hok Hb)
    as (all_leaves & els & vs' & amount & Hl & _ & _ & Hr & Hpos & _ & _
        & Hrender).
  cbv zeta in *.
  set (dwd := Measure.directions_with_displacements m) in *.
  set (d := Measure.compute_divisions
              (TimedLeaf.min_denominator <$> all_leaves) dwd) in *.
  exists vs. eexists. exists vs', d, els.
  exists (if (0 <? length dwd)%nat
          then Measure.render_displaced d dwd amount else []).
  split; [exact Hvs |]. split; [exact Hrender |].
  split; [rewrite Hpos; exact Hr |]. split; [reflexivity |].
  destruct (render_displaced_positions d dwd amount) as [Hd Hmoves].
  split.
  - cbn [el_children direction_positions].
    rewrite !direction_positions_app, Hpos.
    assert (Hdis : direction_positions amount
                     (if (0 <? length dwd)%nat
                      then Measure.render_displaced d dwd amount else [])
                   = (fun dd : Direction * Q =>
                        (fst dd, py_round (snd dd * inject_Z d))) <$> dwd).
    { destruct dwd as [| dd dwd0] eqn:E; [reflexivity |].
      cbn [length Nat.ltb Nat.leb]. rewrite <- E in *. exact Hd. }
    rewrite Hdis. destruct (Measure.barline m); cbn; rewrite app_nil_r;
      reflexivity.
  - destruct (0 <? length dwd)%nat; [exact Hmoves | constructor].
Qed.

Lemma displaced_directions_positions_witness :
  exists vs el vs' d els displaced,
    Measure.voices (Measure.contents marked_measure) = Ok vs /\
    Measure.render marked_measure = Some (Ok (el, vs')) /\
    Measure.render_voices 0
      (Measure.set_all_divisions d (Measure._set_leaf_voices vs)) 0
    = Ok (els, vs', end_position 0 els) /\
    el_children el
    = AttributesEl d (Measure.time_signature marked_measure)
        (Measure.clef marked_measure) (Measure.staves marked_measure)
      :: els ++ displaced
      ++ match Measure.barline marked_measure with
         | Some style => [BarlineEl style]
         | None => []
         end /\
    direction_positions 0 (el_children el)
    = direction_positions 0 els
      ++ ((fun dd : Direction * Q => (fst dd, py_round (snd dd * inject_Z d)))
            <$> Measure.directions_with_displacements marked_measure) /\
    Forall moves_forth displaced.
Proof.
  apply (displaced_directions_positions marked_measure).
  - reflexivity.
  - vm_compute. repeat constructor.
  - repeat constructor; [exists 128 | exists 384];
      (split; [lia | reflexivity]).
Defined.

(** The marked measure at 2 divisions: the half note ends at 4, the
    directions stand at 1 and at 3. *)
Example marked_measure_kinds :
  rendered_kinds marked_measure
  = Some (Ok [KAttributes 2; KNote 2; KNote 2; KBackup 4; KNote 4;
              KBackup 3; KDirection; KForward 2; KDirection]).
Proof. vm_compute. reflexivity. Qed.
